(** * ROB: zone generation, enemy behaviour, zone lifecycle and runtime guard

    A shallow embedding of the procedural core of the game
    (runtime/world/MapGenerator.js, runtime/Enemies.js, runtime/world/World.js
    and runtime/Invariants.js), of the DOM guards (runtime/Contracts.js) and
    of the pause overlay (PauseUI.js), together with the properties
    stated about them.

    Conventions.
    - JavaScript numbers are idealised as rationals ([Q]); settings that
      count things (caps, sizes, integer ranges) are integers ([Z]).
    - An absent property ([undefined]) is [None]; the two defaulting idioms
      of the source, [v || d] and [typeof v === 'number' ? v : d], are
      [orDefault] and [numberOr].
    - The platform functions [Math.hypot], [Math.cos], [Math.sin] and
      the constant [Math.PI] are parameters ([JSMath]);
      the seeded generator class is a parameter as well ([SeededRandom]).
    - Code that draws from the seeded generator is written in the state
      monad [Gen] over the generator's state. *)

From Stdlib Require Import QArith Qround Lqa Lia ZArith List Bool.
From stdpp Require Import base gmap strings list pretty.

Local Open Scope Q_scope.

(** ** JavaScript helpers *)

Definition Qleb (a b : Q) : bool := Qle_bool a b.
Definition Qltb (a b : Q) : bool := negb (Qle_bool b a).
Definition Qmin (a b : Q) : Q := if Qltb b a then b else a.
Definition Qmax (a b : Q) : Q := if Qltb a b then b else a.
Definition floorQ (a : Q) : Q := inject_Z (Qfloor a).

(** [v || d] on an optional number: [undefined] and [0] are falsy. *)
Definition orDefault (v : option Q) (d : Q) : Q :=
  match v with
  | Some q => if Qeq_bool q 0 then d else q
  | None => d
  end.

(** [typeof v === 'number' ? v : d]. *)
Definition numberOr {A : Type} (v : option A) (d : A) : A :=
  match v with Some q => q | None => d end.

(** [v || d] on an optional integer. *)
Definition orDefaultZ (v : option Z) (d : Z) : Z :=
  match v with
  | Some z => if (z =? 0)%Z then d else z
  | None => d
  end.

(** Truthiness of an optional string: [undefined], [null] and [''] are falsy. *)
Definition truthyStr (s : option string) : bool :=
  match s with
  | Some s' => negb (String.eqb s' "")
  | None => false
  end.

Definition strOr (s : option string) (d : string) : string :=
  match s with
  | Some s' => if String.eqb s' "" then d else s'
  | None => d
  end.

(** The 32-bit integer conversions behind the bitwise operators:
    [v >>> 0] is [toUint32 v]; [a ^ b] and [Math.imul(a, b)] work on the
    operands modulo [2^32] and give a signed result. *)
Definition toUint32 (v : Z) : Z := (v mod 2 ^ 32)%Z.

Definition toInt32 (v : Z) : Z :=
  let u := toUint32 v in
  if (u <? 2 ^ 31)%Z then u else (u - 2 ^ 32)%Z.

Definition xor32 (a b : Z) : Z := Z.lxor (toInt32 a) (toInt32 b).

Definition imul (a b : Z) : Z := toInt32 (toUint32 a * toUint32 b).

(** [arr.slice(k)] for an integer [k]: a negative [k] counts from the
    end. *)
Definition sliceFrom {A : Type} (k : Z) (arr : list A) : list A :=
  if (k <? 0)%Z then drop (length arr - Z.to_nat (- k)) arr
  else drop (Z.to_nat k) arr.

(** [arr.slice(0, k)] for an integer [k]. *)
Definition sliceTo {A : Type} (k : Z) (arr : list A) : list A :=
  if (k <? 0)%Z then take (length arr - Z.to_nat (- k)) arr
  else take (Z.to_nat k) arr.

(** ** Platform and generator interfaces *)

(** The [Math] members the sources call. *)
Class JSMath := {
  Math_PI : Q;
  Math_cos : Q -> Q;
  Math_sin : Q -> Q;
  Math_hypot : Q -> Q -> Q
}.

(** Modelled from the spec: runtime/world/SeededRandom.js is not among the
    sources.  Section 4.1 gives its contract: built from a 32-bit seed, it
    exposes [range(min,max)], [int(min,max)] (inclusive), [pick(list)] and
    [chance(p)].  [rng_index n] is the index [pick] draws in a list of
    length [n]. *)
Class SeededRandom := {
  rng : Type;
  rng_new : Z -> rng;
  rng_range : Q -> Q -> rng -> Q * rng;
  rng_int : Z -> Z -> rng -> Z * rng;
  rng_index : nat -> rng -> nat * rng;
  rng_chance : Q -> rng -> bool * rng
}.

(** The state monad of code that threads the generator. *)
Definition Gen {R : SeededRandom} (A : Type) : Type := rng -> A * rng.

Definition ret {R : SeededRandom} {A : Type} (a : A) : Gen A :=
  fun r => (a, r).

Definition bind {R : SeededRandom} {A B : Type}
    (c : Gen A) (k : A -> Gen B) : Gen B :=
  fun r => let (a, r') := c r in k a r'.

Declare Scope gen_scope.
Delimit Scope gen_scope with gen.
Notation "'let*' x ':=' c 'in' k" := (bind c (fun x => k))
  (at level 10, x pattern, c at level 200, k at level 200, only parsing)
  : gen_scope.
Local Open Scope gen_scope.

Definition range {R : SeededRandom} (lo hi : Q) : Gen Q := rng_range lo hi.
Definition int {R : SeededRandom} (lo hi : Z) : Gen Z := rng_int lo hi.
Definition chance {R : SeededRandom} (p : Q) : Gen bool := rng_chance p.

(** [rng.pick(arr)]: [undefined] on an empty array. *)
Definition pick {R : SeededRandom} {A : Type} (l : list A) : Gen (option A) :=
  fun r => let (i, r') := rng_index (length l) r in (l !! i, r').

(** [for (let i = 0; i < n; i++) out.push(body(i))]. *)
Fixpoint pushLoop {R : SeededRandom} {A : Type}
    (n : nat) (i : nat) (body : nat -> Gen A) : Gen (list A) :=
  match n with
  | O => ret []
  | S n' =>
      let* a := body i in
      let* rest := pushLoop n' (S i) body in
      ret (a :: rest)
  end.

(** ** Shared data model *)

Record Point := mkPoint { pt_x : Q; pt_y : Q }.

(** A spawn descriptor.  Regular descriptors carry a patrol profile, elite
    ones do not; [packId] is set on pack members only; [enemyId] is written
    by the zone lifecycle while the descriptor is active. *)
Record Spawn := mkSpawn {
  sp_x : Q;
  sp_y : Q;
  sp_type : option string;
  sp_patrol : option string;
  sp_patrolRadius : option Z;
  sp_active : bool;
  sp_killed : bool;
  sp_packId : option string;
  sp_enemyId : option string
}.

(** [State.data.config.exploration]: every key is optional. *)
Record Tuning := mkTuning {
  enemyDensityMult : option Q;
  eliteDensityMult : option Q;
  mapScale : option Q;
  maxEnemySpawnsPerZone : option Z;
  maxEliteSpawnsPerZone : option Z;
  maxObstaclesPerZone : option Z;
  maxDecorationsPerZone : option Z;
  maxStarsBackground : option Q;
  maxStarsMidground : option Q;
  enemySpawnMinDistFromSpawn : option Q;
  enemySpawnMinDistFromExit : option Q;
  enemySpawnMinDistBetween : option Q;
  spawnViewMargin : option Q;
  despawnViewMargin : option Q;
  enemyAggroRangeMult : option Q
}.

Definition noTuning : Tuning :=
  mkTuning None None None None None None None None None None None None
           None None None.

(** One entry of a template's [members] array. *)
Record PackMember := mkPackMember {
  pm_type : option string;
  pm_min : option Z;
  pm_max : option Z
}.

Record PackTemplate := mkPackTemplate {
  tpl_id : option string;
  tpl_weight : option Q;
  tpl_members : option (list PackMember);
  tpl_types : option (list string)
}.

(** [State.data.packs] (data/packs.json). *)
Record PacksData := mkPacksData {
  templates : option (list PackTemplate);
  packChance : option Q;
  packSizeMin : option Z;
  packSizeMax : option Z;
  maxPacksPerZone : option Z;
  memberSpacing : option Q;
  packMinDistFromSpawn : option Q;
  packMinDistFromExit : option Q
}.

(** The part of [State.data] the generator reads. *)
Record StateData := mkStateData {
  exploration : option Tuning;
  packs : option PacksData
}.

Definition tuningOf (d : StateData) : Tuning :=
  match exploration d with Some t => t | None => noTuning end.

(** ** MapGenerator.js *)

Module MapGenerator.

(** A dimension setting: a two-element array, a number, or absent. *)
Inductive RangeSpec :=
| RangeArr (lo hi : Z)
| RangeNum (v : Q)
| RangeNone.

Record GenerationCfg := mkGenerationCfg {
  cfg_width : RangeSpec;
  cfg_height : RangeSpec;
  cfg_enemyDensity : option Q;
  cfg_eliteDensity : option Q;
  cfg_obstacleDensity : option Q
}.

Definition noGeneration : GenerationCfg :=
  mkGenerationCfg RangeNone RangeNone None None None.

Record NebulaCfg := mkNebulaCfg {
  neb_enabled : bool;
  neb_count : option Z;
  neb_color : option string
}.

Record ParallaxCfg := mkParallaxCfg {
  par_bgColor : option string;
  par_nebula : option NebulaCfg
}.

Record EnemiesCfg := mkEnemiesCfg {
  en_pool : option (list string);
  en_elitePool : option (list string)
}.

Record ActConfig := mkActConfig {
  act_generation : option GenerationCfg;
  act_biome : option string;
  act_enemies : option EnemiesCfg;
  act_parallax : option ParallaxCfg
}.

Record Options := mkOptions {
  opt_depth : option Z;
  opt_mods : option (list string)
}.

Record Obstacle := mkObstacle {
  ob_x : Q;
  ob_y : Q;
  ob_type : option string;
  ob_radius : Z;
  ob_rotation : Q;
  ob_destructible : bool;
  ob_hp : Z;
  ob_damage : Z
}.

Record Decoration := mkDecoration {
  dec_x : Q;
  dec_y : Q;
  dec_type : option string;
  dec_scale : Q;
  dec_rotation : Q;
  dec_alpha : Q
}.

Record Star := mkStar {
  star_x : Q;
  star_y : Q;
  star_size : Q;
  star_brightness : Q;
  star_twinkle : bool
}.

Record Wisp := mkWisp {
  wisp_x : Q;
  wisp_y : Q;
  wisp_width : Q;
  wisp_height : Q;
  wisp_color : string;
  wisp_alpha : Q;
  wisp_rotation : Q
}.

Record Parallax := mkParallax {
  bg_color : string;
  bg_stars : list Star;
  mid_stars : list Star;
  fg_objects : list Wisp
}.

Record Zone := mkZone {
  seed : Z;
  width : Q;
  height : Q;
  biome : string;
  spawn : Point;
  exit : option Point;
  enemySpawns : list Spawn;
  eliteSpawns : list Spawn;
  bossSpawn : option Spawn;
  obstacles : list Obstacle;
  decorations : list Decoration;
  parallax : Parallax
}.

Section WithPlatform.
Context {R : SeededRandom} {M : JSMath}.

(** [modSet.has(name)] for [modSet = new Set(mods)]. *)
Definition hasMod (mods : list string) (name : string) : bool :=
  bool_decide (name ∈ mods).

Definition margin : Q := 100.

(** Lines 202-216. *)
Definition generateSpawnPoint (w h : Q) : Gen Point :=
  let* edge := pick ["bottom"; "left"; "right"]%string in
  match edge with
  | Some "bottom"%string =>
      let* x := range margin (w - margin) in
      ret (mkPoint x (h - margin))
  | Some "left"%string =>
      let* y := range margin (h - margin) in
      ret (mkPoint margin y)
  | Some "right"%string =>
      let* y := range margin (h - margin) in
      ret (mkPoint (w - margin) y)
  | _ => ret (mkPoint (w / 2) (h - margin))
  end.

(** Lines 219-232. *)
Definition generateExitPoint (spawn : Point) (w h : Q) : Gen Point :=
  if Qltb (h / 2) (pt_y spawn) then
    let* x := range margin (w - margin) in
    ret (mkPoint x margin)
  else if Qltb (pt_x spawn) (w / 2) then
    let* y := range margin (h - margin) in
    ret (mkPoint (w - margin) y)
  else
    let* y := range margin (h - margin) in
    ret (mkPoint margin y).

(** [Math.max(0, Math.min(countRaw, maxSpawns))], line 242. *)
Definition enemyCount (t : Tuning) (w h density : Q) : Z :=
  let maxSpawns := numberOr (maxEnemySpawnsPerZone t) 120%Z in
  let countRaw := Qfloor (w * h * density) in
  Z.max 0 (Z.min countRaw maxSpawns).

(** The loop of lines 248-278; [fuel] counts the remaining values of [i]. *)
Fixpoint enemySpawnLoop (fuel : nat) (count : Z) (pool : list string)
    (minDistFromSpawn minDistFromExit minDistBetween w h : Q)
    (spawn exit : Point) (spawns : list Spawn) : Gen (list Spawn) :=
  match fuel with
  | O => ret spawns
  | S fuel' =>
      let continue := enemySpawnLoop fuel' count pool minDistFromSpawn
                        minDistFromExit minDistBetween w h spawn exit in
      if (Z.of_nat (length spawns) <? count)%Z then
        let* x := range 100 (w - 100) in
        let* y := range 100 (h - 100) in
        let distSpawn := Math_hypot (x - pt_x spawn) (y - pt_y spawn) in
        let distExit := Math_hypot (x - pt_x exit) (y - pt_y exit) in
        if Qltb distSpawn minDistFromSpawn then continue spawns
        else if Qltb distExit minDistFromExit then continue spawns
        else if existsb (fun s => Qltb (Math_hypot (x - sp_x s) (y - sp_y s))
                                       minDistBetween) spawns
        then continue spawns
        else
          let* type := pick pool in
          let* patrol := pick ["static"; "circle"; "line"; "wander"]%string in
          let* patrolRadius := int 50 150 in
          continue (spawns ++ [mkSpawn x y type patrol (Some patrolRadius)
                                       false false None None])
      else ret spawns
  end.

(** Lines 235-281. *)
Definition generateEnemySpawns (t : Tuning) (pool : list string)
    (density w h : Q) (spawn exit : Point) : Gen (list Spawn) :=
  let count := enemyCount t w h density in
  let minDistFromSpawn := numberOr (enemySpawnMinDistFromSpawn t) 300 in
  let minDistFromExit := numberOr (enemySpawnMinDistFromExit t) 200 in
  let minDistBetween := numberOr (enemySpawnMinDistBetween t) 150 in
  enemySpawnLoop (Z.to_nat (count * 3)) count pool minDistFromSpawn
    minDistFromExit minDistBetween w h spawn exit [].

(** *** Pack director (lines 292-415) *)

Definition weightOf (t : PackTemplate) : Q := numberOr (tpl_weight t) 1.

(** [tmp = idx[i]; idx[i] = idx[j]; idx[j] = tmp].  [j] is drawn by
    [rng.int(0, i)], hence in range for a generator that keeps its bounds;
    outside them the model leaves the array alone. *)
Definition swap (idx : list nat) (i j : nat) : list nat :=
  match idx !! i, idx !! j with
  | Some a, Some b => <[j := a]> (<[i := b]> idx)
  | _, _ => idx
  end.

(** Lines 311-316: [for (let i = idx.length - 1; i > 0; i--)]. *)
Fixpoint shuffleLoop (i : nat) (idx : list nat) : Gen (list nat) :=
  match i with
  | O => ret idx
  | S i' =>
      let* j := int 0 (Z.of_nat i) in
      if (j <? 0)%Z then shuffleLoop i' idx
      else shuffleLoop i' (swap idx i (Z.to_nat j))
  end.

(** The second loop of [pickTemplate], lines 324-327. *)
Fixpoint pickTemplateLoop (ts : list PackTemplate) (r : Q)
    : option PackTemplate :=
  match ts with
  | [] => None
  | t :: ts' =>
      let r' := r - weightOf t in
      if Qleb r' 0 then Some t else pickTemplateLoop ts' r'
  end.

(** Lines 319-329, for the non-empty template list [t0 :: ts]. *)
Definition pickTemplate (t0 : PackTemplate) (ts : list PackTemplate)
    : Gen PackTemplate :=
  let total := fold_left (fun acc t => acc + weightOf t) (t0 :: ts) 0 in
  let* r := range 0 total in
  ret (match pickTemplateLoop (t0 :: ts) r with
       | Some t => t
       | None => t0
       end).

(** Lines 331-335. *)
Definition validAnchor (minDistFromSpawn minDistFromExit : Q)
    (spawnPt exitPt : Point) (p : Spawn) : bool :=
  let ds := Math_hypot (sp_x p - pt_x spawnPt) (sp_y p - pt_y spawnPt) in
  let de := Math_hypot (sp_x p - pt_x exitPt) (sp_y p - pt_y exitPt) in
  Qleb minDistFromSpawn ds && Qleb minDistFromExit de.

(** Lines 355-360: the member types of an explicit composition. *)
Fixpoint buildMemberTypes (ms : list PackMember)
    : Gen (list (option string)) :=
  match ms with
  | [] => ret []
  | mm :: ms' =>
      let mi := numberOr (pm_min mm) 1%Z in
      let ma := numberOr (pm_max mm) mi in
      let* cnt := int mi ma in
      let* rest := buildMemberTypes ms' in
      ret (replicate (Z.to_nat cnt) (pm_type mm) ++ rest)
  end.

(** Lines 352-363. *)
Definition memberTypesOf (tpl : PackTemplate)
    : Gen (option (list (option string))) :=
  match tpl_members tpl with
  | Some (mm :: ms) =>
      let* mt := buildMemberTypes (mm :: ms) in
      ret (if (length mt <? 1)%nat then None else Some mt)
  | _ => ret None
  end.

(** Lines 368-375: marks the anchor's budget in [used]; [rest] is the part
    of the shuffled order after the anchor and [consumed] the number of
    descriptors taken so far. *)
Fixpoint consume (rest : list nat) (size consumed : Z) (used : gset nat)
    : gset nat :=
  match rest with
  | [] => used
  | j :: rest' =>
      if (consumed <? size)%Z then
        if bool_decide (j ∈ used) then consume rest' size consumed used
        else consume rest' size (consumed + 1)%Z ({[ j ]} ∪ used)
      else used
  end.

(** Lines 379-402: member number [m] of a pack. *)
Definition packMember (anchor : Spawn) (tpl : PackTemplate)
    (memberTypes : option (list (option string))) (size : Z)
    (pool : list string) (spacing : Q) (m : nat) : Gen Spawn :=
  let* angle := range 0 (Math_PI * 2) in
  let* dist := range 30 spacing in
  let px := sp_x anchor + Math_cos angle * dist in
  let py := sp_y anchor + Math_sin angle * dist in
  let fromTypes : Gen (option string) :=
    match tpl_types tpl with
    | Some (ty :: tys) => let* t := pick (ty :: tys) in ret t
    | _ => ret None
    end in
  let* type0 :=
    match memberTypes with
    | Some mt =>
        if (Z.of_nat (length mt) =? size)%Z
        then ret (match mt !! m with Some t => t | None => None end)
        else fromTypes
    | None => fromTypes
    end in
  let* type := if truthyStr type0 then ret type0 else pick pool in
  ret (mkSpawn px py type (sp_patrol anchor) (sp_patrolRadius anchor)
               false false (Some (strOr (tpl_id tpl) "pack")) None).

Record PackAcc := mkPackAcc {
  pk_used : gset nat;
  pk_out : list Spawn;
  pk_made : Z
}.

(** Lines 341-406; [order] is the part of the shuffled index array from
    position [k] on. *)
Fixpoint packLoop (t0 : PackTemplate) (ts : list PackTemplate)
    (packChance : Q) (minSize maxSize maxPacksPerZone : Z)
    (spacing minDistFromSpawn minDistFromExit : Q)
    (spawns : list Spawn) (pool : list string) (spawnPt exitPt : Point)
    (order : list nat) (acc : PackAcc) : Gen PackAcc :=
  match order with
  | [] => ret acc
  | i :: rest =>
      let continue := packLoop t0 ts packChance minSize maxSize
                        maxPacksPerZone spacing minDistFromSpawn
                        minDistFromExit spawns pool spawnPt exitPt rest in
      if (pk_made acc <? maxPacksPerZone)%Z then
        if bool_decide (i ∈ pk_used acc) then continue acc
        else
          match spawns !! i with
          | None => continue acc
          | Some anchor =>
              if negb (validAnchor minDistFromSpawn minDistFromExit
                         spawnPt exitPt anchor)
              then continue acc
              else
                let* c := range 0 1 in
                if Qltb packChance c then continue acc
                else
                  let* tpl := pickTemplate t0 ts in
                  let* memberTypes := memberTypesOf tpl in
                  let* size :=
                    match memberTypes with
                    | Some mt => ret (Z.of_nat (length mt))
                    | None => int minSize maxSize
                    end in
                  let used := consume rest size 1 ({[ i ]} ∪ pk_used acc) in
                  let* members :=
                    pushLoop (Z.to_nat size) 0
                      (packMember anchor tpl memberTypes size pool spacing) in
                  continue (mkPackAcc used (pk_out acc ++ members)
                                      (pk_made acc + 1)%Z)
          end
      else ret acc
  end.

(** Lines 409-412: the descriptors no pack consumed, in their order. *)
Fixpoint singles (i : nat) (spawns : list Spawn) (used : gset nat)
    : list Spawn :=
  match spawns with
  | [] => []
  | s :: spawns' =>
      if bool_decide (i ∈ used) then singles (S i) spawns' used
      else s :: singles (S i) spawns' used
  end.

Definition applyPackDirector (data : StateData) (spawns : list Spawn)
    (pool : list string) (spawnPt exitPt : Point) : Gen (list Spawn) :=
  match packs data with
  | None => ret spawns
  | Some packsData =>
      match templates packsData with
      | None | Some [] => ret spawns
      | Some (t0 :: ts) =>
          let packChance := numberOr (packChance packsData) 0.7 in
          let minSize := numberOr (packSizeMin packsData) 3%Z in
          let maxSize := numberOr (packSizeMax packsData) 5%Z in
          let maxPacksPerZone := numberOr (maxPacksPerZone packsData) 6%Z in
          let spacing := numberOr (memberSpacing packsData) 120 in
          let minDistFromSpawn :=
            numberOr (packMinDistFromSpawn packsData) 350 in
          let minDistFromExit :=
            numberOr (packMinDistFromExit packsData) 250 in
          if (Z.of_nat (length spawns) <? minSize)%Z then ret spawns
          else
            let* idx := shuffleLoop (length spawns - 1)
                                    (seq 0 (length spawns)) in
            let* acc := packLoop t0 ts packChance minSize maxSize
                          maxPacksPerZone spacing minDistFromSpawn
                          minDistFromExit spawns pool spawnPt exitPt idx
                          (mkPackAcc ∅ [] 0%Z) in
            ret (pk_out acc ++ singles 0 spawns (pk_used acc))
      end
  end.

(** *** Elites, obstacles, decorations, parallax *)

(** [Math.max(1, Math.min(countRaw, maxElites))], line 423. *)
Definition eliteCount (t : Tuning) (w h density : Q) : Z :=
  let maxElites := numberOr (maxEliteSpawnsPerZone t) 8%Z in
  let countRaw := Qfloor (w * h * density) in
  Z.max 1 (Z.min countRaw maxElites).

(** Lines 418-436. *)
Definition generateEliteSpawns (t : Tuning) (pool : list string)
    (density w h : Q) : Gen (list Spawn) :=
  pushLoop (Z.to_nat (eliteCount t w h density)) 0 (fun _ =>
    let* x := range 200 (w - 200) in
    let* y := range 200 (h - 200) in
    let* type := pick pool in
    ret (mkSpawn x y type None None false false None None)).

(** [Math.min(countRaw, maxObs)], line 448. *)
Definition obstacleCount (t : Tuning) (w h density : Q) : Z :=
  let maxObs := numberOr (maxObstaclesPerZone t) 2500%Z in
  Z.min (Qfloor (w * h * density)) maxObs.

(** Lines 439-466. *)
Definition generateObstacles (t : Tuning) (density w h : Q)
    (optDepth : option Z) (optMods : option (list string))
    : Gen (list Obstacle) :=
  let depth := orDefaultZ optDepth 1 in
  let mods := numberOr optMods [] in
  pushLoop (Z.to_nat (obstacleCount t w h density)) 0 (fun _ =>
    let typePool :=
      if hasMod mods "MINEFIELD"
      then ["asteroid"; "debris"; "mine"; "mine"]%string
      else ["asteroid"; "debris"]%string in
    let* type := pick typePool in
    let isA := bool_decide (type = Some "asteroid"%string) in
    let isM := bool_decide (type = Some "mine"%string) in
    let* x := range 100 (w - 100) in
    let* y := range 100 (h - 100) in
    let* radius := if isA then int 30 80 else int 15 30 in
    let* rotation := range 0 (Math_PI * 2) in
    let* hp := if isA then int 25 60
               else ret (if isM then 6%Z else 12%Z) in
    let damage :=
      if isM then (8 + Qfloor (inject_Z depth * 0.25))%Z else 0%Z in
    ret (mkObstacle x y type radius rotation true hp damage)).

(** [Math.min(countRaw, maxDec)], line 495. *)
Definition decorationCount (t : Tuning) (w h : Q) : Z :=
  let maxDec := numberOr (maxDecorationsPerZone t) 6000%Z in
  Z.min (Qfloor (w * h * 0.001)) maxDec.

(** [types[biome] || types['space']], lines 497-503. *)
Definition decorationPool (biome : option string) : list string :=
  match biome with
  | Some "asteroid"%string => ["rock_small"; "crystal"; "ice_chunk"]%string
  | Some "station"%string => ["debris"; "panel"; "wire"]%string
  | _ => ["star_cluster"; "nebula_wisp"; "dust_cloud"]%string
  end.

(** Lines 490-517. *)
Definition generateDecorations (t : Tuning) (biome : option string)
    (w h : Q) : Gen (list Decoration) :=
  let pool := decorationPool biome in
  pushLoop (Z.to_nat (decorationCount t w h)) 0 (fun _ =>
    let* x := range 0 w in
    let* y := range 0 h in
    let* type := pick pool in
    let* scale := range 0.5 1.5 in
    let* rotation := range 0 (Math_PI * 2) in
    let* alpha := range 0.3 0.7 in
    ret (mkDecoration x y type scale rotation alpha)).

(** Lines 551-569; [maxCount] is always passed by [generateParallax]. *)
Definition generateStarfield (w h density : Q) (maxCount : Q)
    : Gen (list Star) :=
  let countRaw := Qfloor (w * h * density) in
  let cap := if Qltb 0 maxCount then Some (Qfloor maxCount) else None in
  let count :=
    match cap with
    | Some c => if (c =? 0)%Z then countRaw else Z.min countRaw c
    | None => countRaw
    end in
  pushLoop (Z.to_nat count) 0 (fun _ =>
    let* x := range 0 w in
    let* y := range 0 h in
    let* size := range 0.5 2 in
    let* brightness := range 0.3 1 in
    let* twinkle := chance 0.3 in
    ret (mkStar x y size brightness twinkle)).

(** Lines 572-592. *)
Definition generateNebulaWisps (w h : Q) (nebulaConfig : option NebulaCfg)
    : Gen (list Wisp) :=
  match nebulaConfig with
  | None => ret []
  | Some nc =>
      if negb (neb_enabled nc) then ret []
      else
        let* count :=
          match neb_count nc with
          | Some c => if (c =? 0)%Z then int 3 8 else ret c
          | None => int 3 8
          end in
        let color := strOr (neb_color nc) "#4400aa" in
        pushLoop (Z.to_nat count) 0 (fun _ =>
          let* x := range 0 w in
          let* y := range 0 h in
          let* width := range 200 500 in
          let* height := range 100 300 in
          let* alpha := range 0.05 0.15 in
          let* rotation := range 0 (Math_PI * 2) in
          ret (mkWisp x y width height color alpha rotation))
  end.

(** Lines 520-548. *)
Definition generateParallax (t : Tuning) (actConfig : ActConfig)
    (w h : Q) : Gen Parallax :=
  let cfg := act_parallax actConfig in
  let maxBgStars := numberOr (maxStarsBackground t) 1800 in
  let maxMidStars := numberOr (maxStarsMidground t) 1200 in
  let* bg := generateStarfield (w * 1.5) (h * 1.5) 0.0003 maxBgStars in
  let* mid := generateStarfield (w * 1.3) (h * 1.3) 0.0002 maxMidStars in
  let* fg := generateNebulaWisps w h
               (match cfg with Some c => par_nebula c | None => None end) in
  ret (mkParallax
         (strOr (match cfg with Some c => par_bgColor c | None => None end)
                "#0a0a15")
         bg mid fg).

(** *** [generate] (lines 16-162) *)

(** [pickRange], lines 19-23. *)
Definition pickRange (v : RangeSpec) (fallbackMin fallbackMax : Z) : Gen Q :=
  match v with
  | RangeArr lo hi => let* n := int lo hi in ret (inject_Z n)
  | RangeNum q => ret q
  | RangeNone => let* n := int fallbackMin fallbackMax in ret (inject_Z n)
  end.

Definition scale (v mult : Q) : Q := v * mult.

(** Lines 34-55: the three densities after depth ramp, modifiers and
    tuning. *)
Definition densities (t : Tuning) (cfg : GenerationCfg) (depth : Z)
    (mods : list string) : Q * Q * Q :=
  let d := inject_Z depth in
  let depthEnemyMult := 1 + Qmin (d * 0.012) 1.6 in
  let depthEliteMult := 1 + Qmin (d * 0.010) 1.2 in
  let depthObsMult := 1 + Qmin (d * 0.008) 1.0 in
  let enemyDensity := orDefault (cfg_enemyDensity cfg) 0.0005 * depthEnemyMult in
  let eliteDensity := orDefault (cfg_eliteDensity cfg) 0.00008 * depthEliteMult in
  let obstacleDensity :=
    orDefault (cfg_obstacleDensity cfg) 0.0002 * depthObsMult in
  let enemyDensity :=
    if hasMod mods "BULLET_HELL" then scale enemyDensity 1.35
    else enemyDensity in
  let eliteDensity :=
    if hasMod mods "ELITE_PACKS" then scale eliteDensity 1.55
    else eliteDensity in
  let enemyDensity :=
    if hasMod mods "FAST_ENEMIES" then scale enemyDensity 1.10
    else enemyDensity in
  let obstacleDensity :=
    if hasMod mods "DENSE_OBSTACLES" then scale obstacleDensity 1.35
    else obstacleDensity in
  let obstacleDensity :=
    if hasMod mods "MINEFIELD" then scale obstacleDensity 1.15
    else obstacleDensity in
  let enemyDensity :=
    match enemyDensityMult t with
    | Some m => enemyDensity * m
    | None => enemyDensity
    end in
  let eliteDensity :=
    match eliteDensityMult t with
    | Some m => eliteDensity * m
    | None => eliteDensity
    end in
  (enemyDensity, eliteDensity, obstacleDensity).

(** Lines 58-71: the zone dimensions. *)
Definition dimensions (t : Tuning) (cfg : GenerationCfg)
    (mods : list string) : Gen (Q * Q) :=
  let crampedMult : Q := if hasMod mods "CRAMPED_ZONE" then 0.85 else 1.0 in
  let* width := pickRange (cfg_width cfg) 1500 3000 in
  let* height := pickRange (cfg_height cfg) 1500 3000 in
  let '(width, height) :=
    if negb (Qeq_bool crampedMult 1.0)
    then (floorQ (width * crampedMult), floorQ (height * crampedMult))
    else (width, height) in
  let mapScale : Q :=
    match mapScale t with
    | Some m => if Qltb 0 m then m else 1.0
    | None => 1.0
    end in
  ret (if negb (Qeq_bool mapScale 1.0)
       then (Qmax 600 (floorQ (width * mapScale)),
             Qmax 600 (floorQ (height * mapScale)))
       else (width, height)).

Definition enemyPool (actConfig : ActConfig) : list string :=
  match act_enemies actConfig with
  | Some e => numberOr (en_pool e) ["grunt"%string]
  | None => ["grunt"%string]
  end.

Definition elitePool (actConfig : ActConfig) : list string :=
  match act_enemies actConfig with
  | Some e => numberOr (en_elitePool e) ["commander"%string]
  | None => ["commander"%string]
  end.

(** The body of [generate] after [new SeededRandom(zoneSeed)]. *)
Definition generateWith (data : StateData) (actConfig : ActConfig)
    (zoneSeed : Z) (options : Options) : Gen Zone :=
  let cfg := numberOr (act_generation actConfig) noGeneration in
  let depth := orDefaultZ (opt_depth options) 1 in
  let mods := numberOr (opt_mods options) [] in
  let '(enemyDensity, eliteDensity, obstacleDensity) :=
    densities (tuningOf data) cfg depth mods in
  let tune := tuningOf data in
  let* (width, height) := dimensions tune cfg mods in
  let* spawn := generateSpawnPoint width height in
  let* parallax := generateParallax tune actConfig width height in
  let* exit := generateExitPoint spawn width height in
  let* enemySpawns :=
    generateEnemySpawns tune (enemyPool actConfig) enemyDensity
      width height spawn exit in
  let* enemySpawns :=
    applyPackDirector data enemySpawns (enemyPool actConfig) spawn exit in
  let* eliteSpawns :=
    generateEliteSpawns tune (elitePool actConfig) eliteDensity
      width height in
  let* obstacles :=
    generateObstacles tune obstacleDensity width height
      (Some depth) (Some mods) in
  let* decorations :=
    generateDecorations tune (act_biome actConfig) width height in
  ret (mkZone zoneSeed width height (strOr (act_biome actConfig) "space")
              spawn (Some exit) enemySpawns eliteSpawns None
              obstacles decorations parallax).

Definition generate (data : StateData) (actConfig : ActConfig)
    (zoneSeed : Z) (options : Options) : Zone :=
  fst (generateWith data actConfig zoneSeed options (rng_new zoneSeed)).

(** *** Zone seeds (lines 595-599) *)

(** [(a ^ Math.imul(z, 0x9E3779B9)) >>> 0] with [a = actSeed >>> 0] and
    [z = (zoneIndex + 1) >>> 0]. *)
Definition createZoneSeed (actSeed zoneIndex : Z) : Z :=
  let a := toUint32 actSeed in
  let z := toUint32 (zoneIndex + 1) in
  toUint32 (xor32 a (imul z 2654435769)).

End WithPlatform.
End MapGenerator.

(** ** Enemies.js: the data model *)

(** The behavioural state [aiState]. *)
Inductive AIState := Patrol | Aggro | Return.

Global Instance AIState_eq_dec : EqDecision AIState.
Proof. solve_decision. Defined.

(** [enemy.repair], set at spawn for entities with the [repairTether]
    ability. *)
Record RepairCfg := mkRepairCfg {
  rep_range : Q;
  healPctMaxHpPerSec : Q;
  capPctMaxHpPerSec : Q
}.

(** [enemy.spawnRef]: the descriptor an entity was spawned for, as its
    list ([true] for [eliteSpawns]) and index. *)
Definition SpawnRef : Type := bool * nat.

(** The fields of an enemy entity that the state machine, the support
    ability and the zone lifecycle read or write.  Fields that are filled
    in lazily are optional.  The bookkeeping of the patrol shapes
    ([patrolAngle], [patrolDir], [patrolTimer], [wanderTimer],
    [wanderTarget]) and of shooting ([shootTimer], [aim]) is not carried. *)
Record Enemy := mkEnemy {
  e_id : string;
  e_x : Q;
  e_y : Q;
  e_vx : Q;
  e_vy : Q;
  e_hp : Q;
  e_maxHP : Q;
  e_speed : Q;
  e_size : Q;
  e_isElite : bool;
  e_isBoss : bool;
  e_dead : bool;
  e_abilities : option (list string);
  e_homeX : option Q;
  e_homeY : option Q;
  e_aiState : option AIState;
  e_patrol : option string;
  e_patrolRadius : option Q;
  e_aggroRange : option Q;
  e_attackRange : option Q;
  e_disengageRange : option Q;
  e_leashRange : option Q;
  e_returnThreshold : option Q;
  e_repair : option RepairCfg;
  e_tetherTarget : option string;
  e_orbitT : Q;
  e_orbitRadius : Q;
  e_spawnRef : option SpawnRef
}.

Definition set_x (v : Q) (e : Enemy) : Enemy :=
  mkEnemy (e_id e) v (e_y e) (e_vx e) (e_vy e) (e_hp e) (e_maxHP e)
    (e_speed e) (e_size e) (e_isElite e) (e_isBoss e) (e_dead e)
    (e_abilities e) (e_homeX e) (e_homeY e) (e_aiState e) (e_patrol e)
    (e_patrolRadius e) (e_aggroRange e) (e_attackRange e)
    (e_disengageRange e) (e_leashRange e) (e_returnThreshold e) (e_repair
    e) (e_tetherTarget e) (e_orbitT e) (e_orbitRadius e) (e_spawnRef e).

Definition set_y (v : Q) (e : Enemy) : Enemy :=
  mkEnemy (e_id e) (e_x e) v (e_vx e) (e_vy e) (e_hp e) (e_maxHP e)
    (e_speed e) (e_size e) (e_isElite e) (e_isBoss e) (e_dead e)
    (e_abilities e) (e_homeX e) (e_homeY e) (e_aiState e) (e_patrol e)
    (e_patrolRadius e) (e_aggroRange e) (e_attackRange e)
    (e_disengageRange e) (e_leashRange e) (e_returnThreshold e) (e_repair
    e) (e_tetherTarget e) (e_orbitT e) (e_orbitRadius e) (e_spawnRef e).

Definition set_vx (v : Q) (e : Enemy) : Enemy :=
  mkEnemy (e_id e) (e_x e) (e_y e) v (e_vy e) (e_hp e) (e_maxHP e)
    (e_speed e) (e_size e) (e_isElite e) (e_isBoss e) (e_dead e)
    (e_abilities e) (e_homeX e) (e_homeY e) (e_aiState e) (e_patrol e)
    (e_patrolRadius e) (e_aggroRange e) (e_attackRange e)
    (e_disengageRange e) (e_leashRange e) (e_returnThreshold e) (e_repair
    e) (e_tetherTarget e) (e_orbitT e) (e_orbitRadius e) (e_spawnRef e).

Definition set_vy (v : Q) (e : Enemy) : Enemy :=
  mkEnemy (e_id e) (e_x e) (e_y e) (e_vx e) v (e_hp e) (e_maxHP e)
    (e_speed e) (e_size e) (e_isElite e) (e_isBoss e) (e_dead e)
    (e_abilities e) (e_homeX e) (e_homeY e) (e_aiState e) (e_patrol e)
    (e_patrolRadius e) (e_aggroRange e) (e_attackRange e)
    (e_disengageRange e) (e_leashRange e) (e_returnThreshold e) (e_repair
    e) (e_tetherTarget e) (e_orbitT e) (e_orbitRadius e) (e_spawnRef e).

Definition set_hp (v : Q) (e : Enemy) : Enemy :=
  mkEnemy (e_id e) (e_x e) (e_y e) (e_vx e) (e_vy e) v (e_maxHP e)
    (e_speed e) (e_size e) (e_isElite e) (e_isBoss e) (e_dead e)
    (e_abilities e) (e_homeX e) (e_homeY e) (e_aiState e) (e_patrol e)
    (e_patrolRadius e) (e_aggroRange e) (e_attackRange e)
    (e_disengageRange e) (e_leashRange e) (e_returnThreshold e) (e_repair
    e) (e_tetherTarget e) (e_orbitT e) (e_orbitRadius e) (e_spawnRef e).

Definition set_maxHP (v : Q) (e : Enemy) : Enemy :=
  mkEnemy (e_id e) (e_x e) (e_y e) (e_vx e) (e_vy e) (e_hp e) v (e_speed
    e) (e_size e) (e_isElite e) (e_isBoss e) (e_dead e) (e_abilities e)
    (e_homeX e) (e_homeY e) (e_aiState e) (e_patrol e) (e_patrolRadius e)
    (e_aggroRange e) (e_attackRange e) (e_disengageRange e) (e_leashRange
    e) (e_returnThreshold e) (e_repair e) (e_tetherTarget e) (e_orbitT e)
    (e_orbitRadius e) (e_spawnRef e).

Definition set_homeX (v : option Q) (e : Enemy) : Enemy :=
  mkEnemy (e_id e) (e_x e) (e_y e) (e_vx e) (e_vy e) (e_hp e) (e_maxHP e)
    (e_speed e) (e_size e) (e_isElite e) (e_isBoss e) (e_dead e)
    (e_abilities e) v (e_homeY e) (e_aiState e) (e_patrol e)
    (e_patrolRadius e) (e_aggroRange e) (e_attackRange e)
    (e_disengageRange e) (e_leashRange e) (e_returnThreshold e) (e_repair
    e) (e_tetherTarget e) (e_orbitT e) (e_orbitRadius e) (e_spawnRef e).

Definition set_homeY (v : option Q) (e : Enemy) : Enemy :=
  mkEnemy (e_id e) (e_x e) (e_y e) (e_vx e) (e_vy e) (e_hp e) (e_maxHP e)
    (e_speed e) (e_size e) (e_isElite e) (e_isBoss e) (e_dead e)
    (e_abilities e) (e_homeX e) v (e_aiState e) (e_patrol e)
    (e_patrolRadius e) (e_aggroRange e) (e_attackRange e)
    (e_disengageRange e) (e_leashRange e) (e_returnThreshold e) (e_repair
    e) (e_tetherTarget e) (e_orbitT e) (e_orbitRadius e) (e_spawnRef e).

Definition set_aiState (v : option AIState) (e : Enemy) : Enemy :=
  mkEnemy (e_id e) (e_x e) (e_y e) (e_vx e) (e_vy e) (e_hp e) (e_maxHP e)
    (e_speed e) (e_size e) (e_isElite e) (e_isBoss e) (e_dead e)
    (e_abilities e) (e_homeX e) (e_homeY e) v (e_patrol e) (e_patrolRadius
    e) (e_aggroRange e) (e_attackRange e) (e_disengageRange e)
    (e_leashRange e) (e_returnThreshold e) (e_repair e) (e_tetherTarget e)
    (e_orbitT e) (e_orbitRadius e) (e_spawnRef e).

Definition set_patrol (v : option string) (e : Enemy) : Enemy :=
  mkEnemy (e_id e) (e_x e) (e_y e) (e_vx e) (e_vy e) (e_hp e) (e_maxHP e)
    (e_speed e) (e_size e) (e_isElite e) (e_isBoss e) (e_dead e)
    (e_abilities e) (e_homeX e) (e_homeY e) (e_aiState e) v
    (e_patrolRadius e) (e_aggroRange e) (e_attackRange e)
    (e_disengageRange e) (e_leashRange e) (e_returnThreshold e) (e_repair
    e) (e_tetherTarget e) (e_orbitT e) (e_orbitRadius e) (e_spawnRef e).

Definition set_patrolRadius (v : option Q) (e : Enemy) : Enemy :=
  mkEnemy (e_id e) (e_x e) (e_y e) (e_vx e) (e_vy e) (e_hp e) (e_maxHP e)
    (e_speed e) (e_size e) (e_isElite e) (e_isBoss e) (e_dead e)
    (e_abilities e) (e_homeX e) (e_homeY e) (e_aiState e) (e_patrol e) v
    (e_aggroRange e) (e_attackRange e) (e_disengageRange e) (e_leashRange
    e) (e_returnThreshold e) (e_repair e) (e_tetherTarget e) (e_orbitT e)
    (e_orbitRadius e) (e_spawnRef e).

Definition set_aggroRange (v : option Q) (e : Enemy) : Enemy :=
  mkEnemy (e_id e) (e_x e) (e_y e) (e_vx e) (e_vy e) (e_hp e) (e_maxHP e)
    (e_speed e) (e_size e) (e_isElite e) (e_isBoss e) (e_dead e)
    (e_abilities e) (e_homeX e) (e_homeY e) (e_aiState e) (e_patrol e)
    (e_patrolRadius e) v (e_attackRange e) (e_disengageRange e)
    (e_leashRange e) (e_returnThreshold e) (e_repair e) (e_tetherTarget e)
    (e_orbitT e) (e_orbitRadius e) (e_spawnRef e).

Definition set_attackRange (v : option Q) (e : Enemy) : Enemy :=
  mkEnemy (e_id e) (e_x e) (e_y e) (e_vx e) (e_vy e) (e_hp e) (e_maxHP e)
    (e_speed e) (e_size e) (e_isElite e) (e_isBoss e) (e_dead e)
    (e_abilities e) (e_homeX e) (e_homeY e) (e_aiState e) (e_patrol e)
    (e_patrolRadius e) (e_aggroRange e) v (e_disengageRange e)
    (e_leashRange e) (e_returnThreshold e) (e_repair e) (e_tetherTarget e)
    (e_orbitT e) (e_orbitRadius e) (e_spawnRef e).

Definition set_disengageRange (v : option Q) (e : Enemy) : Enemy :=
  mkEnemy (e_id e) (e_x e) (e_y e) (e_vx e) (e_vy e) (e_hp e) (e_maxHP e)
    (e_speed e) (e_size e) (e_isElite e) (e_isBoss e) (e_dead e)
    (e_abilities e) (e_homeX e) (e_homeY e) (e_aiState e) (e_patrol e)
    (e_patrolRadius e) (e_aggroRange e) (e_attackRange e) v (e_leashRange
    e) (e_returnThreshold e) (e_repair e) (e_tetherTarget e) (e_orbitT e)
    (e_orbitRadius e) (e_spawnRef e).

Definition set_leashRange (v : option Q) (e : Enemy) : Enemy :=
  mkEnemy (e_id e) (e_x e) (e_y e) (e_vx e) (e_vy e) (e_hp e) (e_maxHP e)
    (e_speed e) (e_size e) (e_isElite e) (e_isBoss e) (e_dead e)
    (e_abilities e) (e_homeX e) (e_homeY e) (e_aiState e) (e_patrol e)
    (e_patrolRadius e) (e_aggroRange e) (e_attackRange e)
    (e_disengageRange e) v (e_returnThreshold e) (e_repair e)
    (e_tetherTarget e) (e_orbitT e) (e_orbitRadius e) (e_spawnRef e).

Definition set_returnThreshold (v : option Q) (e : Enemy) : Enemy :=
  mkEnemy (e_id e) (e_x e) (e_y e) (e_vx e) (e_vy e) (e_hp e) (e_maxHP e)
    (e_speed e) (e_size e) (e_isElite e) (e_isBoss e) (e_dead e)
    (e_abilities e) (e_homeX e) (e_homeY e) (e_aiState e) (e_patrol e)
    (e_patrolRadius e) (e_aggroRange e) (e_attackRange e)
    (e_disengageRange e) (e_leashRange e) v (e_repair e) (e_tetherTarget
    e) (e_orbitT e) (e_orbitRadius e) (e_spawnRef e).

Definition set_tetherTarget (v : option string) (e : Enemy) : Enemy :=
  mkEnemy (e_id e) (e_x e) (e_y e) (e_vx e) (e_vy e) (e_hp e) (e_maxHP e)
    (e_speed e) (e_size e) (e_isElite e) (e_isBoss e) (e_dead e)
    (e_abilities e) (e_homeX e) (e_homeY e) (e_aiState e) (e_patrol e)
    (e_patrolRadius e) (e_aggroRange e) (e_attackRange e)
    (e_disengageRange e) (e_leashRange e) (e_returnThreshold e) (e_repair
    e) v (e_orbitT e) (e_orbitRadius e) (e_spawnRef e).

Definition set_orbitT (v : Q) (e : Enemy) : Enemy :=
  mkEnemy (e_id e) (e_x e) (e_y e) (e_vx e) (e_vy e) (e_hp e) (e_maxHP e)
    (e_speed e) (e_size e) (e_isElite e) (e_isBoss e) (e_dead e)
    (e_abilities e) (e_homeX e) (e_homeY e) (e_aiState e) (e_patrol e)
    (e_patrolRadius e) (e_aggroRange e) (e_attackRange e)
    (e_disengageRange e) (e_leashRange e) (e_returnThreshold e) (e_repair
    e) (e_tetherTarget e) v (e_orbitRadius e) (e_spawnRef e).

Definition set_spawnRef (v : option SpawnRef) (e : Enemy) : Enemy :=
  mkEnemy (e_id e) (e_x e) (e_y e) (e_vx e) (e_vy e) (e_hp e) (e_maxHP e)
    (e_speed e) (e_size e) (e_isElite e) (e_isBoss e) (e_dead e)
    (e_abilities e) (e_homeX e) (e_homeY e) (e_aiState e) (e_patrol e)
    (e_patrolRadius e) (e_aggroRange e) (e_attackRange e)
    (e_disengageRange e) (e_leashRange e) (e_returnThreshold e) (e_repair
    e) (e_tetherTarget e) (e_orbitT e) (e_orbitRadius e) v.

Record Player := mkPlayer { pl_x : Q; pl_y : Q }.

(** ** Enemies.js: exploration behaviour *)

Module Enemies.
Section WithPlatform.
Context {M : JSMath}.

(** [e.abilities && e.abilities.includes(a)]. *)
Definition hasAbility (e : Enemy) (a : string) : bool :=
  match e_abilities e with
  | Some l => bool_decide (a ∈ l)
  | None => false
  end.

(** [!v] on an optional number. *)
Definition falsyQ (v : option Q) : bool :=
  match v with
  | Some q => Qeq_bool q 0
  | None => true
  end.

Definition valQ (v : option Q) : Q := numberOr v 0.

(** Lines 1280-1297, for the fields the model carries, one definition
    per statement. *)

(** [if (e.homeX == null || e.homeY == null) { ... }]. *)
Definition initHome (e : Enemy) : Enemy :=
  match e_homeX e, e_homeY e with
  | Some _, Some _ => e
  | _, _ => set_homeY (Some (e_y e)) (set_homeX (Some (e_x e)) e)
  end.

(** [if (!e.aiState) e.aiState = 'patrol']. *)
Definition initAiState (e : Enemy) : Enemy :=
  match e_aiState e with
  | Some _ => e
  | None => set_aiState (Some Patrol) e
  end.

(** [if (!e.patrol) e.patrol = 'circle']. *)
Definition initPatrol (e : Enemy) : Enemy :=
  if truthyStr (e_patrol e) then e else set_patrol (Some "circle"%string) e.

(** [if (!e.patrolRadius) e.patrolRadius = 120]. *)
Definition initPatrolRadius (e : Enemy) : Enemy :=
  if falsyQ (e_patrolRadius e) then set_patrolRadius (Some 120) e else e.

(** Lines 1290-1293. *)
Definition initAggroRange (aggroMult : Q) (e : Enemy) : Enemy :=
  if falsyQ (e_aggroRange e) then
    let baseAggro : Q :=
      if e_isBoss e then 550 else if e_isElite e then 420 else 340 in
    set_aggroRange (Some (baseAggro * aggroMult)) e
  else e.

(** [if (!e.attackRange) e.attackRange = e.aggroRange]. *)
Definition initAttackRange (e : Enemy) : Enemy :=
  if falsyQ (e_attackRange e) then set_attackRange (e_aggroRange e) e else e.

(** [if (!e.disengageRange) e.disengageRange = e.aggroRange * 1.65]. *)
Definition initDisengageRange (e : Enemy) : Enemy :=
  if falsyQ (e_disengageRange e)
  then set_disengageRange (Some (valQ (e_aggroRange e) * 1.65)) e
  else e.

(** Line 1296. *)
Definition initLeashRange (e : Enemy) : Enemy :=
  if falsyQ (e_leashRange e)
  then set_leashRange
         (Some (Qmax (valQ (e_aggroRange e) * 2.2)
                     (valQ (e_patrolRadius e) * 5))) e
  else e.

(** Line 1297. *)
Definition initReturnThreshold (e : Enemy) : Enemy :=
  if falsyQ (e_returnThreshold e)
  then set_returnThreshold (Some (Qmax 40 (e_size e * 1.2))) e
  else e.

Definition lazyInit (aggroMult : Q) (e : Enemy) : Enemy :=
  initReturnThreshold
    (initLeashRange
       (initDisengageRange
          (initAttackRange
             (initAggroRange aggroMult
                (initPatrolRadius
                   (initPatrol (initAiState (initHome e)))))))).

(** [a <= b] and [a > b] where either side may be [undefined]: both are
    [false] then. *)
Definition leOpt (a b : option Q) : bool :=
  match a, b with
  | Some a, Some b => Qleb a b
  | _, _ => false
  end.

Definition gtOpt (a b : option Q) : bool :=
  match a, b with
  | Some a, Some b => Qltb b a
  | _, _ => false
  end.

(** [distP], lines 1302-1304. *)
Definition distToPlayer (p : Player) (e : Enemy) : option Q :=
  Some (Math_hypot (pl_x p - e_x e) (pl_y p - e_y e)).

(** [distH], lines 1305-1307. *)
Definition distToHome (e : Enemy) : option Q :=
  match e_homeX e, e_homeY e with
  | Some hx, Some hy => Some (Math_hypot (hx - e_x e) (hy - e_y e))
  | _, _ => None
  end.

(** The state transitions, lines 1309-1318. *)
Definition aiTransition (p : Player) (e : Enemy) : Enemy :=
  let distP := distToPlayer p e in
  let distH := distToHome e in
  if leOpt distP (e_aggroRange e) then set_aiState (Some Aggro) e
  else if bool_decide (e_aiState e = Some Aggro)
          && (gtOpt distP (e_disengageRange e)
              || gtOpt distH (e_leashRange e))
  then set_aiState (Some Return) e
  else if bool_decide (e_aiState e = Some Return)
          && leOpt distH (e_returnThreshold e)
  then set_vy 0 (set_vx 0 (set_aiState (Some Patrol) e))
  else e.

(** The movement part of [updateExplorationAI] (lines 1320-1408) computes
    the entity's new velocity from its state, the patrol bookkeeping and
    [Math.random]; it is a parameter, asked once per entity and tick. *)
Definition Steering : Type := nat -> Enemy -> Q * Q.

(** [updateExplorationAI] for an entity without the support ability. *)
Definition baseAI (steer : Steering) (aggroMult : Q) (p : Player)
    (i : nat) (e : Enemy) : Enemy :=
  let e := lazyInit aggroMult e in
  let e := aiTransition p e in
  let (vx, vy) := steer i e in
  set_vy vy (set_vx vx e).

(** *** Support drone (lines 1413-1474) *)

Definition defaultRepair : RepairCfg := mkRepairCfg 260 0.03 0.04.

(** Lines 1418-1431: the index of the chosen target among [others], which
    starts at index [j] of [State.enemies]. *)
Fixpoint pickTarget (e : Enemy) (others : list Enemy) (j : nat)
    (best : option nat) (bestScore : Q) : option nat :=
  match others with
  | [] => best
  | other :: rest =>
      if e_dead other || String.eqb (e_id other) (e_id e)
      then pickTarget e rest (S j) best bestScore
      else if hasAbility other "repairTether"
      then pickTarget e rest (S j) best bestScore
      else
        let d := Math_hypot (e_x other - e_x e) (e_y other - e_y e) in
        if Qltb 650 d then pickTarget e rest (S j) best bestScore
        else
          let prio : Q :=
            if e_isBoss other then 1000
            else if e_isElite other then 200 else 0 in
          let missing := Qmax 0 (e_maxHP other - e_hp other) in
          let score := prio + missing - d * 0.25 in
          if Qltb bestScore score
          then pickTarget e rest (S j) (Some j) score
          else pickTarget e rest (S j) best bestScore
  end.

(** The code of the last character of a string, [0] for the empty one. *)
Fixpoint lastCharCode (s : string) : Z :=
  match s with
  | EmptyString => 0%Z
  | String c EmptyString => Z.of_nat (Ascii.nat_of_ascii c)
  | String _ s' => lastCharCode s'
  end.

(** [a || d] on a number. *)
Definition orQ (a d : Q) : Q := if Qeq_bool a 0 then d else a.

(** Lines 1451-1456: the amount granted against the per-target budget. *)
Definition healGrant (cfg : RepairCfg) (dt : Q) (best : Enemy)
    (used : Q) : Q :=
  let want := e_maxHP best * healPctMaxHpPerSec cfg * dt in
  let cap := e_maxHP best * capPctMaxHpPerSec cfg * dt in
  Qmax 0 (Qmin want (cap - used)).

(** Lines 1449-1461: the heal applied to the target at index [j]. *)
Definition applyHeal (cfg : RepairCfg) (dt : Q) (e : Enemy) (j : nat)
    (best : Enemy) (enemies : list Enemy) (hb : gmap string Q)
    : list Enemy * gmap string Q :=
  let dToTarget := Math_hypot (e_x best - e_x e) (e_y best - e_y e) in
  if Qleb dToTarget (rep_range cfg) && Qltb 0 (e_hp best)
     && Qltb (e_hp best) (e_maxHP best)
  then
    let used := default 0 (hb !! e_id best) in
    let grant := healGrant cfg dt best used in
    if Qltb 0 grant then
      (<[j := set_hp (Qmin (e_maxHP best) (e_hp best + grant)) best]> enemies,
       <[e_id best := used + grant]> hb)
    else (enemies, hb)
  else (enemies, hb).

(** [updateRepairDroneAI] for the entity at index [i]. *)
Definition updateRepairDroneAI (dt : Q) (p : Player) (i : nat) (e : Enemy)
    (enemies : list Enemy) (hb : gmap string Q)
    : list Enemy * gmap string Q :=
  let cfg := numberOr (e_repair e) defaultRepair in
  let target :=
    match pickTarget e enemies 0 None (-(1000000000)) with
    | Some j => match enemies !! j with
                | Some best => Some (j, best)
                | None => None
                end
    | None => None
    end in
  match target with
  | Some (j, best) =>
      let e := set_tetherTarget (Some (e_id best)) e in
      let e := set_orbitT (e_orbitT e + dt) e in
      let ang := e_orbitT e * 1.2
                 + inject_Z (lastCharCode (e_id e) mod 6) in
      let desiredX := e_x best + Math_cos ang * e_orbitRadius e in
      let desiredY := e_y best + Math_sin ang * e_orbitRadius e in
      let dx := desiredX - e_x e in
      let dy := desiredY - e_y e in
      let dist := orQ (Math_hypot dx dy) 1 in
      let sp := orQ (e_speed e) 90 in
      let e := set_vy ((dy / dist) * sp) (set_vx ((dx / dist) * sp) e) in
      applyHeal cfg dt e j best (<[i := e]> enemies) hb
  | None =>
      let e := set_tetherTarget None e in
      let dx := pl_x p - e_x e in
      let dy := pl_y p - e_y e in
      let d := orQ (Math_hypot dx dy) 1 in
      let sp := orQ (e_speed e) 90 * 0.4 in
      (<[i := set_vy ((dy / d) * sp) (set_vx ((dx / d) * sp) e)]> enemies, hb)
  end.

(** [updateExplorationAI] (lines 1267-1274 dispatch on the ability). *)
Definition updateExplorationAI (steer : Steering) (aggroMult dt : Q)
    (p : Player) (i : nat) (e : Enemy) (enemies : list Enemy)
    (hb : gmap string Q) : list Enemy * gmap string Q :=
  if hasAbility e "repairTether"
  then updateRepairDroneAI dt p i e enemies hb
  else (<[i := baseAI steer aggroMult p i e]> enemies, hb).

(** Lines 1230-1236: integration and clamping to the zone. *)
Definition integrate (dt zoneWidth zoneHeight : Q) (e : Enemy) : Enemy :=
  let x := e_x e + e_vx e * dt in
  let y := e_y e + e_vy e * dt in
  let margin := Qmax 30 (e_size e * 1.2) in
  set_y (Qmax margin (Qmin (zoneHeight - margin) y))
    (set_x (Qmax margin (Qmin (zoneWidth - margin) x)) e).

(** One iteration of the loop of [update] (lines 1223-1239), for index
    [i].  [updateExplorationShooting] only touches the shooting fields and
    [State.enemyBullets], which the model does not carry. *)
Definition updateOne (steer : Steering) (aggroMult dt : Q) (p : Player)
    (zoneWidth zoneHeight : Q) (i : nat)
    (st : list Enemy * gmap string Q) : list Enemy * gmap string Q :=
  let (enemies, hb) := st in
  match enemies !! i with
  | None => st
  | Some e =>
      if e_dead e then st
      else
        let (enemies, hb) :=
          updateExplorationAI steer aggroMult dt p i e enemies hb in
        match enemies !! i with
        | None => (enemies, hb)
        | Some e => (<[i := integrate dt zoneWidth zoneHeight e]> enemies, hb)
        end
  end.

(** [for (const e of State.enemies)] from index [i] on, [n] entries. *)
Fixpoint updateLoop (steer : Steering) (aggroMult dt : Q) (p : Player)
    (zoneWidth zoneHeight : Q) (n i : nat)
    (st : list Enemy * gmap string Q) : list Enemy * gmap string Q :=
  match n with
  | O => st
  | S n' =>
      updateLoop steer aggroMult dt p zoneWidth zoneHeight n' (S i)
        (updateOne steer aggroMult dt p zoneWidth zoneHeight i st)
  end.

(** [update] in exploration mode with a current zone (lines 1213-1264):
    the heal budget is created empty, every entity is updated in array
    order, dead entities are filtered out. *)
Definition update (steer : Steering) (aggroMult dt : Q) (p : Player)
    (zoneWidth zoneHeight : Q) (enemies : list Enemy) : list Enemy :=
  let st := updateLoop steer aggroMult dt p zoneWidth zoneHeight
              (length enemies) 0 (enemies, ∅) in
  filter (fun e => e_dead e = false) (fst st).

End WithPlatform.
End Enemies.

(** ** World.js: view-based activation and despawn *)

Module World.
Section WithPlatform.
Context {M : JSMath}.

(** The fields of [World] that [update] reads (lines 28-35). *)
Record WorldCfg := mkWorldCfg {
  spawnRadius : Q;
  despawnRadius : Q;
  defaultSpawnViewMargin : Q;
  defaultDespawnViewMargin : Q
}.

Definition defaultWorldCfg : WorldCfg := mkWorldCfg 600 1200 520 1800.

(** What one call of [update] sees around it: the player, the camera
    target and the screen size. *)
Record View := mkView {
  player : Player;
  camX : Q;
  camY : Q;
  screenW : Q;
  screenH : Q
}.

(** [Enemies.spawn] builds an entity from data/enemies.json, the clock and
    [Math.random], and [spawnEnemy] then draws a level; the entity and the
    level scale are parameters, asked per descriptor. *)
Record SpawnOracle := mkSpawnOracle {
  spawned : SpawnRef -> Spawn -> Enemy;
  levelScale : SpawnRef -> Q
}.

(** The zone's descriptors, [State.enemies] and [World.activeEnemies]
    (each entry stands for the entity spawned for that descriptor).
    [w_despawned] is a ghost field: the entities [despawnEnemy] removed,
    as they were at removal, with the descriptor that triggered it. *)
Record WorldState := mkWorld {
  w_enemySpawns : list Spawn;
  w_eliteSpawns : list Spawn;
  w_enemies : list Enemy;
  w_activeEnemies : list SpawnRef;
  w_despawned : list (Enemy * Spawn)
}.

(** Lines 38-45. *)
Definition isInView (x y camX camY screenW screenH margin : Q) : bool :=
  Qleb (camX - margin) x && Qleb x (camX + screenW + margin)
  && Qleb (camY - margin) y && Qleb y (camY + screenH + margin).

Definition getSpawn (ref : SpawnRef) (ws : WorldState) : option Spawn :=
  if fst ref then w_eliteSpawns ws !! snd ref
  else w_enemySpawns ws !! snd ref.

Definition setSpawn (ref : SpawnRef) (s : Spawn) (ws : WorldState)
    : WorldState :=
  if fst ref
  then mkWorld (w_enemySpawns ws) (<[snd ref := s]> (w_eliteSpawns ws))
               (w_enemies ws) (w_activeEnemies ws) (w_despawned ws)
  else mkWorld (<[snd ref := s]> (w_enemySpawns ws)) (w_eliteSpawns ws)
               (w_enemies ws) (w_activeEnemies ws) (w_despawned ws).

Definition setEnemies (l : list Enemy) (ws : WorldState) : WorldState :=
  mkWorld (w_enemySpawns ws) (w_eliteSpawns ws) l (w_activeEnemies ws)
          (w_despawned ws).

Definition setActivation (active : bool) (enemyId : option string)
    (s : Spawn) : Spawn :=
  mkSpawn (sp_x s) (sp_y s) (sp_type s) (sp_patrol s) (sp_patrolRadius s)
          active (sp_killed s) (sp_packId s) enemyId.

(** [State.enemies.findIndex(e => e.id === id)] from index [i] on; an
    absent [id] matches no entity. *)
Fixpoint findIndexById (id : option string) (l : list Enemy) (i : nat)
    : option nat :=
  match l with
  | [] => None
  | e :: l' =>
      if bool_decide (Some (e_id e) = id) then Some i
      else findIndexById id l' (S i)
  end.

(** Lines 504-558.  Generated descriptors carry no range overrides
    ([aggroRange], [attackRange], [disengageRange], [leashRange]), so the
    defaults apply; the position is the one [Enemies.spawn] was given. *)
Definition spawnEnemy (o : SpawnOracle) (aggroMult : Q) (ref : SpawnRef)
    (spawn : Spawn) (ws : WorldState) : WorldState :=
  let isElite := fst ref in
  let enemy := set_y (sp_y spawn) (set_x (sp_x spawn) (spawned o ref spawn)) in
  let enemy := set_spawnRef (Some ref) enemy in
  let patrolType :=
    if truthyStr (sp_patrol spawn) then sp_patrol spawn
    else Some (if isElite then "circle" else "wander")%string in
  let patrolRadius :=
    inject_Z (orDefaultZ (sp_patrolRadius spawn)
                         (if isElite then 140 else 110)) in
  let enemy := set_homeY (Some (sp_y spawn))
                 (set_homeX (Some (sp_x spawn)) enemy) in
  let enemy := set_aiState (Some Patrol) enemy in
  let enemy := set_patrolRadius (Some patrolRadius)
                 (set_patrol patrolType enemy) in
  let aggroRange := (if isElite then 420 else 340) * aggroMult in
  let enemy := set_aggroRange (Some aggroRange) enemy in
  let enemy := set_attackRange (Some aggroRange) enemy in
  let enemy := set_disengageRange (Some (aggroRange * 1.65)) enemy in
  let enemy := set_leashRange
                 (Some (Qmax (aggroRange * 2.2) (patrolRadius * 5))) enemy in
  let enemy := set_returnThreshold
                 (Some (Qmax 40 (e_size enemy * 1.2))) enemy in
  let enemy := set_maxHP (e_maxHP enemy * levelScale o ref)
                 (set_hp (e_hp enemy * levelScale o ref) enemy) in
  let ws := setEnemies (w_enemies ws ++ [enemy]) ws in
  let ws := setSpawn ref (setActivation true (Some (e_id enemy)) spawn) ws in
  mkWorld (w_enemySpawns ws) (w_eliteSpawns ws) (w_enemies ws)
          (w_activeEnemies ws ++ [ref]) (w_despawned ws).

(** Lines 604-616. *)
Definition despawnEnemy (ref : SpawnRef) (spawn : Spawn) (ws : WorldState)
    : WorldState :=
  let ws :=
    match findIndexById (sp_enemyId spawn) (w_enemies ws) 0 with
    | Some idx =>
        match w_enemies ws !! idx with
        | Some e =>
            mkWorld (w_enemySpawns ws) (w_eliteSpawns ws)
                    (delete idx (w_enemies ws)) (w_activeEnemies ws)
                    (w_despawned ws ++ [(e, spawn)])
        | None => ws
        end
    | None => ws
    end in
  let ws := setSpawn ref (setActivation false None spawn) ws in
  mkWorld (w_enemySpawns ws) (w_eliteSpawns ws) (w_enemies ws)
          (filter (fun r => r <> ref) (w_activeEnemies ws)) (w_despawned ws).

(** [enemy.returnThreshold || 60]. *)
Definition homeThreshold (e : Enemy) : Q := orDefault (e_returnThreshold e) 60.

(** The condition of lines 359-360 on an active descriptor: it lies
    outside the camera view widened by the despawn margin, or farther from
    the player than [despawnRadius]. *)
Definition shouldDespawn (c : WorldCfg) (despawnMargin : Q) (v : View)
    (spawn : Spawn) : bool :=
  let dist := Math_hypot (pl_x (player v) - sp_x spawn)
                         (pl_y (player v) - sp_y spawn) in
  let shouldDespawnByView :=
    negb (isInView (sp_x spawn) (sp_y spawn) (camX v) (camY v)
                   (screenW v) (screenH v) despawnMargin) in
  shouldDespawnByView || Qltb (despawnRadius c) dist.

(** Line 365: [if (enemy.aiState === 'aggro') enemy.aiState = 'return']. *)
Definition forceReturn (enemy : Enemy) : Enemy :=
  if bool_decide (e_aiState enemy = Some Aggro)
  then set_aiState (Some Return) enemy else enemy.

(** Lines 357-375 (and 391-405 for elites): the despawn check of one
    descriptor. *)
Definition despawnCheck (c : WorldCfg) (despawnMargin : Q) (v : View)
    (ref : SpawnRef) (ws : WorldState) : WorldState :=
  match getSpawn ref ws with
  | None => ws
  | Some spawn =>
      if sp_active spawn && shouldDespawn c despawnMargin v spawn then
        match findIndexById (sp_enemyId spawn) (w_enemies ws) 0 with
        | Some i =>
            match w_enemies ws !! i with
            | Some enemy =>
                let enemy := forceReturn enemy in
                let ws := setEnemies (<[i := enemy]> (w_enemies ws)) ws in
                let distHome := Math_hypot (e_x enemy - sp_x spawn)
                                           (e_y enemy - sp_y spawn) in
                if negb (bool_decide (e_aiState enemy = Some Aggro))
                   && Qleb distHome (homeThreshold enemy)
                then despawnEnemy ref spawn ws
                else ws
            | None => despawnEnemy ref spawn ws
            end
        | None => despawnEnemy ref spawn ws
        end
      else ws
  end.

(** One iteration of the loops of lines 342-406. *)
Definition checkSpawn (c : WorldCfg) (t : Tuning) (o : SpawnOracle)
    (v : View) (ref : SpawnRef) (ws : WorldState) : WorldState :=
  let spawnMargin := numberOr (spawnViewMargin t) (defaultSpawnViewMargin c) in
  let despawnMargin :=
    numberOr (despawnViewMargin t) (defaultDespawnViewMargin c) in
  let aggroMult := numberOr (enemyAggroRangeMult t) 1.0 in
  match getSpawn ref ws with
  | None => ws
  | Some spawn =>
      if sp_killed spawn then ws
      else
        let dist := Math_hypot (pl_x (player v) - sp_x spawn)
                               (pl_y (player v) - sp_y spawn) in
        let shouldSpawnByView :=
          isInView (sp_x spawn) (sp_y spawn) (camX v) (camY v)
                   (screenW v) (screenH v) spawnMargin in
        let ws :=
          if negb (sp_active spawn) && shouldSpawnByView
          then spawnEnemy o aggroMult ref spawn ws
          else if negb (sp_active spawn) && Qltb dist (spawnRadius c)
          then spawnEnemy o aggroMult ref spawn ws
          else ws in
        despawnCheck c despawnMargin v ref ws
  end.

(** [for (const spawn of list)] for the descriptors [i], [i+1], ... *)
Fixpoint checkSpawns (c : WorldCfg) (t : Tuning) (o : SpawnOracle)
    (v : View) (isElite : bool) (n i : nat) (ws : WorldState)
    : WorldState :=
  match n with
  | O => ws
  | S n' =>
      checkSpawns c t o v isElite n' (S i)
        (checkSpawn c t o v (isElite, i) ws)
  end.

(** Lines 341-406 of [update]: the pass over the regular descriptors, then
    the pass over the elite ones. *)
Definition checkZoneSpawns (c : WorldCfg) (t : Tuning) (o : SpawnOracle)
    (v : View) (ws : WorldState) : WorldState :=
  let ws := checkSpawns c t o v false (length (w_enemySpawns ws)) 0 ws in
  checkSpawns c t o v true (length (w_eliteSpawns ws)) 0 ws.

End WithPlatform.
Section WithGenerator.
Context {R : SeededRandom} {M : JSMath}.
Import MapGenerator.

(** *** Asteroid props (lines 67-162) *)

(** [State.data.config.asteroids]; every key is optional. *)
Record AsteroidCfg := mkAsteroidCfg {
  ast_enabled : option bool;
  ast_maxPerZone : option Z;
  ast_minNearSpawn : option Z;
  ast_nearSpawnRadius : option Q;
  ast_spritePaths : option (list string)
}.

(** An asteroid prop: the obstacle object it is, with the three fields
    the preparation writes on it. *)
Record Asteroid := mkAsteroid {
  body : Obstacle;
  destroyed : bool;
  hitCd : Q;
  spriteIdx : Z
}.

(** [t = arr[i]; arr[i] = arr[j]; arr[j] = t].  [j] is drawn by
    [rng.int(0, i)]; outside the array the model leaves it alone. *)
Definition swapAt {A : Type} (arr : list A) (i j : nat) : list A :=
  match arr !! i, arr !! j with
  | Some a, Some b => <[j := a]> (<[i := b]> arr)
  | _, _ => arr
  end.

(** The local [shuffle] (lines 98-105):
    [for (let i = arr.length - 1; i > 0; i--)]. *)
Fixpoint shuffleFrom {A : Type} (i : nat) (arr : list A) : Gen (list A) :=
  match i with
  | O => ret arr
  | S i' =>
      let* j := int 0 (Z.of_nat i) in
      if (j <? 0)%Z then shuffleFrom i' arr
      else shuffleFrom i' (swapAt arr i (Z.to_nat j))
  end.

Definition shuffle {A : Type} (arr : list A) : Gen (list A) :=
  shuffleFrom (length arr - 1) arr.

(** [arr.map(f)] for a callback that draws from the generator. *)
Fixpoint mapGen {A B : Type} (f : A -> Gen B) (arr : list A)
    : Gen (list B) :=
  match arr with
  | [] => ret []
  | a :: arr' =>
      let* b := f a in
      let* rest := mapGen f arr' in
      ret (b :: rest)
  end.

(** Line 92: [obs?.type === 'asteroid' && obs.destructible !== false]. *)
Definition isCandidate (obs : Obstacle) : bool :=
  bool_decide (ob_type obs = Some "asteroid"%string) && ob_destructible obs.

(** Lines 110-111: [d <= nearSpawnRadius]. *)
Definition isNear (spawnPt : Point) (nearSpawnRadius : Q) (c : Obstacle)
    : bool :=
  Qleb (Math_hypot (ob_x c - pt_x spawnPt) (ob_y c - pt_y spawnPt))
       nearSpawnRadius.

(** Lines 131-143: one asteroid of the synthesized cluster. *)
Definition synthAsteroid (zone : Zone) (nearSpawnRadius : Q)
    : Gen Obstacle :=
  let* ang := range 0 (Math_PI * 2) in
  let* dist := range 420 (Qmax 520 nearSpawnRadius) in
  let x := Qmax 120 (Qmin (width zone - 120)
                          (pt_x (spawn zone) + Math_cos ang * dist)) in
  let y := Qmax 120 (Qmin (height zone - 120)
                          (pt_y (spawn zone) + Math_sin ang * dist)) in
  let* radius := int 34 74 in
  let* rotation := range 0 (Math_PI * 2) in
  let* hp := int 25 60 in
  ret (mkObstacle x y (Some "asteroid"%string) radius rotation true hp 0).

(** The selection of lines 114-125: the props picked among the
    candidates near the spawn point and the others. *)
Definition pickProps (maxPerZone minNearSpawn : Z) (near far : list Obstacle)
    : Gen (list Obstacle) :=
  let* near := shuffle near in
  let* far := shuffle far in
  let takeNear :=
    Z.min (Z.min (Z.max 0 minNearSpawn) maxPerZone)
          (Z.of_nat (length near)) in
  let picked := if (0 <? takeNear)%Z then sliceTo takeNear near else [] in
  let* restPool := shuffle (sliceFrom takeNear near ++ far) in
  let remainingSlots :=
    Z.max 0 (maxPerZone - Z.of_nat (length picked)) in
  ret (if (0 <? remainingSlots)%Z
       then picked ++ sliceTo remainingSlots restPool
       else picked).

(** [_prepareAsteroidsForZone] on a current zone: the new [zone.obstacles]
    and [zone.asteroids].  Loading the sprite images (line 161) leaves both
    alone and is not modelled.  The generator is seeded with
    [(zoneSeed ^ 0xA57E01D) >>> 0]; 0xA57E01D is 173531165. *)
Definition prepareAsteroidsForZone (cfg : AsteroidCfg) (zone : Zone)
    (zoneSeed : Z) : list Obstacle * list Asteroid :=
  if bool_decide (ast_enabled cfg = Some false) then (obstacles zone, [])
  else
    let maxPerZone := numberOr (ast_maxPerZone cfg) 30%Z in
    let minNearSpawn :=
      numberOr (ast_minNearSpawn cfg) (Z.min 6 maxPerZone) in
    let nearSpawnRadius := numberOr (ast_nearSpawnRadius cfg) 1400 in
    let candidates :=
      filter (fun obs => isCandidate obs = true) (obstacles zone) in
    let remaining :=
      filter (fun obs => isCandidate obs = false) (obstacles zone) in
    let near :=
      filter (fun c => isNear (spawn zone) nearSpawnRadius c = true)
             candidates in
    let far :=
      filter (fun c => isNear (spawn zone) nearSpawnRadius c = false)
             candidates in
    let spriteCount :=
      match ast_spritePaths cfg with
      | Some (p :: ps) => Z.of_nat (length (p :: ps))
      | _ => 2%Z
      end in
    fst ((let* picked := pickProps maxPerZone minNearSpawn near far in
          let* picked :=
            if (length picked =? 0)%nat && (0 <? maxPerZone)%Z
            then
              let synthCount := Z.min maxPerZone (Z.max 4 minNearSpawn) in
              pushLoop (Z.to_nat synthCount) 0
                       (fun _ => synthAsteroid zone nearSpawnRadius)
            else ret picked in
          let* asteroids :=
            mapGen (fun a =>
                      let* idx :=
                        if (0 <? spriteCount)%Z
                        then int 0 (spriteCount - 1) else ret 0%Z in
                      ret (mkAsteroid a false 0 idx))
                   picked in
          ret (remaining, asteroids))
           (rng_new (toUint32 (xor32 zoneSeed 173531165)))).

(** *** Kills (lines 619-629) *)


(** *** Theme and boss rotation of [loadZone] *)

(** The keys of [State.data.config.exploration] that the rotation reads. *)
Record RotationTuning := mkRotationTuning {
  themeBlockSizeDepths : option Z;
  themesPool : option (list string);
  themeNoImmediateRepeat : option bool;
  bossEveryNZones : option Z;
  bossPool : option (list string);
  bossNoImmediateRepeat : option bool
}.

(** The fields of [World] that the rotation reads and writes. *)
Record Rotation := mkRotation {
  runSeed : Z;
  startThemeId : option string;
  currentThemeId : option string;
  prevThemeId : option string;
  currentBlockIndex : Z;
  prevBossType : option string
}.

(** [(Array.isArray(v) && v.length) ? v : d]. *)
Definition arrayOr {A : Type} (v : option (list A)) (d : list A) : list A :=
  match v with
  | Some (x :: l) => x :: l
  | _ => d
  end.

(** [(typeof v === 'number' && v > 0) ? v : d]. *)
Definition positiveOr (v : option Z) (d : Z) : Z :=
  match v with
  | Some n => if (0 <? n)%Z then n else d
  | None => d
  end.

(** [noRepeat && prev ? pool.filter(id => id !== prev) : pool.slice()],
    then [candidates.length ? candidates : pool]. *)
Definition candidatesOf (noRepeat : bool) (prev : option string)
    (pool : list string) : list string :=
  let candidates :=
    if noRepeat && truthyStr prev
    then filter (fun id => Some id <> prev) pool
    else pool in
  match candidates with
  | [] => pool
  | _ => candidates
  end.

(** Lines 213-236: the theme of the block of zone [index]; [actIds] is
    [Object.keys(State.data.acts)].  The seed arithmetic is exact, as it is
    in the source while the block index stays below 2^21; 0x71EAD00D is
    1911214093 and 0x9E3779B9 is 2654435769. *)
Definition selectTheme (t : RotationTuning) (actIds : list string)
    (index : Z) (w : Rotation) : Rotation :=
  let depth := (index + 1)%Z in
  let blockSize := positiveOr (themeBlockSizeDepths t) 2 in
  let blockIndex := ((depth - 1) / blockSize)%Z in
  let themePool := arrayOr (themesPool t) actIds in
  let noRepeat :=
    negb (bool_decide (themeNoImmediateRepeat t = Some false)) in
  if bool_decide (blockIndex = currentBlockIndex w) then w
  else
    let r := rng_new (toUint32 (xor32 (runSeed w) 1911214093
                                + blockIndex * 2654435769)) in
    let chosen :=
      if (blockIndex =? 0)%Z && truthyStr (startThemeId w)
      then startThemeId w
      else fst (pick (candidatesOf noRepeat (prevThemeId w) themePool) r) in
    mkRotation (runSeed w) (startThemeId w) chosen (currentThemeId w)
               blockIndex (prevBossType w).

(** Lines 261-280: whether zone [index] is a boss zone, and the boss type
    picked for it; 0xB055B055 is 2958405717 and 0x85EBCA6B is 2246822507. *)
Definition selectBoss (t : RotationTuning) (index : Z) (w : Rotation)
    : option string * Rotation :=
  let depth := (index + 1)%Z in
  let bossInterval := positiveOr (bossEveryNZones t) 10 in
  if (Z.rem depth bossInterval =? 0)%Z then
    let pool :=
      arrayOr (bossPool t)
        ["sentinel"; "collector"; "harbinger"; "warden"; "forgemind"]%string in
    let bossNoRepeat :=
      negb (bool_decide (bossNoImmediateRepeat t = Some false)) in
    let bossIndex := (depth / bossInterval)%Z in
    let r := rng_new (toUint32 (xor32 (runSeed w) 2958405717
                                + bossIndex * 2246822507)) in
    let bossType :=
      fst (pick (candidatesOf bossNoRepeat (prevBossType w) pool) r) in
    (bossType,
     mkRotation (runSeed w) (startThemeId w) (currentThemeId w)
                (prevThemeId w) (currentBlockIndex w) bossType)
  else (None, w).

End WithGenerator.

(** *** The whole of [update]: boss, exit and portals (lines 408-444) *)

Section WholeUpdate.
Context {M : JSMath}.

(** A portal of [currentZone.portals], as lines 637-643 build them. *)
Record Portal := mkPortal {
  portal_x : Q;
  portal_y : Q;
  destination : option string;
  allowHub : bool;
  portal_type : option string
}.

(** The fields of a zone that the lifecycle reads, as [loadZone] installs
    them. *)
Record LoadedZone := mkLoadedZone {
  lz_width : Q;
  lz_height : Q;
  lz_spawn : Point;
  lz_exit : option Point;
  lz_enemySpawns : list Spawn;
  lz_eliteSpawns : list Spawn;
  lz_bossSpawn : option Spawn;
  lz_portals : list Portal
}.

(** [World] and [State] as the whole of [update] sees them: the
    descriptor lists, [State.enemies] and [activeEnemies] ([r_world]), the
    other fields of [currentZone], [zoneIndex], [nearPortal] and the
    position of [State.player]. *)
Record RunState := mkRunState {
  r_world : WorldState;
  r_width : Q;
  r_height : Q;
  r_bossSpawn : option Spawn;
  r_exit : option Point;
  r_portals : list Portal;
  r_zoneIndex : Z;
  r_nearPortal : option Portal;
  r_player : Player
}.

(** What lines 408-444 take from outside the zone: a key of the tuning,
    [State.input], and the results of code that is not in src or that
    depends on such code.
    - [portalInteractRadius]: [tune.portalInteractRadius];
    - [interactPressed], [shift]: [State.input?.interactPressed] and
      [State.input?.shift];
    - [bossEntity], [bossLevelScale]: as for [SpawnOracle], the entity
      that [Enemies.spawn(type, x, y, false, true)] builds and
      [Math.pow(1.15, bossLvl - 1)];
    - [builtZone index]: the zone that lines 209-296 of [loadZone] build
      for [index] from the theme rotation, [SeededRandom.fromString],
      [DepthRules] and the generators, or [None] when the act of the
      chosen theme is not configured (lines 239-242);
    - [themesConfigured], [builtAfterInit id]: for [init(id)], whether its
      theme pool is non-empty, and what its [loadZone(0)] builds once the
      rotation is reset and a new run seed is drawn from [Date.now()];
    - [returnToHub]: [Game.returnToHub()] or
      [SceneManager.returnToHub('portal')], whichever module is
      registered (the identity when none is). *)
Record Outside := mkOutside {
  portalInteractRadius : option Q;
  interactPressed : bool;
  shift : bool;
  bossEntity : Spawn -> Enemy;
  bossLevelScale : Q;
  builtZone : Z -> option LoadedZone;
  themesConfigured : bool;
  builtAfterInit : string -> option LoadedZone;
  returnToHub : RunState -> RunState
}.

Definition setWorld (ws : WorldState) (st : RunState) : RunState :=
  mkRunState ws (r_width st) (r_height st) (r_bossSpawn st) (r_exit st)
             (r_portals st) (r_zoneIndex st) (r_nearPortal st)
             (r_player st).

Definition setBossSpawn (b : option Spawn) (st : RunState) : RunState :=
  mkRunState (r_world st) (r_width st) (r_height st) b (r_exit st)
             (r_portals st) (r_zoneIndex st) (r_nearPortal st)
             (r_player st).


Definition setZoneIndex (i : Z) (st : RunState) : RunState :=
  mkRunState (r_world st) (r_width st) (r_height st) (r_bossSpawn st)
             (r_exit st) (r_portals st) i (r_nearPortal st) (r_player st).

Definition setNearPortal (p : option Portal) (st : RunState) : RunState :=
  mkRunState (r_world st) (r_width st) (r_height st) (r_bossSpawn st)
             (r_exit st) (r_portals st) (r_zoneIndex st) p (r_player st).

(** [spawnBoss], lines 561-601.  The boss descriptor of
    [generateBossZone] carries no patrol or range overrides, so the
    defaults apply.  [enemy.spawnRef] becomes the boss descriptor, which
    lies outside the two lists that [SpawnRef] indexes: [e_spawnRef] stays
    as [Enemies.spawn] left it, and [update] reads no entity's
    [spawnRef]. *)
Definition spawnBoss (x : Outside) (aggroMult : Q) (spawn : Spawn)
    (st : RunState) : RunState :=
  let enemy := set_y (sp_y spawn) (set_x (sp_x spawn) (bossEntity x spawn)) in
  let enemy := set_homeY (Some (sp_y spawn))
                 (set_homeX (Some (sp_x spawn)) enemy) in
  let enemy := set_aiState (Some Patrol) enemy in
  let patrolType :=
    if truthyStr (sp_patrol spawn) then sp_patrol spawn
    else Some "circle"%string in
  let patrolRadius := inject_Z (orDefaultZ (sp_patrolRadius spawn) 220) in
  let enemy := set_patrolRadius (Some patrolRadius)
                 (set_patrol patrolType enemy) in
  let aggroRange := 550 * aggroMult in
  let enemy := set_aggroRange (Some aggroRange) enemy in
  let enemy := set_attackRange (Some aggroRange) enemy in
  let enemy := set_disengageRange (Some (aggroRange * 1.5)) enemy in
  let enemy := set_leashRange
                 (Some (Qmax (aggroRange * 2.0) (patrolRadius * 6))) enemy in
  let enemy := set_returnThreshold
                 (Some (Qmax 60 (e_size enemy * 1.2))) enemy in
  let enemy := set_maxHP (e_maxHP enemy * bossLevelScale x)
                 (set_hp (e_hp enemy * bossLevelScale x) enemy) in
  let ws := r_world st in
  setBossSpawn (Some (setActivation true (Some (e_id enemy)) spawn))
    (setWorld (setEnemies (w_enemies ws ++ [enemy]) ws) st).

(** Lines 408-420: the boss check of [update]. *)
Definition checkBoss (c : WorldCfg) (t : Tuning) (x : Outside) (v : View)
    (st : RunState) : RunState :=
  let spawnMargin := numberOr (spawnViewMargin t) (defaultSpawnViewMargin c) in
  let aggroMult := numberOr (enemyAggroRangeMult t) 1.0 in
  match r_bossSpawn st with
  | None => st
  | Some spawn =>
      if sp_killed spawn then st
      else
        let dist := Math_hypot (pl_x (player v) - sp_x spawn)
                               (pl_y (player v) - sp_y spawn) in
        let bossMargin := spawnMargin * 1.25 in
        let shouldSpawnByView :=
          isInView (sp_x spawn) (sp_y spawn) (camX v) (camY v)
                   (screenW v) (screenH v) bossMargin in
        if negb (sp_active spawn) && shouldSpawnByView
        then spawnBoss x aggroMult spawn st
        else if negb (sp_active spawn) && Qltb dist (spawnRadius c * 1.5)
        then spawnBoss x aggroMult spawn st
        else st
  end.

(** [loadZone(index)], lines 202-323, on the fields of the state, given
    the zone [built] that its lines 209-296 build.  Lines 204-208 empty
    [State.enemies] (and the bullets, pickups and particles, which the
    state does not hold) before anything else; without an act the call
    ends there (lines 239-242); otherwise the new zone is installed,
    [activeEnemies] is emptied and the player is put on the zone's spawn
    point (lines 298-310). *)
Definition loadZone (built : option LoadedZone) (index : Z) (st : RunState)
    : RunState :=
  let ws := setEnemies [] (r_world st) in
  match built with
  | None => setWorld ws st
  | Some z =>
      mkRunState (mkWorld (lz_enemySpawns z) (lz_eliteSpawns z) [] []
                          (w_despawned ws))
                 (lz_width z) (lz_height z) (lz_bossSpawn z) (lz_exit z)
                 (lz_portals z) index (r_nearPortal st)
                 (mkPlayer (pt_x (lz_spawn z)) (pt_y (lz_spawn z)))
  end.

(** Lines 647-650. *)
Definition onExitReached (x : Outside) (st : RunState) : RunState :=
  let nextZone := (r_zoneIndex st + 1)%Z in
  loadZone (builtZone x nextZone) nextZone st.

(** [init(startThemeId)], lines 165-199, called without a run seed: an
    [async] function without [await], so its body runs within the call.
    With no theme configured nothing changes; otherwise [zoneIndex] is
    reset and zone 0 is loaded. *)
Definition init (x : Outside) (startThemeId : string) (st : RunState)
    : RunState :=
  if themesConfigured x
  then loadZone (builtAfterInit x startThemeId) 0 (setZoneIndex 0 st)
  else st.

(** Lines 653-682. *)
Definition usePortal (x : Outside) (portal : Portal) (st : RunState)
    : RunState :=
  if shift x && allowHub portal then returnToHub x st
  else if bool_decide (destination portal = Some "next"%string)
  then let nextZone := (r_zoneIndex st + 1)%Z in
       loadZone (builtZone x nextZone) nextZone st
  else if bool_decide (destination portal = Some "hub"%string)
  then returnToHub x st
  else
    match destination portal with
    | Some d => if truthyStr (Some d) then init x d st else st
    | None => st
    end.

(** The test of lines 435-436 on one portal. *)
Definition portalInReach (portalRadius : Q) (p : Player) (portal : Portal)
    : bool :=
  Qltb (Math_hypot (pl_x p - portal_x portal) (pl_y p - portal_y portal))
       portalRadius.

(** The test of lines 423-427: the zone has an exit and the player is
    less than 50 from it. *)
Definition exitReached (st : RunState) : bool :=
  match r_exit st with
  | Some exit =>
      Qltb (Math_hypot (pl_x (r_player st) - pt_x exit)
                       (pl_y (r_player st) - pt_y exit)) 50
  | None => false
  end.

(** [update(dt, screenW, screenH)], lines 328-447, with a current zone;
    [camX] and [camY] are the camera target that lines 337-338 read.
    [player] is [State.player] itself, so the portal loop sees the
    position that a zone load at the exit has just written. *)
Definition update (c : WorldCfg) (t : Tuning) (o : SpawnOracle)
    (x : Outside) (camX camY screenW screenH : Q) (st : RunState)
    : RunState :=
  let v := mkView (r_player st) camX camY screenW screenH in
  let portalRadius := numberOr (portalInteractRadius x) 75 in
  let st := setWorld (checkZoneSpawns c t o v (r_world st)) st in
  let st := checkBoss c t x v st in
  let st := if exitReached st then onExitReached x st else st in
  let st :=
    setNearPortal
      (find (portalInReach portalRadius (r_player st)) (r_portals st)) st in
  match r_nearPortal st with
  | Some portal => if interactPressed x then usePortal x portal st else st
  | None => st
  end.



End WholeUpdate.

End World.

(** ** Invariants.js: the runtime guard *)

Module Invariants.

(** A number as the guard sees it: finite, or one of NaN and the
    infinities. *)
Inductive jsnum := Finite (q : Q) | NonFinite.

(** [Number.isFinite(v)]; an absent value is not finite. *)
Definition isFinite (v : option jsnum) : bool :=
  match v with
  | Some (Finite _) => true
  | _ => false
  end.

(** An entry of a tracked collection, with the fields the guard samples;
    a field is [None] when the object lacks it. *)
Record Entity := mkEntity {
  ent_x : option jsnum;
  ent_y : option jsnum;
  ent_vx : option jsnum;
  ent_vy : option jsnum;
  ent_hp : option jsnum
}.

Record PlayerCore := mkPlayerCore {
  pc_hp : option jsnum;
  pc_shield : option jsnum;
  pc_x : option jsnum;
  pc_y : option jsnum;
  pc_vx : option jsnum;
  pc_vy : option jsnum
}.

(** The part of [State] the guard works on. *)
Record Tracked := mkTracked {
  bullets : list Entity;
  enemyBullets : list Entity;
  enemies : list Entity;
  pickups : list Entity;
  particles : list Entity;
  playerCore : PlayerCore
}.

Record Caps := mkCaps {
  cap_bullets : Z;
  cap_enemyBullets : Z;
  cap_enemies : Z;
  cap_pickups : Z;
  cap_particles : Z
}.

(** [DEFAULT_CAPS], lines 15-21. *)
Definition DEFAULT_CAPS : Caps := mkCaps 2000 2000 900 700 6500.

(** The settings of the [Invariants] object, lines 38-45. *)
Record Settings := mkSettings {
  enabled : bool;
  hardThrowOnNonFinite : bool;
  softFuseOnCaps : bool;
  sampleEntitiesPerFrame : Z;
  caps : Caps
}.

Definition defaultSettings : Settings :=
  mkSettings true true true 12 DEFAULT_CAPS.

Inductive ErrCode := INV_NON_FINITE | INV_NULL | INV_CAP_EXCEEDED.

(** What reaches the console. *)
Inductive LogEntry :=
| Warn (label : string) (max overflow : Z)
| Error (code : ErrCode) (label : string).

(** The effects of guard code: console output so far and, once an error is
    thrown, its code.  A computation that follows a throw does not run. *)
Record Eff (A : Type) := mkEff {
  value : A;
  console : list LogEntry;
  thrown : option (ErrCode * string)
}.
Arguments mkEff {A}.
Arguments value {A}.
Arguments console {A}.
Arguments thrown {A}.

Definition pure {A : Type} (a : A) : Eff A := mkEff a [] None.

(** [c; k]: [k] runs on the result of [c] unless [c] threw. *)
Definition thenE {A : Type} (c : Eff A) (k : A -> Eff A) : Eff A :=
  match thrown c with
  | Some _ => c
  | None =>
      let r := k (value c) in
      mkEff (value r) (console c ++ console r) (thrown r)
  end.

Definition mapE {A B : Type} (f : A -> B) (c : Eff A) : Eff B :=
  mkEff (f (value c)) (console c) (thrown c).

(** Lines 48-56. *)
Definition assertFiniteNumber (s : Settings) (v : option jsnum)
    (label : string) : Eff unit :=
  if isFinite v then pure tt
  else if hardThrowOnNonFinite s
  then mkEff tt [] (Some (INV_NON_FINITE, label))
  else mkEff tt [Error INV_NON_FINITE label] None.

(** Lines 58-69, for an object that exists. *)
Definition assertFiniteVec2 (s : Settings) (x y : option jsnum)
    (xKey yKey label : string) : Eff unit :=
  thenE (assertFiniteNumber s x (label ++ "." ++ xKey))
        (fun _ => assertFiniteNumber s y (label ++ "." ++ yKey)).

(** Lines 72-88: [arr.splice(0, overflow)] happens before the warning or
    the throw. *)
Definition capArray {A : Type} (s : Settings) (arr : list A) (max : Z)
    (label : string) : Eff (list A) :=
  if (Z.of_nat (length arr) <=? max)%Z then pure arr
  else
    let overflow := (Z.of_nat (length arr) - max)%Z in
    let arr' := drop (Z.to_nat overflow) arr in
    if softFuseOnCaps s
    then mkEff arr' [Warn label max overflow] None
    else mkEff arr' [] (Some (INV_CAP_EXCEEDED, label)).

(** [indices.add(i)] on the insertion-ordered [Set]. *)
Definition addIndex (l : list nat) (i : nat) : list nat :=
  if bool_decide (i ∈ l) then l else l ++ [i].

(** Line 143: [for (let i = step; i < len && indices.size < 6; i += step)]. *)
Fixpoint midSamples (fuel step len i : nat) (l : list nat) : list nat :=
  match fuel with
  | O => l
  | S fuel' =>
      if (i <? len)%nat && (length l <? 6)%nat
      then midSamples fuel' step len (i + step) (addIndex l i)
      else l
  end.

(** Lines 136-143: head, tail, index 2 and sparse middle samples. *)
Definition sampleIndices (len : nat) : list nat :=
  let l := addIndex (addIndex [] 0) (len - 1) in
  let l := if (3 <? len)%nat then addIndex l 2 else l in
  let step := Nat.max 1 (len / 4) in
  midSamples len step len step l.

Definition assertPresent (s : Settings) (v : option jsnum) (label : string)
    : Eff unit :=
  match v with
  | Some _ => assertFiniteNumber s v label
  | None => pure tt
  end.

(** Lines 150-158: the asserts on one sampled entity. *)
Definition sampleEntity (s : Settings) (label : string) (idx : nat)
    (e : Entity) : Eff unit :=
  let at_ (f : string) := (label ++ "[" ++ pretty idx ++ "]." ++ f)%string in
  thenE (assertFiniteNumber s (ent_x e) (at_ "x")) (fun _ =>
  thenE (assertFiniteNumber s (ent_y e) (at_ "y")) (fun _ =>
  thenE (assertPresent s (ent_vx e) (at_ "vx")) (fun _ =>
  thenE (assertPresent s (ent_vy e) (at_ "vy")) (fun _ =>
  assertPresent s (ent_hp e) (at_ "hp"))))).

(** Lines 145-160: the loop over the sampled indices of one collection;
    the value is the remaining budget. *)
Fixpoint sampleAt (s : Settings) (label : string) (arr : list Entity)
    (indices : list nat) (remaining : Z) : Eff Z :=
  match indices with
  | [] => pure remaining
  | idx :: rest =>
      if (remaining <=? 0)%Z then pure remaining
      else
        match arr !! idx with
        | None => sampleAt s label arr rest remaining
        | Some e =>
            thenE (mapE (fun _ => (remaining - 1)%Z)
                        (sampleEntity s label idx e))
                  (sampleAt s label arr rest)
        end
  end.

(** Lines 130-161: the loop over the four sampled collections. *)
Fixpoint sampleSources (s : Settings) (sources : list (list Entity * string))
    (remaining : Z) : Eff Z :=
  match sources with
  | [] => pure remaining
  | (arr, label) :: rest =>
      if (remaining <=? 0)%Z then pure remaining
      else
        match arr with
        | [] => sampleSources s rest remaining
        | _ => thenE (sampleAt s label arr (sampleIndices (length arr))
                               remaining)
                     (sampleSources s rest)
        end
  end.

(** Lines 118-162. *)
Definition sampleEntityArrays (s : Settings) (st : Tracked) : Eff unit :=
  let budget := Z.max 0 (sampleEntitiesPerFrame s) in
  if (budget =? 0)%Z then pure tt
  else
    mapE (fun _ => tt)
      (sampleSources s
         [(bullets st, "bullet"); (enemyBullets st, "enemyBullet");
          (enemies st, "enemy"); (pickups st, "pickup")]%string
         budget).

(** The five [capArray] calls of lines 102-106; each rewrites its
    collection in place, so a trim survives a later throw. *)
Definition applyCaps (s : Settings) (st : Tracked) : Eff Tracked :=
  let c := caps s in
  thenE (mapE (fun l => mkTracked l (enemyBullets st) (enemies st)
                          (pickups st) (particles st) (playerCore st))
              (capArray s (bullets st) (cap_bullets c) "State.bullets"))
  (fun st =>
  thenE (mapE (fun l => mkTracked (bullets st) l (enemies st)
                          (pickups st) (particles st) (playerCore st))
              (capArray s (enemyBullets st) (cap_enemyBullets c)
                        "State.enemyBullets"))
  (fun st =>
  thenE (mapE (fun l => mkTracked (bullets st) (enemyBullets st) l
                          (pickups st) (particles st) (playerCore st))
              (capArray s (enemies st) (cap_enemies c) "State.enemies"))
  (fun st =>
  thenE (mapE (fun l => mkTracked (bullets st) (enemyBullets st)
                          (enemies st) l (particles st) (playerCore st))
              (capArray s (pickups st) (cap_pickups c) "State.pickups"))
  (fun st =>
  mapE (fun l => mkTracked (bullets st) (enemyBullets st) (enemies st)
                   (pickups st) l (playerCore st))
       (capArray s (particles st) (cap_particles c) "State.particles"))))).

(** Lines 109-112: the asserts on the player. *)
Definition assertPlayer (s : Settings) (p : PlayerCore) : Eff unit :=
  thenE (assertFiniteNumber s (pc_hp p) "State.player.hp") (fun _ =>
  thenE (assertFiniteNumber s (pc_shield p) "State.player.shield") (fun _ =>
  thenE (assertFiniteVec2 s (pc_x p) (pc_y p) "x" "y" "State.player.pos")
        (fun _ =>
  assertFiniteVec2 s (pc_vx p) (pc_vy p) "vx" "vy" "State.player.vel"))).

(** Lines 98-116. *)
Definition postFrame (s : Settings) (st : Tracked) : Eff Tracked :=
  if negb (enabled s) then pure st
  else
    thenE (applyCaps s st) (fun st =>
    thenE (mapE (fun _ => st) (assertPlayer s (playerCore st))) (fun st =>
    mapE (fun _ => st) (sampleEntityArrays s st))).

(** *** The pre-tick hook and the dump sample *)

(** A time step as [preFrame] receives it. *)
Inductive jsdouble := Num (q : Q) | NaN | PlusInfinity | MinusInfinity.

Definition toJsnum (v : jsdouble) : jsnum :=
  match v with
  | Num q => Finite q
  | _ => NonFinite
  end.

(** [v < 0]. *)
Definition isNegative (v : jsdouble) : bool :=
  match v with
  | Num q => Qltb q 0
  | MinusInfinity => true
  | _ => false
  end.

(** Lines 91-96. *)
Definition preFrame (s : Settings) (dt : jsdouble) : Eff unit :=
  if negb (enabled s) then pure tt
  else
    thenE (assertFiniteNumber s (Some (toJsnum dt)) "dt") (fun _ =>
    if isNegative dt
    then assertFiniteNumber s (Some NonFinite) "dt_negative"
    else pure tt).

(** An entry of a dump sample: an element of the array, or the marker
    [{ __omitted__: n }]. *)
Inductive SampleItem (A : Type) :=
| Shown (a : A)
| Omitted (n : Z).
Arguments Shown {A}.
Arguments Omitted {A}.

(** [sliceSample(arr, head, tail)] (lines 31-35) on an array; [head] and
    [tail] default to 3 and 2 and are never negative. *)
Definition sliceSample {A : Type} (arr : list A) (head tail : nat)
    : list (SampleItem A) :=
  if (length arr <=? head + tail)%nat then map Shown arr
  else
    map Shown (sliceTo (Z.of_nat head) arr)
    ++ [Omitted (Z.of_nat (length arr) - Z.of_nat (head + tail))]
    ++ map Shown (sliceFrom (- Z.of_nat tail) arr).

End Invariants.

(** ** Contracts.js: DOM contracts *)

Module Contracts.

(** [set.add(x)] on an insertion-ordered [Set]. *)
Definition setAdd (acc : list string) (x : string) : list string :=
  if bool_decide (x ∈ acc) then acc else acc ++ [x].

(** [uniq(arr)], lines 8-10: [[...new Set(arr)]]. *)
Definition uniq (arr : list string) : list string :=
  fold_left setAdd arr [].

Definition REQUIRED_DOM_BOOT : list string :=
  ["gameCanvas"; "gameContainer"]%string.

Definition REQUIRED_DOM_HUD : list string :=
  ["hudCells"; "hudScrap"; "levelBadge"; "waveDisplay"; "xpBar"; "xpText";
   "hpBar"; "hpText"; "shieldBar"; "shieldText"]%string.

Definition REQUIRED_DOM_DEATH : list string :=
  ["deathModal"; "deathWave"; "deathKills"; "deathDmg"; "deathTime";
   "deathScrapEarned"; "deathXP"]%string.

Definition REQUIRED_DOM_HUB : list string :=
  ["hubModal"; "hubScrap"; "hubLevel"; "actList"]%string.

Definition REQUIRED_DOM_START : list string :=
  ["startModal"; "startRuns"; "startScrap"; "startWave"; "startLevel"]%string.

Definition REQUIRED_DOM_VENDOR : list string :=
  ["vendorModal"; "vendorGrid"; "vendorCells"]%string.

Definition REQUIRED_DOM_META_PANELS : list string :=
  ["equipmentGrid"; "stashGrid"; "shipStats"; "pilotStats"; "statPointsNum";
   "skillTrees"; "skillPointsNum"; "tooltip"]%string.

(** A call returns a value or throws an [Error] with a message. *)
Inductive Outcome (A : Type) :=
| Returned (a : A)
| Threw (message : string).
Arguments Returned {A}.
Arguments Threw {A}.

Definition newline : string := String (Ascii.ascii_of_nat 10) EmptyString.

(** [missing.map(x => ` - ${x}`).join('\n')]. *)
Fixpoint bulletList (missing : list string) : string :=
  match missing with
  | [] => ""
  | [x] => " - " ++ x
  | x :: rest => " - " ++ x ++ newline ++ bulletList rest
  end.

(** The ids of [ids] that [document.getElementById] does not find, in
    order; [doc] is the set of ids present in the document. *)
Definition missingIds (doc : gset string) (ids : list string) : list string :=
  filter (fun id => id ∉ doc) ids.

(** [requireDom(ids, scope)], lines 78-91. *)
Definition requireDom (doc : gset string) (ids : list string)
    (scope : string) : Outcome bool :=
  match missingIds doc ids with
  | [] => Returned true
  | missing =>
      Threw ("❌ DOM contract failed (" ++ scope ++ "). Missing IDs:"
             ++ newline ++ bulletList missing)
  end.

(** [ensureDom(ids, scope)], lines 96-101, on the cache
    [_checkedScopes]. *)
Definition ensureDom (doc : gset string) (ids : list string)
    (scope : string) (checked : gset string) : Outcome bool * gset string :=
  if bool_decide (scope ∈ checked) then (Returned true, checked)
  else
    match requireDom doc ids scope with
    | Threw m => (Threw m, checked)
    | Returned _ => (Returned true, {[ scope ]} ∪ checked)
    end.

(** The guards of lines 104-147 call [ensureDom] and return nothing. *)
Definition guard (doc : gset string) (ids : list string) (scope : string)
    (checked : gset string) : Outcome unit * gset string :=
  match ensureDom doc ids scope checked with
  | (Returned _, c) => (Returned tt, c)
  | (Threw m, c) => (Threw m, c)
  end.

Definition assertBoot (doc checked : gset string) :=
  guard doc REQUIRED_DOM_BOOT "boot" checked.

Definition assertCombatHUD (doc checked : gset string) :=
  guard doc (uniq (REQUIRED_DOM_BOOT ++ REQUIRED_DOM_HUD)) "combat-hud"
        checked.

Definition assertDeathUI (doc checked : gset string) :=
  guard doc (uniq REQUIRED_DOM_DEATH) "death" checked.

Definition assertHubUI (doc checked : gset string) :=
  guard doc (uniq REQUIRED_DOM_HUB) "hub" checked.

Definition assertStartUI (doc checked : gset string) :=
  guard doc (uniq REQUIRED_DOM_START) "start" checked.

Definition assertVendorUI (doc checked : gset string) :=
  guard doc (uniq REQUIRED_DOM_VENDOR) "vendor" checked.

Definition assertMetaPanelsUI (doc checked : gset string) :=
  guard doc (uniq REQUIRED_DOM_META_PANELS) "meta-panels" checked.

Definition assertFullUI (doc checked : gset string) :=
  guard doc
    (uniq (REQUIRED_DOM_BOOT ++ REQUIRED_DOM_HUD ++ REQUIRED_DOM_DEATH
           ++ REQUIRED_DOM_HUB ++ REQUIRED_DOM_START ++ REQUIRED_DOM_VENDOR
           ++ REQUIRED_DOM_META_PANELS))
    "full-ui" checked.

End Contracts.

(** ** PauseUI.js: the in-run overlay toggle *)

Module PauseUI.

(** [State.ui.paused] ([None] while it is still [undefined]) and the class
    list of [document.body]. *)
Record UI := mkUI {
  paused : option bool;
  classList : gset string
}.

(** [!!v]. *)
Definition truthy (v : option bool) : bool :=
  match v with
  | Some b => b
  | None => false
  end.

(** [classList.toggle(name, force)]. *)
Definition classToggle (name : string) (force : bool) (l : gset string)
    : gset string :=
  if force then {[ name ]} ∪ l else l ∖ {[ name ]}.

(** Lines 222-225. *)
Definition apply (ui : UI) : UI :=
  mkUI (paused ui) (classToggle "paused-ui" (truthy (paused ui))
                                (classList ui)).

(** Lines 227-230. *)
Definition toggle (ui : UI) : UI :=
  apply (mkUI (Some (negb (truthy (paused ui)))) (classList ui)).

(** Lines 232-235. *)
Definition open (ui : UI) : UI := apply (mkUI (Some true) (classList ui)).

(** Lines 237-240. *)
Definition close (ui : UI) : UI := apply (mkUI (Some false) (classList ui)).

End PauseUI.

(** ** Reference instances of the interfaces

    They make the model runnable on concrete inputs.  [scriptedRandom]
    replays a given sequence of unit draws per seed; [refMath] is rational:
    the square root is exact on squares of rationals, cosine and sine are
    Taylor polynomials, exact at angle 0. *)

Definition unitDraw (f : Q) : Q :=
  if Qleb 0 f && Qltb f 1 then f else 0.

Definition nextFloat (s : list Q) : Q * list Q :=
  match s with
  | [] => (0, [])
  | f :: s' => (unitDraw f, s')
  end.

Definition scriptedRandom (streams : Z -> list Q) : SeededRandom := {|
  rng := list Q;
  rng_new := streams;
  rng_range := fun lo hi s =>
    let (f, s') := nextFloat s in (Qred (lo + f * (hi - lo)), s');
  rng_int := fun lo hi s =>
    let (f, s') := nextFloat s in
    ((lo + Qfloor (f * inject_Z (hi - lo + 1)))%Z, s');
  rng_index := fun n s =>
    let (f, s') := nextFloat s in
    (Z.to_nat (Qfloor (f * inject_Z (Z.of_nat n))), s');
  rng_chance := fun p s =>
    let (f, s') := nextFloat s in (Qltb f p, s')
|}.

Definition sqrtQ (q : Q) : Q :=
  Qred (Z.sqrt (Qnum q * Zpos (Qden q)) # Qden q).

Definition refMath : JSMath := {|
  Math_PI := 355 # 113;
  Math_cos := fun a => Qred (1 - a * a / 2 + a * a * a * a / 24);
  Math_sin := fun a => Qred (a - a * a * a / 6);
  Math_hypot := fun dx dy => sqrtQ (dx * dx + dy * dy)
|}.

(** ** Concrete inputs *)

(** A 2000 x 2000 zone. *)
Definition squareAct : MapGenerator.ActConfig :=
  MapGenerator.mkActConfig
    (Some (MapGenerator.mkGenerationCfg (MapGenerator.RangeNum 2000)
             (MapGenerator.RangeNum 2000) None None None))
    None None None.

Definition noOptions : MapGenerator.Options := MapGenerator.mkOptions None None.

(** Two ways of asking for depth 1 with the same two modifiers. *)
Definition optionsA : MapGenerator.Options :=
  MapGenerator.mkOptions (Some 1%Z)
    (Some ["MINEFIELD"; "BULLET_HELL"]%string).

Definition optionsB : MapGenerator.Options :=
  MapGenerator.mkOptions None
    (Some ["BULLET_HELL"; "MINEFIELD"; "MINEFIELD"]%string).

(** Tuning that keeps a zone small: at most three enemy spawns, one star
    per layer, no obstacles and no decorations. *)
Definition smallTuning : Tuning :=
  mkTuning None None None (Some 3%Z) None (Some 0%Z) (Some 0%Z) (Some 1)
           (Some 1) None None None None None None.

(** The same with [maxEliteSpawnsPerZone: 0]. *)
Definition noElitesTuning : Tuning :=
  mkTuning None None None (Some 3%Z) (Some 0%Z) (Some 0%Z) (Some 0%Z)
           (Some 1) (Some 1) None None None None None None.

(** A packs file with one free-form template and every setting left to
    its default. *)
Definition defaultPacks : PacksData :=
  mkPacksData
    (Some [mkPackTemplate (Some "pack_mixed"%string) None None None])
    None None None None None None None.

Definition grunt (x y : Q) : Spawn :=
  mkSpawn x y (Some "grunt"%string) (Some "circle"%string) (Some 100%Z)
          false false None None.

(** Three descriptors, all far from the spawn point (100,100) and the exit
    point (1900,1900). *)
Definition threeSpawns : list Spawn :=
  [grunt 400 500; grunt 1000 1000; grunt 1600 900].

(** Draws for the pack director on [threeSpawns]: two shuffle draws, the
    pack-chance draw, the template draw, and a size draw that yields 5. *)
Definition inflatingDraws : list Q := [0; 0; 0.5; 0.5; 0.9].

(** Draws for [generate] on [squareAct] with [smallTuning]: the spawn point
    on the left edge at y = 1450, ten draws for the two stars, the exit at
    x = 1000. *)
Definition leftSpawnDraws : list Q :=
  [0.4; 0.75; 0; 0; 0; 0; 0; 0; 0; 0; 0; 0; 0.5].

(** Draws for [generate] on [squareAct] with [smallTuning] and
    [defaultPacks]: spawn point (1900,1000) on the right edge, exit
    (100,1000), enemy spawns at (1540,1000), (1000,400) and (1000,1600), an
    identity shuffle, and one pack of three around the first spawn whose
    members are each placed at angle 0 and distance 100. *)
Definition packDraws : list Q :=
  [0.7; 0.5;
   0; 0; 0; 0; 0; 0; 0; 0; 0; 0;
   0.5;
   0.8; 0.5; 0; 0; 0;
   0.5; 1 # 6; 0; 0; 0;
   0.5; 5 # 6; 0; 0; 0;
   0.7; 0.5;
   0.5; 0.5; 0;
   0; 7 # 9; 0;
   0; 7 # 9; 0;
   0; 7 # 9; 0].

(** An initialised regular enemy with the default ranges (aggro 340,
    disengage 561, leash 748, return threshold 40), home at the origin. *)
Definition regularEnemy (id : string) (x y : Q) (st : AIState) : Enemy :=
  mkEnemy id x y 50 0 20 20 80 22 false false false (Some [])
          (Some 0) (Some 0) (Some st) (Some "circle"%string) (Some 120)
          (Some 340) (Some 340) (Some 561) (Some 748) (Some 40)
          None None 0 0 None.

(** In combat far from home: 1000 from home, the player 100 away. *)
Definition kitedEnemy : Enemy := regularEnemy "e_1" 1000 0 Aggro.
Definition nearbyPlayer : Player := mkPlayer 1100 0.

(** A zone with one active descriptor at the origin whose entity is
    [kitedEnemy]. *)
Definition engagedWorld : World.WorldState :=
  World.mkWorld
    [mkSpawn 0 0 (Some "grunt"%string) (Some "circle"%string) (Some 120%Z)
             true false None (Some "e_1"%string)]
    [] [kitedEnemy] [(false, 0%nat)] [].

(** Tracked collections after a heavy tick: 3000 player bullets and 2001
    enemy bullets, everything finite. *)
Definition finiteEntity : Invariants.Entity :=
  Invariants.mkEntity (Some (Invariants.Finite 1)) (Some (Invariants.Finite 2))
                      (Some (Invariants.Finite 0)) (Some (Invariants.Finite 0))
                      None.

Definition finitePlayer : Invariants.PlayerCore :=
  Invariants.mkPlayerCore
    (Some (Invariants.Finite 100)) (Some (Invariants.Finite 50))
    (Some (Invariants.Finite 0)) (Some (Invariants.Finite 0))
    (Some (Invariants.Finite 0)) (Some (Invariants.Finite 0)).

Definition overfull : Invariants.Tracked :=
  Invariants.mkTracked (replicate 3000 finiteEntity)
                       (replicate 2001 finiteEntity) [] [] [] finitePlayer.

(** The guard with [softFuseOnCaps] switched off. *)
Definition hardFuseSettings : Invariants.Settings :=
  Invariants.mkSettings true true false 12 Invariants.DEFAULT_CAPS.

(** A wounded ally (50 of 100 hp) with two support drones next to it,
    all with the default repair settings; nobody steers. *)
Definition woundedAlly : Enemy :=
  mkEnemy "a_1" 0 0 0 0 50 100 80 22 false false false (Some [])
          (Some 0) (Some 0) (Some Patrol) (Some "circle"%string) (Some 120)
          (Some 340) (Some 340) (Some 561) (Some 748) (Some 40)
          None None 0 0 None.

Definition drone (id : string) (x y : Q) : Enemy :=
  mkEnemy id x y 0 0 10 10 90 22 false false false
          (Some ["repairTether"%string])
          None None None None None None None None None None
          (Some Enemies.defaultRepair) None 0 90 None.

Definition squad : list Enemy :=
  [woundedAlly; drone "d_1" 10 0; drone "d_2" 0 10].

Definition noSteering : Enemies.Steering := fun _ _ => (0, 0).

(** Back home while the player stands 100 away. *)
Definition returningEnemy : Enemy := regularEnemy "e_2" 0 0 Return.
Definition playerAtHome : Player := mkPlayer 100 0.

(** A document that holds every id the contracts name. *)
Definition fullDocument : gset string :=
  list_to_set
    (Contracts.REQUIRED_DOM_BOOT ++ Contracts.REQUIRED_DOM_HUD
     ++ Contracts.REQUIRED_DOM_DEATH ++ Contracts.REQUIRED_DOM_HUB
     ++ Contracts.REQUIRED_DOM_START ++ Contracts.REQUIRED_DOM_VENDOR
     ++ Contracts.REQUIRED_DOM_META_PANELS).

(** Tracked collections after a calm tick. *)
Definition calmState : Invariants.Tracked :=
  Invariants.mkTracked [finiteEntity] [] [finiteEntity; finiteEntity] [] []
                       finitePlayer.

(** [smallTuning] with the map scaled to a half. *)
Definition halfScaleTuning : Tuning :=
  mkTuning None None (Some 0.5) (Some 3%Z) None (Some 0%Z) (Some 0%Z)
           (Some 1) (Some 1) None None None None None None.

(** A zone with one fresh descriptor at (400,500), seen by a player
    standing 100 below it with the camera around both; every entity
    [Enemies.spawn] makes is a regular enemy with id [e_9]. *)
Definition freshWorld : World.WorldState :=
  World.mkWorld [grunt 400 500] [] [] [] [].

Definition nearView : World.View :=
  World.mkView (mkPlayer 400 600) 0 300 800 600.

Definition gruntOracle : World.SpawnOracle :=
  World.mkSpawnOracle
    (fun _ s => regularEnemy "e_9" (sp_x s) (sp_y s) Patrol) (fun _ => 1).

(** The asteroid and rotation settings with every key left out, and a run
    whose last boss was the warden, in its first theme block after the
    themes [act1] and [act2]. *)
Definition defaultAsteroids : World.AsteroidCfg :=
  World.mkAsteroidCfg None None None None None.

Definition defaultRotation : World.RotationTuning :=
  World.mkRotationTuning None None None None None None.

Definition laterRun : World.Rotation :=
  World.mkRotation 7 None (Some "act2"%string) (Some "act1"%string) 0
                   (Some "warden"%string).

(** Nothing pressed, no game module registered, and a loader that builds
    an empty zone of 2000 by 2000 for every index. *)
Definition emptyZone : World.LoadedZone :=
  World.mkLoadedZone 2000 2000 (mkPoint 100 1000) (Some (mkPoint 1900 1000))
                     [] [] None [].

Definition quietOutside : World.Outside :=
  World.mkOutside None false false
    (fun s => regularEnemy "boss_1" (sp_x s) (sp_y s) Patrol) 1
    (fun _ => Some emptyZone) true (fun _ => Some emptyZone)
    (fun st => st).

(** [engagedWorld] as the current zone, 6000 by 6000 with its exit at
    (5900,100): the player stands far from the descriptor and from the
    exit, or 20 from the exit. *)
Definition engagedRun : World.RunState :=
  World.mkRunState engagedWorld 6000 6000 None (Some (mkPoint 5900 100)) []
                   0 None (mkPlayer 5000 5000).

Definition atExitRun : World.RunState :=
  World.mkRunState engagedWorld 6000 6000 None (Some (mkPoint 5900 100)) []
                   0 None (mkPlayer 5900 120).

(** A packs file whose [templates] array is empty. *)
Definition emptyPacks : PacksData :=
  mkPacksData (Some []) None None None None None None None.

(** ** Vocabulary of the statements *)

(** [k] is the position of the first occurrence of [x] in [arr]. *)
Definition firstOccurrence (arr : list string) (x : string) (k : nat)
    : Prop :=
  arr !! k = Some x /\ forall c : nat, (c < k)%nat -> arr !! c <> Some x.

(** No pack templates are configured: [State.data.packs] is absent, or its
    [templates] is not an array or is an empty one (line 294). *)
Definition noPackTemplates (data : StateData) : Prop :=
  match packs data with
  | None => True
  | Some packsData =>
      templates packsData = None \/ templates packsData = Some []
  end.


(** [s] lies at least [minDist] from the point [p], by [Math.hypot] as the
    generator computes it. *)
Definition farFrom {M : JSMath} (p : Point) (minDist : Q) (s : Spawn) : Prop :=
  minDist <= Math_hypot (sp_x s - pt_x p) (sp_y s - pt_y p).

(** A later descriptor lies at least [minDist] from an earlier one. *)
Definition apart {M : JSMath} (minDist : Q) (earlier later : Spawn) : Prop :=
  minDist <= Math_hypot (sp_x later - sp_x earlier) (sp_y later - sp_y earlier).

(** The three minimum distances of the tuning (defaults 300, 200, 150)
    hold throughout a list of descriptors. *)
Definition wellSpaced {M : JSMath} (t : Tuning) (sp ex : Point)
    (l : list Spawn) : Prop :=
  Forall (farFrom sp (numberOr (enemySpawnMinDistFromSpawn t) 300)) l /\
  Forall (farFrom ex (numberOr (enemySpawnMinDistFromExit t) 200)) l /\
  ForallOrdPairs (apart (numberOr (enemySpawnMinDistBetween t) 150)) l.

(** [s] is placed as lines 378-381 place a pack member: at
    [anchor + dist * (cos angle, sin angle)] around one of [accepted]
    that passes [validAnchor], with [dist] a draw of
    [rng.range(30, spacing)]. *)
Definition placedAround {R : SeededRandom} {M : JSMath}
    (spacing minDistFromSpawn minDistFromExit : Q) (sp ex : Point)
    (accepted : list Spawn) (s : Spawn) : Prop :=
  exists (anchor : Spawn) (angle : Q) (r : rng),
    anchor ∈ accepted /\
    MapGenerator.validAnchor minDistFromSpawn minDistFromExit sp ex anchor
    = true /\
    sp_x s = sp_x anchor + Math_cos angle * fst (range 30 spacing r) /\
    sp_y s = sp_y anchor + Math_sin angle * fst (range 30 spacing r).

(** Two option objects that [generate] cannot tell apart: the same depth
    after [options.depth || 1], and modifier arrays with the same members
    (whatever their order and multiplicity). *)
Definition sameOptions (o1 o2 : MapGenerator.Options) : Prop :=
  orDefaultZ (MapGenerator.opt_depth o1) 1
    = orDefaultZ (MapGenerator.opt_depth o2) 1 /\
  forall m : string,
    m ∈ numberOr (MapGenerator.opt_mods o1) [] <->
    m ∈ numberOr (MapGenerator.opt_mods o2) [].

(** The call stays in its zone: the player is not within 50 of an exit,
    and no portal is used (lines 422-444 load nothing). *)
Definition staysInZone {M : JSMath} (x : World.Outside)
    (st : World.RunState) : bool :=
  negb (World.exitReached st)
  && negb (World.interactPressed x
           && existsb (World.portalInReach
                         (numberOr (World.portalInteractRadius x) 75)
                         (World.r_player st))
                      (World.r_portals st)).

(** [e'] is the entity [e] as a despawn check leaves it when it does not
    remove it: unchanged, or set to return if it was aggro. *)
Definition keptAs (e e' : Enemy) : Prop :=
  e' = e \/ (e_aiState e = Some Aggro /\ e' = set_aiState (Some Return) e).

(** The descriptor [spawn] at [ref] is the spawn point of [e] in this
    call: it was active with [e]'s id, or it was inactive and the call
    spawned for it an entity that carries [e]'s id. *)
Definition spawnPointOf (o : World.SpawnOracle) (ref : SpawnRef)
    (spawn : Spawn) (e : Enemy) : Prop :=
  (sp_active spawn = true /\ sp_enemyId spawn = Some (e_id e)) \/
  (sp_active spawn = false /\ e_id (World.spawned o ref spawn) = e_id e).

(** [e] lies within its home threshold of its spawn point, a live
    descriptor of [ws] outside the despawn window. *)
Definition despawnedAtHome {M : JSMath} (c : World.WorldCfg)
    (despawnMargin : Q) (o : World.SpawnOracle) (v : World.View)
    (ws : World.WorldState) (e : Enemy) : Prop :=
  exists (ref : SpawnRef) (spawn : Spawn),
    World.getSpawn ref ws = Some spawn /\
    sp_killed spawn = false /\
    World.shouldDespawn c despawnMargin v spawn = true /\
    spawnPointOf o ref spawn e /\
    Math_hypot (e_x e - sp_x spawn) (e_y e - sp_y spawn)
      <= World.homeThreshold e.

(** From the entities [l0] of the world [ws] to the entities [l]: each
    one is still there (set to return if it was aggro), or it was within
    its home threshold of its spawn point, outside the despawn window. *)
Definition removesOnlyAtHome {M : JSMath} (c : World.WorldCfg)
    (despawnMargin : Q) (o : World.SpawnOracle) (v : World.View)
    (ws : World.WorldState) (l0 l : list Enemy) : Prop :=
  forall e : Enemy,
    e ∈ l0 ->
    (exists e' : Enemy, e' ∈ l /\ keptAs e e') \/
    despawnedAtHome c despawnMargin o v ws e.

(** The newest [cap] entries of a collection, in their order (entries are
    appended with [push], so the oldest come first). *)
Definition newest {A : Type} (cap : Z) (l : list A) : list A :=
  drop (length l - Z.to_nat cap) l.

Definition isWarn (entry : Invariants.LogEntry) : Prop :=
  match entry with
  | Invariants.Warn _ _ _ => True
  | Invariants.Error _ _ => False
  end.

(** An error that reports a non-finite value. *)
Definition nonFinite (err : Invariants.ErrCode * string) : Prop :=
  fst err = Invariants.INV_NON_FINITE.

(** Guard code that throws nothing, logs only warnings and yields [v]. *)
Definition softOk {A : Type} (c : Invariants.Eff A) (v : A) : Prop :=
  Invariants.thrown c = None /\ Forall isWarn (Invariants.console c) /\
  Invariants.value c = v.

Definition capsNonNegative (c : Invariants.Caps) : Prop :=
  (0 <= Invariants.cap_bullets c /\ 0 <= Invariants.cap_enemyBullets c /\
   0 <= Invariants.cap_enemies c /\ 0 <= Invariants.cap_pickups c /\
   0 <= Invariants.cap_particles c)%Z.

(** The fields of an entity that the heal logic reads or writes. *)
Definition coreOf (e : Enemy)
    : string * Q * Q * bool * option (list string) * option RepairCfg :=
  (e_id e, e_hp e, e_maxHP e, e_dead e, e_abilities e, e_repair e).

(** The per-second cap fraction a support entity heals with
    ([cfg.capPctMaxHpPerSec], with the default of line 1415). *)
Definition capPctOf (e : Enemy) : Q :=
  capPctMaxHpPerSec (numberOr (e_repair e) Enemies.defaultRepair).

(** All support entities of a list share the cap fraction [c]. *)
Definition sharedRepairCap (c : Q) (enemies : list Enemy) : Prop :=
  forall e : Enemy,
    e ∈ enemies -> Enemies.hasAbility e "repairTether" = true ->
    capPctOf e == c.

(** [hb[id] || 0]. *)
Definition budgetOf (hb : gmap string Q) (id : string) : Q :=
  default 0 (hb !! id).

(** What one tick does to an entity [e0], now [e]: identity and maximum
    hp are kept, hp does not drop, the healing received is at most the
    per-tick cap [maxHP * c * dt], and hp stays at or below the maximum. *)
Definition healedWithin (c dt : Q) (e0 e : Enemy) : Prop :=
  e_id e = e_id e0 /\ e_maxHP e = e_maxHP e0 /\
  e_hp e0 <= e_hp e /\
  (0 <= e_maxHP e0 -> e_hp e - e_hp e0 <= e_maxHP e0 * c * dt) /\
  (e_hp e0 <= e_maxHP e0 -> e_hp e <= e_maxHP e0).

(** The same, as an invariant of the loop with the budget map [hb]. *)
Definition tracks (c dt : Q) (hb : gmap string Q) (e0 e : Enemy) : Prop :=
  e_id e = e_id e0 /\ e_maxHP e = e_maxHP e0 /\
  e_abilities e = e_abilities e0 /\ e_repair e = e_repair e0 /\
  e_hp e0 <= e_hp e /\
  (e_hp e - e_hp e0 <= 0 \/ e_hp e - e_hp e0 <= e_maxHP e0 * c * dt) /\
  (e_hp e0 <= e_maxHP e0 -> e_hp e <= e_maxHP e0) /\
  e_hp e - e_hp e0 <= budgetOf hb (e_id e0).

(** A descriptor the pack director did not emit. *)
Definition unpacked (s : Spawn) : Prop := sp_packId s = None.

Global Instance unpacked_dec (s : Spawn) : Decision (unpacked s).
Proof. unfold unpacked. apply _. Defined.

(** The three rules as section 4.5 lists them, each read on its own. *)
Definition threeRulesSpec (st : option AIState)
    (playerInAggroRange playerBeyondDisengage beyondLeash atHome : bool)
    : option AIState :=
  match st with
  | Some Patrol => if playerInAggroRange then Some Aggro else Some Patrol
  | Some Aggro =>
      if playerBeyondDisengage || beyondLeash then Some Return
      else Some Aggro
  | Some Return => if atHome then Some Patrol else Some Return
  | None => None
  end.

(** The body carries the class [paused-ui] exactly when [State.ui.paused]
    is truthy. *)
Definition classInSync (ui : PauseUI.UI) : Prop :=
  "paused-ui"%string ∈ PauseUI.classList ui
  <-> PauseUI.truthy (PauseUI.paused ui) = true.

(** Every tracked collection is within its cap. *)
Definition withinCaps (c : Invariants.Caps) (st : Invariants.Tracked)
    : Prop :=
  (Z.of_nat (length (Invariants.bullets st)) <= Invariants.cap_bullets c /\
   Z.of_nat (length (Invariants.enemyBullets st))
     <= Invariants.cap_enemyBullets c /\
   Z.of_nat (length (Invariants.enemies st)) <= Invariants.cap_enemies c /\
   Z.of_nat (length (Invariants.pickups st)) <= Invariants.cap_pickups c /\
   Z.of_nat (length (Invariants.particles st))
     <= Invariants.cap_particles c)%Z.

(** A field the guard samples only when the object has it. *)
Definition finiteIfPresent (v : option Invariants.jsnum) : Prop :=
  v = None \/ Invariants.isFinite v = true.

(** The sampled fields of an entity are finite numbers. *)
Definition finiteFields (e : Invariants.Entity) : Prop :=
  Invariants.isFinite (Invariants.ent_x e) = true /\
  Invariants.isFinite (Invariants.ent_y e) = true /\
  finiteIfPresent (Invariants.ent_vx e) /\
  finiteIfPresent (Invariants.ent_vy e) /\
  finiteIfPresent (Invariants.ent_hp e).

(** The six numbers of the player that the guard asserts are finite. *)
Definition finiteCore (p : Invariants.PlayerCore) : Prop :=
  Invariants.isFinite (Invariants.pc_hp p) = true /\
  Invariants.isFinite (Invariants.pc_shield p) = true /\
  Invariants.isFinite (Invariants.pc_x p) = true /\
  Invariants.isFinite (Invariants.pc_y p) = true /\
  Invariants.isFinite (Invariants.pc_vx p) = true /\
  Invariants.isFinite (Invariants.pc_vy p) = true.

(** A time step the pre-tick hook accepts: a finite number, not
    negative. *)
Definition validStep (dt : Invariants.jsdouble) : Prop :=
  exists q : Q, dt = Invariants.Num q /\ 0 <= q.

(** What holds of an obstacle made by [generateObstacles] for the modifier
    list [mods] at depth [depth]: it is destructible; only a mine deals
    damage, namely [8 + floor(depth * 0.25)], has 6 hp and needs the
    MINEFIELD modifier. *)
Definition obstacleSound (mods : list string) (depth : Z)
    (ob : MapGenerator.Obstacle) : Prop :=
  MapGenerator.ob_destructible ob = true /\
  (MapGenerator.ob_type ob = Some "mine"%string ->
   "MINEFIELD"%string ∈ mods /\ MapGenerator.ob_hp ob = 6%Z /\
   MapGenerator.ob_damage ob = (8 + Qfloor (inject_Z depth * 0.25))%Z) /\
  (MapGenerator.ob_type ob <> Some "mine"%string ->
   MapGenerator.ob_damage ob = 0%Z).

(** The generator keeps [int(lo, hi)] within its inclusive bounds. *)
Definition intInBounds (R : SeededRandom) : Prop :=
  forall (lo hi : Z) (r : rng),
    (lo <= hi)%Z -> (lo <= fst (rng_int lo hi r) <= hi)%Z.

(** The generator keeps [range(lo, hi)] within its bounds. *)
Definition rangeInBounds (R : SeededRandom) : Prop :=
  forall (lo hi : Q) (r : rng),
    lo <= hi -> lo <= fst (rng_range lo hi r) <= hi.

(** No template of the packs file lists explicit [members]; pack sizes
    then come from [packSizeMin] and [packSizeMax]. *)
Definition freeFormPacks (pd : PacksData) : Prop :=
  forall tpl : PackTemplate,
    tpl ∈ numberOr (templates pd) [] -> tpl_members tpl = None.

(** The number of descriptors, among the first [n], that the pack
    director has marked as consumed. *)
Definition markedBelow (n : nat) (used : gset nat) : nat :=
  length (filter (fun k => k ∈ used) (seq 0 n)).

(** The budget of the pack loop over [n] descriptors: at most
    [maxPacksPerZone] packs are made, the members emitted are at least as
    many as the descriptors consumed, and each pack emits at most
    [maxSize - 1] members more than it consumes. *)
Definition packBudget (n : nat) (maxSize maxPacks : Z)
    (acc : MapGenerator.PackAcc) : Prop :=
  (0 <= MapGenerator.pk_made acc <= Z.max 0 maxPacks)%Z /\
  (Z.of_nat (markedBelow n (MapGenerator.pk_used acc))
   <= Z.of_nat (length (MapGenerator.pk_out acc))
   <= Z.of_nat (markedBelow n (MapGenerator.pk_used acc))
      + MapGenerator.pk_made acc * (maxSize - 1))%Z.

(** An entity lies inside the zone by its own margin
    [max(30, size * 1.2)]: at or past the margin on the left and on top,
    and, in a zone that leaves room between the margins, at or before it
    on the right and at the bottom. *)
Definition inZone (zoneWidth zoneHeight : Q) (e : Enemy) : Prop :=
  let margin := Qmax 30 (e_size e * 1.2) in
  margin <= e_x e /\ margin <= e_y e /\
  (margin <= zoneWidth - margin -> e_x e <= zoneWidth - margin) /\
  (margin <= zoneHeight - margin -> e_y e <= zoneHeight - margin).

(** An ally a support entity [e] may tether to: alive, not [e] itself (by
    id), not a support entity, and at most 650 away. *)
Definition eligibleTarget {M : JSMath} (e other : Enemy) : Prop :=
  e_dead other = false /\ e_id other <> e_id e /\
  Enemies.hasAbility other "repairTether" = false /\
  Math_hypot (e_x other - e_x e) (e_y other - e_y e) <= 650.

(** The base aggro range of lines 1291 and 540. *)
Definition baseAggroOf (e : Enemy) : Q :=
  if e_isBoss e then 550 else if e_isElite e then 420 else 340.

(** An entity on which the lazy initialisation has nothing left to do:
    every field it fills is set, or holds the very value the
    initialisation would write. *)
Definition initialised (aggroMult : Q) (e : Enemy) : Prop :=
  (is_Some (e_homeX e) /\ is_Some (e_homeY e)) /\
  e_aiState e <> None /\
  truthyStr (e_patrol e) = true /\
  Enemies.falsyQ (e_patrolRadius e) = false /\
  (Enemies.falsyQ (e_aggroRange e) = false \/
   e_aggroRange e = Some (baseAggroOf e * aggroMult)) /\
  (Enemies.falsyQ (e_attackRange e) = false \/
   e_attackRange e = e_aggroRange e) /\
  (Enemies.falsyQ (e_disengageRange e) = false \/
   e_disengageRange e = Some (Enemies.valQ (e_aggroRange e) * 1.65)) /\
  (Enemies.falsyQ (e_leashRange e) = false \/
   e_leashRange e
   = Some (Qmax (Enemies.valQ (e_aggroRange e) * 2.2)
                (Enemies.valQ (e_patrolRadius e) * 5))) /\
  (Enemies.falsyQ (e_returnThreshold e) = false \/
   e_returnThreshold e = Some (Qmax 40 (e_size e * 1.2))).

(** An asteroid prop as the preparation of a zone leaves it: a
    destructible obstacle of type [asteroid], not destroyed, with no hit
    cooldown running. *)
Definition freshAsteroid (a : World.Asteroid) : Prop :=
  World.destroyed a = false /\ World.hitCd a = 0 /\
  MapGenerator.ob_type (World.body a) = Some "asteroid"%string /\
  MapGenerator.ob_destructible (World.body a) = true.

(** * Properties *)

(** ** Arithmetic of the helpers *)

Lemma Qleb_true (a b : Q) : Qleb a b = true <-> a <= b.
Proof. unfold Qleb. apply Qle_bool_iff. Qed.

Lemma Qleb_false (a b : Q) : Qleb a b = false <-> b < a.
Proof.
  unfold Qleb. split; intros H.
  - apply Qnot_le_lt. intros Hle. apply Qle_bool_iff in Hle. congruence.
  - destruct (Qle_bool a b) eqn:E; [|reflexivity].
    apply Qle_bool_iff in E. exfalso. apply (Qlt_not_le _ _ H E).
Qed.

Lemma Qltb_true (a b : Q) : Qltb a b = true <-> a < b.
Proof.
  unfold Qltb. rewrite negb_true_iff. apply Qleb_false.
Qed.

Lemma Qltb_false (a b : Q) : Qltb a b = false <-> b <= a.
Proof.
  unfold Qltb. rewrite negb_false_iff. apply Qleb_true.
Qed.

Lemma Qmin_le_l (a b : Q) : Qmin a b <= a.
Proof.
  unfold Qmin. destruct (Qltb b a) eqn:E.
  - apply Qltb_true in E. lra.
  - lra.
Qed.

Lemma Qmin_le_r (a b : Q) : Qmin a b <= b.
Proof.
  unfold Qmin. destruct (Qltb b a) eqn:E.
  - lra.
  - apply Qltb_false in E. lra.
Qed.

Lemma Qmax_ge_l (a b : Q) : a <= Qmax a b.
Proof.
  unfold Qmax. destruct (Qltb a b) eqn:E.
  - apply Qltb_true in E. lra.
  - lra.
Qed.

(** ** The generator monad *)

Section GenFacts.
Context {R : SeededRandom}.

Lemma pushLoop_length {A : Type} (n i : nat) (body : nat -> Gen A) (r : rng) :
  length (fst (pushLoop n i body r)) = n.
Proof.
  revert i r. induction n as [|n IH]; intros i r; simpl; [reflexivity|].
  unfold bind. destruct (body i r) as [a r1].
  specialize (IH (S i) r1).
  destruct (pushLoop n (S i) body r1) as [rest r2]. simpl in *. lia.
Qed.

Lemma pushLoop_ext {A : Type} (n i : nat) (f g : nat -> Gen A) (r : rng) :
  (forall j s, f j s = g j s) -> pushLoop n i f r = pushLoop n i g r.
Proof.
  intros Hfg. revert i r. induction n as [|n IH]; intros i r; simpl;
    [reflexivity|].
  unfold bind. rewrite Hfg. destruct (g i r) as [a r1]. rewrite IH.
  reflexivity.
Qed.

End GenFacts.

(** ** MapGenerator *)

Section MapGeneratorFacts.
Context {R : SeededRandom} {M : JSMath}.
Import MapGenerator.

(** The lists of a generated zone are the results of the respective
    generator functions, run on the zone's own dimensions and points. *)
Lemma generate_parts (data : StateData) (act : ActConfig) (zoneSeed : Z)
    (opts : Options) :
  let z := generate data act zoneSeed opts in
  let t := tuningOf data in
  exists (ex : Point) (dE dL dO : Q) (r1 r3 r4 r5 : rng),
    exit z = Some ex /\
    enemySpawns z =
      (let g := generateEnemySpawns t (enemyPool act) dE (width z) (height z)
                  (spawn z) ex r1 in
       fst (applyPackDirector data (fst g) (enemyPool act) (spawn z) ex
              (snd g))) /\
    eliteSpawns z =
      fst (generateEliteSpawns t (elitePool act) dL (width z) (height z) r3) /\
    obstacles z =
      fst (generateObstacles t dO (width z) (height z)
             (Some (orDefaultZ (opt_depth opts) 1))
             (Some (numberOr (opt_mods opts) [])) r4) /\
    decorations z =
      fst (generateDecorations t (act_biome act) (width z) (height z) r5).
Proof.
  cbv zeta. unfold generate, generateWith.
  destruct (densities _ _ _ _) as [[dE dL] dO].
  unfold bind.
  destruct (dimensions _ _ _ _) as [[w h] r0].
  destruct (generateSpawnPoint w h r0) as [sp ra].
  destruct (generateParallax _ _ w h ra) as [px r1].
  destruct (generateExitPoint sp w h r1) as [ex r1'].
  destruct (generateEnemySpawns _ _ dE w h sp ex r1') as [es r2] eqn:Ees.
  destruct (applyPackDirector data es _ sp ex r2) as [es' r3] eqn:Epk.
  destruct (generateEliteSpawns _ _ dL w h r3) as [el r4] eqn:Eel.
  destruct (generateObstacles _ dO w h _ _ r4) as [ob r5] eqn:Eob.
  destruct (generateDecorations _ _ w h r5) as [de r6] eqn:Ede.
  simpl.
  exists ex, dE, dL, dO, r1', r3, r4, r5.
  rewrite Ees. simpl. rewrite Epk, Eel, Eob, Ede. simpl. auto.
Qed.

(** *** Counts *)

Lemma enemySpawnLoop_length (fuel : nat) (count : Z) (pool : list string)
    (mS mE mB w h : Q) (sp ex : Point) (spawns : list Spawn) (r : rng) :
  (Z.of_nat (length (fst (enemySpawnLoop fuel count pool mS mE mB w h sp ex
                            spawns r)))
   <= Z.max count (Z.of_nat (length spawns)))%Z.
Proof.
  revert spawns r. induction fuel as [|fuel IH]; intros spawns r; simpl.
  - lia.
  - destruct (Z.of_nat (length spawns) <? count)%Z eqn:Hlt; [|simpl; lia].
    apply Z.ltb_lt in Hlt.
    unfold bind, range. destruct (rng_range 100 (w - 100) r) as [x r1].
    destruct (rng_range 100 (h - 100) r1) as [y r2].
    destruct (Qltb _ mS); [etransitivity; [apply IH|lia]|].
    destruct (Qltb _ mE); [etransitivity; [apply IH|lia]|].
    destruct (existsb _ spawns); [etransitivity; [apply IH|lia]|].
    destruct (pick pool r2) as [ty r3].
    destruct (pick _ r3) as [pa r4].
    destruct (int 50 150 r4) as [pr r5].
    etransitivity; [apply IH|]. rewrite length_app. simpl. lia.
Qed.

Lemma generateEnemySpawns_length (t : Tuning) (pool : list string)
    (density w h : Q) (sp ex : Point) (r : rng) :
  (Z.of_nat (length (fst (generateEnemySpawns t pool density w h sp ex r)))
   <= Z.max 0 (numberOr (maxEnemySpawnsPerZone t) 120))%Z.
Proof.
  unfold generateEnemySpawns.
  etransitivity; [apply enemySpawnLoop_length|].
  unfold enemyCount. simpl. lia.
Qed.

Lemma generateEliteSpawns_length (t : Tuning) (pool : list string)
    (density w h : Q) (r : rng) :
  length (fst (generateEliteSpawns t pool density w h r))
  = Z.to_nat (eliteCount t w h density).
Proof. unfold generateEliteSpawns. apply pushLoop_length. Qed.

Lemma generateObstacles_length (t : Tuning) (density w h : Q)
    (d : option Z) (m : option (list string)) (r : rng) :
  length (fst (generateObstacles t density w h d m r))
  = Z.to_nat (obstacleCount t w h density).
Proof. unfold generateObstacles. apply pushLoop_length. Qed.

Lemma generateDecorations_length (t : Tuning) (b : option string)
    (w h : Q) (r : rng) :
  length (fst (generateDecorations t b w h r))
  = Z.to_nat (decorationCount t w h).
Proof. unfold generateDecorations. apply pushLoop_length. Qed.

(** Without pack templates the pack director hands its input back. *)
Lemma applyPackDirector_no_templates (data : StateData)
    (spawns : list Spawn) (pool : list string) (sp ex : Point) (r : rng) :
  noPackTemplates data ->
  applyPackDirector data spawns pool sp ex r = (spawns, r).
Proof.
  unfold noPackTemplates, applyPackDirector. intros H.
  destruct (packs data) as [pd|]; [|reflexivity].
  destruct H as [H|H]; rewrite H; reflexivity.
Qed.

(** C3 (as amended).  The counts of a generated zone are bounded as
    follows: [generateEnemySpawns] returns at most
    [max(0, maxEnemySpawnsPerZone)] descriptors, and so does the zone's
    final enemy list when no pack templates are configured (no packs file,
    or one whose [templates] is absent or empty); the elite list has at
    most [max(1, maxEliteSpawnsPerZone)] entries; obstacles and
    decorations have at most [max(0, cap)] entries each. *)
Theorem zone_counts_within_caps :
  (forall (t : Tuning) (pool : list string) (density w h : Q)
          (sp ex : Point) (r : rng),
      (Z.of_nat (length (fst (generateEnemySpawns t pool density w h sp ex r)))
       <= Z.max 0 (numberOr (maxEnemySpawnsPerZone t) 120))%Z) /\
  (forall (data : StateData) (act : ActConfig) (zoneSeed : Z)
          (opts : Options),
      noPackTemplates data ->
      (Z.of_nat (length (enemySpawns (generate data act zoneSeed opts)))
       <= Z.max 0 (numberOr (maxEnemySpawnsPerZone (tuningOf data)) 120))%Z) /\
  (forall (data : StateData) (act : ActConfig) (zoneSeed : Z)
          (opts : Options),
      let z := generate data act zoneSeed opts in
      let t := tuningOf data in
      (Z.of_nat (length (eliteSpawns z))
       <= Z.max 1 (numberOr (maxEliteSpawnsPerZone t) 8))%Z /\
      (Z.of_nat (length (obstacles z))
       <= Z.max 0 (numberOr (maxObstaclesPerZone t) 2500))%Z /\
      (Z.of_nat (length (decorations z))
       <= Z.max 0 (numberOr (maxDecorationsPerZone t) 6000))%Z).
Proof.
  split; [|split].
  - intros. apply generateEnemySpawns_length.
  - intros data act zoneSeed opts Hno.
    destruct (generate_parts data act zoneSeed opts)
      as (ex & dE & dL & dO & r1 & r3 & r4 & r5 & _ & Hen & _).
    cbv zeta in Hen. rewrite Hen.
    rewrite applyPackDirector_no_templates by exact Hno. simpl fst.
    apply generateEnemySpawns_length.
  - intros data act zoneSeed opts z t.
    destruct (generate_parts data act zoneSeed opts)
      as (ex & dE & dL & dO & r1 & r3 & r4 & r5 & _ & _ & Hel & Hob & Hde).
    fold z t in Hel, Hob, Hde. rewrite Hel, Hob, Hde.
    rewrite generateEliteSpawns_length, generateObstacles_length,
      generateDecorations_length.
    unfold eliteCount, obstacleCount, decorationCount. cbv zeta.
    repeat split; lia.
Qed.

(** C10.  Every zone returned by [generate] has at least one elite spawn
    descriptor, whatever the density and the configured cap. *)
Theorem zone_has_an_elite (data : StateData) (act : ActConfig)
    (zoneSeed : Z) (opts : Options) :
  (1 <= length (eliteSpawns (generate data act zoneSeed opts)))%nat.
Proof.
  destruct (generate_parts data act zoneSeed opts)
    as (ex & dE & dL & dO & r1 & r3 & r4 & r5 & _ & _ & Hel & _).
  cbv zeta in Hel. rewrite Hel, generateEliteSpawns_length.
  unfold eliteCount. cbv zeta. lia.
Qed.

(** *** Spacing *)

Lemma pushLoop_Forall {A : Type} (P : A -> Prop) (n i : nat)
    (body : nat -> Gen A) (r : rng) :
  (forall j s, P (fst (body j s))) -> Forall P (fst (pushLoop n i body r)).
Proof.
  intros Hb. revert i r. induction n as [|n IH]; intros i r; simpl.
  - constructor.
  - unfold bind. pose proof (Hb i r) as Ha. destruct (body i r) as [a r1].
    specialize (IH (S i) r1).
    destruct (pushLoop n (S i) body r1) as [rest r2]. simpl in *.
    constructor; assumption.
Qed.

Lemma ForallOrdPairs_snoc {A : Type} (Rel : A -> A -> Prop) (l : list A)
    (x : A) :
  ForallOrdPairs Rel l -> Forall (fun a => Rel a x) l ->
  ForallOrdPairs Rel (l ++ [x]).
Proof.
  induction 1 as [|a l Ha Hl IH]; intros Hx; simpl.
  - constructor; constructor.
  - inversion Hx; subst. constructor.
    + apply Forall_app. split; [assumption|]. constructor; [assumption|].
      constructor.
    + apply IH. assumption.
Qed.

Lemma Forall_of_sublist {A : Type} (P : A -> Prop) (l k : list A) :
  sublist l k -> Forall P k -> Forall P l.
Proof.
  induction 1 as [|x l k Hs IH|x l k Hs IH]; intros Hk.
  - constructor.
  - inversion Hk; subst. constructor; [assumption|]. apply IH. assumption.
  - inversion Hk; subst. apply IH. assumption.
Qed.

Lemma ForallOrdPairs_sublist {A : Type} (Rel : A -> A -> Prop)
    (l k : list A) :
  sublist l k -> ForallOrdPairs Rel k -> ForallOrdPairs Rel l.
Proof.
  induction 1 as [|x l k Hs IH|x l k Hs IH]; intros Hk.
  - constructor.
  - inversion Hk; subst. constructor.
    + eapply Forall_of_sublist; eassumption.
    + apply IH. assumption.
  - inversion Hk; subst. apply IH. assumption.
Qed.

Lemma existsb_false_Forall {A : Type} (f : A -> bool) (l : list A) :
  existsb f l = false -> Forall (fun a => f a = false) l.
Proof.
  induction l as [|a l IH]; simpl; intros H; constructor.
  - apply orb_false_iff in H. tauto.
  - apply IH. apply orb_false_iff in H. tauto.
Qed.

Lemma enemySpawnLoop_spaced (fuel : nat) (count : Z) (pool : list string)
    (mS mE mB w h : Q) (sp ex : Point) (spawns : list Spawn) (r : rng) :
  Forall (farFrom sp mS) spawns /\ Forall (farFrom ex mE) spawns /\
  ForallOrdPairs (apart mB) spawns /\ Forall unpacked spawns ->
  let out := fst (enemySpawnLoop fuel count pool mS mE mB w h sp ex
                    spawns r) in
  Forall (farFrom sp mS) out /\ Forall (farFrom ex mE) out /\
  ForallOrdPairs (apart mB) out /\ Forall unpacked out.
Proof.
  revert spawns r. induction fuel as [|fuel IH]; intros spawns r Hinv;
    cbv zeta; simpl.
  - exact Hinv.
  - destruct (Z.of_nat (length spawns) <? count)%Z; [|exact Hinv].
    unfold bind, range. destruct (rng_range 100 (w - 100) r) as [x r1].
    destruct (rng_range 100 (h - 100) r1) as [y r2].
    destruct (Qltb _ mS) eqn:HS; [apply IH; exact Hinv|].
    destruct (Qltb _ mE) eqn:HE; [apply IH; exact Hinv|].
    destruct (existsb _ spawns) eqn:HB; [apply IH; exact Hinv|].
    destruct (pick pool r2) as [ty r3].
    destruct (pick _ r3) as [pa r4].
    destruct (int 50 150 r4) as [pr r5].
    apply IH. destruct Hinv as (H1 & H2 & H3 & H4).
    apply Qltb_false in HS. apply Qltb_false in HE.
    apply existsb_false_Forall in HB.
    repeat split.
    + apply Forall_app. split; [assumption|]. constructor; [|constructor].
      exact HS.
    + apply Forall_app. split; [assumption|]. constructor; [|constructor].
      exact HE.
    + apply ForallOrdPairs_snoc; [assumption|].
      eapply Forall_impl; [exact HB|]. intros a Ha. simpl in Ha.
      unfold apart. simpl. apply Qltb_false in Ha. exact Ha.
    + apply Forall_app. split; [assumption|]. constructor; [|constructor].
      reflexivity.
Qed.

Lemma generateEnemySpawns_spaced (t : Tuning) (pool : list string)
    (density w h : Q) (sp ex : Point) (r : rng) :
  let out := fst (generateEnemySpawns t pool density w h sp ex r) in
  wellSpaced t sp ex out /\ Forall unpacked out.
Proof.
  cbv zeta. unfold generateEnemySpawns, wellSpaced.
  edestruct enemySpawnLoop_spaced as (H1 & H2 & H3 & H4);
    [|repeat split; [exact H1|exact H2|exact H3|exact H4]].
  repeat split; constructor.
Qed.

(** Every descriptor the pack director creates carries a pack id. *)
Lemma packMember_packed (anchor : Spawn) (tpl : PackTemplate)
    (mt : option (list (option string))) (size : Z) (pool : list string)
    (spacing : Q) (m : nat) (r : rng) :
  ~ unpacked (fst (packMember anchor tpl mt size pool spacing m r)).
Proof.
  unfold packMember, bind, range, ret, unpacked.
  destruct (rng_range 0 _ r) as [angle r1].
  destruct (rng_range 30 spacing r1) as [dist r2].
  match goal with
  | |- context [let (_, _) := ?c in _] => destruct c as [ty0 r3]
  end.
  destruct (truthyStr ty0); [simpl; discriminate|].
  destruct (pick pool r3) as [ty r4]. simpl. discriminate.
Qed.

Lemma packLoop_out_packed (t0 : PackTemplate) (ts : list PackTemplate)
    (pc : Q) (minSize maxSize maxPacks : Z) (spacing mS mE : Q)
    (spawns : list Spawn) (pool : list string) (sp ex : Point)
    (order : list nat) (acc : PackAcc) (r : rng) :
  Forall (fun s => ~ unpacked s) (pk_out acc) ->
  Forall (fun s => ~ unpacked s)
    (pk_out (fst (packLoop t0 ts pc minSize maxSize maxPacks spacing mS mE
                    spawns pool sp ex order acc r))).
Proof.
  revert acc r. induction order as [|i rest IH]; intros acc r Hacc; simpl.
  - exact Hacc.
  - destruct (pk_made acc <? maxPacks)%Z; [|exact Hacc].
    destruct (bool_decide (i ∈ pk_used acc)); [apply IH; exact Hacc|].
    destruct (spawns !! i) as [anchor|]; [|apply IH; exact Hacc].
    destruct (negb (validAnchor mS mE sp ex anchor)); [apply IH; exact Hacc|].
    unfold bind, range. destruct (rng_range 0 1 r) as [c r1].
    destruct (Qltb pc c); [apply IH; exact Hacc|].
    destruct (pickTemplate t0 ts r1) as [tpl r2].
    destruct (memberTypesOf tpl r2) as [mt r3].
    match goal with
    | |- context [let (_, _) := ?c in _] => destruct c as [size r4]
    end.
    match goal with
    | |- context [pushLoop ?n ?j ?b ?s] =>
        pose proof (pushLoop_Forall (fun s => ~ unpacked s) n j b s) as Hm;
        destruct (pushLoop n j b s) as [members r5]
    end.
    apply IH. simpl. apply Forall_app. split; [exact Hacc|].
    apply Hm. intros j s. apply packMember_packed.
Qed.

Lemma singles_sublist (i : nat) (spawns : list Spawn) (used : gset nat) :
  sublist (singles i spawns used) spawns.
Proof.
  revert i. induction spawns as [|s spawns IH]; intros i; simpl.
  - constructor.
  - destruct (bool_decide (i ∈ used)).
    + apply sublist_cons. apply IH.
    + apply sublist_skip. apply IH.
Qed.

Lemma filter_none {A : Type} (P : A -> Prop) `{!forall x, Decision (P x)}
    (l : list A) :
  Forall (fun x => ~ P x) l -> filter P l = [].
Proof.
  induction 1 as [|x l Hx Hl IH]; [reflexivity|].
  rewrite filter_cons. destruct (decide (P x)); [contradiction|exact IH].
Qed.

(** The descriptors of the pack director's result that carry no pack id
    are, in order, descriptors of its input. *)
Lemma applyPackDirector_unpacked (data : StateData) (spawns : list Spawn)
    (pool : list string) (sp ex : Point) (r : rng) :
  sublist (filter unpacked (fst (applyPackDirector data spawns pool sp ex r)))
          spawns.
Proof.
  unfold applyPackDirector.
  destruct (packs data) as [pd|]; [|apply sublist_filter].
  destruct (templates pd) as [[|t0 ts]|]; try apply sublist_filter.
  destruct (Z.of_nat (length spawns) <? _)%Z; [apply sublist_filter|].
  unfold bind. destruct (shuffleLoop _ _ r) as [idx r1].
  match goal with
  | |- context [packLoop ?a ?b ?c ?d ?e ?f ?g ?h ?i ?j ?k ?l ?m ?n ?o ?s] =>
      pose proof (packLoop_out_packed a b c d e f g h i j k l m n o s) as Hp;
      destruct (packLoop a b c d e f g h i j k l m n o s) as [acc r2]
  end.
  simpl in *. rewrite filter_app, filter_none; [|apply Hp; constructor].
  simpl. etransitivity; [apply sublist_filter|apply singles_sublist].
Qed.

(** A pack member sits where lines 378-381 put it. *)
Lemma packMember_placed (anchor : Spawn) (tpl : PackTemplate)
    (mt : option (list (option string))) (size : Z) (pool : list string)
    (spacing mS mE : Q) (sp ex : Point) (accepted : list Spawn) (m : nat)
    (r : rng) :
  anchor ∈ accepted -> validAnchor mS mE sp ex anchor = true ->
  placedAround spacing mS mE sp ex accepted
    (fst (packMember anchor tpl mt size pool spacing m r)).
Proof.
  intros Hin Hvalid. unfold packMember, bind, ret.
  destruct (range 0 (Math_PI * 2) r) as [angle r1].
  exists anchor, angle, r1.
  destruct (range 30 spacing r1) as [dist r2].
  match goal with
  | |- context [let (_, _) := ?c in _] => destruct c as [ty0 r3]
  end.
  destruct (truthyStr ty0); [simpl; auto|].
  destruct (pick pool r3) as [ty r4]. simpl. auto.
Qed.

Lemma packLoop_out_Forall (P : Spawn -> Prop) (t0 : PackTemplate)
    (ts : list PackTemplate) (pc : Q) (minSize maxSize maxPacks : Z)
    (spacing mS mE : Q) (spawns : list Spawn) (pool : list string)
    (sp ex : Point) (order : list nat) (acc : PackAcc) (r : rng) :
  (forall anchor tpl mt size m s,
      anchor ∈ spawns -> validAnchor mS mE sp ex anchor = true ->
      P (fst (packMember anchor tpl mt size pool spacing m s))) ->
  Forall P (pk_out acc) ->
  Forall P
    (pk_out (fst (packLoop t0 ts pc minSize maxSize maxPacks spacing mS mE
                    spawns pool sp ex order acc r))).
Proof.
  intros Hmember.
  revert acc r. induction order as [|i rest IH]; intros acc r Hacc; simpl.
  - exact Hacc.
  - destruct (pk_made acc <? maxPacks)%Z; [|exact Hacc].
    destruct (bool_decide (i ∈ pk_used acc)); [apply IH; exact Hacc|].
    destruct (spawns !! i) as [anchor|] eqn:Ei; [|apply IH; exact Hacc].
    destruct (validAnchor mS mE sp ex anchor) eqn:Hv; simpl;
      [|apply IH; exact Hacc].
    unfold bind, range. destruct (rng_range 0 1 r) as [c r1].
    destruct (Qltb pc c); [apply IH; exact Hacc|].
    destruct (pickTemplate t0 ts r1) as [tpl r2].
    destruct (memberTypesOf tpl r2) as [mt r3].
    match goal with
    | |- context [let (_, _) := ?c in _] => destruct c as [size r4]
    end.
    match goal with
    | |- context [pushLoop ?n ?j ?b ?s] =>
        pose proof (pushLoop_Forall P n j b s) as Hm;
        destruct (pushLoop n j b s) as [members r5]
    end.
    apply IH. simpl. apply Forall_app. split; [exact Hacc|].
    apply Hm. intros j s. apply Hmember; [|exact Hv].
    eapply list_elem_of_lookup_2. exact Ei.
Qed.

(** What the pack director returns: descriptors of its input, and pack
    members placed around valid anchors of its input. *)
Lemma applyPackDirector_members (data : StateData) (pd : PacksData)
    (spawns : list Spawn) (pool : list string) (sp ex : Point) (r : rng) :
  packs data = Some pd -> Forall unpacked spawns ->
  Forall (fun s =>
            (unpacked s /\ s ∈ spawns) \/
            (~ unpacked s /\
             placedAround (numberOr (memberSpacing pd) 120)
                          (numberOr (packMinDistFromSpawn pd) 350)
                          (numberOr (packMinDistFromExit pd) 250)
                          sp ex spawns s))
         (fst (applyPackDirector data spawns pool sp ex r)).
Proof.
  intros Hpd Hun. unfold applyPackDirector. rewrite Hpd.
  assert (Hsame : Forall (fun s =>
            (unpacked s /\ s ∈ spawns) \/
            (~ unpacked s /\
             placedAround (numberOr (memberSpacing pd) 120)
                          (numberOr (packMinDistFromSpawn pd) 350)
                          (numberOr (packMinDistFromExit pd) 250)
                          sp ex spawns s)) spawns).
  { apply Forall_forall. intros s Hs. left. split; [|exact Hs].
    rewrite Forall_forall in Hun. apply Hun. exact Hs. }
  destruct (templates pd) as [[|t0 ts]|]; try exact Hsame.
  destruct (Z.of_nat (length spawns) <? _)%Z; [exact Hsame|].
  unfold bind. destruct (shuffleLoop _ _ r) as [idx r1].
  match goal with
  | |- context [packLoop ?a ?b ?c ?d ?e ?f ?g ?h ?i ?j ?k ?l ?m ?n ?o ?s] =>
      pose proof (packLoop_out_Forall
                    (fun s => ~ unpacked s /\
                              placedAround g h i l m j s)
                    a b c d e f g h i j k l m n o s) as Hp;
      destruct (packLoop a b c d e f g h i j k l m n o s) as [acc r2]
  end.
  simpl in *. apply Forall_app. split.
  - eapply Forall_impl; [apply Hp|].
    + intros anchor tpl mt size m s Hin Hv. split.
      * apply packMember_packed.
      * apply packMember_placed; assumption.
    + constructor.
    + intros s Hs. right. exact Hs.
  - eapply Forall_of_sublist; [apply singles_sublist|exact Hsame].
Qed.

(** C4 (as amended).  Every descriptor accepted by [generateEnemySpawns]
    lies at least the configured minimum distance from the spawn point
    (default 300), from the exit point (default 200) and from every
    descriptor accepted before it (default 150); in a generated zone this
    holds of the descriptors of the final list that the pack director did
    not emit.  A descriptor the pack director emitted sits at
    [anchor + dist * (cos angle, sin angle)] around an accepted descriptor
    that is a valid anchor (at least [minDistFromSpawn], default 350, from
    the spawn point and [minDistFromExit], default 250, from the exit),
    with [dist] drawn by [rng.range(30, memberSpacing)]; it is not held to
    the three minimums. *)
Theorem unpacked_spawns_well_spaced :
  (forall (t : Tuning) (pool : list string) (density w h : Q)
          (sp ex : Point) (r : rng),
      wellSpaced t sp ex
        (fst (generateEnemySpawns t pool density w h sp ex r))) /\
  (forall (data : StateData) (act : ActConfig) (zoneSeed : Z)
          (opts : Options),
      let z := generate data act zoneSeed opts in
      exists ex : Point,
        exit z = Some ex /\
        wellSpaced (tuningOf data) (spawn z) ex
          (filter unpacked (enemySpawns z))) /\
  (forall (data : StateData) (pd : PacksData) (act : ActConfig)
          (zoneSeed : Z) (opts : Options),
      packs data = Some pd ->
      let z := generate data act zoneSeed opts in
      exists (ex : Point) (accepted : list Spawn),
        exit z = Some ex /\
        wellSpaced (tuningOf data) (spawn z) ex accepted /\
        Forall (fun s =>
                  (unpacked s /\ s ∈ accepted) \/
                  (~ unpacked s /\
                   placedAround (numberOr (memberSpacing pd) 120)
                                (numberOr (packMinDistFromSpawn pd) 350)
                                (numberOr (packMinDistFromExit pd) 250)
                                (spawn z) ex accepted s))
               (enemySpawns z)).
Proof.
  split; [|split].
  - intros. apply generateEnemySpawns_spaced.
  - intros data act zoneSeed opts z.
    destruct (generate_parts data act zoneSeed opts)
      as (ex & dE & dL & dO & r1 & r3 & r4 & r5 & Hex & Hen & _).
    fold z in Hex, Hen. exists ex. split; [exact Hex|].
    cbv zeta in Hen. rewrite Hen.
    match goal with
    | |- context [applyPackDirector data (fst ?g) ?p ?a ?b (snd ?g)] =>
        pose proof (applyPackDirector_unpacked data (fst g) p a b (snd g))
          as Hsub
    end.
    destruct (generateEnemySpawns_spaced (tuningOf data) (enemyPool act) dE
                (width z) (height z) (spawn z) ex r1)
      as ((H1 & H2 & H3) & _).
    repeat split.
    + eapply Forall_of_sublist; [exact Hsub|exact H1].
    + eapply Forall_of_sublist; [exact Hsub|exact H2].
    + eapply ForallOrdPairs_sublist; [exact Hsub|exact H3].
  - intros data pd act zoneSeed opts Hpd z.
    destruct (generate_parts data act zoneSeed opts)
      as (ex & dE & dL & dO & r1 & r3 & r4 & r5 & Hex & Hen & _).
    fold z in Hex, Hen. cbv zeta in Hen.
    destruct (generateEnemySpawns_spaced (tuningOf data) (enemyPool act) dE
                (width z) (height z) (spawn z) ex r1)
      as (Hspaced & Hun).
    exists ex, (fst (generateEnemySpawns (tuningOf data) (enemyPool act) dE
                       (width z) (height z) (spawn z) ex r1)).
    split; [exact Hex|]. split; [exact Hspaced|].
    rewrite Hen. apply applyPackDirector_members; assumption.
Qed.

(** *** Determinism *)

Lemma hasMod_ext (l1 l2 : list string) :
  (forall m : string, m ∈ l1 <-> m ∈ l2) ->
  forall n : string, hasMod l1 n = hasMod l2 n.
Proof. intros H n. unfold hasMod. apply bool_decide_ext, H. Qed.

Lemma densities_mods (t : Tuning) (cfg : GenerationCfg) (depth : Z)
    (l1 l2 : list string) :
  (forall m : string, m ∈ l1 <-> m ∈ l2) ->
  densities t cfg depth l1 = densities t cfg depth l2.
Proof.
  intros H. unfold densities. rewrite !(hasMod_ext l1 l2 H). reflexivity.
Qed.

Lemma dimensions_mods (t : Tuning) (cfg : GenerationCfg)
    (l1 l2 : list string) (r : rng) :
  (forall m : string, m ∈ l1 <-> m ∈ l2) ->
  dimensions t cfg l1 r = dimensions t cfg l2 r.
Proof.
  intros H. unfold dimensions. rewrite !(hasMod_ext l1 l2 H). reflexivity.
Qed.

Lemma generateObstacles_mods (t : Tuning) (density w h : Q) (d : option Z)
    (l1 l2 : list string) (r : rng) :
  (forall m : string, m ∈ l1 <-> m ∈ l2) ->
  generateObstacles t density w h d (Some l1) r
  = generateObstacles t density w h d (Some l2) r.
Proof.
  intros H. unfold generateObstacles. apply pushLoop_ext. intros j s.
  simpl. rewrite (hasMod_ext l1 l2 H). reflexivity.
Qed.

(** C1.  [generate] is a function of the act configuration, the zone
    seed, the options and the fixed tuning and pack data: it draws only
    from the generator it builds from the seed.  Two calls whose options
    agree on the depth and on the set of modifiers return the same zone:
    dimensions, spawn and exit points, enemy and elite lists with their
    packs, obstacles, decorations and parallax. *)
Theorem generate_deterministic (data : StateData) (act : ActConfig)
    (zoneSeed : Z) (o1 o2 : Options) :
  sameOptions o1 o2 ->
  generate data act zoneSeed o1 = generate data act zoneSeed o2.
Proof.
  intros [Hd Hm]. unfold generate, generateWith. rewrite Hd.
  rewrite (densities_mods _ _ _ _ _ Hm).
  destruct (densities _ _ _ _) as [[dE dL] dO].
  unfold bind. rewrite (dimensions_mods _ _ _ _ _ Hm).
  destruct (dimensions _ _ _ _) as [[w h] r0].
  destruct (generateSpawnPoint w h r0) as [sp ra].
  destruct (generateParallax _ _ w h ra) as [px r1].
  destruct (generateExitPoint sp w h r1) as [ex r1'].
  destruct (generateEnemySpawns _ _ dE w h sp ex r1') as [es r2].
  destruct (applyPackDirector data es _ sp ex r2) as [es' r3].
  destruct (generateEliteSpawns _ _ dL w h r3) as [el r4].
  rewrite (generateObstacles_mods _ _ _ _ _ _ _ _ Hm).
  reflexivity.
Qed.

End MapGeneratorFacts.

(** *** Runs on concrete inputs *)

(** C3, on a packs file whose [templates] array is empty. *)
Lemma zone_counts_within_caps_witness :
  let data := mkStateData (Some smallTuning) (Some emptyPacks) in
  noPackTemplates data /\
  (Z.of_nat
     (length (MapGenerator.enemySpawns
                (@MapGenerator.generate (scriptedRandom (fun _ => []))
                   refMath data squareAct 1 noOptions)))
   <= Z.max 0 (numberOr (maxEnemySpawnsPerZone (tuningOf data)) 120))%Z.
Proof.
  cbv zeta.
  assert (Hno : noPackTemplates
                  (mkStateData (Some smallTuning) (Some emptyPacks)))
    by (right; reflexivity).
  split; [exact Hno|].
  destruct (@zone_counts_within_caps (scriptedRandom (fun _ => [])) refMath)
    as (_ & Hfinal & _).
  apply Hfinal. exact Hno.
Defined.

(** C3, counterexample.  With [maxEliteSpawnsPerZone: 0] the generated
    zone still has one elite spawn descriptor, more than the cap. *)
Lemma elite_cap_zero_exceeded :
  let z := @MapGenerator.generate (scriptedRandom (fun _ => [])) refMath
             (mkStateData (Some noElitesTuning) None) squareAct 1 noOptions in
  numberOr (maxEliteSpawnsPerZone noElitesTuning) 8%Z = 0%Z /\
  ~ (Z.of_nat (length (MapGenerator.eliteSpawns z)) <= 0)%Z.
Proof.
  cbv zeta. split; [reflexivity|].
  replace (length _) with 1%nat by (vm_compute; reflexivity). lia.
Qed.

(** C2, the failing input.  On three descriptors with the default pack
    settings, a pack of size 5 forms around one anchor: only three
    descriptors are left to consume, five members are emitted, and the
    result has five entries. *)
Lemma pack_director_inflates :
  let out := fst (@MapGenerator.applyPackDirector
                    (scriptedRandom (fun _ => [])) refMath
                    (mkStateData None (Some defaultPacks)) threeSpawns
                    ["grunt"%string] (mkPoint 100 100) (mkPoint 1900 1900)
                    inflatingDraws) in
  length threeSpawns = 3%nat /\ length out = 5%nat.
Proof. vm_compute. split; reflexivity. Qed.

(** A spawn point in the lower half of the zone, on whichever edge, gets
    its exit on the top edge. *)
Lemma exit_on_top_for_lower_half {R : SeededRandom} (sp : Point) (w h : Q)
    (r : rng) :
  h / 2 < pt_y sp ->
  pt_y (fst (MapGenerator.generateExitPoint sp w h r)) = MapGenerator.margin.
Proof.
  intros Hy. unfold MapGenerator.generateExitPoint.
  apply Qltb_true in Hy. rewrite Hy. unfold bind, range.
  destruct (rng_range _ _ r) as [x r1]. reflexivity.
Qed.

(** C5, the failing input.  The spawn point lies on the left edge, in the
    lower half of the zone; the exit is placed on the top edge
    ([y = 100]), not on the right edge ([x = 1900]). *)
Lemma exit_above_left_spawn :
  let z := @MapGenerator.generate (scriptedRandom (fun _ => leftSpawnDraws))
             refMath (mkStateData (Some smallTuning) None) squareAct 1
             noOptions in
  MapGenerator.width z = 2000 /\ MapGenerator.height z = 2000 /\
  MapGenerator.spawn z = mkPoint 100 1450 /\
  MapGenerator.exit z = Some (mkPoint 1000 100).
Proof. vm_compute. repeat split; reflexivity. Qed.

(** C4, on a zone with the default pack settings: each of its final
    descriptors is an accepted one or a pack member around an accepted
    anchor. *)
Lemma unpacked_spawns_well_spaced_witness :
  let data := mkStateData (Some smallTuning) (Some defaultPacks) in
  let z := @MapGenerator.generate (scriptedRandom (fun _ => packDraws))
             refMath data squareAct 1 noOptions in
  packs data = Some defaultPacks /\
  exists (ex : Point) (accepted : list Spawn),
    MapGenerator.exit z = Some ex /\
    @wellSpaced refMath (tuningOf data) (MapGenerator.spawn z) ex accepted /\
    Forall (fun s =>
              (unpacked s /\ s ∈ accepted) \/
              (~ unpacked s /\
               @placedAround (scriptedRandom (fun _ => packDraws)) refMath
                 (numberOr (memberSpacing defaultPacks) 120)
                 (numberOr (packMinDistFromSpawn defaultPacks) 350)
                 (numberOr (packMinDistFromExit defaultPacks) 250)
                 (MapGenerator.spawn z) ex accepted s))
           (MapGenerator.enemySpawns z).
Proof.
  cbv zeta. split; [reflexivity|].
  destruct (@unpacked_spawns_well_spaced
              (scriptedRandom (fun _ => packDraws)) refMath)
    as (_ & _ & Hmembers).
  apply (Hmembers (mkStateData (Some smallTuning) (Some defaultPacks))
                  defaultPacks squareAct 1%Z noOptions).
  reflexivity.
Defined.

(** C4, counterexample.  With the default pack settings and the default
    minimum distances, a generated zone has three pack members at
    (1640,1000): they are 260 from the spawn point (1900,1000), below the
    minimum of 300, and at distance 0 from one another, below the minimum
    of 150. *)
Lemma pack_members_break_spacing :
  let z := @MapGenerator.generate (scriptedRandom (fun _ => packDraws))
             refMath (mkStateData (Some smallTuning) (Some defaultPacks))
             squareAct 1 noOptions in
  MapGenerator.spawn z = mkPoint 1900 1000 /\
  map (fun s => (sp_x s, sp_y s)) (MapGenerator.enemySpawns z)
    = [(1640, 1000); (1640, 1000); (1640, 1000)] /\
  ~ Forall (@farFrom refMath (MapGenerator.spawn z) 300)
           (MapGenerator.enemySpawns z) /\
  ~ ForallOrdPairs (@apart refMath 150) (MapGenerator.enemySpawns z).
Proof.
  cbv zeta.
  match goal with
  | |- context [MapGenerator.enemySpawns ?z] =>
      assert (E : MapGenerator.enemySpawns z
                  = replicate 3 (mkSpawn 1640 1000 (Some "grunt"%string)
                                   (Some "static"%string) (Some 50%Z) false
                                   false (Some "pack_mixed"%string) None))
        by (vm_compute; reflexivity);
      assert (S : MapGenerator.spawn z = mkPoint 1900 1000)
        by (vm_compute; reflexivity)
  end.
  rewrite E, S. simpl. repeat split.
  - intros H. inversion H as [|? ? Hh _]; subst.
    vm_compute in Hh. apply Hh. reflexivity.
  - intros H. inversion H as [|? ? Hh _]; subst.
    inversion Hh as [|? ? Hp _]; subst.
    vm_compute in Hp. apply Hp. reflexivity.
Qed.

(** The hypothesis of [generate_deterministic] holds of [optionsA] and
    [optionsB], which differ in how they spell the same request. *)
Lemma generate_deterministic_witness :
  sameOptions optionsA optionsB /\
  @MapGenerator.generate (scriptedRandom (fun _ => packDraws)) refMath
     (mkStateData (Some smallTuning) (Some defaultPacks)) squareAct 7 optionsA
  = @MapGenerator.generate (scriptedRandom (fun _ => packDraws)) refMath
      (mkStateData (Some smallTuning) (Some defaultPacks)) squareAct 7
      optionsB.
Proof.
  assert (H : sameOptions optionsA optionsB).
  { split; [reflexivity|]. intros m. simpl.
    rewrite !elem_of_cons, !elem_of_nil. tauto. }
  split; [exact H|].
  exact (@generate_deterministic (scriptedRandom (fun _ => packDraws)) refMath
           (mkStateData (Some smallTuning) (Some defaultPacks)) squareAct 7
           optionsA optionsB H).
Defined.

(** ** Enemies: the state machine *)

Section EnemiesFacts.
Context {M : JSMath}.
Import Enemies.

(** *** The heal budget *)

Ltac core_tac :=
  repeat first
    [ reflexivity
    | match goal with
      | |- coreOf (if ?c then _ else _) = _ => destruct c
      | |- coreOf (match ?c with _ => _ end) = _ => destruct c
      | |- coreOf (?f _ ?E) = ?R => change (coreOf E = R)
      end ].

Lemma lazyInit_core (m : Q) (e : Enemy) : coreOf (lazyInit m e) = coreOf e.
Proof.
  unfold lazyInit.
  transitivity (coreOf (initHome e)); [|unfold initHome; core_tac].
  generalize (initHome e) as e1. intros e1.
  transitivity (coreOf (initAiState e1)); [|unfold initAiState; core_tac].
  generalize (initAiState e1) as e2. intros e2.
  transitivity (coreOf (initPatrol e2)); [|unfold initPatrol; core_tac].
  generalize (initPatrol e2) as e3. intros e3.
  transitivity (coreOf (initPatrolRadius e3));
    [|unfold initPatrolRadius; core_tac].
  generalize (initPatrolRadius e3) as e4. intros e4.
  transitivity (coreOf (initAggroRange m e4));
    [|unfold initAggroRange; core_tac].
  generalize (initAggroRange m e4) as e5. intros e5.
  transitivity (coreOf (initAttackRange e5));
    [|unfold initAttackRange; core_tac].
  generalize (initAttackRange e5) as e6. intros e6.
  transitivity (coreOf (initDisengageRange e6));
    [|unfold initDisengageRange; core_tac].
  generalize (initDisengageRange e6) as e7. intros e7.
  transitivity (coreOf (initLeashRange e7));
    [|unfold initLeashRange; core_tac].
  generalize (initLeashRange e7) as e8. intros e8.
  unfold initReturnThreshold. core_tac.
Qed.

Lemma aiTransition_core (p : Player) (e : Enemy) :
  coreOf (aiTransition p e) = coreOf e.
Proof. unfold aiTransition. core_tac. Qed.

Lemma set_velocity_core (vx vy : Q) (e : Enemy) :
  coreOf (set_vy vy (set_vx vx e)) = coreOf e.
Proof. reflexivity. Qed.

Lemma baseAI_core (steer : Steering) (m : Q) (p : Player) (i : nat)
    (e : Enemy) :
  coreOf (baseAI steer m p i e) = coreOf e.
Proof.
  unfold baseAI. destruct (steer i _) as [vx vy].
  rewrite set_velocity_core, aiTransition_core. apply lazyInit_core.
Qed.

Lemma integrate_core (dt zw zh : Q) (e : Enemy) :
  coreOf (integrate dt zw zh e) = coreOf e.
Proof. reflexivity. Qed.

Lemma tracks_core (c dt : Q) (hb : gmap string Q) (e0 e e' : Enemy) :
  coreOf e' = coreOf e -> tracks c dt hb e0 e -> tracks c dt hb e0 e'.
Proof.
  unfold coreOf, tracks. intros H. injection H as -> -> -> _ -> ->. tauto.
Qed.

Lemma tracks_write (c dt : Q) (hb : gmap string Q) (l0 l : list Enemy)
    (i : nat) (e0 e' : Enemy) :
  Forall2 (tracks c dt hb) l0 l -> l0 !! i = Some e0 ->
  tracks c dt hb e0 e' -> Forall2 (tracks c dt hb) l0 (<[i := e']> l).
Proof.
  intros HF H0 Ht. rewrite <- (list_insert_id l0 i e0 H0).
  apply Forall2_insert; assumption.
Qed.

Lemma tracks_write_core (c dt : Q) (hb : gmap string Q) (l0 l : list Enemy)
    (i : nat) (e e' : Enemy) :
  Forall2 (tracks c dt hb) l0 l -> l !! i = Some e ->
  coreOf e' = coreOf e -> Forall2 (tracks c dt hb) l0 (<[i := e']> l).
Proof.
  intros HF He Hc.
  destruct (Forall2_lookup_r _ _ _ _ _ HF He) as (e0 & H0 & Ht).
  eapply tracks_write; [exact HF|exact H0|].
  eapply tracks_core; eassumption.
Qed.

Lemma budgetOf_insert (hb : gmap string Q) (id id' : string) (v : Q) :
  budgetOf hb id <= v ->
  budgetOf hb id' <= budgetOf (<[id := v]> hb) id'.
Proof.
  intros Hv. unfold budgetOf in *. rewrite lookup_insert.
  destruct (decide (id = id')) as [->|Hne]; simpl; [exact Hv|lra].
Qed.

Lemma healGrant_positive (cfg : RepairCfg) (dt : Q) (best : Enemy) (used : Q) :
  0 < healGrant cfg dt best used ->
  healGrant cfg dt best used
  <= e_maxHP best * capPctMaxHpPerSec cfg * dt - used.
Proof.
  unfold healGrant, Qmax. destruct (Qltb 0 _) eqn:E; [|lra].
  intros _. apply Qmin_le_r.
Qed.

Lemma tracks_budget (c dt : Q) (hb hb' : gmap string Q) (l0 l : list Enemy) :
  (forall id, budgetOf hb id <= budgetOf hb' id) ->
  Forall2 (tracks c dt hb) l0 l -> Forall2 (tracks c dt hb') l0 l.
Proof.
  intros Hb HF. eapply Forall2_impl; [exact HF|]. intros e0 e.
  unfold tracks. intros (H1 & H2 & H3 & H4 & H5 & H6 & H7 & H8).
  repeat split; try assumption. specialize (Hb (e_id e0)). lra.
Qed.

(** A heal keeps the invariant: the budget of the target's id grows by
    the grant, and the grant fits under the cap. *)
Lemma applyHeal_tracks (c dt : Q) (cfg : RepairCfg) (e : Enemy) (j : nat)
    (e0 best : Enemy) (l0 l : list Enemy) (hb : gmap string Q) :
  capPctMaxHpPerSec cfg == c ->
  Forall2 (tracks c dt hb) l0 l -> l0 !! j = Some e0 ->
  tracks c dt hb e0 best ->
  Forall2 (tracks c dt (snd (applyHeal cfg dt e j best l hb))) l0
          (fst (applyHeal cfg dt e j best l hb)).
Proof.
  intros Hc HF H0 Ht. unfold applyHeal.
  destruct (Qleb _ (rep_range cfg) && Qltb 0 (e_hp best)
            && Qltb (e_hp best) (e_maxHP best)) eqn:Hcond;
    [|exact HF].
  apply andb_true_iff in Hcond as [_ Hlt]. apply Qltb_true in Hlt.
  set (used := default 0 (hb !! e_id best)).
  destruct (Qltb 0 (healGrant cfg dt best used)) eqn:Hg; [|exact HF].
  apply Qltb_true in Hg. pose proof (healGrant_positive _ _ _ _ Hg) as Hle.
  set (grant := healGrant cfg dt best used) in *. simpl.
  destruct Ht as (T1 & T2 & T3 & T4 & T5 & T6 & T7 & T8).
  assert (Hused : budgetOf hb (e_id e0) = used)
    by (unfold used, budgetOf; rewrite T1; reflexivity).
  rewrite Hused in T8.
  assert (Hcap : e_maxHP best * capPctMaxHpPerSec cfg * dt
                 == e_maxHP e0 * c * dt) by (rewrite Hc, T2; reflexivity).
  rewrite Hcap in Hle. set (cap := e_maxHP e0 * c * dt) in *.
  pose proof (Qmin_le_l (e_maxHP best) (e_hp best + grant)) as Hm1.
  pose proof (Qmin_le_r (e_maxHP best) (e_hp best + grant)) as Hm2.
  assert (Hm3 : e_hp best <= Qmin (e_maxHP best) (e_hp best + grant))
    by (unfold Qmin; destruct (Qltb _ _); lra).
  eapply tracks_write; [|exact H0|].
  - eapply tracks_budget; [|exact HF]. intros id.
    apply budgetOf_insert. change (used <= used + grant). lra.
  - unfold tracks. simpl. rewrite T1.
    unfold budgetOf. rewrite lookup_insert_eq. simpl.
    fold cap. rewrite T2 in Hm1, Hm2, Hm3 |- *.
    repeat split; try assumption; try reflexivity; lra.
Qed.

Lemma updateRepairDroneAI_tracks (c dt : Q) (p : Player) (i : nat)
    (e : Enemy) (l0 l : list Enemy) (hb : gmap string Q) :
  capPctOf e == c -> l !! i = Some e ->
  Forall2 (tracks c dt hb) l0 l ->
  Forall2 (tracks c dt (snd (updateRepairDroneAI dt p i e l hb))) l0
          (fst (updateRepairDroneAI dt p i e l hb)).
Proof.
  intros Hc He HF. unfold updateRepairDroneAI.
  destruct (pickTarget e l 0 None _) as [j|] eqn:Hp.
  - destruct (l !! j) as [best|] eqn:Hb.
    + destruct (Forall2_lookup_r _ _ _ _ _ HF Hb) as (e0 & H0 & Ht).
      apply (applyHeal_tracks c dt _ _ j e0 best); [exact Hc| |exact H0|exact Ht].
      eapply tracks_write_core; [exact HF|exact He|reflexivity].
    + simpl. eapply tracks_write_core; [exact HF|exact He|reflexivity].
  - simpl. eapply tracks_write_core; [exact HF|exact He|reflexivity].
Qed.

Lemma updateOne_tracks (steer : Steering) (aggroMult c dt : Q) (p : Player)
    (zw zh : Q) (i : nat) (l0 l : list Enemy) (hb : gmap string Q) :
  sharedRepairCap c l0 ->
  Forall2 (tracks c dt hb) l0 l ->
  Forall2 (tracks c dt (snd (updateOne steer aggroMult dt p zw zh i (l, hb))))
          l0 (fst (updateOne steer aggroMult dt p zw zh i (l, hb))).
Proof.
  intros Hshared HF. unfold updateOne.
  destruct (l !! i) as [e|] eqn:He; [|exact HF].
  destruct (e_dead e); [exact HF|].
  assert (Hai : Forall2
            (tracks c dt
               (snd (updateExplorationAI steer aggroMult dt p i e l hb)))
            l0 (fst (updateExplorationAI steer aggroMult dt p i e l hb))).
  { unfold updateExplorationAI.
    destruct (hasAbility e "repairTether") eqn:Hab.
    - destruct (Forall2_lookup_r _ _ _ _ _ HF He) as (e0 & H0 & Ht).
      apply updateRepairDroneAI_tracks; [|exact He|exact HF].
      destruct Ht as (_ & _ & Ha & Hr & _).
      assert (Hc0 : capPctOf e0 == c).
      { apply Hshared; [eapply list_elem_of_lookup_2; exact H0|].
        unfold hasAbility in *. rewrite <- Ha. exact Hab. }
      unfold capPctOf in *. rewrite Hr. exact Hc0.
    - simpl. eapply tracks_write_core; [exact HF|exact He|].
      apply baseAI_core. }
  destruct (updateExplorationAI steer aggroMult dt p i e l hb) as [l1 hb1].
  simpl in Hai. destruct (l1 !! i) as [e1|] eqn:He1; [|exact Hai].
  simpl. eapply tracks_write_core; [exact Hai|exact He1|].
  apply integrate_core.
Qed.

Lemma updateLoop_tracks (steer : Steering) (aggroMult c dt : Q) (p : Player)
    (zw zh : Q) (n i : nat) (l0 l : list Enemy) (hb : gmap string Q) :
  sharedRepairCap c l0 ->
  Forall2 (tracks c dt hb) l0 l ->
  Forall2 (tracks c dt
             (snd (updateLoop steer aggroMult dt p zw zh n i (l, hb))))
          l0 (fst (updateLoop steer aggroMult dt p zw zh n i (l, hb))).
Proof.
  intros Hshared. revert i l hb. induction n as [|n IH]; intros i l hb HF;
    [exact HF|].
  change (updateLoop steer aggroMult dt p zw zh (S n) i (l, hb))
    with (updateLoop steer aggroMult dt p zw zh n (S i)
            (updateOne steer aggroMult dt p zw zh i (l, hb))).
  pose proof (updateOne_tracks steer aggroMult c dt p zw zh i l0 l hb
                Hshared HF) as H1.
  destruct (updateOne steer aggroMult dt p zw zh i (l, hb)) as [l1 hb1].
  apply IH. exact H1.
Qed.

Lemma tracks_start (c dt : Q) (l : list Enemy) :
  Forall2 (tracks c dt ∅) l l.
Proof.
  induction l as [|e l IH]; constructor; [|exact IH].
  unfold tracks, budgetOf. rewrite lookup_empty. simpl.
  repeat split; try reflexivity; try tauto; lra.
Qed.

(** C9.  Within one [update] tick, whatever the number of support
    entities that share the cap fraction [c] and whichever targets they
    choose, every entity keeps its identity and maximum hp, its hp rises by
    at most [maxHP * c * dt] (for non-negative [dt], [c] and [maxHP]), and
    an hp at or below the maximum stays at or below it.  [update] returns
    these entities, without the dead ones. *)
Theorem heal_within_shared_cap (steer : Steering) (aggroMult dt : Q)
    (p : Player) (zw zh : Q) (c : Q) (enemies0 : list Enemy) :
  0 <= dt -> 0 <= c -> sharedRepairCap c enemies0 ->
  let out := fst (updateLoop steer aggroMult dt p zw zh (length enemies0) 0
                    (enemies0, ∅)) in
  Forall2 (healedWithin c dt) enemies0 out /\
  update steer aggroMult dt p zw zh enemies0
  = filter (fun e => e_dead e = false) out.
Proof.
  intros Hdt Hc Hshared. cbv zeta. split; [|reflexivity].
  pose proof (updateLoop_tracks steer aggroMult c dt p zw zh
                (length enemies0) 0 enemies0 enemies0 ∅ Hshared
                (tracks_start c dt enemies0)) as H.
  eapply Forall2_impl; [exact H|]. intros e0 e.
  unfold tracks, healedWithin.
  intros (H1 & H2 & _ & _ & H5 & H6 & H7 & _).
  repeat split; try assumption.
  intros Hmax.
  assert (Hcap : 0 <= e_maxHP e0 * c * dt).
  { apply Qmult_le_0_compat; [apply Qmult_le_0_compat|]; assumption. }
  destruct H6; lra.
Qed.

End EnemiesFacts.

(** C6.  The code at an input where it departs from the three rules: an
    aggro entity 1000 from home, beyond its leash range of 748, stays
    aggro because the player is within aggro range, where the second rule
    (and the condition of the second branch itself) gives return; and a
    returning entity that has arrived home turns aggro, not patrol, for
    the same reason. *)
Lemma leash_yields_to_aggro :
  let e := kitedEnemy in
  let p := nearbyPlayer in
  let r := returningEnemy in
  let q := playerAtHome in
  @Enemies.gtOpt (@Enemies.distToHome refMath e) (e_leashRange e) = true /\
  e_aiState (@Enemies.aiTransition refMath p e) = Some Aggro /\
  threeRulesSpec (e_aiState e)
    (Enemies.leOpt (@Enemies.distToPlayer refMath p e) (e_aggroRange e))
    (Enemies.gtOpt (@Enemies.distToPlayer refMath p e) (e_disengageRange e))
    (Enemies.gtOpt (@Enemies.distToHome refMath e) (e_leashRange e))
    (Enemies.leOpt (@Enemies.distToHome refMath e) (e_returnThreshold e))
    = Some Return /\
  Enemies.leOpt (@Enemies.distToHome refMath r) (e_returnThreshold r) = true /\
  e_aiState (@Enemies.aiTransition refMath q r) = Some Aggro.
Proof. vm_compute. repeat split; reflexivity. Qed.

(** ** World: despawn *)

Section WorldFacts.
Context {M : JSMath}.
Import World.

Lemma findIndexById_ids (id : option string) (l1 l2 : list Enemy) (k : nat) :
  e_id <$> l1 = e_id <$> l2 ->
  findIndexById id l1 k = findIndexById id l2 k.
Proof.
  revert l2 k. induction l1 as [|a l1 IH]; intros [|b l2] k H; simpl in *;
    try discriminate; [reflexivity|].
  injection H as Hh Ht. rewrite Hh.
  destruct (bool_decide (Some (e_id b) = id)); [reflexivity|].
  apply IH. exact Ht.
Qed.

Lemma forceReturn_id (e : Enemy) : e_id (forceReturn e) = e_id e.
Proof. unfold forceReturn. destruct (bool_decide _); reflexivity. Qed.

Lemma forceReturn_not_aggro (e : Enemy) :
  e_aiState (forceReturn e) <> Some Aggro.
Proof.
  unfold forceReturn. case_bool_decide; simpl; [discriminate|assumption].
Qed.

Lemma forceReturn_place (e : Enemy) :
  e_x (forceReturn e) = e_x e /\ e_y (forceReturn e) = e_y e /\
  homeThreshold (forceReturn e) = homeThreshold e.
Proof. unfold forceReturn. destruct (bool_decide _); simpl; auto. Qed.

Lemma ids_insert_forced (l : list Enemy) (i : nat) (e : Enemy) :
  l !! i = Some e -> e_id <$> <[i := forceReturn e]> l = e_id <$> l.
Proof.
  intros H. rewrite list_fmap_insert, forceReturn_id.
  apply list_insert_id. rewrite list_lookup_fmap, H. reflexivity.
Qed.

Lemma delete_insert_same {A : Type} (l : list A) (i : nat) (x : A) :
  delete i (<[i := x]> l) = delete i l.
Proof.
  revert i. induction l as [|a l IH]; intros [|i]; simpl; try reflexivity.
  f_equal. apply IH.
Qed.

Lemma getSpawn_setSpawn (ref : SpawnRef) (s s0 : Spawn) (ws : WorldState) :
  getSpawn ref ws = Some s0 -> getSpawn ref (setSpawn ref s ws) = Some s.
Proof.
  destruct ref as [[|] k]; unfold getSpawn, setSpawn; simpl; intros H;
    apply list_lookup_insert_eq; eapply lookup_lt_Some; exact H.
Qed.

Lemma despawnEnemy_found (ref : SpawnRef) (spawn s0 : Spawn)
    (ws : WorldState) (i : nat) (e : Enemy) :
  getSpawn ref ws = Some s0 ->
  findIndexById (sp_enemyId spawn) (w_enemies ws) 0 = Some i ->
  w_enemies ws !! i = Some e ->
  let ws' := despawnEnemy ref spawn ws in
  w_enemies ws' = delete i (w_enemies ws) /\
  w_despawned ws' = w_despawned ws ++ [(e, spawn)] /\
  getSpawn ref ws' = Some (setActivation false None spawn).
Proof.
  intros Hs Hf He. cbv zeta. unfold despawnEnemy. rewrite Hf, He.
  destruct ref as [[|] k]; unfold getSpawn, setSpawn in *; simpl in *;
    (repeat split; [apply list_lookup_insert_eq; eapply lookup_lt_Some;
                    exact Hs]).
Qed.

Lemma despawnEnemy_missing (ref : SpawnRef) (spawn : Spawn)
    (ws : WorldState) :
  findIndexById (sp_enemyId spawn) (w_enemies ws) 0 = None \/
  (exists i, findIndexById (sp_enemyId spawn) (w_enemies ws) 0 = Some i /\
             w_enemies ws !! i = None) ->
  let ws' := despawnEnemy ref spawn ws in
  w_enemies ws' = w_enemies ws /\ w_despawned ws' = w_despawned ws.
Proof.
  intros H. cbv zeta. unfold despawnEnemy.
  destruct H as [Hf|(i & Hf & He)]; rewrite Hf; [|rewrite He];
    destruct ref as [[|] k]; unfold setSpawn; simpl; auto.
Qed.

(** The step of the lifecycle on one descriptor that is active and out of
    the despawn window, when [State.enemies] holds an entity with its id. *)
Lemma despawnCheck_found (c : WorldCfg) (despawnMargin : Q) (v : View)
    (ref : SpawnRef) (ws : WorldState) (spawn : Spawn) (i : nat)
    (e : Enemy) :
  getSpawn ref ws = Some spawn ->
  sp_active spawn && shouldDespawn c despawnMargin v spawn = true ->
  findIndexById (sp_enemyId spawn) (w_enemies ws) 0 = Some i ->
  w_enemies ws !! i = Some e ->
  let ws' := despawnCheck c despawnMargin v ref ws in
  let e1 := forceReturn e in
  e_aiState e1 <> Some Aggro /\
  if Qleb (Math_hypot (e_x e - sp_x spawn) (e_y e - sp_y spawn))
          (homeThreshold e)
  then w_enemies ws' = delete i (w_enemies ws) /\
       w_despawned ws' = w_despawned ws ++ [(e1, spawn)] /\
       getSpawn ref ws' = Some (setActivation false None spawn)
  else w_enemies ws' = <[i := e1]> (w_enemies ws) /\
       w_despawned ws' = w_despawned ws /\
       getSpawn ref ws' = Some spawn.
Proof.
  intros Hs Ht Hf He. cbv zeta. split; [apply forceReturn_not_aggro|].
  unfold despawnCheck. rewrite Hs, Ht, Hf, He.
  destruct (forceReturn_place e) as (Hx & Hy & Hh). rewrite Hx, Hy, Hh.
  pose proof (forceReturn_not_aggro e) as Hna.
  rewrite (bool_decide_eq_false_2 _ Hna). simpl negb. rewrite andb_true_l.
  destruct (Qleb _ (homeThreshold e)).
  - set (ws1 := setEnemies _ ws).
    assert (Hs1 : getSpawn ref ws1 = Some spawn)
      by (destruct ref as [[|] k]; exact Hs).
    assert (Hf1 : findIndexById (sp_enemyId spawn) (w_enemies ws1) 0 = Some i).
    { simpl. rewrite (findIndexById_ids _ _ (w_enemies ws));
        [exact Hf|apply ids_insert_forced; exact He]. }
    assert (He1 : w_enemies ws1 !! i = Some (forceReturn e)).
    { simpl. apply list_lookup_insert_eq. eapply lookup_lt_Some. exact He. }
    destruct (despawnEnemy_found ref spawn spawn ws1 i _ Hs1 Hf1 He1)
      as (H1 & H2 & H3).
    rewrite H1, H2, H3. simpl. repeat split.
    apply delete_insert_same.
  - simpl. repeat split. destruct ref as [[|] k]; exact Hs.
Qed.

End WorldFacts.


(** ** Invariants: the soft fuse *)

Section InvariantsFacts.
Import Invariants.

Lemma newest_length {A : Type} (cap : Z) (l : list A) :
  (0 <= cap)%Z -> (Z.of_nat (length (newest cap l)) <= cap)%Z.
Proof. intros H. unfold newest. rewrite length_drop. lia. Qed.

Lemma capArray_soft {A : Type} (s : Settings) (arr : list A) (max : Z)
    (label : string) :
  softFuseOnCaps s = true -> (0 <= max)%Z ->
  softOk (capArray s arr max label) (newest max arr).
Proof.
  intros Hs H. unfold softOk, capArray, newest. rewrite Hs.
  destruct (Z.of_nat (length arr) <=? max)%Z eqn:Hle; simpl.
  - apply Z.leb_le in Hle. repeat split; [constructor|].
    replace (length arr - Z.to_nat max)%nat with 0%nat by lia. reflexivity.
  - apply Z.leb_gt in Hle. repeat split; [repeat constructor|].
    f_equal. lia.
Qed.

Lemma softOk_mapE {A B : Type} (f : A -> B) (c : Eff A) (v : A) :
  softOk c v -> softOk (mapE f c) (f v).
Proof.
  intros (Ht & Hw & Hv). unfold softOk, mapE. simpl. rewrite Hv. auto.
Qed.

Lemma softOk_thenE {A : Type} (c : Eff A) (k : A -> Eff A) (v w : A) :
  softOk c v -> softOk (k v) w -> softOk (thenE c k) w.
Proof.
  intros (Ht & Hw & Hv) (Ht' & Hw' & Hv'). unfold softOk, thenE.
  rewrite Ht, Hv. simpl. repeat split; try assumption.
  apply Forall_app. split; assumption.
Qed.

Lemma thenE_ok {A : Type} (c : Eff A) (k : A -> Eff A) :
  thrown c = None ->
  thenE c k = mkEff (value (k (value c))) (console c ++ console (k (value c)))
                    (thrown (k (value c))).
Proof. intros H. unfold thenE. rewrite H. reflexivity. Qed.

Lemma applyCaps_soft (s : Settings) (st : Tracked) :
  softFuseOnCaps s = true -> capsNonNegative (caps s) ->
  softOk (applyCaps s st)
    (mkTracked (newest (cap_bullets (caps s)) (bullets st))
               (newest (cap_enemyBullets (caps s)) (enemyBullets st))
               (newest (cap_enemies (caps s)) (enemies st))
               (newest (cap_pickups (caps s)) (pickups st))
               (newest (cap_particles (caps s)) (particles st))
               (playerCore st)).
Proof.
  intros Hs (H1 & H2 & H3 & H4 & H5). unfold applyCaps.
  do 4 (eapply softOk_thenE;
          [apply softOk_mapE, capArray_soft; assumption|];
        cbv beta;
        cbn [bullets enemyBullets enemies pickups particles playerCore]).
  match goal with
  | |- softOk (mapE ?f ?c) _ =>
      exact (softOk_mapE f c _ (capArray_soft s _ _ _ Hs H5))
  end.
Qed.

Lemma postFrame_value (s : Settings) (st : Tracked) :
  enabled s = true -> thrown (applyCaps s st) = None ->
  value (postFrame s st) = value (applyCaps s st) /\
  thrown (postFrame s st)
  = match thrown (assertPlayer s (playerCore (value (applyCaps s st)))) with
    | Some err => Some err
    | None => thrown (sampleEntityArrays s (value (applyCaps s st)))
    end.
Proof.
  intros He Ht. unfold postFrame. rewrite He. simpl negb. cbv iota.
  rewrite thenE_ok by exact Ht. simpl. unfold thenE, mapE. simpl.
  destruct (thrown (assertPlayer s _)); simpl; split; reflexivity.
Qed.

Lemma assertFiniteNumber_thrown (s : Settings) (v : option jsnum)
    (label : string) (err : ErrCode * string) :
  thrown (assertFiniteNumber s v label) = Some err -> fst err = INV_NON_FINITE.
Proof.
  unfold assertFiniteNumber.
  destruct (isFinite v); [discriminate|].
  destruct (hardThrowOnNonFinite s); simpl; [|discriminate].
  intros H. injection H as <-. reflexivity.
Qed.

Lemma thenE_thrown {A : Type} (P : ErrCode * string -> Prop) (c : Eff A)
    (k : A -> Eff A) (err : ErrCode * string) :
  (forall e, thrown c = Some e -> P e) ->
  (forall a e, thrown (k a) = Some e -> P e) ->
  thrown (thenE c k) = Some err -> P err.
Proof.
  intros Hc Hk. unfold thenE. destruct (thrown c) as [e|] eqn:E.
  - rewrite E. intros H. apply Hc. exact H.
  - simpl. apply Hk.
Qed.

Lemma assertPresent_thrown (s : Settings) (v : option jsnum)
    (label : string) (err : ErrCode * string) :
  thrown (assertPresent s v label) = Some err -> nonFinite err.
Proof.
  unfold assertPresent. destruct v; [apply assertFiniteNumber_thrown|].
  discriminate.
Qed.

Lemma assertFiniteVec2_thrown (s : Settings) (x y : option jsnum)
    (xKey yKey label : string) (err : ErrCode * string) :
  thrown (assertFiniteVec2 s x y xKey yKey label) = Some err -> nonFinite err.
Proof.
  unfold assertFiniteVec2.
  apply thenE_thrown; [intros ?; apply assertFiniteNumber_thrown|].
  intros ? ?. apply assertFiniteNumber_thrown.
Qed.

Lemma assertPlayer_thrown (s : Settings) (p : PlayerCore)
    (err : ErrCode * string) :
  thrown (assertPlayer s p) = Some err -> nonFinite err.
Proof.
  unfold assertPlayer.
  apply thenE_thrown; [intros ?; apply assertFiniteNumber_thrown|].
  intros ? ?.
  apply thenE_thrown; [intros ?; apply assertFiniteNumber_thrown|].
  intros ? ?.
  apply thenE_thrown; [intros ?; apply assertFiniteVec2_thrown|].
  intros ? ?. apply assertFiniteVec2_thrown.
Qed.

Lemma sampleEntity_thrown (s : Settings) (label : string) (idx : nat)
    (e : Entity) (err : ErrCode * string) :
  thrown (sampleEntity s label idx e) = Some err -> nonFinite err.
Proof.
  unfold sampleEntity.
  apply thenE_thrown; [intros ?; apply assertFiniteNumber_thrown|].
  intros ? ?.
  apply thenE_thrown; [intros ?; apply assertFiniteNumber_thrown|].
  intros ? ?.
  apply thenE_thrown; [intros ?; apply assertPresent_thrown|].
  intros ? ?.
  apply thenE_thrown; [intros ?; apply assertPresent_thrown|].
  intros ? ?. apply assertPresent_thrown.
Qed.

Lemma sampleAt_thrown (s : Settings) (label : string) (arr : list Entity)
    (indices : list nat) (remaining : Z) (err : ErrCode * string) :
  thrown (sampleAt s label arr indices remaining) = Some err -> nonFinite err.
Proof.
  revert remaining err. induction indices as [|idx rest IH];
    intros remaining err; simpl; [discriminate|].
  destruct (remaining <=? 0)%Z; [discriminate|].
  destruct (arr !! idx) as [e|]; [|apply IH].
  apply thenE_thrown; [|intros ? ?; apply IH].
  intros e0 H. exact (sampleEntity_thrown s label idx e e0 H).
Qed.

Lemma sampleSources_thrown (s : Settings)
    (sources : list (list Entity * string)) (remaining : Z)
    (err : ErrCode * string) :
  thrown (sampleSources s sources remaining) = Some err -> nonFinite err.
Proof.
  revert remaining err. induction sources as [|[arr label] rest IH];
    intros remaining err; simpl; [discriminate|].
  destruct (remaining <=? 0)%Z; [discriminate|].
  destruct arr as [|a arr]; [apply IH|].
  apply thenE_thrown; [intros ?; apply sampleAt_thrown|].
  intros ? ?. apply IH.
Qed.

Lemma sampleEntityArrays_thrown (s : Settings) (st : Tracked)
    (err : ErrCode * string) :
  thrown (sampleEntityArrays s st) = Some err -> nonFinite err.
Proof.
  unfold sampleEntityArrays. destruct (_ =? 0)%Z; [discriminate|].
  intros H. exact (sampleSources_thrown s _ _ err H).
Qed.

(** C8 (as amended).  With the guard enabled and in soft-fuse mode (both
    defaults) and non-negative caps: after [postFrame] every tracked
    collection consists of the newest [cap] entries it had, in order, so
    its length is at most its cap and exactly the oldest [n - cap] entries
    of an over-long collection are gone; trimming throws nothing and logs
    only warnings, and whatever [postFrame] throws is a non-finite-value
    error, not a cap error. *)
Theorem soft_fuse_bounds (s : Settings) (st : Tracked) :
  enabled s = true -> softFuseOnCaps s = true -> capsNonNegative (caps s) ->
  let r := postFrame s st in
  let c := caps s in
  (bullets (value r) = newest (cap_bullets c) (bullets st) /\
   enemyBullets (value r) = newest (cap_enemyBullets c) (enemyBullets st) /\
   enemies (value r) = newest (cap_enemies c) (enemies st) /\
   pickups (value r) = newest (cap_pickups c) (pickups st) /\
   particles (value r) = newest (cap_particles c) (particles st)) /\
  ((Z.of_nat (length (bullets (value r))) <= cap_bullets c)%Z /\
   (Z.of_nat (length (enemyBullets (value r))) <= cap_enemyBullets c)%Z /\
   (Z.of_nat (length (enemies (value r))) <= cap_enemies c)%Z /\
   (Z.of_nat (length (pickups (value r))) <= cap_pickups c)%Z /\
   (Z.of_nat (length (particles (value r))) <= cap_particles c)%Z) /\
  thrown (applyCaps s st) = None /\
  Forall isWarn (console (applyCaps s st)) /\
  (forall label : string, thrown r <> Some (INV_CAP_EXCEEDED, label)).
Proof.
  intros He Hs Hc. cbv zeta.
  destruct (applyCaps_soft s st Hs Hc) as (Ht & Hw & Hv).
  destruct (postFrame_value s st He Ht) as (Hval & Hthr).
  rewrite Hval, Hv. cbn [bullets enemyBullets enemies pickups particles].
  destruct Hc as (H1 & H2 & H3 & H4 & H5).
  repeat split; try reflexivity; try (apply newest_length; assumption);
    try assumption.
  intros label Hcap. rewrite Hthr in Hcap.
  destruct (thrown (assertPlayer s _)) as [err|] eqn:Ep.
  - apply assertPlayer_thrown in Ep. injection Hcap as ->. discriminate.
  - apply sampleEntityArrays_thrown in Hcap. discriminate.
Qed.

End InvariantsFacts.

(** The hypotheses of [soft_fuse_bounds] hold of the default settings; on
    [overfull] the guard leaves at most 2000 player bullets. *)
Lemma soft_fuse_bounds_witness :
  Invariants.enabled Invariants.defaultSettings = true /\
  Invariants.softFuseOnCaps Invariants.defaultSettings = true /\
  capsNonNegative (Invariants.caps Invariants.defaultSettings) /\
  (Z.of_nat (length (Invariants.bullets
                       (Invariants.value
                          (Invariants.postFrame Invariants.defaultSettings
                             overfull)))) <= 2000)%Z.
Proof.
  assert (Hc : capsNonNegative (Invariants.caps Invariants.defaultSettings))
    by (unfold capsNonNegative; simpl; lia).
  split; [reflexivity|]. split; [reflexivity|]. split; [exact Hc|].
  exact (proj1 (proj1 (proj2 (soft_fuse_bounds Invariants.defaultSettings
                                overfull eq_refl eq_refl Hc)))).
Defined.

(** Scenario D: 3000 entries pushed onto a collection capped at 2000 leave
    the newest 2000 (the oldest 1000 are dropped), with one warning. *)
Lemma scenario_D_newest_survive {A : Type} (l : list A) :
  length l = 3000%nat ->
  let r := Invariants.capArray Invariants.defaultSettings l 2000
             "State.bullets" in
  Invariants.value r = drop 1000 l /\
  length (Invariants.value r) = 2000%nat /\
  Invariants.console r = [Invariants.Warn "State.bullets" 2000 1000] /\
  Invariants.thrown r = None.
Proof.
  intros H. cbv zeta. unfold Invariants.capArray. rewrite H.
  replace (Z.of_nat 3000) with 3000%Z by lia.
  change (3000 <=? 2000)%Z with false. cbv iota.
  change (3000 - 2000)%Z with 1000%Z.
  replace (Z.to_nat 1000) with 1000%nat by lia.
  simpl. rewrite length_drop, H. repeat split.
Qed.

(** C8, counterexample.  With [softFuseOnCaps] off, the first over-long
    collection makes [postFrame] throw a cap error, and the collections
    after it are not trimmed: 2001 enemy bullets remain under a cap of
    2000. *)
Lemma hard_fuse_throws :
  let r := Invariants.postFrame hardFuseSettings overfull in
  Invariants.thrown r
    = Some (Invariants.INV_CAP_EXCEEDED, "State.bullets"%string) /\
  ~ (Z.of_nat (length (Invariants.enemyBullets (Invariants.value r)))
     <= Invariants.cap_enemyBullets (Invariants.caps hardFuseSettings))%Z.
Proof.
  cbv zeta. split; [vm_compute; reflexivity|].
  replace (length _) with 2001%nat by (vm_compute; reflexivity).
  simpl. lia.
Qed.

(** The hypotheses of [heal_within_shared_cap] hold of [squad] with the
    default cap fraction 0.04 over a tick of one second. *)
Lemma heal_within_shared_cap_witness :
  0 <= 1 /\ 0 <= 0.04 /\ sharedRepairCap 0.04 squad /\
  Forall2 (healedWithin 0.04 1) squad
    (fst (@Enemies.updateLoop refMath noSteering 1 1 (mkPlayer 500 500)
            2000 2000 (length squad) 0 (squad, ∅))).
Proof.
  assert (H1 : 0 <= 1) by (apply Qle_bool_iff; reflexivity).
  assert (H2 : 0 <= 0.04) by (apply Qle_bool_iff; reflexivity).
  assert (H3 : sharedRepairCap 0.04 squad).
  { intros e He _. unfold squad in He.
    repeat (apply elem_of_cons in He as [->|He]); try reflexivity.
    apply elem_of_nil in He. destruct He. }
  split; [exact H1|]. split; [exact H2|]. split; [exact H3|].
  exact (proj1 (@heal_within_shared_cap refMath noSteering 1 1
                  (mkPlayer 500 500) 2000 2000 0.04 squad H1 H2 H3)).
Defined.

(** Two drones in range of one wounded ally: each wants to heal 3, the
    shared budget grants 3 and then 1, and the ally gains the cap of 4. *)
Lemma two_drones_share_the_cap :
  map (fun e => (e_id e, Qred (e_hp e)))
      (@Enemies.update refMath noSteering 1 1 (mkPlayer 500 500) 2000 2000
         squad)
  = [("a_1"%string, 54); ("d_1"%string, 10); ("d_2"%string, 10)].
Proof. vm_compute. reflexivity. Qed.

(** * Further properties of the code *)

(** ** The reference generator keeps its bounds *)

Lemma nextFloat_unit (s : list Q) : 0 <= fst (nextFloat s) < 1.
Proof.
  destruct s as [|f s]; simpl; [lra|]. unfold unitDraw.
  destruct (Qleb 0 f) eqn:E1; simpl; [|lra].
  destruct (Qltb f 1) eqn:E2; simpl; [|lra].
  apply Qleb_true in E1. apply Qltb_true in E2. lra.
Qed.

Lemma scriptedRandom_int_in_bounds (streams : Z -> list Q) :
  intInBounds (scriptedRandom streams).
Proof.
  intros lo hi s Hle. cbn [rng_int scriptedRandom].
  pose proof (nextFloat_unit s) as Hf.
  destruct (nextFloat s) as [f s']. cbn [fst] in *.
  assert (H0 : (0 <= Qfloor (f * inject_Z (hi - lo + 1)))%Z).
  { change 0%Z with (Qfloor 0). apply Qfloor_resp_le.
    apply Qmult_le_0_compat; [lra|].
    change 0 with (inject_Z 0). rewrite <- Zle_Qle. lia. }
  assert (H1 : (Qfloor (f * inject_Z (hi - lo + 1)) < hi - lo + 1)%Z).
  { rewrite Zlt_Qlt.
    eapply Qle_lt_trans; [apply Qfloor_le|].
    assert (Hn : 0 < inject_Z (hi - lo + 1)).
    { change 0 with (inject_Z 0). rewrite <- Zlt_Qlt. lia. }
    nra. }
  lia.
Qed.

Lemma scriptedRandom_range_in_bounds (streams : Z -> list Q) :
  rangeInBounds (scriptedRandom streams).
Proof.
  intros lo hi s Hle. cbn [rng_range scriptedRandom].
  pose proof (nextFloat_unit s) as Hf.
  destruct (nextFloat s) as [f s']. cbn [fst] in *.
  rewrite Qred_correct. nra.
Qed.

(** Two predicates that agree on a list filter it alike. *)
Lemma filter_agree {A : Type} (P Q : A -> Prop)
    `{!forall x, Decision (P x)} `{!forall x, Decision (Q x)} (l : list A) :
  Forall (fun x => P x <-> Q x) l -> filter P l = filter Q l.
Proof.
  induction 1 as [|x l Hx _ IH]; [reflexivity|].
  rewrite !filter_cons.
  destruct (decide (P x)) as [Hp|Hp], (decide (Q x)) as [Hq|Hq];
    try tauto; rewrite IH; reflexivity.
Qed.

(** ** Contracts: the DOM guards *)

Section ContractsFacts.
Import Contracts.

Lemma fold_setAdd_spec (arr acc : list string) :
  NoDup acc ->
  exists added : list string,
    fold_left setAdd arr acc = acc ++ added /\
    NoDup (acc ++ added) /\
    sublist added arr /\
    (forall x, x ∈ acc ++ added <-> x ∈ acc \/ x ∈ arr).
Proof.
  revert acc. induction arr as [|a arr IH]; intros acc Hnd; simpl.
  - exists []. rewrite app_nil_r.
    split; [reflexivity|]. split; [exact Hnd|]. split; [constructor|].
    intros x. rewrite ?elem_of_app, ?elem_of_cons, ?elem_of_nil. intuition (subst; auto).
  - unfold setAdd at 2. case_bool_decide as Ha.
    + destruct (IH acc Hnd) as (added & E & N & S & M).
      exists added.
      split; [exact E|]. split; [exact N|].
      split; [apply sublist_cons; exact S|].
      intros x. rewrite M, ?elem_of_app, ?elem_of_cons, ?elem_of_nil. intuition (subst; auto).
    + assert (Hnd' : NoDup (acc ++ [a])).
      { apply NoDup_app. split; [exact Hnd|]. split.
        - intros x Hx Hx'. apply list_elem_of_singleton in Hx'. subst. auto.
        - apply NoDup_singleton. }
      destruct (IH (acc ++ [a]) Hnd') as (added & E & N & S & M).
      exists (a :: added). rewrite E.
      replace (acc ++ a :: added) with ((acc ++ [a]) ++ added)
        by (rewrite <- app_assoc; reflexivity).
      split; [reflexivity|]. split; [exact N|].
      split; [apply sublist_skip; exact S|].
      intros x. rewrite M, ?elem_of_app, ?elem_of_cons, ?elem_of_nil. intuition (subst; auto).
Qed.

Lemma fold_setAdd_fresh (arr acc : list string) :
  NoDup (acc ++ arr) -> fold_left setAdd arr acc = acc ++ arr.
Proof.
  revert acc. induction arr as [|a arr IH]; intros acc Hnd; simpl.
  - rewrite app_nil_r. reflexivity.
  - unfold setAdd at 2. case_bool_decide as Ha.
    + apply NoDup_app in Hnd. destruct Hnd as (_ & Hd & _).
      exfalso. apply (Hd a Ha). apply elem_of_cons. left. reflexivity.
    + rewrite IH; rewrite <- app_assoc; [reflexivity | exact Hnd].
Qed.

(** Adding to a set that already has members: they stay in front, and
    the members added are those the empty set would have received, less
    the ones already there. *)
Lemma fold_setAdd_from (arr acc : list string) :
  fold_left setAdd arr acc
  = acc ++ filter (fun y => y ∉ acc) (fold_left setAdd arr []).
Proof.
  revert acc. induction arr as [|a arr IH]; intros acc; simpl.
  - rewrite app_nil_r. reflexivity.
  - assert (E0 : setAdd [] a = [a]).
    { unfold setAdd. rewrite bool_decide_eq_false_2; [reflexivity|].
      apply not_elem_of_nil. }
    rewrite E0. rewrite (IH [a]). rewrite (IH (setAdd acc a)).
    unfold setAdd. simpl. rewrite filter_cons.
    case_bool_decide as Ha.
    + destruct (decide (a ∉ acc)) as [Hn|_]; [contradiction|].
      f_equal. rewrite list_filter_filter.
      apply filter_agree. apply Forall_forall. intros x _. split.
      * intros Hx. split; [exact Hx|].
        intros Hxa. apply list_elem_of_singleton in Hxa. subst. auto.
      * tauto.
    + destruct (decide (a ∉ acc)) as [_|Hn]; [|contradiction].
      rewrite <- app_assoc. simpl. do 2 f_equal.
      rewrite list_filter_filter.
      apply filter_agree. apply Forall_forall. intros x _.
      rewrite not_elem_of_app. tauto.
Qed.

Lemma uniq_cons (a : string) (arr : list string) :
  uniq (a :: arr) = a :: filter (fun y => y <> a) (uniq arr).
Proof.
  unfold uniq. simpl.
  assert (E0 : setAdd [] a = [a]).
  { unfold setAdd. rewrite bool_decide_eq_false_2; [reflexivity|].
    apply not_elem_of_nil. }
  rewrite E0, fold_setAdd_from. simpl. f_equal. apply filter_agree. apply Forall_forall. intros x _.
  rewrite list_elem_of_singleton. tauto.
Qed.

Lemma firstOccurrence_exists (arr : list string) (x : string) :
  x ∈ arr -> exists k, firstOccurrence arr x k.
Proof.
  induction arr as [|a arr IH]; intros Hx; [inversion Hx|].
  destruct (decide (a = x)) as [->|Hne].
  - exists 0%nat. split; [reflexivity|]. intros c Hc. lia.
  - apply elem_of_cons in Hx. destruct Hx as [->|Hx]; [contradiction|].
    destruct (IH Hx) as (k & Hk & Hfirst).
    exists (S k). split; [exact Hk|].
    intros [|c] Hc; simpl; [congruence|]. apply Hfirst. lia.
Qed.

Lemma firstOccurrence_skip (a : string) (arr : list string) (x : string)
    (k : nat) :
  x <> a -> firstOccurrence arr x k -> firstOccurrence (a :: arr) x (S k).
Proof.
  intros Hne [Hk Hfirst]. split; [exact Hk|].
  intros [|c] Hc; simpl; [congruence|]. apply Hfirst. lia.
Qed.

Lemma lookup_lt_sublist {A : Type} (l : list A) (i j : nat) (x y : A) :
  (i < j)%nat -> l !! i = Some x -> l !! j = Some y -> sublist [x; y] l.
Proof.
  revert i j. induction l as [|a l IH]; intros i j Hij Hi Hj;
    [discriminate|].
  destruct i as [|i]; simpl in Hi.
  - injection Hi as ->. destruct j as [|j]; [lia|]. simpl in Hj.
    apply sublist_skip. apply singleton_sublist_l.
    eapply list_elem_of_lookup_2. exact Hj.
  - destruct j as [|j]; [lia|]. simpl in Hj.
    apply sublist_cons. apply (IH i j); [lia|assumption|assumption].
Qed.

(** When [x] stands before [y] in [uniq arr], the first occurrence of [x]
    in [arr] comes before the first occurrence of [y]. *)
Lemma uniq_order (arr : list string) (x y : string) :
  sublist [x; y] (uniq arr) ->
  exists a b : nat,
    firstOccurrence arr x a /\ firstOccurrence arr y b /\ (a < b)%nat.
Proof.
  induction arr as [|a0 arr IH]; intros Hs.
  - unfold uniq in Hs. simpl in Hs. inversion Hs.
  - rewrite uniq_cons in Hs.
    assert (Hmem : forall z, z ∈ filter (fun y0 => y0 <> a0) (uniq arr) ->
                             z <> a0 /\ z ∈ arr).
    { intros z Hz. apply list_elem_of_filter in Hz. destruct Hz as [Hz1 Hz2].
      split; [exact Hz1|].
      unfold uniq in Hz2.
      destruct (fold_setAdd_spec arr [] NoDup_nil_2) as (added & E & _ & _ & Mm).
      rewrite E in Hz2. apply Mm in Hz2. destruct Hz2 as [Hz2|Hz2];
        [inversion Hz2|exact Hz2]. }
    inversion Hs as [|u l1 l2 Hs' |u l1 l2 Hs']; subst.
    + (* the head is [x] *)
      assert (Hy : y ∈ filter (fun y0 => y0 <> a0) (uniq arr)).
      { eapply elem_of_sublist; [|exact Hs']. apply elem_of_cons. auto. }
      destruct (Hmem y Hy) as [Hya Hyin].
      destruct (firstOccurrence_exists arr y Hyin) as (b & Hb).
      exists 0%nat, (S b). split; [|split; [|lia]].
      * split; [reflexivity|]. intros c Hc. lia.
      * apply firstOccurrence_skip; assumption.
    + (* both lie in the rest *)
      assert (Hx : x ∈ filter (fun y0 => y0 <> a0) (uniq arr)).
      { eapply elem_of_sublist; [|exact Hs']. apply elem_of_cons. auto. }
      assert (Hy : y ∈ filter (fun y0 => y0 <> a0) (uniq arr)).
      { eapply elem_of_sublist; [|exact Hs'].
        apply elem_of_cons. right. apply elem_of_cons. auto. }
      destruct (Hmem x Hx) as [Hxa _]. destruct (Hmem y Hy) as [Hya _].
      destruct IH as (a & b & Ha & Hb & Hab).
      { etransitivity; [exact Hs'|]. apply sublist_filter. }
      exists (S a), (S b). split; [|split; [|lia]];
        apply firstOccurrence_skip; assumption.
Qed.

(** X1.  [uniq] keeps exactly the members of its argument, each
    once, in the order of their first occurrence: when [x] stands before
    [y] in the result, the first occurrence of [x] in the argument comes
    before the first occurrence of [y].  An array without duplicates
    comes back unchanged. *)
Theorem uniq_first_occurrences (arr : list string) :
  NoDup (uniq arr) /\
  (forall x, x ∈ uniq arr <-> x ∈ arr) /\
  sublist (uniq arr) arr /\
  (NoDup arr -> uniq arr = arr) /\
  (forall (i j : nat) (x y : string),
     (i < j)%nat -> uniq arr !! i = Some x -> uniq arr !! j = Some y ->
     exists a b : nat,
       firstOccurrence arr x a /\ firstOccurrence arr y b /\ (a < b)%nat).
Proof.
  split; [|split; [|split; [|split]]].
  - unfold uniq.
    destruct (fold_setAdd_spec arr [] NoDup_nil_2) as (added & E & N & _).
    simpl in *. rewrite E. exact N.
  - unfold uniq.
    destruct (fold_setAdd_spec arr [] NoDup_nil_2) as (added & E & _ & _ & Mm).
    simpl in *. rewrite E. intros x. rewrite Mm, elem_of_nil. tauto.
  - unfold uniq.
    destruct (fold_setAdd_spec arr [] NoDup_nil_2) as (added & E & _ & S & _).
    simpl in *. rewrite E. exact S.
  - intros Hnd. apply (fold_setAdd_fresh arr []). exact Hnd.
  - intros i j x y Hij Hi Hj. apply uniq_order.
    eapply lookup_lt_sublist; eassumption.
Qed.

Lemma missingIds_nil (doc : gset string) (ids : list string) :
  missingIds doc ids = [] <-> forall id, id ∈ ids -> id ∈ doc.
Proof.
  unfold missingIds. induction ids as [|a ids IH]; simpl.
  - split; [intros _ id H; inversion H | reflexivity].
  - rewrite filter_cons. destruct (decide (a ∉ doc)) as [Ha|Ha].
    + split; [discriminate|]. intros H. exfalso. apply Ha. apply H.
      apply elem_of_cons. left. reflexivity.
    + rewrite IH. split.
      * intros H id Hid. apply elem_of_cons in Hid. destruct Hid as [->|Hid].
        -- destruct (decide (a ∈ doc)) as [Hin|Hout]; [exact Hin|].
           exfalso. exact (Ha Hout).
        -- apply H. exact Hid.
      * intros H id Hid. apply H. apply elem_of_cons. right. exact Hid.
Qed.

Lemma requireDom_returns (doc : gset string) (ids : list string)
    (scope : string) :
  requireDom doc ids scope = Returned true <-> forall id, id ∈ ids -> id ∈ doc.
Proof.
  rewrite <- missingIds_nil. unfold requireDom.
  destruct (missingIds doc ids); split; intros H;
    try reflexivity; discriminate.
Qed.

Lemma requireDom_reports_missing_aux (doc : gset string) (ids : list string)
    (scope m : string) :
  requireDom doc ids scope = Threw m -> exists id, id ∈ ids /\ id ∉ doc.
Proof.
  unfold requireDom. destruct (missingIds doc ids) as [|x l] eqn:E;
    [discriminate|]. intros _. exists x.
  assert (Hx : x ∈ missingIds doc ids)
    by (rewrite E; apply elem_of_cons; left; reflexivity).
  unfold missingIds in Hx. apply list_elem_of_filter in Hx. tauto.
Qed.

(** X2.  [requireDom] returns [true] exactly when the document
    holds every required id; when an id is missing it throws, and the
    message lists the required ids that are missing, and only those, in
    the order (and as often as) they were required. *)
Theorem requireDom_reports_missing (doc : gset string) (ids : list string)
    (scope : string) :
  (requireDom doc ids scope = Returned true <->
   forall id, id ∈ ids -> id ∈ doc) /\
  ((exists id, id ∈ ids /\ id ∉ doc) ->
   requireDom doc ids scope
   = Threw ("❌ DOM contract failed (" ++ scope ++ "). Missing IDs:"
            ++ newline ++ bulletList (filter (fun id => id ∉ doc) ids))
           %string) /\
  (forall m, requireDom doc ids scope = Threw m ->
     exists missing,
       missing <> [] /\
       (forall id, id ∈ missing <-> id ∈ ids /\ id ∉ doc) /\
       sublist missing ids /\
       m = ("❌ DOM contract failed (" ++ scope ++ "). Missing IDs:"
            ++ newline ++ bulletList missing)%string).
Proof.
  split; [apply requireDom_returns|]. split.
  - intros (id & Hin & Hout). unfold requireDom, missingIds.
    destruct (filter (fun id0 => id0 ∉ doc) ids) as [|x l] eqn:E;
      [|reflexivity].
    exfalso.
    assert (Hid : id ∈ filter (fun id0 => id0 ∉ doc) ids)
      by (apply list_elem_of_filter; auto).
    rewrite E in Hid. inversion Hid.
  - intros m H. unfold requireDom in H.
    destruct (missingIds doc ids) as [|x l] eqn:E; [discriminate|].
    exists (x :: l). split; [discriminate|]. split; [|split].
    + intros id. rewrite <- E. unfold missingIds.
      rewrite list_elem_of_filter. tauto.
    + rewrite <- E. apply sublist_filter.
    + inversion H. reflexivity.
Qed.

(** X3.  [ensureDom] either succeeds, and then every later call
    for the same scope returns [true] without looking at the document or
    the ids again, or it throws because some required id is missing, and
    then the cache is left as it was, without the scope. *)
Theorem ensureDom_caches_success (doc doc' : gset string)
    (ids ids' : list string) (scope : string) (checked : gset string) :
  (fst (ensureDom doc ids scope checked) = Returned true /\
   ensureDom doc' ids' scope (snd (ensureDom doc ids scope checked))
   = (Returned true, snd (ensureDom doc ids scope checked))) \/
  (exists m, fst (ensureDom doc ids scope checked) = Threw m /\
             snd (ensureDom doc ids scope checked) = checked /\
             (scope ∉ checked) /\
             exists id, id ∈ ids /\ id ∉ doc).
Proof.
  unfold ensureDom. case_bool_decide as Hc.
  - left. simpl. split; [reflexivity|].
    rewrite bool_decide_true; [reflexivity | exact Hc].
  - destruct (requireDom doc ids scope) as [b|m0] eqn:E; simpl.
    + left. split; [reflexivity|].
      rewrite bool_decide_true; [reflexivity|].
      apply elem_of_union. left. apply elem_of_singleton. reflexivity.
    + right. exists m0. split; [reflexivity|]. split; [reflexivity|].
      split; [exact Hc|].
      destruct (requireDom_reports_missing_aux doc ids scope m0 E)
        as (x & Hx). exists x. exact Hx.
Qed.

Lemma guard_returns (doc : gset string) (ids : list string) (scope : string)
    (checked : gset string) :
  (forall id, id ∈ ids -> id ∈ doc) ->
  fst (guard doc ids scope checked) = Returned tt.
Proof.
  intros H. unfold guard, ensureDom. case_bool_decide; [reflexivity|].
  apply requireDom_returns with (scope := scope) in H. rewrite H. reflexivity.
Qed.

Lemma guard_fresh (doc : gset string) (ids : list string) (scope : string)
    (checked : gset string) :
  scope ∉ checked ->
  fst (guard doc ids scope checked) = Returned tt ->
  forall id, id ∈ ids -> id ∈ doc.
Proof.
  intros Hc H. unfold guard, ensureDom in H.
  rewrite bool_decide_false in H by exact Hc.
  destruct (requireDom doc ids scope) as [b|m] eqn:E; [|discriminate].
  apply (requireDom_returns doc ids scope).
  unfold requireDom in *. destruct (missingIds doc ids); [reflexivity|discriminate].
Qed.

Lemma uniq_elem (arr : list string) (x : string) : x ∈ uniq arr <-> x ∈ arr.
Proof.
  unfold uniq.
  destruct (fold_setAdd_spec arr [] NoDup_nil_2) as (added & E & N & S & M).
  simpl in *. rewrite E, M, elem_of_nil. tauto.
Qed.

(** X4.  When [assertFullUI] passes on a cache that does not hold
    its scope yet, each of the seven lazy guards passes on the same
    document, whatever the cache holds. *)
Theorem full_ui_covers_every_guard (doc checked : gset string) :
  "full-ui"%string ∉ checked ->
  fst (assertFullUI doc checked) = Returned tt ->
  forall c : gset string,
    fst (assertBoot doc c) = Returned tt /\
    fst (assertCombatHUD doc c) = Returned tt /\
    fst (assertDeathUI doc c) = Returned tt /\
    fst (assertHubUI doc c) = Returned tt /\
    fst (assertStartUI doc c) = Returned tt /\
    fst (assertVendorUI doc c) = Returned tt /\
    fst (assertMetaPanelsUI doc c) = Returned tt.
Proof.
  intros Hc H c.
  pose proof (guard_fresh _ _ _ _ Hc H) as Hall.
  assert (Hin : forall id,
             id ∈ REQUIRED_DOM_BOOT ++ REQUIRED_DOM_HUD ++ REQUIRED_DOM_DEATH
                  ++ REQUIRED_DOM_HUB ++ REQUIRED_DOM_START
                  ++ REQUIRED_DOM_VENDOR ++ REQUIRED_DOM_META_PANELS ->
             id ∈ doc).
  { intros id Hid. apply Hall. apply uniq_elem. exact Hid. }
  repeat split; apply guard_returns; intros id Hid;
    rewrite ?uniq_elem in Hid; apply Hin;
    rewrite ?elem_of_app in Hid; rewrite ?elem_of_app; tauto.
Qed.

End ContractsFacts.

(** On a document with every id, the full guard passes and so does the
    vendor guard. *)
Lemma full_ui_covers_every_guard_witness :
  ("full-ui"%string ∉ (∅ : gset string)) /\
  fst (Contracts.assertFullUI fullDocument ∅) = Contracts.Returned tt /\
  fst (Contracts.assertVendorUI fullDocument {[ "boot"%string ]})
  = Contracts.Returned tt.
Proof.
  assert (H1 : "full-ui"%string ∉ (∅ : gset string))
    by (apply not_elem_of_empty).
  assert (H2 : fst (Contracts.assertFullUI fullDocument ∅)
               = Contracts.Returned tt) by (vm_compute; reflexivity).
  split; [exact H1|]. split; [exact H2|].
  apply (full_ui_covers_every_guard fullDocument ∅ H1 H2
           {[ "boot"%string ]}).
Defined.

(** ** PauseUI *)

Section PauseUIFacts.
Import PauseUI.

Lemma apply_in_sync (ui : UI) : classInSync (apply ui).
Proof.
  unfold classInSync, apply, classToggle. simpl.
  destruct (truthy (paused ui)).
  - split; [reflexivity|]. intros _. apply elem_of_union. left.
    apply elem_of_singleton. reflexivity.
  - split; [|discriminate]. intros H. apply elem_of_difference in H.
    destruct H as [_ H]. exfalso. apply H. apply elem_of_singleton.
    reflexivity.
Qed.

Lemma apply_other_classes (ui : UI) (c : string) :
  c <> "paused-ui"%string -> (c ∈ classList (apply ui) <-> c ∈ classList ui).
Proof.
  intros Hc. unfold apply, classToggle. simpl.
  destruct (truthy (paused ui)).
  - rewrite elem_of_union, elem_of_singleton. tauto.
  - rewrite elem_of_difference, elem_of_singleton. tauto.
Qed.

(** X5.  After [toggle], [open] or [close] the body carries the
    class [paused-ui] exactly when [State.ui.paused] is true, and no other
    class is touched; [toggle] flips the flag, and toggling twice gives
    back the class list of a state that was in sync. *)
Theorem pause_class_follows_flag (ui : UI) :
  (classInSync (toggle ui) /\ classInSync (open ui)
   /\ classInSync (close ui)) /\
  (forall c, c <> "paused-ui"%string ->
     (c ∈ classList (toggle ui) <-> c ∈ classList ui) /\
     (c ∈ classList (open ui) <-> c ∈ classList ui) /\
     (c ∈ classList (close ui) <-> c ∈ classList ui)) /\
  paused (toggle ui) = Some (negb (truthy (paused ui))) /\
  paused (open ui) = Some true /\
  paused (close ui) = Some false /\
  (classInSync ui -> classList (toggle (toggle ui)) = classList ui).
Proof.
  split; [|split; [|split; [|split; [|split]]]]; try reflexivity.
  - repeat split; apply apply_in_sync.
  - intros c Hc. split; [|split].
    + exact (apply_other_classes
               (mkUI (Some (negb (truthy (paused ui)))) (classList ui)) c Hc).
    + exact (apply_other_classes (mkUI (Some true) (classList ui)) c Hc).
    + exact (apply_other_classes (mkUI (Some false) (classList ui)) c Hc).
  - unfold classInSync. intros [Hs1 Hs2].
    unfold toggle, apply, classToggle. simpl.
    rewrite negb_involutive.
    destruct (truthy (paused ui)) eqn:Ht; simpl; apply set_eq; intros x;
      rewrite ?elem_of_union, ?elem_of_difference, ?elem_of_union,
        ?elem_of_singleton;
      destruct (decide (x = "paused-ui"%string)) as [->|Hx].
    + specialize (Hs2 eq_refl). tauto.
    + tauto.
    + split; [tauto|]. intros H. apply Hs1 in H. discriminate.
    + tauto.
Qed.

End PauseUIFacts.

(** ** Invariants: sampling, quiet frames, the pre-tick hook *)

Section GuardFacts.
Import Invariants.

Lemma addIndex_length (l : list nat) (i : nat) :
  (length (addIndex l i) <= S (length l))%nat.
Proof.
  unfold addIndex. case_bool_decide; [lia|].
  rewrite length_app. simpl. lia.
Qed.

Lemma addIndex_NoDup (l : list nat) (i : nat) :
  NoDup l -> NoDup (addIndex l i).
Proof.
  intros H. unfold addIndex. case_bool_decide as Hi; [exact H|].
  apply NoDup_app. split; [exact H|]. split; [|apply NoDup_singleton].
  intros x Hx Hx'. apply list_elem_of_singleton in Hx'. subst. auto.
Qed.

Lemma addIndex_elem (l : list nat) (i x : nat) :
  x ∈ addIndex l i <-> x ∈ l \/ x = i.
Proof.
  unfold addIndex. case_bool_decide as Hi.
  - split; [tauto|]. intros [H| ->]; assumption.
  - rewrite elem_of_app, list_elem_of_singleton. tauto.
Qed.

Lemma midSamples_spec (fuel step len i : nat) (l : list nat) :
  NoDup l -> (length l <= 6)%nat -> Forall (fun k => (k < len)%nat) l ->
  let r := midSamples fuel step len i l in
  NoDup r /\ (length r <= 6)%nat /\ Forall (fun k => (k < len)%nat) r /\
  (forall x, x ∈ l -> x ∈ r).
Proof.
  revert i l. induction fuel as [|fuel IH]; intros i l Hnd Hlen Hin; simpl.
  - auto.
  - destruct (i <? len)%nat eqn:Ei; simpl; [|auto].
    destruct (length l <? 6)%nat eqn:El; [|auto].
    apply Nat.ltb_lt in Ei, El.
    destruct (IH (i + step)%nat (addIndex l i)) as (H1 & H2 & H3 & H4).
    + apply addIndex_NoDup. exact Hnd.
    + pose proof (addIndex_length l i). lia.
    + apply Forall_forall. intros x Hx. apply addIndex_elem in Hx.
      destruct Hx as [Hx| ->]; [|exact Ei].
      rewrite Forall_forall in Hin. apply Hin. exact Hx.
    + repeat split; auto. intros x Hx. apply H4. apply addIndex_elem.
      left. exact Hx.
Qed.

(** X6.  The set of positions that [sampleEntityArrays] builds for a
    non-empty collection holds at most six distinct positions, all inside
    the collection, and the first and the last position are always among
    them. *)
Theorem sample_indices_bounded (len : nat) :
  (0 < len)%nat ->
  (length (sampleIndices len) <= 6)%nat /\
  NoDup (sampleIndices len) /\
  Forall (fun k => (k < len)%nat) (sampleIndices len) /\
  0%nat ∈ sampleIndices len /\ (len - 1)%nat ∈ sampleIndices len.
Proof.
  intros Hlen. unfold sampleIndices.
  set (l0 := addIndex (addIndex [] 0) (len - 1)).
  set (l1 := if (3 <? len)%nat then addIndex l0 2 else l0).
  assert (N0 : NoDup l0) by (do 2 apply addIndex_NoDup; constructor).
  assert (L0 : (length l0 <= 2)%nat).
  { unfold l0. pose proof (addIndex_length (addIndex [] 0) (len - 1)).
    pose proof (addIndex_length [] 0). simpl in *. lia. }
  assert (E0 : forall x, x ∈ l0 <-> x = 0%nat \/ x = (len - 1)%nat).
  { intros x. unfold l0. rewrite !addIndex_elem, elem_of_nil. tauto. }
  assert (N1 : NoDup l1).
  { unfold l1. destruct (3 <? len)%nat; [apply addIndex_NoDup|]; exact N0. }
  assert (L1 : (length l1 <= 6)%nat).
  { unfold l1. destruct (3 <? len)%nat; [|lia].
    pose proof (addIndex_length l0 2). lia. }
  assert (I1 : Forall (fun k => (k < len)%nat) l1).
  { apply Forall_forall. intros x Hx. unfold l1 in Hx.
    destruct (3 <? len)%nat eqn:E3.
    - apply Nat.ltb_lt in E3. apply addIndex_elem in Hx.
      rewrite E0 in Hx. lia.
    - rewrite E0 in Hx. lia. }
  assert (M1 : forall x, x ∈ l0 -> x ∈ l1).
  { intros x Hx. unfold l1. destruct (3 <? len)%nat; [|exact Hx].
    apply addIndex_elem. left. exact Hx. }
  destruct (midSamples_spec len (Nat.max 1 (len / 4)) len
              (Nat.max 1 (len / 4)) l1 N1 L1 I1) as (H1 & H2 & H3 & H4).
  repeat split; auto; apply H4, M1, E0; auto.
Qed.

Lemma thenE_pure_l {A : Type} (a : A) (k : A -> Eff A) :
  thenE (pure a) k = k a.
Proof. unfold thenE, pure. simpl. destruct (k a). reflexivity. Qed.

Lemma capArray_within {A : Type} (s : Settings) (arr : list A) (max : Z)
    (label : string) :
  (Z.of_nat (length arr) <= max)%Z -> capArray s arr max label = pure arr.
Proof.
  intros H. unfold capArray.
  destruct (Z.leb_spec (Z.of_nat (length arr)) max); [reflexivity | lia].
Qed.

Lemma applyCaps_within (s : Settings) (st : Tracked) :
  withinCaps (caps s) st -> applyCaps s st = pure st.
Proof.
  intros (H1 & H2 & H3 & H4 & H5). unfold applyCaps.
  rewrite (capArray_within s (bullets st)) by exact H1.
  change (mapE ?f (pure ?a)) with (pure (f a)). rewrite thenE_pure_l.
  cbv beta. cbn [bullets enemyBullets enemies pickups particles playerCore].
  rewrite (capArray_within s (enemyBullets st)) by exact H2.
  change (mapE ?f (pure ?a)) with (pure (f a)). rewrite thenE_pure_l.
  cbv beta. cbn [bullets enemyBullets enemies pickups particles playerCore].
  rewrite (capArray_within s (enemies st)) by exact H3.
  change (mapE ?f (pure ?a)) with (pure (f a)). rewrite thenE_pure_l.
  cbv beta. cbn [bullets enemyBullets enemies pickups particles playerCore].
  rewrite (capArray_within s (pickups st)) by exact H4.
  change (mapE ?f (pure ?a)) with (pure (f a)). rewrite thenE_pure_l.
  cbv beta. cbn [bullets enemyBullets enemies pickups particles playerCore].
  rewrite (capArray_within s (particles st)) by exact H5.
  change (mapE ?f (pure ?a)) with (pure (f a)).
  destruct st. reflexivity.
Qed.

Lemma assertFiniteNumber_finite (s : Settings) (v : option jsnum)
    (label : string) :
  isFinite v = true -> assertFiniteNumber s v label = pure tt.
Proof. intros H. unfold assertFiniteNumber. rewrite H. reflexivity. Qed.

Lemma assertPresent_finite (s : Settings) (v : option jsnum)
    (label : string) :
  finiteIfPresent v -> assertPresent s v label = pure tt.
Proof.
  intros [->|H]; [reflexivity|]. unfold assertPresent.
  destruct v; [|reflexivity]. apply assertFiniteNumber_finite. exact H.
Qed.

Lemma thenE_unit_pure (k : unit -> Eff unit) : thenE (pure tt) k = k tt.
Proof. apply thenE_pure_l. Qed.

Lemma assertPlayer_finite (s : Settings) (p : PlayerCore) :
  finiteCore p -> assertPlayer s p = pure tt.
Proof.
  intros (H1 & H2 & H3 & H4 & H5 & H6). unfold assertPlayer, assertFiniteVec2.
  repeat (rewrite assertFiniteNumber_finite by assumption;
          rewrite ?thenE_unit_pure).
  reflexivity.
Qed.

Lemma sampleEntity_finite (s : Settings) (label : string) (idx : nat)
    (e : Entity) :
  finiteFields e -> sampleEntity s label idx e = pure tt.
Proof.
  intros (H1 & H2 & H3 & H4 & H5). unfold sampleEntity.
  repeat (rewrite assertFiniteNumber_finite by assumption;
          rewrite ?thenE_unit_pure).
  repeat (rewrite assertPresent_finite by assumption;
          rewrite ?thenE_unit_pure).
  reflexivity.
Qed.

Lemma sampleAt_finite (s : Settings) (label : string) (arr : list Entity)
    (indices : list nat) (remaining : Z) :
  Forall finiteFields arr ->
  exists v : Z, sampleAt s label arr indices remaining = pure v.
Proof.
  intros Hf. revert remaining.
  induction indices as [|idx rest IH]; intros remaining; simpl.
  - exists remaining. reflexivity.
  - destruct (remaining <=? 0)%Z; [exists remaining; reflexivity|].
    destruct (arr !! idx) as [e|] eqn:E; [|apply IH].
    rewrite sampleEntity_finite.
    + change (mapE ?f (pure ?a)) with (pure (f a)). rewrite thenE_pure_l.
      apply IH.
    + rewrite Forall_forall in Hf. apply Hf.
      apply list_elem_of_lookup. exists idx. exact E.
Qed.

Lemma sampleSources_finite (s : Settings)
    (sources : list (list Entity * string)) (remaining : Z) :
  Forall (fun src => Forall finiteFields (fst src)) sources ->
  exists v : Z, sampleSources s sources remaining = pure v.
Proof.
  intros Hf. revert remaining.
  induction Hf as [|[arr label] rest Ha Hrest IH]; intros remaining; simpl.
  - exists remaining. reflexivity.
  - destruct (remaining <=? 0)%Z; [exists remaining; reflexivity|].
    destruct arr as [|a arr]; [apply IH|].
    destruct (sampleAt_finite s label (a :: arr)
                (sampleIndices (length (a :: arr))) remaining Ha) as (v & Ev).
    rewrite Ev, thenE_pure_l. apply IH.
Qed.

Lemma sampleEntityArrays_finite (s : Settings) (st : Tracked) :
  Forall finiteFields (bullets st) -> Forall finiteFields (enemyBullets st) ->
  Forall finiteFields (enemies st) -> Forall finiteFields (pickups st) ->
  sampleEntityArrays s st = pure tt.
Proof.
  intros H1 H2 H3 H4. unfold sampleEntityArrays.
  destruct (_ =? 0)%Z; [reflexivity|].
  edestruct (sampleSources_finite s) as (v & Ev);
    [|rewrite Ev; reflexivity].
  repeat constructor; assumption.
Qed.

(** X7.  On a state whose collections are within their caps and
    whose player and entities carry finite numbers, [postFrame] changes
    nothing, logs nothing and throws nothing, in every configuration of
    the guard. *)
Theorem healthy_frame_is_silent (s : Settings) (st : Tracked) :
  withinCaps (caps s) st -> finiteCore (playerCore st) ->
  Forall finiteFields (bullets st) -> Forall finiteFields (enemyBullets st) ->
  Forall finiteFields (enemies st) -> Forall finiteFields (pickups st) ->
  postFrame s st = pure st.
Proof.
  intros Hc Hp H1 H2 H3 H4. unfold postFrame.
  destruct (enabled s); [|reflexivity]. simpl negb. cbv iota.
  rewrite applyCaps_within by exact Hc. rewrite thenE_pure_l.
  rewrite assertPlayer_finite by exact Hp.
  change (mapE ?f (pure ?a)) with (pure (f a)). rewrite thenE_pure_l.
  rewrite sampleEntityArrays_finite by assumption. reflexivity.
Qed.

(** X8.  With the guard enabled, in soft-fuse mode and with
    non-negative caps, a second [postFrame] right after the first finds
    every collection within its cap: its five cap checks trim nothing, log
    nothing and throw nothing, and it returns the state unchanged. *)
Theorem second_frame_trims_nothing (s : Settings) (st : Tracked) :
  enabled s = true -> softFuseOnCaps s = true -> capsNonNegative (caps s) ->
  withinCaps (caps s) (value (postFrame s st)) /\
  applyCaps s (value (postFrame s st)) = pure (value (postFrame s st)) /\
  value (postFrame s (value (postFrame s st))) = value (postFrame s st).
Proof.
  intros He Hs Hc.
  destruct (applyCaps_soft s st Hs Hc) as (Ht & _ & Hv).
  destruct (postFrame_value s st He Ht) as (Hval & _).
  assert (Hw : withinCaps (caps s) (value (postFrame s st))).
  { rewrite Hval, Hv. destruct Hc as (H1 & H2 & H3 & H4 & H5).
    unfold withinCaps.
    cbn [bullets enemyBullets enemies pickups particles].
    repeat split; apply newest_length; assumption. }
  split; [exact Hw|]. split; [apply applyCaps_within; exact Hw|].
  pose proof (applyCaps_within s _ Hw) as Ha.
  destruct (postFrame_value s (value (postFrame s st)) He) as (Hval2 & _).
  - rewrite Ha. reflexivity.
  - rewrite Hval2, Ha. reflexivity.
Qed.

Lemma assertFiniteNumber_nonfinite (s : Settings) (label : string) :
  assertFiniteNumber s (Some NonFinite) label
  = if hardThrowOnNonFinite s
    then mkEff tt [] (Some (INV_NON_FINITE, label))
    else mkEff tt [Error INV_NON_FINITE label] None.
Proof. reflexivity. Qed.

(** X9.  With the guard enabled, [preFrame] passes silently
    exactly on a finite, non-negative time step.  On any other step it
    throws a non-finite-value error labelled [dt] or [dt_negative] when
    [hardThrowOnNonFinite] is set, and otherwise logs such an error and
    returns. *)
Theorem preFrame_accepts_valid_steps (s : Settings) (dt : jsdouble) :
  enabled s = true ->
  (validStep dt <-> preFrame s dt = pure tt) /\
  (~ validStep dt ->
   if hardThrowOnNonFinite s
   then console (preFrame s dt) = [] /\
        (thrown (preFrame s dt) = Some (INV_NON_FINITE, "dt"%string) \/
         thrown (preFrame s dt) = Some (INV_NON_FINITE, "dt_negative"%string))
   else thrown (preFrame s dt) = None /\
        console (preFrame s dt) <> [] /\
        Forall (fun entry => exists label,
                  entry = Error INV_NON_FINITE label)
               (console (preFrame s dt))).
Proof.
  intros He. unfold preFrame, validStep. rewrite He. simpl negb. cbv iota.
  destruct dt as [q| | |]; simpl toJsnum; simpl isNegative.
  - rewrite assertFiniteNumber_finite by reflexivity. rewrite thenE_unit_pure.
    destruct (Qltb q 0) eqn:Eq.
    + apply Qltb_true in Eq. rewrite assertFiniteNumber_nonfinite. split.
      * split.
        -- intros (q' & E & Hq). injection E as <-. lra.
        -- destruct (hardThrowOnNonFinite s); discriminate.
      * intros _. destruct (hardThrowOnNonFinite s); simpl.
        -- split; [reflexivity|]. right. reflexivity.
        -- split; [reflexivity|]. split; [discriminate|].
           repeat constructor. eexists. reflexivity.
    + apply Qltb_false in Eq. split.
      * split; [reflexivity|]. intros _. exists q. split; [reflexivity|lra].
      * intros H. exfalso. apply H. exists q. split; [reflexivity|lra].
  - rewrite assertFiniteNumber_nonfinite. split.
    + split; [intros (q & E & _); discriminate|].
      destruct (hardThrowOnNonFinite s); discriminate.
    + intros _. destruct (hardThrowOnNonFinite s); simpl.
      * split; [reflexivity|]. left. reflexivity.
      * split; [reflexivity|]. split; [discriminate|].
        repeat constructor. eexists. reflexivity.
  - rewrite assertFiniteNumber_nonfinite. split.
    + split; [intros (q & E & _); discriminate|].
      destruct (hardThrowOnNonFinite s); discriminate.
    + intros _. destruct (hardThrowOnNonFinite s); simpl.
      * split; [reflexivity|]. left. reflexivity.
      * split; [reflexivity|]. split; [discriminate|].
        repeat constructor. eexists. reflexivity.
  - rewrite !assertFiniteNumber_nonfinite. split.
    + split; [intros (q & E & _); discriminate|].
      destruct (hardThrowOnNonFinite s); discriminate.
    + intros _. destruct (hardThrowOnNonFinite s); simpl.
      * split; [reflexivity|]. left. reflexivity.
      * split; [reflexivity|]. split; [discriminate|].
        repeat constructor; eexists; reflexivity.
Qed.

Lemma sliceTo_nat {A : Type} (k : nat) (arr : list A) :
  sliceTo (Z.of_nat k) arr = take k arr.
Proof.
  unfold sliceTo. destruct (Z.ltb_spec (Z.of_nat k) 0); [lia|].
  rewrite Nat2Z.id. reflexivity.
Qed.

Lemma sliceFrom_last {A : Type} (k : nat) (arr : list A) :
  (0 < k)%nat -> sliceFrom (- Z.of_nat k) arr = drop (length arr - k) arr.
Proof.
  intros Hk. unfold sliceFrom.
  destruct (Z.ltb_spec (- Z.of_nat k) 0); [|lia].
  rewrite Z.opp_involutive, Nat2Z.id. reflexivity.
Qed.

(** X10.  With a positive [tail] (the default is 2), the dump
    sample of an array longer than [head + tail] consists of its first
    [head] entries, one marker that counts the entries left out, and its
    last [tail] entries, [head + tail + 1] items in all; a shorter array is
    shown whole.  So a sample never has more than [head + tail + 1]
    items. *)
Theorem sliceSample_bounded {A : Type} (arr : list A) (head tail : nat) :
  (0 < tail)%nat ->
  (length (sliceSample arr head tail) <= head + tail + 1)%nat /\
  ((length arr <= head + tail)%nat ->
   sliceSample arr head tail = map Shown arr) /\
  ((head + tail < length arr)%nat ->
   sliceSample arr head tail
   = map Shown (take head arr)
     ++ [Omitted (Z.of_nat (length arr - (head + tail)))]
     ++ map Shown (drop (length arr - tail) arr) /\
   length (sliceSample arr head tail) = (head + tail + 1)%nat).
Proof.
  intros Ht. unfold sliceSample.
  destruct (Nat.leb_spec (length arr) (head + tail)) as [Hle|Hgt].
  - split; [rewrite length_map; lia|]. split; [reflexivity|]. lia.
  - rewrite sliceTo_nat, sliceFrom_last by exact Ht.
    replace (Z.of_nat (length arr) - Z.of_nat (head + tail))%Z
      with (Z.of_nat (length arr - (head + tail))) by lia.
    assert (Hlen : length (map (@Shown A) (take head arr)
                           ++ [Omitted (Z.of_nat (length arr
                                                  - (head + tail)))]
                           ++ map Shown (drop (length arr - tail) arr))
                   = (head + tail + 1)%nat).
    { rewrite !length_app, !length_map, length_take, length_drop.
      simpl. lia. }
    split; [lia|]. split; [lia|]. intros _. split; [reflexivity|exact Hlen].
Qed.

End GuardFacts.

(** A collection of ten entries. *)
Lemma sample_indices_bounded_witness :
  (0 < 10)%nat /\ (length (Invariants.sampleIndices 10) <= 6)%nat.
Proof.
  assert (H : (0 < 10)%nat) by lia.
  split; [exact H|]. exact (proj1 (sample_indices_bounded 10 H)).
Defined.

(** Six entries sampled with the defaults [head = 3], [tail = 2]. *)
Lemma sliceSample_bounded_witness :
  (0 < 2)%nat /\
  Invariants.sliceSample [1; 2; 3; 4; 5; 6]%Z 3 2
  = [Invariants.Shown 1; Invariants.Shown 2; Invariants.Shown 3;
     Invariants.Omitted 1; Invariants.Shown 5; Invariants.Shown 6]%Z.
Proof.
  assert (H : (0 < 2)%nat) by lia.
  split; [exact H|].
  apply (proj1 (proj2 (proj2 (sliceSample_bounded [1; 2; 3; 4; 5; 6]%Z 3 2 H))
                      ltac:(simpl; lia))).
Defined.

(** The default guard accepts a step of a sixtieth of a second. *)
Lemma preFrame_accepts_valid_steps_witness :
  Invariants.enabled Invariants.defaultSettings = true /\
  Invariants.preFrame Invariants.defaultSettings (Invariants.Num (1 # 60))
  = Invariants.pure tt.
Proof.
  split; [reflexivity|].
  apply (proj1 (proj1 (preFrame_accepts_valid_steps
                         Invariants.defaultSettings
                         (Invariants.Num (1 # 60)) eq_refl))).
  exists (1 # 60). split; [reflexivity|]. unfold Qle. simpl. lia.
Defined.

(** The default guard run twice on [overfull]. *)
Lemma second_frame_trims_nothing_witness :
  Invariants.value
    (Invariants.postFrame Invariants.defaultSettings
       (Invariants.value
          (Invariants.postFrame Invariants.defaultSettings overfull)))
  = Invariants.value
      (Invariants.postFrame Invariants.defaultSettings overfull).
Proof.
  assert (Hc : capsNonNegative (Invariants.caps Invariants.defaultSettings))
    by (unfold capsNonNegative; simpl; lia).
  exact (proj2 (proj2 (second_frame_trims_nothing Invariants.defaultSettings
                         overfull eq_refl eq_refl Hc))).
Defined.

(** The default guard on [calmState]. *)
Lemma healthy_frame_is_silent_witness :
  Invariants.postFrame Invariants.defaultSettings calmState
  = Invariants.pure calmState.
Proof.
  assert (Hf : finiteFields finiteEntity).
  { unfold finiteFields, finiteIfPresent. simpl. repeat split; auto. }
  apply healthy_frame_is_silent.
  - unfold withinCaps. simpl. lia.
  - unfold finiteCore. simpl. repeat split.
  - simpl. repeat constructor; exact Hf.
  - constructor.
  - simpl. repeat constructor; exact Hf.
  - constructor.
Defined.

(** ** MapGenerator: points, obstacles, stars, packs, seeds *)

Section ZoneFacts.
Context {R : SeededRandom} {M : JSMath}.
Import MapGenerator.

(** The points, the dimensions and the parallax layers of a generated
    zone, in terms of the functions that make them. *)
Lemma generate_points (data : StateData) (act : ActConfig) (zoneSeed : Z)
    (opts : Options) :
  let z := generate data act zoneSeed opts in
  let t := tuningOf data in
  exists (r0 ra r1 : rng),
    (width z, height z)
      = fst (dimensions t (numberOr (act_generation act) noGeneration)
               (numberOr (opt_mods opts) []) (rng_new zoneSeed)) /\
    spawn z = fst (generateSpawnPoint (width z) (height z) r0) /\
    parallax z = fst (generateParallax t act (width z) (height z) ra) /\
    exit z = Some (fst (generateExitPoint (spawn z) (width z) (height z) r1)).
Proof.
  cbv zeta. unfold generate, generateWith.
  destruct (densities _ _ _ _) as [[dE dL] dO].
  unfold bind.
  destruct (dimensions _ _ _ _) as [[w h] r0].
  destruct (generateSpawnPoint w h r0) as [sp ra] eqn:Esp.
  destruct (generateParallax _ _ w h ra) as [px r1] eqn:Epx.
  destruct (generateExitPoint sp w h r1) as [ex r1'] eqn:Eex.
  destruct (generateEnemySpawns _ _ dE w h sp ex r1') as [es r2].
  destruct (applyPackDirector data es _ sp ex r2) as [es' r3].
  destruct (generateEliteSpawns _ _ dL w h r3) as [el r4].
  destruct (generateObstacles _ dO w h _ _ r4) as [ob r5].
  destruct (generateDecorations _ _ w h r5) as [de r6].
  simpl. exists r0, ra, r1. rewrite Esp, Epx, Eex. auto.
Qed.

Lemma generateSpawnPoint_edge (w h : Q) (r : rng) :
  let p := fst (generateSpawnPoint w h r) in
  pt_y p = h - 100 \/ pt_x p = 100 \/ pt_x p = w - 100.
Proof.
  cbv zeta. unfold generateSpawnPoint, bind, pick, range, ret.
  destruct (rng_index _ r) as [i r1].
  destruct i as [|[|[|i]]]; simpl; try destruct (rng_range _ _ r1); simpl; auto.
Qed.

Lemma generateExitPoint_cases (sp : Point) (w h : Q) (r : rng) :
  let ex := fst (generateExitPoint sp w h r) in
  (h / 2 < pt_y sp /\ pt_y ex = 100) \/
  (pt_y sp <= h / 2 /\ pt_x sp < w / 2 /\ pt_x ex = w - 100) \/
  (pt_y sp <= h / 2 /\ w / 2 <= pt_x sp /\ pt_x ex = 100).
Proof.
  cbv zeta. unfold generateExitPoint, bind, range, ret.
  destruct (Qltb (h / 2) (pt_y sp)) eqn:E1.
  - apply Qltb_true in E1. destruct (rng_range _ _ r). left. auto.
  - apply Qltb_false in E1.
    destruct (Qltb (pt_x sp) (w / 2)) eqn:E2.
    + apply Qltb_true in E2. destruct (rng_range _ _ r). right. left. auto.
    + apply Qltb_false in E2. destruct (rng_range _ _ r). right. right. auto.
Qed.

(** X11.  In a generated zone wider and higher than 200, the spawn
    point lies on the bottom, left or right margin line and the exit on
    the top, right or left one; a bottom spawn gets a top exit; and the two
    never coincide: the exit lies more than [h/2 - 100] above the spawn
    point, or at least [w/2 - 100] to its right or left. *)
Theorem spawn_and_exit_apart (data : StateData) (act : ActConfig)
    (zoneSeed : Z) (opts : Options) :
  let z := generate data act zoneSeed opts in
  200 < width z -> 200 < height z ->
  exists ex : Point,
    exit z = Some ex /\
    (pt_y (spawn z) = height z - 100 \/ pt_x (spawn z) = 100
     \/ pt_x (spawn z) = width z - 100) /\
    (pt_y ex = 100 \/ pt_x ex = width z - 100 \/ pt_x ex = 100) /\
    (pt_y (spawn z) = height z - 100 -> pt_y ex = 100) /\
    (height z / 2 - 100 < pt_y (spawn z) - pt_y ex \/
     width z / 2 - 100 < pt_x ex - pt_x (spawn z) \/
     width z / 2 - 100 <= pt_x (spawn z) - pt_x ex).
Proof.
  intros z Hw Hh.
  destruct (generate_points data act zoneSeed opts)
    as (r0 & ra & r1 & _ & Hsp & _ & Hex).
  fold z in Hsp, Hex.
  pose proof (generateSpawnPoint_edge (width z) (height z) r0) as Hedge.
  cbv zeta in Hedge. rewrite <- Hsp in Hedge.
  pose proof (generateExitPoint_cases (spawn z) (width z) (height z) r1)
    as Hcases.
  cbv zeta in Hcases.
  set (ex := fst (generateExitPoint (spawn z) (width z) (height z) r1)) in *.
  exists ex. split; [exact Hex|]. split; [exact Hedge|].
  destruct Hcases as [(Hy & Ey) | [(Hy & Hx & Ex) | (Hy & Hx & Ex)]];
    unfold Qdiv in *; change (/ 2) with (1 # 2) in *.
  - split; [left; exact Ey|]. split; [intros _; exact Ey|].
    left. rewrite Ey. lra.
  - split; [right; left; exact Ex|]. split.
    + intros Hb. rewrite Hb in Hy. exfalso. lra.
    + right. left. rewrite Ex. lra.
  - split; [right; right; exact Ex|]. split.
    + intros Hb. rewrite Hb in Hy. exfalso. lra.
    + right. right. rewrite Ex. lra.
Qed.

Lemma orDefaultZ_idem (o : option Z) :
  orDefaultZ (Some (orDefaultZ o 1)) 1 = orDefaultZ o 1.
Proof.
  unfold orDefaultZ. destruct o as [z|]; [|reflexivity].
  destruct (z =? 0)%Z eqn:E; [reflexivity|]. rewrite E. reflexivity.
Qed.

Lemma generateObstacles_sound (t : Tuning) (d w h : Q) (depth : Z)
    (mods : list string) (r : rng) :
  Forall (obstacleSound mods (orDefaultZ (Some depth) 1))
         (fst (generateObstacles t d w h (Some depth) (Some mods) r)).
Proof.
  unfold generateObstacles. apply pushLoop_Forall. intros _ s.
  unfold bind, pick, range, int, ret. cbn [numberOr].
  unfold hasMod. case_bool_decide as Hm.
  - destruct (rng_index _ s) as [i s1].
    destruct i as [|[|[|[|i]]]]; cbn [lookup list_lookup length];
      repeat case_bool_decide; try discriminate;
      destruct (rng_range _ _ s1) as [x s2];
      destruct (rng_range _ _ s2) as [y s3];
      destruct (rng_int _ _ s3) as [rad s4];
      destruct (rng_range _ _ s4) as [rot s5];
      try destruct (rng_int _ _ s5) as [hp s6];
      unfold obstacleSound; simpl;
      repeat split; try reflexivity; try congruence; try discriminate;
      intros; try congruence; auto.
  - destruct (rng_index _ s) as [i s1].
    destruct i as [|[|i]]; cbn [lookup list_lookup length];
      repeat case_bool_decide; try discriminate;
      destruct (rng_range _ _ s1) as [x s2];
      destruct (rng_range _ _ s2) as [y s3];
      destruct (rng_int _ _ s3) as [rad s4];
      destruct (rng_range _ _ s4) as [rot s5];
      try destruct (rng_int _ _ s5) as [hp s6];
      unfold obstacleSound; simpl;
      repeat split; try reflexivity; try congruence; try discriminate;
      intros; try congruence; auto.
Qed.

(** X12.  Every obstacle of a generated zone is destructible.
    Only mines deal damage, [8 + floor(depth * 0.25)] each; a mine has 6 hp
    and appears only under the MINEFIELD modifier. *)
Theorem zone_obstacles_sound (data : StateData) (act : ActConfig)
    (zoneSeed : Z) (opts : Options) :
  Forall (obstacleSound (numberOr (opt_mods opts) [])
                        (orDefaultZ (opt_depth opts) 1))
         (obstacles (generate data act zoneSeed opts)).
Proof.
  destruct (generate_parts data act zoneSeed opts)
    as (ex & dE & dL & dO & r1 & r3 & r4 & r5 & _ & _ & _ & Hob & _).
  cbv zeta in Hob. rewrite Hob.
  rewrite <- (orDefaultZ_idem (opt_depth opts)) at 1.
  apply generateObstacles_sound.
Qed.

Lemma generateStarfield_capped (w h density maxCount : Q) (r : rng) :
  1 <= maxCount ->
  (Z.of_nat (length (fst (generateStarfield w h density maxCount r)))
   <= Qfloor maxCount)%Z.
Proof.
  intros H1. unfold generateStarfield. rewrite pushLoop_length.
  assert (Hpos : Qltb 0 maxCount = true) by (apply Qltb_true; lra).
  rewrite Hpos.
  assert (Hfl : (1 <= Qfloor maxCount)%Z).
  { change 1%Z with (Qfloor 1). apply Qfloor_resp_le. exact H1. }
  destruct (Z.eqb_spec (Qfloor maxCount) 0); lia.
Qed.

(** X13.  The two star layers of a generated zone are capped: with
    star caps of at least 1 (the defaults are 1800 and 1200), the
    background has at most [floor(maxStarsBackground)] stars and the
    midground at most [floor(maxStarsMidground)]. *)
Theorem star_layers_capped (data : StateData) (act : ActConfig)
    (zoneSeed : Z) (opts : Options) :
  let z := generate data act zoneSeed opts in
  let maxBg := numberOr (maxStarsBackground (tuningOf data)) 1800 in
  let maxMid := numberOr (maxStarsMidground (tuningOf data)) 1200 in
  1 <= maxBg -> 1 <= maxMid ->
  (Z.of_nat (length (bg_stars (parallax z))) <= Qfloor maxBg)%Z /\
  (Z.of_nat (length (mid_stars (parallax z))) <= Qfloor maxMid)%Z.
Proof.
  intros z maxBg maxMid Hbg Hmid.
  destruct (generate_points data act zoneSeed opts)
    as (r0 & ra & r1 & _ & _ & Hpx & _).
  fold z in Hpx. rewrite Hpx. unfold generateParallax, bind, ret.
  pose proof (generateStarfield_capped (width z * 1.5) (height z * 1.5)
                0.0003 maxBg ra Hbg) as Hb.
  fold maxBg maxMid.
  destruct (generateStarfield (width z * 1.5) (height z * 1.5) 0.0003 maxBg ra)
    as [bg rb].
  pose proof (generateStarfield_capped (width z * 1.3) (height z * 1.3)
                0.0002 maxMid rb Hmid) as Hm.
  destruct (generateStarfield (width z * 1.3) (height z * 1.3) 0.0002 maxMid rb)
    as [mid rc].
  destruct (generateNebulaWisps _ _ _ rc) as [fg rd].
  simpl in *. split; assumption.
Qed.

Lemma dimensions_scaled (t : Tuning) (cfg : GenerationCfg)
    (mods : list string) (m : Q) (r : rng) :
  mapScale t = Some m -> 0 < m -> ~ m == 1 ->
  600 <= fst (fst (dimensions t cfg mods r)) /\
  600 <= snd (fst (dimensions t cfg mods r)).
Proof.
  intros Hm Hpos Hne. unfold dimensions, bind, ret. rewrite Hm.
  destruct (pickRange (cfg_width cfg) 1500 3000 r) as [w r1].
  destruct (pickRange (cfg_height cfg) 1500 3000 r1) as [h r2].
  assert (Hp : Qltb 0 m = true) by (apply Qltb_true; exact Hpos).
  rewrite Hp.
  assert (Hq : Qeq_bool m 1.0 = false).
  { destruct (Qeq_bool m 1.0) eqn:E; [|reflexivity].
    apply Qeq_bool_iff in E. exfalso. apply Hne. rewrite E. reflexivity. }
  rewrite Hq.
  destruct (negb (Qeq_bool _ 1.0)); simpl; split; apply Qmax_ge_l.
Qed.

(** X14.  With a positive map scale other than 1 in the tuning,
    a generated zone is at least 600 wide and 600 high. *)
Theorem scaled_zone_at_least_600 (data : StateData) (act : ActConfig)
    (zoneSeed : Z) (opts : Options) (m : Q) :
  mapScale (tuningOf data) = Some m -> 0 < m -> ~ m == 1 ->
  600 <= width (generate data act zoneSeed opts) /\
  600 <= height (generate data act zoneSeed opts).
Proof.
  intros Hm Hpos Hne.
  destruct (generate_points data act zoneSeed opts)
    as (r0 & ra & r1 & Hdim & _).
  cbv zeta in Hdim.
  pose proof (dimensions_scaled (tuningOf data)
                (numberOr (act_generation act) noGeneration)
                (numberOr (opt_mods opts) []) m (rng_new zoneSeed)
                Hm Hpos Hne) as [Hw Hh].
  rewrite <- Hdim in Hw, Hh. simpl in Hw, Hh. split; assumption.
Qed.

End ZoneFacts.

(** A zone of 2000 by 2000 with the spawn point (100,1450) on the left
    margin and the exit (1000,100) on the top one. *)
Lemma spawn_and_exit_apart_witness :
  exists ex : Point,
    MapGenerator.exit
      (@MapGenerator.generate (scriptedRandom (fun _ => leftSpawnDraws))
         refMath (mkStateData (Some smallTuning) None) squareAct 1 noOptions)
    = Some ex.
Proof.
  destruct (@spawn_and_exit_apart (scriptedRandom (fun _ => leftSpawnDraws))
              refMath (mkStateData (Some smallTuning) None) squareAct 1
              noOptions) as (ex & Hex & _).
  - vm_compute. reflexivity.
  - vm_compute. reflexivity.
  - exists ex. exact Hex.
Defined.

(** Star caps of 1 in [smallTuning]. *)
Lemma star_layers_capped_witness :
  (Z.of_nat
     (length (MapGenerator.bg_stars
                (MapGenerator.parallax
                   (@MapGenerator.generate
                      (scriptedRandom (fun _ => leftSpawnDraws)) refMath
                      (mkStateData (Some smallTuning) None) squareAct 1
                      noOptions)))) <= 1)%Z.
Proof.
  refine (proj1 (@star_layers_capped
                   (scriptedRandom (fun _ => leftSpawnDraws)) refMath
                   (mkStateData (Some smallTuning) None) squareAct 1
                   noOptions _ _)); simpl; lra.
Defined.

(** A map scale of one half. *)
Lemma scaled_zone_at_least_600_witness :
  600 <= MapGenerator.width
           (@MapGenerator.generate (scriptedRandom (fun _ => leftSpawnDraws))
              refMath (mkStateData (Some halfScaleTuning) None) squareAct 1
              noOptions).
Proof.
  refine (proj1 (@scaled_zone_at_least_600
                   (scriptedRandom (fun _ => leftSpawnDraws)) refMath
                   (mkStateData (Some halfScaleTuning) None) squareAct 1
                   noOptions 0.5 eq_refl _ _)).
  - lra.
  - intros H. unfold Qeq in H. simpl in H. lia.
Defined.

(** *** Zone seeds *)

Section SeedFacts.
Import MapGenerator.
Local Open Scope Z_scope.

Lemma toUint32_range (v : Z) : 0 <= toUint32 v < 2 ^ 32.
Proof. unfold toUint32. apply Z.mod_pos_bound. lia. Qed.

Lemma toUint32_small (v : Z) : 0 <= v < 2 ^ 32 -> toUint32 v = v.
Proof. intros H. unfold toUint32. apply Z.mod_small. exact H. Qed.

Lemma toUint32_toInt32 (v : Z) : toUint32 (toInt32 v) = toUint32 v.
Proof.
  unfold toInt32. pose proof (toUint32_range v) as Hr.
  destruct (toUint32 v <? 2 ^ 31).
  - apply toUint32_small. exact Hr.
  - unfold toUint32 at 1.
    replace (toUint32 v - 2 ^ 32) with (toUint32 v + (-1) * 2 ^ 32) by lia.
    rewrite Z.mod_add by lia. apply Z.mod_small. exact Hr.
Qed.

Lemma toUint32_lxor (x y : Z) :
  toUint32 (Z.lxor x y) = Z.lxor (toUint32 x) (toUint32 y).
Proof.
  unfold toUint32. rewrite <- !Z.land_ones by lia.
  apply Z.bits_inj'. intros n Hn.
  rewrite !Z.land_spec, !Z.lxor_spec, !Z.land_spec.
  destruct (Z.testbit (Z.ones 32) n); rewrite ?andb_true_r, ?andb_false_r;
    reflexivity.
Qed.

Lemma lxor_cancel_l (a x y : Z) : Z.lxor a x = Z.lxor a y -> x = y.
Proof.
  intros H. apply (f_equal (Z.lxor a)) in H.
  rewrite <- !Z.lxor_assoc, Z.lxor_nilpotent, !Z.lxor_0_l in H. exact H.
Qed.

Lemma createZoneSeed_unfold (actSeed zoneIndex : Z) :
  createZoneSeed actSeed zoneIndex
  = Z.lxor (toUint32 actSeed)
           ((toUint32 (zoneIndex + 1) * 2654435769) mod 2 ^ 32).
Proof.
  unfold createZoneSeed, xor32, imul. cbv zeta.
  rewrite toUint32_lxor, !toUint32_toInt32.
  rewrite (toUint32_small (toUint32 actSeed)) by apply toUint32_range.
  rewrite (toUint32_small (toUint32 (zoneIndex + 1)))
    by apply toUint32_range.
  rewrite (toUint32_small 2654435769) by lia.
  reflexivity.
Qed.

Lemma golden_ratio_invertible (z : Z) :
  ((z * 2654435769) mod 2 ^ 32 * 340573321) mod 2 ^ 32 = z mod 2 ^ 32.
Proof.
  rewrite Z.mul_mod_idemp_l by lia.
  rewrite <- Z.mul_assoc.
  rewrite <- Z.mul_mod_idemp_r by lia.
  replace ((2654435769 * 340573321) mod 2 ^ 32) with 1 by reflexivity.
  rewrite Z.mul_1_r. reflexivity.
Qed.

(** X15.  A zone seed is a 32-bit unsigned number, and is injective
    in each argument: under one act seed, two different zone indices (below
    2^32 - 1) never share a seed, and for one zone index, two act seeds
    that differ as 32-bit numbers give different seeds. *)
Theorem zone_seeds_distinct (actSeed z1 z2 : Z) :
  0 <= z1 < 2 ^ 32 - 1 -> 0 <= z2 < 2 ^ 32 - 1 -> z1 <> z2 ->
  createZoneSeed actSeed z1 <> createZoneSeed actSeed z2 /\
  0 <= createZoneSeed actSeed z1 < 2 ^ 32 /\
  (forall otherSeed : Z,
     toUint32 otherSeed <> toUint32 actSeed ->
     createZoneSeed otherSeed z1 <> createZoneSeed actSeed z1).
Proof.
  intros H1 H2 Hne. split; [|split].
  - rewrite !createZoneSeed_unfold. intros H. apply lxor_cancel_l in H.
    apply (f_equal (fun v => (v * 340573321) mod 2 ^ 32)) in H.
    rewrite !golden_ratio_invertible in H.
    rewrite !toUint32_small in H by lia.
    rewrite !Z.mod_small in H by lia. lia.
  - unfold createZoneSeed. cbv zeta. apply toUint32_range.
  - intros otherSeed Ho. rewrite !createZoneSeed_unfold. intros H.
    apply Ho. rewrite !(Z.lxor_comm (toUint32 _)) in H.
    apply lxor_cancel_l in H. exact H.
Qed.

End SeedFacts.

(** Zones 0 and 1 of the act seeded 7. *)
Lemma zone_seeds_distinct_witness :
  MapGenerator.createZoneSeed 7 0 <> MapGenerator.createZoneSeed 7 1.
Proof.
  apply (zone_seeds_distinct 7 0 1); lia.
Defined.

(** *** The budget of the pack director *)

Section PackBudget.
Context {R : SeededRandom} {M : JSMath}.
Import MapGenerator.

(** The number of indices of [l] that are marked in [used]. *)
Lemma marked_add (l : list nat) (used : gset nat) (j : nat) :
  NoDup l ->
  (length (filter (fun k => k ∈ used) l)
   <= length (filter (fun k => k ∈ {[ j ]} ∪ used) l)
   <= S (length (filter (fun k => k ∈ used) l)))%nat /\
  (j ∈ l -> j ∉ used ->
   length (filter (fun k => k ∈ {[ j ]} ∪ used) l)
   = S (length (filter (fun k => k ∈ used) l))).
Proof.
  induction 1 as [|x l Hx Hnd IH]; simpl.
  - split; [lia|]. intros H. inversion H.
  - destruct IH as [IH1 IH2]. rewrite !filter_cons.
    destruct (decide (x ∈ used)) as [Hu|Hu].
    + rewrite decide_True by (apply elem_of_union; right; exact Hu).
      simpl. split; [lia|]. intros Hj Hju.
      apply elem_of_cons in Hj. destruct Hj as [->|Hj]; [contradiction|].
      rewrite IH2 by assumption. reflexivity.
    + destruct (decide (x = j)) as [->|Hxj].
      * rewrite decide_True
          by (apply elem_of_union; left; apply elem_of_singleton; reflexivity).
        simpl.
        assert (E : filter (fun k => k ∈ {[ j ]} ∪ used) l
                    = filter (fun k => k ∈ used) l).
        { apply filter_agree. apply Forall_forall. intros k Hk.
          rewrite elem_of_union, elem_of_singleton. split; [|tauto].
          intros [->|H]; [contradiction | exact H]. }
        rewrite E. split; [lia|]. reflexivity.
      * rewrite decide_False.
        -- split; [lia|]. intros Hj Hju.
           apply elem_of_cons in Hj. destruct Hj as [->|Hj]; [congruence|].
           apply IH2; assumption.
        -- rewrite elem_of_union, elem_of_singleton. intros [H|H]; congruence.
Qed.

Lemma singles_length (i : nat) (spawns : list Spawn) (used : gset nat) :
  (length (singles i spawns used)
   + length (filter (fun k => k ∈ used) (seq i (length spawns)))
   = length spawns)%nat.
Proof.
  revert i. induction spawns as [|s spawns IH]; intros i; simpl;
    [reflexivity|].
  rewrite filter_cons. specialize (IH (S i)).
  case_bool_decide as Hi.
  - rewrite decide_True by exact Hi. simpl. lia.
  - rewrite decide_False by exact Hi. simpl. lia.
Qed.

Lemma consume_marked (l rest : list nat) (size consumed : Z)
    (used : gset nat) :
  NoDup l ->
  (length (filter (fun k => k ∈ used) l)
   <= length (filter (fun k => k ∈ consume rest size consumed used) l)
   <= length (filter (fun k => k ∈ used) l)
      + Z.to_nat (size - consumed))%nat.
Proof.
  intros Hnd. revert consumed used.
  induction rest as [|j rest IH]; intros consumed used; simpl; [lia|].
  destruct (Z.ltb_spec consumed size) as [Hlt|Hge]; [|lia].
  case_bool_decide as Hj.
  - specialize (IH consumed used). lia.
  - specialize (IH (consumed + 1)%Z ({[ j ]} ∪ used)).
    destruct (marked_add l used j Hnd) as [Hadd _]. lia.
Qed.

Lemma swap_Forall (P : nat -> Prop) (idx : list nat) (i j : nat) :
  Forall P idx -> Forall P (swap idx i j).
Proof.
  intros H. unfold swap.
  destruct (idx !! i) as [a|] eqn:Ea; [|exact H].
  destruct (idx !! j) as [b|] eqn:Eb; [|exact H].
  rewrite Forall_forall in H.
  apply Forall_insert; [apply Forall_insert|].
  - apply Forall_forall. exact H.
  - apply H. apply list_elem_of_lookup. exists j. exact Eb.
  - apply H. apply list_elem_of_lookup. exists i. exact Ea.
Qed.

Lemma shuffleLoop_Forall (P : nat -> Prop) (i : nat) (idx : list nat)
    (r : rng) :
  Forall P idx -> Forall P (fst (shuffleLoop i idx r)).
Proof.
  revert idx r. induction i as [|i IH]; intros idx r H; simpl; [exact H|].
  unfold bind, int. destruct (rng_int _ _ r) as [j r1].
  destruct (j <? 0)%Z; apply IH; [exact H|]. apply swap_Forall. exact H.
Qed.

Lemma pickTemplateLoop_elem (ts : list PackTemplate) (q : Q)
    (t : PackTemplate) :
  pickTemplateLoop ts q = Some t -> t ∈ ts.
Proof.
  revert q. induction ts as [|t' ts IH]; intros q; simpl; [discriminate|].
  destruct (Qleb _ 0).
  - intros H. injection H as <-. apply elem_of_cons. left. reflexivity.
  - intros H. apply elem_of_cons. right. exact (IH _ H).
Qed.

Lemma pickTemplate_elem (t0 : PackTemplate) (ts : list PackTemplate)
    (r : rng) :
  fst (pickTemplate t0 ts r) ∈ t0 :: ts.
Proof.
  unfold pickTemplate, bind, range, ret.
  destruct (rng_range _ _ r) as [q r1]. cbn [fst].
  destruct (pickTemplateLoop (t0 :: ts) q) as [t|] eqn:E.
  - exact (pickTemplateLoop_elem _ _ _ E).
  - apply elem_of_cons. left. reflexivity.
Qed.

Lemma memberTypesOf_free (tpl : PackTemplate) (r : rng) :
  tpl_members tpl = None -> memberTypesOf tpl r = (None, r).
Proof. intros H. unfold memberTypesOf. rewrite H. reflexivity. Qed.

Lemma packLoop_budget (t0 : PackTemplate) (ts : list PackTemplate)
    (pc : Q) (minSize maxSize maxPacks : Z) (spacing mS mE : Q)
    (spawns : list Spawn) (pool : list string) (sp ex : Point)
    (order : list nat) (acc : PackAcc) (r : rng) :
  intInBounds R ->
  (forall tpl, tpl ∈ t0 :: ts -> tpl_members tpl = None) ->
  (1 <= minSize <= maxSize)%Z ->
  packBudget (length spawns) maxSize maxPacks acc ->
  packBudget (length spawns) maxSize maxPacks
    (fst (packLoop t0 ts pc minSize maxSize maxPacks spacing mS mE
            spawns pool sp ex order acc r)).
Proof.
  intros Hint Hfree Hsize.
  revert acc r. induction order as [|i rest IH]; intros acc r Hacc; simpl.
  - exact Hacc.
  - destruct (Z.ltb_spec (pk_made acc) maxPacks) as [Hmade|_]; [|exact Hacc].
    case_bool_decide as Hi; [apply IH; exact Hacc|].
    destruct (spawns !! i) as [anchor|] eqn:Ea; [|apply IH; exact Hacc].
    destruct (negb (validAnchor mS mE sp ex anchor)); [apply IH; exact Hacc|].
    unfold bind, range. destruct (rng_range 0 1 r) as [c r1].
    destruct (Qltb pc c); [apply IH; exact Hacc|].
    pose proof (pickTemplate_elem t0 ts r1) as Htpl.
    destruct (pickTemplate t0 ts r1) as [tpl r2]. simpl in Htpl.
    rewrite (memberTypesOf_free tpl r2 (Hfree tpl Htpl)).
    unfold int. pose proof (Hint minSize maxSize r2 ltac:(lia)) as Hsz.
    destruct (rng_int minSize maxSize r2) as [size r3]. simpl in Hsz.
    match goal with
    | |- context [pushLoop ?n ?j ?b ?s] =>
        pose proof (pushLoop_length n j b s) as Hm;
        destruct (pushLoop n j b s) as [members r5]
    end.
    simpl in Hm. apply IH. clear IH.
    destruct Hacc as [Hmk Hout]. unfold packBudget, markedBelow in *. simpl.
    assert (Hlt : (i < length spawns)%nat)
      by (eapply lookup_lt_Some; exact Ea).
    destruct (marked_add (seq 0 (length spawns)) (pk_used acc) i
                (NoDup_seq _ _)) as [_ Hnew].
    specialize (Hnew ltac:(apply elem_of_seq; lia) Hi).
    pose proof (consume_marked (seq 0 (length spawns)) rest size 1
                  ({[ i ]} ∪ pk_used acc) (NoDup_seq _ _)) as Hcons.
    rewrite length_app, Hm.
    replace ((pk_made acc + 1) * (maxSize - 1))%Z
      with (pk_made acc * (maxSize - 1) + (maxSize - 1))%Z by ring.
    split; lia.
Qed.

(** X16.  With a generator that keeps [int] within its bounds, a
    packs file without explicit member lists and pack sizes
    [1 <= packSizeMin <= packSizeMax], the pack director never shrinks the
    list of descriptors, and it adds at most [packSizeMax - 1] descriptors
    for each of the at most [maxPacksPerZone] packs. *)
Theorem pack_director_budget (data : StateData) (pd : PacksData)
    (spawns : list Spawn) (pool : list string) (sp ex : Point) (r : rng) :
  intInBounds R ->
  packs data = Some pd -> freeFormPacks pd ->
  (1 <= numberOr (packSizeMin pd) 3 <= numberOr (packSizeMax pd) 5)%Z ->
  (Z.of_nat (length spawns)
   <= Z.of_nat (length (fst (applyPackDirector data spawns pool sp ex r)))
   <= Z.of_nat (length spawns)
      + Z.max 0 (numberOr (maxPacksPerZone pd) 6)
        * (numberOr (packSizeMax pd) 5 - 1))%Z.
Proof.
  intros Hint Hpd Hfree Hsize. unfold applyPackDirector. rewrite Hpd.
  assert (Hnn : (0 <= Z.max 0 (numberOr (maxPacksPerZone pd) 6)
                      * (numberOr (packSizeMax pd) 5 - 1))%Z)
    by (apply Z.mul_nonneg_nonneg; lia).
  unfold freeFormPacks in Hfree.
  destruct (templates pd) as [[|t0 ts]|]; simpl; try lia.
  destruct (_ <? _)%Z; simpl; [lia|].
  unfold bind, ret.
  destruct (shuffleLoop _ _ r) as [idx r1].
  pose proof (packLoop_budget t0 ts (numberOr (packChance pd) 0.7)
                (numberOr (packSizeMin pd) 3%Z)
                (numberOr (packSizeMax pd) 5%Z)
                (numberOr (maxPacksPerZone pd) 6%Z)
                (numberOr (memberSpacing pd) 120)
                (numberOr (packMinDistFromSpawn pd) 350)
                (numberOr (packMinDistFromExit pd) 250)
                spawns pool sp ex idx (mkPackAcc ∅ [] 0%Z) r1 Hint Hfree
                Hsize)
    as Hb.
  destruct (packLoop _ _ _ _ _ _ _ _ _ _ _ _ _ idx _ r1) as [acc r2].
  simpl in *.
  destruct Hb as [Hmk Hout].
  { unfold packBudget, markedBelow. simpl. split; [lia|].
    rewrite (filter_none _ (seq 0 (length spawns))); [simpl; lia|].
    apply Forall_forall. intros k _ Hk. apply elem_of_empty in Hk.
    exact Hk. }
  rewrite length_app.
  pose proof (singles_length 0 spawns (pk_used acc)) as Hs.
  unfold markedBelow in Hout.
  assert (Hmul : (pk_made acc * (numberOr (packSizeMax pd) 5 - 1)
                  <= Z.max 0 (numberOr (maxPacksPerZone pd) 6)
                     * (numberOr (packSizeMax pd) 5 - 1))%Z)
    by (apply Z.mul_le_mono_nonneg_r; lia).
  lia.
Qed.

End PackBudget.

(** The default pack settings on [threeSpawns]: between 3 and 3 + 6 * 4
    descriptors come out. *)
Lemma pack_director_budget_witness :
  (3 <= Z.of_nat
          (length (fst (@MapGenerator.applyPackDirector
                          (scriptedRandom (fun _ => [])) refMath
                          (mkStateData None (Some defaultPacks)) threeSpawns
                          ["grunt"%string] (mkPoint 100 100)
                          (mkPoint 1900 1900) inflatingDraws)))
   <= 27)%Z.
Proof.
  apply (@pack_director_budget (scriptedRandom (fun _ => [])) refMath
           (mkStateData None (Some defaultPacks)) defaultPacks threeSpawns
           ["grunt"%string] (mkPoint 100 100) (mkPoint 1900 1900)
           inflatingDraws).
  - apply scriptedRandom_int_in_bounds.
  - reflexivity.
  - intros tpl H. simpl in H. apply list_elem_of_singleton in H. subst.
    reflexivity.
  - simpl. lia.
Defined.

(** ** Enemies: zone bounds, targets, lazy initialisation *)

Section BehaviourFacts.
Context {M : JSMath}.
Import Enemies.

Lemma Qmax_ge_r (a b : Q) : b <= Qmax a b.
Proof.
  unfold Qmax. destruct (Qltb a b) eqn:E; [lra|].
  apply Qltb_false in E. exact E.
Qed.

Lemma Qmax_le (a b c : Q) : a <= c -> b <= c -> Qmax a b <= c.
Proof. intros Ha Hb. unfold Qmax. destruct (Qltb a b); assumption. Qed.

Lemma integrate_inZone (dt zw zh : Q) (e : Enemy) :
  inZone zw zh (integrate dt zw zh e).
Proof.
  unfold inZone, integrate. cbv zeta. simpl.
  set (m := Qmax 30 (e_size e * 1.2)).
  split; [apply Qmax_ge_l|]. split; [apply Qmax_ge_l|].
  split; intros H; (apply Qmax_le; [exact H | apply Qmin_le_l]).
Qed.

(** The position, size and life flag of an entity. *)
Lemma inZone_same (zw zh : Q) (e e' : Enemy) :
  e_x e' = e_x e -> e_y e' = e_y e -> e_size e' = e_size e ->
  inZone zw zh e -> inZone zw zh e'.
Proof. unfold inZone. intros -> -> ->. tauto. Qed.

Lemma applyHeal_lookup (cfg : RepairCfg) (dt : Q) (e : Enemy) (j : nat)
    (best : Enemy) (l : list Enemy) (hb : gmap string Q) (k : nat)
    (e' : Enemy) :
  fst (applyHeal cfg dt e j best l hb) !! k = Some e' ->
  l !! k = Some e' \/
  (k = j /\ e_x e' = e_x best /\ e_y e' = e_y best /\
   e_size e' = e_size best /\ e_dead e' = e_dead best).
Proof.
  unfold applyHeal.
  destruct (_ && _ && _); [|left; assumption].
  destruct (Qltb 0 _); [|left; assumption].
  simpl. intros H.
  destruct (decide (k = j)) as [->|Hne].
  - destruct (decide (j < length l)%nat) as [Hlt|Hge].
    + rewrite list_lookup_insert_eq in H by exact Hlt.
      injection H as <-. right. repeat split; reflexivity.
    + rewrite list_insert_ge in H by lia. left. exact H.
  - rewrite list_lookup_insert_ne in H by congruence. left. exact H.
Qed.

Lemma updateExplorationAI_others (steer : Steering) (aggroMult dt : Q)
    (p : Player) (i : nat) (e : Enemy) (l : list Enemy)
    (hb : gmap string Q) (k : nat) (e' : Enemy) :
  k <> i ->
  fst (updateExplorationAI steer aggroMult dt p i e l hb) !! k = Some e' ->
  exists e0 : Enemy,
    l !! k = Some e0 /\ e_x e' = e_x e0 /\ e_y e' = e_y e0 /\
    e_size e' = e_size e0 /\ e_dead e' = e_dead e0.
Proof.
  intros Hne. unfold updateExplorationAI.
  destruct (hasAbility e "repairTether").
  - unfold updateRepairDroneAI.
    destruct (pickTarget e l 0 None _) as [j|].
    + destruct (l !! j) as [best|] eqn:Hb.
      * intros H. apply applyHeal_lookup in H.
        destruct H as [H|(-> & Hx & Hy & Hs & Hd)].
        -- rewrite list_lookup_insert_ne in H by congruence.
           exists e'. auto.
        -- exists best. auto.
      * simpl. intros H. rewrite list_lookup_insert_ne in H by congruence.
        exists e'. auto.
    + simpl. intros H. rewrite list_lookup_insert_ne in H by congruence.
      exists e'. auto.
  - simpl. intros H. rewrite list_lookup_insert_ne in H by congruence.
    exists e'. auto.
Qed.

Lemma applyHeal_length (cfg : RepairCfg) (dt : Q) (e : Enemy) (j : nat)
    (best : Enemy) (l : list Enemy) (hb : gmap string Q) :
  length (fst (applyHeal cfg dt e j best l hb)) = length l.
Proof.
  unfold applyHeal. destruct (_ && _ && _); [|reflexivity].
  destruct (Qltb 0 _); [|reflexivity]. simpl. apply length_insert.
Qed.

Lemma updateOne_length (steer : Steering) (aggroMult dt : Q) (p : Player)
    (zw zh : Q) (i : nat) (l : list Enemy) (hb : gmap string Q) :
  length (fst (updateOne steer aggroMult dt p zw zh i (l, hb))) = length l.
Proof.
  unfold updateOne. destruct (l !! i) as [e|]; [|reflexivity].
  destruct (e_dead e); [reflexivity|].
  assert (Hl : length (fst (updateExplorationAI steer aggroMult dt p i e l hb))
               = length l).
  { unfold updateExplorationAI. destruct (hasAbility e "repairTether").
    - unfold updateRepairDroneAI.
      destruct (pickTarget e l 0 None _) as [j|].
      + destruct (l !! j) as [best|].
        * rewrite applyHeal_length. apply length_insert.
        * simpl. apply length_insert.
      + simpl. apply length_insert.
    - simpl. apply length_insert. }
  destruct (updateExplorationAI steer aggroMult dt p i e l hb) as [l1 hb1].
  simpl in Hl. destruct (l1 !! i); simpl; [rewrite length_insert|]; exact Hl.
Qed.

Lemma updateOne_settles (steer : Steering) (aggroMult dt : Q) (p : Player)
    (zw zh : Q) (i : nat) (l : list Enemy) (hb : gmap string Q) :
  (forall k e, (k < i)%nat -> l !! k = Some e ->
               e_dead e = true \/ inZone zw zh e) ->
  forall k e, (k < S i)%nat ->
    fst (updateOne steer aggroMult dt p zw zh i (l, hb)) !! k = Some e ->
    e_dead e = true \/ inZone zw zh e.
Proof.
  intros Hinv k e' Hk. unfold updateOne.
  destruct (l !! i) as [e|] eqn:He.
  - destruct (e_dead e) eqn:Hd.
    + simpl. intros H. destruct (decide (k = i)) as [->|Hne].
      * rewrite He in H. injection H as <-. left. exact Hd.
      * apply (Hinv k); [lia | exact H].
    + pose proof (updateExplorationAI_others steer aggroMult dt p i e l hb)
        as Hoth.
      destruct (updateExplorationAI steer aggroMult dt p i e l hb)
        as [l1 hb1]. simpl in Hoth.
      assert (Hsame : forall e1, k <> i -> l1 !! k = Some e1 ->
                        e_dead e1 = true \/ inZone zw zh e1).
      { intros e1 Hne H1.
        destruct (Hoth k e1 Hne H1) as (e0 & H0 & Hx & Hy & Hs & Hdd).
        destruct (Hinv k e0 ltac:(lia) H0) as [Hdead|Hin].
        - left. rewrite Hdd. exact Hdead.
        - right. eapply inZone_same; eassumption. }
      destruct (l1 !! i) as [e1|] eqn:H1; simpl; intros H.
      * destruct (decide (k = i)) as [->|Hne].
        -- rewrite list_lookup_insert_eq in H
             by (eapply lookup_lt_Some; exact H1).
           injection H as <-. right. apply integrate_inZone.
        -- rewrite list_lookup_insert_ne in H by congruence.
           apply Hsame; assumption.
      * destruct (decide (k = i)) as [->|Hne]; [congruence|].
        apply Hsame; assumption.
  - simpl. intros H. destruct (decide (k = i)) as [->|Hne]; [congruence|].
    apply (Hinv k); [lia | exact H].
Qed.

Lemma updateLoop_settles (steer : Steering) (aggroMult dt : Q) (p : Player)
    (zw zh : Q) (n i : nat) (l : list Enemy) (hb : gmap string Q) :
  (forall k e, (k < i)%nat -> l !! k = Some e ->
               e_dead e = true \/ inZone zw zh e) ->
  let out := fst (updateLoop steer aggroMult dt p zw zh n i (l, hb)) in
  length out = length l /\
  forall k e, (k < i + n)%nat -> out !! k = Some e ->
              e_dead e = true \/ inZone zw zh e.
Proof.
  revert i l hb. induction n as [|n IH]; intros i l hb Hinv.
  - simpl. split; [reflexivity|]. intros k e Hk. apply Hinv. lia.
  - change (updateLoop steer aggroMult dt p zw zh (S n) i (l, hb))
      with (updateLoop steer aggroMult dt p zw zh n (S i)
              (updateOne steer aggroMult dt p zw zh i (l, hb))).
    pose proof (updateOne_settles steer aggroMult dt p zw zh i l hb Hinv)
      as Hstep.
    pose proof (updateOne_length steer aggroMult dt p zw zh i l hb) as Hlen.
    destruct (updateOne steer aggroMult dt p zw zh i (l, hb)) as [l1 hb1].
    simpl in Hstep, Hlen.
    destruct (IH (S i) l1 hb1 Hstep) as [Hl Hall]. cbv zeta.
    split; [rewrite Hl; exact Hlen|].
    intros k e Hk. apply Hall. lia.
Qed.

(** X17.  After a tick of [update] in a zone, every entity it
    returns lies inside the zone by its own margin: at least
    [max(30, size * 1.2)] from the left and top borders and, when the zone
    leaves room between the margins, at least as far from the right and
    bottom borders, whatever the steering did. *)
Theorem update_keeps_enemies_in_zone (steer : Steering) (aggroMult dt : Q)
    (p : Player) (zoneWidth zoneHeight : Q) (enemies : list Enemy) :
  Forall (inZone zoneWidth zoneHeight)
         (update steer aggroMult dt p zoneWidth zoneHeight enemies).
Proof.
  unfold update. cbv zeta.
  destruct (updateLoop_settles steer aggroMult dt p zoneWidth zoneHeight
              (length enemies) 0 enemies ∅) as [Hl Hall].
  { intros k e Hk. lia. }
  apply Forall_forall. intros e He.
  apply list_elem_of_filter in He. destruct He as [Halive Hin].
  apply list_elem_of_lookup in Hin. destruct Hin as [k Hk].
  assert (Hlt : (k < 0 + length enemies)%nat).
  { apply lookup_lt_Some in Hk. lia. }
  destruct (Hall k e Hlt Hk) as [Hdead|Hz]; [congruence|exact Hz].
Qed.

Lemma pickTarget_eligible (e : Enemy) (others : list Enemy) (j : nat)
    (best : option nat) (bestScore : Q) (k : nat) :
  pickTarget e others j best bestScore = Some k ->
  best = Some k \/
  exists other : Enemy,
    (j <= k)%nat /\ others !! (k - j)%nat = Some other /\
    eligibleTarget e other.
Proof.
  revert j best bestScore.
  induction others as [|other rest IH]; intros j best bestScore; simpl.
  - intros H. left. exact H.
  - assert (Hskip : forall b s,
              pickTarget e rest (S j) b s = Some k ->
              b = Some k \/
              exists o : Enemy,
                (j <= k)%nat /\ (other :: rest) !! (k - j)%nat = Some o /\
                eligibleTarget e o).
    { intros b s H. destruct (IH _ _ _ H) as [Hb|(o & Hle & Ho & He)];
        [left; exact Hb|].
      right. exists o. split; [lia|]. split; [|exact He].
      replace (k - j)%nat with (S (k - S j)) by lia. exact Ho. }
    destruct (e_dead other) eqn:Hd; simpl; [apply Hskip|].
    destruct (String.eqb_spec (e_id other) (e_id e)) as [Hid|Hid];
      [apply Hskip|].
    destruct (hasAbility other "repairTether") eqn:Hab; [apply Hskip|].
    destruct (Qltb 650 _) eqn:Hfar; [apply Hskip|].
    apply Qltb_false in Hfar.
    destruct (Qltb bestScore _); [|apply Hskip].
    intros H. destruct (Hskip _ _ H) as [Hb|Hex]; [|right; exact Hex].
    injection Hb as <-. right. exists other.
    split; [lia|]. rewrite Nat.sub_diag. split; [reflexivity|].
    unfold eligibleTarget. auto.
Qed.

(** X18.  The ally a support entity picks is never itself (by
    id), never dead, never another support entity and never farther than
    650 away. *)
Theorem tether_target_is_eligible (e : Enemy) (enemies : list Enemy)
    (bestScore : Q) (k : nat) :
  pickTarget e enemies 0 None bestScore = Some k ->
  exists other : Enemy, enemies !! k = Some other /\ eligibleTarget e other.
Proof.
  intros H. destruct (pickTarget_eligible _ _ _ _ _ _ H)
    as [Hb|(other & _ & Ho & He)]; [discriminate|].
  rewrite Nat.sub_0_r in Ho. exists other. split; assumption.
Qed.

End BehaviourFacts.

(** The first drone of [squad] picks the wounded ally at index 0. *)
Lemma tether_target_is_eligible_witness :
  @Enemies.pickTarget refMath (drone "d_1" 10 0) squad 0 None (-(1000000000))
  = Some 0%nat /\
  exists other : Enemy,
    squad !! 0%nat = Some other /\
    @eligibleTarget refMath (drone "d_1" 10 0) other.
Proof.
  assert (H : @Enemies.pickTarget refMath (drone "d_1" 10 0) squad 0 None
                (-(1000000000)) = Some 0%nat) by (vm_compute; reflexivity).
  split; [exact H|].
  exact (@tether_target_is_eligible refMath _ _ _ _ H).
Defined.

(** *** Lazy initialisation *)

Section LazyInitFacts.
Import Enemies.

(** Each step of the lazy initialisation leaves an entity alone once its
    field is set or already holds the value the step would write. *)
Lemma initHome_fixed (x : Enemy) :
  is_Some (e_homeX x) -> is_Some (e_homeY x) -> initHome x = x.
Proof.
  intros [a Ha] [b Hb]. unfold initHome. rewrite Ha, Hb. reflexivity.
Qed.

Lemma initAiState_fixed (x : Enemy) :
  e_aiState x <> None -> initAiState x = x.
Proof.
  intros H. unfold initAiState. destruct (e_aiState x); [reflexivity|].
  congruence.
Qed.

Lemma initPatrol_fixed (x : Enemy) :
  truthyStr (e_patrol x) = true -> initPatrol x = x.
Proof. intros H. unfold initPatrol. rewrite H. reflexivity. Qed.

Lemma initPatrolRadius_fixed (x : Enemy) :
  falsyQ (e_patrolRadius x) = false -> initPatrolRadius x = x.
Proof. intros H. unfold initPatrolRadius. rewrite H. reflexivity. Qed.

Lemma initAggroRange_fixed (m : Q) (x : Enemy) :
  falsyQ (e_aggroRange x) = false \/
  e_aggroRange x = Some (baseAggroOf x * m) ->
  initAggroRange m x = x.
Proof.
  unfold initAggroRange, baseAggroOf.
  intros [H|H]; [rewrite H; reflexivity|].
  destruct (falsyQ (e_aggroRange x)); [|reflexivity].
  cbv zeta. rewrite <- H. destruct x; reflexivity.
Qed.

Lemma initAttackRange_fixed (x : Enemy) :
  falsyQ (e_attackRange x) = false \/ e_attackRange x = e_aggroRange x ->
  initAttackRange x = x.
Proof.
  unfold initAttackRange. intros [H|H]; [rewrite H; reflexivity|].
  destruct (falsyQ (e_attackRange x)); [|reflexivity].
  rewrite <- H. destruct x; reflexivity.
Qed.

Lemma initDisengageRange_fixed (x : Enemy) :
  falsyQ (e_disengageRange x) = false \/
  e_disengageRange x = Some (valQ (e_aggroRange x) * 1.65) ->
  initDisengageRange x = x.
Proof.
  unfold initDisengageRange. intros [H|H]; [rewrite H; reflexivity|].
  destruct (falsyQ (e_disengageRange x)); [|reflexivity].
  rewrite <- H. destruct x; reflexivity.
Qed.

Lemma initLeashRange_fixed (x : Enemy) :
  falsyQ (e_leashRange x) = false \/
  e_leashRange x
  = Some (Qmax (valQ (e_aggroRange x) * 2.2) (valQ (e_patrolRadius x) * 5)) ->
  initLeashRange x = x.
Proof.
  unfold initLeashRange. intros [H|H]; [rewrite H; reflexivity|].
  destruct (falsyQ (e_leashRange x)); [|reflexivity].
  rewrite <- H. destruct x; reflexivity.
Qed.

Lemma initReturnThreshold_fixed (x : Enemy) :
  falsyQ (e_returnThreshold x) = false \/
  e_returnThreshold x = Some (Qmax 40 (e_size x * 1.2)) ->
  initReturnThreshold x = x.
Proof.
  unfold initReturnThreshold. intros [H|H]; [rewrite H; reflexivity|].
  destruct (falsyQ (e_returnThreshold x)); [|reflexivity].
  rewrite <- H. destruct x; reflexivity.
Qed.

Lemma lazyInit_fixed (m : Q) (x : Enemy) :
  initialised m x -> lazyInit m x = x.
Proof.
  intros ((H1 & H1') & H2 & H3 & H4 & H5 & H6 & H7 & H8 & H9).
  unfold lazyInit.
  rewrite (initHome_fixed x H1 H1'), (initAiState_fixed x H2),
    (initPatrol_fixed x H3), (initPatrolRadius_fixed x H4),
    (initAggroRange_fixed m x H5), (initAttackRange_fixed x H6),
    (initDisengageRange_fixed x H7), (initLeashRange_fixed x H8).
  apply initReturnThreshold_fixed. exact H9.
Qed.

Ltac init_step :=
  simpl; repeat split;
  first [ assumption | left; assumption | right; reflexivity
        | eexists; reflexivity | discriminate | idtac ].

Lemma lazyInit_initialised (m : Q) (e : Enemy) : initialised m (lazyInit m e).
Proof.
  unfold lazyInit.
  assert (S1 : is_Some (e_homeX (initHome e)) /\ is_Some (e_homeY (initHome e))).
  { unfold initHome. destruct (e_homeX e) eqn:Ex, (e_homeY e) eqn:Ey;
      simpl; rewrite ?Ex, ?Ey; split; eexists; reflexivity. }
  generalize dependent (initHome e). intros x (H1 & H1').
  assert (S2 : (is_Some (e_homeX (initAiState x))
                /\ is_Some (e_homeY (initAiState x)))
               /\ e_aiState (initAiState x) <> None).
  { unfold initAiState. destruct (e_aiState x) eqn:E; init_step;
      rewrite E; discriminate. }
  generalize dependent (initAiState x). clear x H1 H1'.
  intros x ((H1 & H1') & H2).
  assert (S3 : (is_Some (e_homeX (initPatrol x))
                /\ is_Some (e_homeY (initPatrol x)))
               /\ e_aiState (initPatrol x) <> None
               /\ truthyStr (e_patrol (initPatrol x)) = true).
  { unfold initPatrol. destruct (truthyStr (e_patrol x)) eqn:E; init_step. }
  generalize dependent (initPatrol x). clear x H1 H1' H2.
  intros x ((H1 & H1') & H2 & H3).
  assert (S4 : (is_Some (e_homeX (initPatrolRadius x))
                /\ is_Some (e_homeY (initPatrolRadius x)))
               /\ e_aiState (initPatrolRadius x) <> None
               /\ truthyStr (e_patrol (initPatrolRadius x)) = true
               /\ falsyQ (e_patrolRadius (initPatrolRadius x)) = false).
  { unfold initPatrolRadius.
    destruct (falsyQ (e_patrolRadius x)) eqn:E; init_step. }
  generalize dependent (initPatrolRadius x). clear x H1 H1' H2 H3.
  intros x ((H1 & H1') & H2 & H3 & H4).
  assert (S5 : (is_Some (e_homeX (initAggroRange m x))
                /\ is_Some (e_homeY (initAggroRange m x)))
               /\ e_aiState (initAggroRange m x) <> None
               /\ truthyStr (e_patrol (initAggroRange m x)) = true
               /\ falsyQ (e_patrolRadius (initAggroRange m x)) = false
               /\ (falsyQ (e_aggroRange (initAggroRange m x)) = false \/
                   e_aggroRange (initAggroRange m x)
                   = Some (baseAggroOf (initAggroRange m x) * m))).
  { unfold initAggroRange, baseAggroOf.
    destruct (falsyQ (e_aggroRange x)) eqn:E; init_step. }
  generalize dependent (initAggroRange m x). clear x H1 H1' H2 H3 H4.
  intros x ((H1 & H1') & H2 & H3 & H4 & H5).
  assert (S6 : (is_Some (e_homeX (initAttackRange x))
                /\ is_Some (e_homeY (initAttackRange x)))
               /\ e_aiState (initAttackRange x) <> None
               /\ truthyStr (e_patrol (initAttackRange x)) = true
               /\ falsyQ (e_patrolRadius (initAttackRange x)) = false
               /\ (falsyQ (e_aggroRange (initAttackRange x)) = false \/
                   e_aggroRange (initAttackRange x)
                   = Some (baseAggroOf (initAttackRange x) * m))
               /\ (falsyQ (e_attackRange (initAttackRange x)) = false \/
                   e_attackRange (initAttackRange x)
                   = e_aggroRange (initAttackRange x))).
  { unfold initAttackRange.
    destruct (falsyQ (e_attackRange x)) eqn:E; init_step. }
  generalize dependent (initAttackRange x). clear x H1 H1' H2 H3 H4 H5.
  intros x ((H1 & H1') & H2 & H3 & H4 & H5 & H6).
  assert (S7 : (is_Some (e_homeX (initDisengageRange x))
                /\ is_Some (e_homeY (initDisengageRange x)))
               /\ e_aiState (initDisengageRange x) <> None
               /\ truthyStr (e_patrol (initDisengageRange x)) = true
               /\ falsyQ (e_patrolRadius (initDisengageRange x)) = false
               /\ (falsyQ (e_aggroRange (initDisengageRange x)) = false \/
                   e_aggroRange (initDisengageRange x)
                   = Some (baseAggroOf (initDisengageRange x) * m))
               /\ (falsyQ (e_attackRange (initDisengageRange x)) = false \/
                   e_attackRange (initDisengageRange x)
                   = e_aggroRange (initDisengageRange x))
               /\ (falsyQ (e_disengageRange (initDisengageRange x)) = false \/
                   e_disengageRange (initDisengageRange x)
                   = Some (valQ (e_aggroRange (initDisengageRange x)) * 1.65))).
  { unfold initDisengageRange.
    destruct (falsyQ (e_disengageRange x)) eqn:E; init_step. }
  generalize dependent (initDisengageRange x). clear x H1 H1' H2 H3 H4 H5 H6.
  intros x ((H1 & H1') & H2 & H3 & H4 & H5 & H6 & H7).
  assert (S8 : (is_Some (e_homeX (initLeashRange x))
                /\ is_Some (e_homeY (initLeashRange x)))
               /\ e_aiState (initLeashRange x) <> None
               /\ truthyStr (e_patrol (initLeashRange x)) = true
               /\ falsyQ (e_patrolRadius (initLeashRange x)) = false
               /\ (falsyQ (e_aggroRange (initLeashRange x)) = false \/
                   e_aggroRange (initLeashRange x)
                   = Some (baseAggroOf (initLeashRange x) * m))
               /\ (falsyQ (e_attackRange (initLeashRange x)) = false \/
                   e_attackRange (initLeashRange x)
                   = e_aggroRange (initLeashRange x))
               /\ (falsyQ (e_disengageRange (initLeashRange x)) = false \/
                   e_disengageRange (initLeashRange x)
                   = Some (valQ (e_aggroRange (initLeashRange x)) * 1.65))
               /\ (falsyQ (e_leashRange (initLeashRange x)) = false \/
                   e_leashRange (initLeashRange x)
                   = Some (Qmax (valQ (e_aggroRange (initLeashRange x)) * 2.2)
                                (valQ (e_patrolRadius (initLeashRange x))
                                 * 5)))).
  { unfold initLeashRange.
    destruct (falsyQ (e_leashRange x)) eqn:E; init_step. }
  generalize dependent (initLeashRange x). clear x H1 H1' H2 H3 H4 H5 H6 H7.
  intros x ((H1 & H1') & H2 & H3 & H4 & H5 & H6 & H7 & H8).
  unfold initialised, initReturnThreshold.
  destruct (falsyQ (e_returnThreshold x)) eqn:E; init_step.
Qed.

(** X19.  The lazy initialisation of [updateExplorationAI] is
    idempotent on the fields the state machine reads (home, state, patrol
    shape and radius, and the five ranges): its result is an entity on
    which it has nothing left to fill in, and running it again on that
    result changes nothing. *)
Theorem lazyInit_idempotent (aggroMult : Q) (e : Enemy) :
  initialised aggroMult (lazyInit aggroMult e) /\
  lazyInit aggroMult (lazyInit aggroMult e) = lazyInit aggroMult e.
Proof.
  pose proof (lazyInit_initialised aggroMult e) as Hinit.
  split; [exact Hinit|].
  apply lazyInit_fixed. exact Hinit.
Qed.

End LazyInitFacts.

(** ** World: descriptors over their life *)

Section LifecycleFacts.
Context {M : JSMath}.
Import World.

Lemma getSpawn_setSpawn_other (ref ref' : SpawnRef) (s : Spawn)
    (ws : WorldState) :
  ref <> ref' -> getSpawn ref (setSpawn ref' s ws) = getSpawn ref ws.
Proof.
  destruct ref as [b k], ref' as [b' k']. intros Hne.
  unfold getSpawn, setSpawn. simpl.
  destruct b, b'; simpl; try reflexivity;
    apply list_lookup_insert_ne; congruence.
Qed.

Lemma getSpawn_setEnemies (ref : SpawnRef) (l : list Enemy) (ws : WorldState) :
  getSpawn ref (setEnemies l ws) = getSpawn ref ws.
Proof. destruct ref as [[|] k]; reflexivity. Qed.

Lemma spawnEnemy_getSpawn_other (o : SpawnOracle) (am : Q)
    (ref ref' : SpawnRef) (spawn : Spawn) (ws : WorldState) :
  ref <> ref' ->
  getSpawn ref (spawnEnemy o am ref' spawn ws) = getSpawn ref ws.
Proof.
  intros Hne. unfold spawnEnemy. cbv zeta.
  match goal with
  | |- getSpawn ref (mkWorld (w_enemySpawns ?w) _ _ _ _) = _ =>
      transitivity (getSpawn ref w);
        [destruct ref as [[|] k]; reflexivity|]
  end.
  rewrite getSpawn_setSpawn_other by exact Hne.
  apply getSpawn_setEnemies.
Qed.

Lemma despawnEnemy_getSpawn_other (ref ref' : SpawnRef) (spawn : Spawn)
    (ws : WorldState) :
  ref <> ref' ->
  getSpawn ref (despawnEnemy ref' spawn ws) = getSpawn ref ws.
Proof.
  intros Hne. unfold despawnEnemy. cbv zeta.
  match goal with
  | |- getSpawn ref (mkWorld (w_enemySpawns ?w) _ _ _ _) = _ =>
      transitivity (getSpawn ref w);
        [destruct ref as [[|] k]; reflexivity|]
  end.
  rewrite getSpawn_setSpawn_other by exact Hne.
  destruct (findIndexById _ _ 0) as [idx|]; [|reflexivity].
  destruct (w_enemies ws !! idx); [|reflexivity].
  destruct ref as [[|] k]; reflexivity.
Qed.

Lemma despawnCheck_getSpawn_other (c : WorldCfg) (dm : Q) (v : View)
    (ref ref' : SpawnRef) (ws : WorldState) :
  ref <> ref' ->
  getSpawn ref (despawnCheck c dm v ref' ws) = getSpawn ref ws.
Proof.
  intros Hne. unfold despawnCheck.
  destruct (getSpawn ref' ws) as [spawn|]; [|reflexivity].
  destruct (sp_active spawn && _); [|reflexivity].
  destruct (findIndexById _ _ 0) as [i|];
    [|apply despawnEnemy_getSpawn_other; exact Hne].
  destruct (w_enemies ws !! i) as [enemy|];
    [|apply despawnEnemy_getSpawn_other; exact Hne].
  cbv zeta. destruct (_ && _).
  - rewrite despawnEnemy_getSpawn_other by exact Hne.
    apply getSpawn_setEnemies.
  - apply getSpawn_setEnemies.
Qed.

Lemma checkSpawn_getSpawn_other (c : WorldCfg) (t : Tuning)
    (o : SpawnOracle) (v : View) (ref ref' : SpawnRef) (ws : WorldState) :
  ref <> ref' ->
  getSpawn ref (checkSpawn c t o v ref' ws) = getSpawn ref ws.
Proof.
  intros Hne. unfold checkSpawn. cbv zeta.
  destruct (getSpawn ref' ws) as [spawn|]; [|reflexivity].
  destruct (sp_killed spawn); [reflexivity|].
  rewrite despawnCheck_getSpawn_other by exact Hne.
  destruct (_ && _); [apply spawnEnemy_getSpawn_other; exact Hne|].
  destruct (_ && _); [apply spawnEnemy_getSpawn_other; exact Hne|].
  reflexivity.
Qed.



Lemma isInView_wider (x y cx cy w h m1 m2 : Q) :
  m1 <= m2 -> isInView x y cx cy w h m1 = true ->
  isInView x y cx cy w h m2 = true.
Proof.
  intros Hm. unfold isInView. rewrite !andb_true_iff, !Qleb_true.
  intros (((H1 & H2) & H3) & H4). repeat split; lra.
Qed.

Lemma spawnEnemy_activates (o : SpawnOracle) (am : Q) (ref : SpawnRef)
    (spawn : Spawn) (ws : WorldState) :
  getSpawn ref ws = Some spawn ->
  getSpawn ref (spawnEnemy o am ref spawn ws)
  = Some (setActivation true (Some (e_id (spawned o ref spawn))) spawn).
Proof.
  intros Hs. unfold spawnEnemy. cbv zeta.
  match goal with
  | |- getSpawn ref (mkWorld (w_enemySpawns ?w) _ _ _ _) = _ =>
      transitivity (getSpawn ref w);
        [destruct ref as [[|] k]; reflexivity|]
  end.
  apply (getSpawn_setSpawn ref _ spawn).
  rewrite getSpawn_setEnemies. exact Hs.
Qed.

Lemma despawnCheck_in_window (c : WorldCfg) (dm : Q) (v : View)
    (ref : SpawnRef) (ws : WorldState) (spawn : Spawn) :
  getSpawn ref ws = Some spawn ->
  shouldDespawn c dm v spawn = false ->
  despawnCheck c dm v ref ws = ws.
Proof.
  intros Hs Hd. unfold despawnCheck. rewrite Hs, Hd, andb_false_r.
  reflexivity.
Qed.

(** X21.  A live descriptor that lies in the spawn view, with
    the despawn margin at least the spawn margin and the player within
    the despawn radius, is active after its check in [update]: it is
    spawned if it was not, and it is not despawned in the same pass. *)
Theorem visible_spawn_is_active (c : WorldCfg) (t : Tuning)
    (o : SpawnOracle) (v : View) (ref : SpawnRef) (ws : WorldState)
    (spawn : Spawn) :
  let spawnMargin := numberOr (spawnViewMargin t) (defaultSpawnViewMargin c) in
  let despawnMargin :=
    numberOr (despawnViewMargin t) (defaultDespawnViewMargin c) in
  getSpawn ref ws = Some spawn -> sp_killed spawn = false ->
  isInView (sp_x spawn) (sp_y spawn) (camX v) (camY v) (screenW v)
           (screenH v) spawnMargin = true ->
  spawnMargin <= despawnMargin ->
  Math_hypot (pl_x (player v) - sp_x spawn) (pl_y (player v) - sp_y spawn)
    <= despawnRadius c ->
  exists s' : Spawn,
    getSpawn ref (checkSpawn c t o v ref ws) = Some s' /\
    sp_active s' = true /\ sp_killed s' = false /\
    sp_x s' = sp_x spawn /\ sp_y s' = sp_y spawn.
Proof.
  intros sm dm Hs Hk Hview Hm Hdist.
  assert (Hnd : forall s0 : Spawn,
             sp_x s0 = sp_x spawn -> sp_y s0 = sp_y spawn ->
             shouldDespawn c dm v s0 = false).
  { intros s0 Hx Hy. unfold shouldDespawn. cbv zeta. rewrite Hx, Hy.
    rewrite (isInView_wider _ _ _ _ _ _ sm dm Hm Hview). simpl.
    apply Qltb_false. exact Hdist. }
  unfold checkSpawn. cbv zeta. rewrite Hs, Hk. fold sm dm.
  rewrite Hview, andb_true_r.
  destruct (sp_active spawn) eqn:Ha; simpl.
  - rewrite (despawnCheck_in_window c dm v ref ws spawn Hs)
      by (apply Hnd; reflexivity).
    exists spawn. auto.
  - pose proof (spawnEnemy_activates o
                  (numberOr (enemyAggroRangeMult t) 1.0) ref spawn ws Hs)
      as Hact.
    rewrite (despawnCheck_in_window c dm v ref _ _ Hact)
      by (apply Hnd; reflexivity).
    eexists. split; [exact Hact|]. simpl. auto.
Qed.

(** The entity [spawnEnemy] appends to [State.enemies], field by field. *)
Lemma spawnEnemy_entity (o : SpawnOracle) (am : Q) (ref : SpawnRef)
    (spawn : Spawn) (ws : WorldState) :
  exists E : Enemy,
    w_enemies (spawnEnemy o am ref spawn ws) = w_enemies ws ++ [E] /\
    w_activeEnemies (spawnEnemy o am ref spawn ws)
    = w_activeEnemies ws ++ [ref] /\
    e_id E = e_id (spawned o ref spawn) /\
    e_size E = e_size (spawned o ref spawn) /\
    (e_x E = sp_x spawn /\ e_y E = sp_y spawn) /\
    (e_homeX E = Some (sp_x spawn) /\ e_homeY E = Some (sp_y spawn)) /\
    e_aiState E = Some Patrol /\
    e_spawnRef E = Some ref /\
    e_patrol E
    = (if truthyStr (sp_patrol spawn) then sp_patrol spawn
       else Some (if fst ref then "circle" else "wander")%string) /\
    e_patrolRadius E
    = Some (inject_Z (orDefaultZ (sp_patrolRadius spawn)
                                 (if fst ref then 140 else 110))) /\
    e_aggroRange E = Some ((if fst ref then 420 else 340) * am) /\
    e_attackRange E = e_aggroRange E /\
    e_disengageRange E = Some (Enemies.valQ (e_aggroRange E) * 1.65) /\
    e_leashRange E
    = Some (Qmax (Enemies.valQ (e_aggroRange E) * 2.2)
                 (Enemies.valQ (e_patrolRadius E) * 5)) /\
    e_returnThreshold E = Some (Qmax 40 (e_size E * 1.2)).
Proof.
  destruct ref as [[|] k]; eexists; (split; [reflexivity|]);
    repeat split; reflexivity.
Qed.

Lemma orDefaultZ_nonzero (v : option Z) (d : Z) :
  d <> 0%Z -> orDefaultZ v d <> 0%Z.
Proof.
  intros Hd. unfold orDefaultZ. destruct v as [z|]; [|exact Hd].
  destruct (Z.eqb_spec z 0); assumption.
Qed.

Lemma falsyQ_nonzero (q : Q) : ~ q == 0 -> Enemies.falsyQ (Some q) = false.
Proof.
  intros H. unfold Enemies.falsyQ. destruct (Qeq_bool q 0) eqn:E;
    [|reflexivity].
  apply Qeq_bool_iff in E. contradiction.
Qed.

(** X22.  The entity [spawnEnemy] appends to [State.enemies]
    stands at its descriptor, which is its home, in patrol state, and,
    with a non-zero aggro multiplier, carries every range the lazy
    initialisation of [updateExplorationAI] would fill in: that
    initialisation leaves it unchanged. *)
Theorem spawned_enemy_is_initialised (o : SpawnOracle) (aggroMult : Q)
    (ref : SpawnRef) (spawn : Spawn) (ws : WorldState) :
  ~ aggroMult == 0 ->
  exists E : Enemy,
    w_enemies (spawnEnemy o aggroMult ref spawn ws) = w_enemies ws ++ [E] /\
    initialised aggroMult E /\
    Enemies.lazyInit aggroMult E = E /\
    e_aiState E = Some Patrol /\
    (e_x E = sp_x spawn /\ e_y E = sp_y spawn) /\
    (e_homeX E = Some (sp_x spawn) /\ e_homeY E = Some (sp_y spawn)) /\
    e_spawnRef E = Some ref.
Proof.
  intros Ham.
  destruct (spawnEnemy_entity o aggroMult ref spawn ws)
    as (E & Hen & _ & _ & _ & Hpos & (Hhx & Hhy) & Hst & Hrf & Hpat & Hpr
        & Hag & Hat & Hdi & Hle & Hrt).
  assert (Hinit : initialised aggroMult E).
  { unfold initialised. rewrite Hhx, Hhy, Hst.
    split; [split; eexists; reflexivity|]. split; [discriminate|].
    split.
    { rewrite Hpat. destruct (truthyStr (sp_patrol spawn)) eqn:Et;
        [exact Et|]. destruct (fst ref); reflexivity. }
    split.
    { rewrite Hpr. apply falsyQ_nonzero. intros H.
      unfold Qeq in H. simpl in H. rewrite Z.mul_1_r in H.
      revert H. apply orDefaultZ_nonzero. destruct (fst ref); discriminate. }
    split.
    { left. rewrite Hag. apply falsyQ_nonzero. intros H.
      apply Qmult_integral in H. destruct H as [H|H]; [|contradiction].
      destruct (fst ref); discriminate. }
    split; [right; exact Hat|]. split; [right; exact Hdi|].
    split; [right; exact Hle|]. right. exact Hrt. }
  exists E. split; [exact Hen|]. split; [exact Hinit|].
  split; [apply lazyInit_fixed; exact Hinit|]. auto.
Qed.

Lemma findIndexById_fresh (id : string) (l : list Enemy) (E : Enemy)
    (k : nat) :
  (forall e, e ∈ l -> e_id e <> id) -> e_id E = id ->
  findIndexById (Some id) (l ++ [E]) k = Some (k + length l)%nat.
Proof.
  intros Hfresh HE. revert k.
  induction l as [|a l IH]; intros k; simpl.
  - rewrite bool_decide_true by (rewrite HE; reflexivity).
    f_equal. lia.
  - rewrite bool_decide_false.
    + rewrite IH; [f_equal; lia|]. intros e He. apply Hfresh.
      apply elem_of_cons. right. exact He.
    + intros H. injection H as H. revert H. apply Hfresh.
      apply elem_of_cons. left. reflexivity.
Qed.

Lemma delete_last {A : Type} (l : list A) (x : A) :
  delete (length l) (l ++ [x]) = l.
Proof. induction l as [|a l IH]; simpl; [reflexivity|]. f_equal. exact IH. Qed.

Lemma filter_absent (ref : SpawnRef) (l : list SpawnRef) :
  ref ∉ l -> filter (fun r => r <> ref) l = l.
Proof.
  induction l as [|a l IH]; intros H; [reflexivity|].
  rewrite filter_cons. rewrite not_elem_of_cons in H. destruct H as [Ha Hl].
  rewrite decide_True by congruence. rewrite IH by exact Hl. reflexivity.
Qed.

Lemma despawnEnemy_active (ref : SpawnRef) (spawn : Spawn)
    (ws : WorldState) :
  w_activeEnemies (despawnEnemy ref spawn ws)
  = filter (fun r => r <> ref) (w_activeEnemies ws).
Proof.
  unfold despawnEnemy. cbv zeta.
  destruct (findIndexById _ _ 0) as [i|];
    [destruct (w_enemies ws !! i)|];
    destruct ref as [[|] k]; reflexivity.
Qed.

(** X23.  Spawning the enemy of a descriptor and despawning it
    again gives back [State.enemies] and the active list as they were and
    leaves the descriptor inactive without an enemy id, provided the new
    entity's id is not already in use and the descriptor was not in the
    active list. *)
Theorem spawn_then_despawn_restores (o : SpawnOracle) (aggroMult : Q)
    (ref : SpawnRef) (spawn : Spawn) (ws : WorldState) :
  getSpawn ref ws = Some spawn ->
  (forall e, e ∈ w_enemies ws -> e_id e <> e_id (spawned o ref spawn)) ->
  ref ∉ w_activeEnemies ws ->
  exists spawn1 : Spawn,
    getSpawn ref (spawnEnemy o aggroMult ref spawn ws) = Some spawn1 /\
    sp_active spawn1 = true /\
    sp_enemyId spawn1 = Some (e_id (spawned o ref spawn)) /\
    w_enemies (despawnEnemy ref spawn1 (spawnEnemy o aggroMult ref spawn ws))
    = w_enemies ws /\
    w_activeEnemies
      (despawnEnemy ref spawn1 (spawnEnemy o aggroMult ref spawn ws))
    = w_activeEnemies ws /\
    getSpawn ref
      (despawnEnemy ref spawn1 (spawnEnemy o aggroMult ref spawn ws))
    = Some (setActivation false None spawn).
Proof.
  intros Hs Hfresh Hact.
  pose proof (spawnEnemy_activates o aggroMult ref spawn ws Hs) as H1.
  destruct (spawnEnemy_entity o aggroMult ref spawn ws)
    as (E & Hen & Hal & Hid & _).
  set (ws1 := spawnEnemy o aggroMult ref spawn ws) in *.
  set (spawn1 := setActivation true (Some (e_id (spawned o ref spawn))) spawn)
    in *.
  exists spawn1. split; [exact H1|]. split; [reflexivity|].
  split; [reflexivity|].
  assert (Hf : findIndexById (sp_enemyId spawn1) (w_enemies ws1) 0
               = Some (length (w_enemies ws))).
  { rewrite Hen. simpl sp_enemyId.
    rewrite (findIndexById_fresh _ _ E 0 Hfresh Hid). reflexivity. }
  assert (He : w_enemies ws1 !! length (w_enemies ws) = Some E).
  { rewrite Hen. rewrite lookup_app_r by lia.
    rewrite Nat.sub_diag. reflexivity. }
  destruct (despawnEnemy_found ref spawn1 spawn1 ws1 _ E H1 Hf He)
    as (Hd1 & _ & Hd3).
  split; [rewrite Hd1, Hen; apply delete_last|].
  split; [|exact Hd3].
  rewrite despawnEnemy_active, Hal, filter_app, filter_absent by exact Hact.
  rewrite filter_cons, decide_False by (intros H; apply H; reflexivity).
  rewrite filter_nil. apply app_nil_r.
Qed.

End LifecycleFacts.

(** The fresh descriptor of [freshWorld] under [nearView], with the
    default margins 520 and 1800 and the default despawn radius 1200. *)
Lemma visible_spawn_is_active_witness :
  exists s' : Spawn,
    World.getSpawn (false, 0%nat)
      (@World.checkSpawn refMath World.defaultWorldCfg noTuning gruntOracle
         nearView (false, 0%nat) freshWorld) = Some s' /\
    sp_active s' = true.
Proof.
  destruct (@visible_spawn_is_active refMath World.defaultWorldCfg noTuning
              gruntOracle nearView (false, 0%nat) freshWorld (grunt 400 500))
    as (s' & H1 & H2 & _).
  - reflexivity.
  - reflexivity.
  - vm_compute. reflexivity.
  - simpl. lra.
  - vm_compute. discriminate.
  - exists s'. split; assumption.
Defined.

(** The entity spawned for the descriptor of [freshWorld] with the
    default aggro multiplier. *)
Lemma spawned_enemy_is_initialised_witness :
  exists E : Enemy,
    World.w_enemies
      (World.spawnEnemy gruntOracle 1 (false, 0%nat) (grunt 400 500)
         freshWorld) = [E] /\
    @Enemies.lazyInit 1 E = E.
Proof.
  destruct (spawned_enemy_is_initialised gruntOracle 1 (false, 0%nat)
              (grunt 400 500) freshWorld) as (E & H1 & _ & H2 & _).
  - intros H. discriminate H.
  - exists E. split; [exact H1 | exact H2].
Defined.

(** Spawning and despawning the descriptor of [freshWorld]. *)
Lemma spawn_then_despawn_restores_witness :
  exists spawn1 : Spawn,
    World.getSpawn (false, 0%nat)
      (World.spawnEnemy gruntOracle 1 (false, 0%nat) (grunt 400 500)
         freshWorld) = Some spawn1 /\
    World.w_enemies
      (World.despawnEnemy (false, 0%nat) spawn1
         (World.spawnEnemy gruntOracle 1 (false, 0%nat) (grunt 400 500)
            freshWorld)) = [].
Proof.
  destruct (spawn_then_despawn_restores gruntOracle 1 (false, 0%nat)
              (grunt 400 500) freshWorld)
    as (spawn1 & H1 & _ & _ & H2 & _).
  - reflexivity.
  - intros e He. simpl in He. apply elem_of_nil in He. contradiction.
  - simpl. apply not_elem_of_nil.
  - exists spawn1. split; [exact H1 | exact H2].
Defined.


(** ** World: asteroid props *)

Section PropFacts.
Context {R : SeededRandom} {M : JSMath}.
Import MapGenerator World.

Lemma swapAt_Forall {A : Type} (P : A -> Prop) (arr : list A) (i j : nat) :
  Forall P arr -> Forall P (swapAt arr i j).
Proof.
  intros H. unfold swapAt.
  destruct (arr !! i) as [a|] eqn:Ea; [|exact H].
  destruct (arr !! j) as [b|] eqn:Eb; [|exact H].
  rewrite Forall_forall in H.
  apply Forall_insert; [apply Forall_insert|].
  - apply Forall_forall. exact H.
  - apply H. apply list_elem_of_lookup. exists j. exact Eb.
  - apply H. apply list_elem_of_lookup. exists i. exact Ea.
Qed.

Lemma swapAt_length {A : Type} (arr : list A) (i j : nat) :
  length (swapAt arr i j) = length arr.
Proof.
  unfold swapAt. destruct (arr !! i); [|reflexivity].
  destruct (arr !! j); [|reflexivity]. rewrite !length_insert. reflexivity.
Qed.

Lemma shuffleFrom_spec {A : Type} (P : A -> Prop) (i : nat) (arr : list A)
    (r : rng) :
  length (fst (shuffleFrom i arr r)) = length arr /\
  (Forall P arr -> Forall P (fst (shuffleFrom i arr r))).
Proof.
  revert arr r. induction i as [|i IH]; intros arr r; simpl; [auto|].
  unfold bind, int. destruct (rng_int _ _ r) as [j r1].
  destruct (j <? 0)%Z; [apply IH|].
  destruct (IH (swapAt arr (S i) (Z.to_nat j)) r1) as [Hl Hf].
  rewrite swapAt_length in Hl. split; [exact Hl|].
  intros H. apply Hf. apply swapAt_Forall. exact H.
Qed.

Lemma shuffle_spec {A : Type} (P : A -> Prop) (arr : list A) (r : rng) :
  length (fst (shuffle arr r)) = length arr /\
  (Forall P arr -> Forall P (fst (shuffle arr r))).
Proof. apply shuffleFrom_spec. Qed.

Lemma sliceTo_pos {A : Type} (k : Z) (arr : list A) :
  (0 <= k)%Z -> sliceTo k arr = take (Z.to_nat k) arr.
Proof. intros H. unfold sliceTo. destruct (Z.ltb_spec k 0); [lia|reflexivity]. Qed.

Lemma sliceFrom_Forall {A : Type} (P : A -> Prop) (k : Z) (arr : list A) :
  Forall P arr -> Forall P (sliceFrom k arr).
Proof. intros H. unfold sliceFrom. destruct (k <? 0)%Z; apply Forall_drop; exact H. Qed.

Lemma sliceTo_Forall {A : Type} (P : A -> Prop) (k : Z) (arr : list A) :
  Forall P arr -> Forall P (sliceTo k arr).
Proof. intros H. unfold sliceTo. destruct (k <? 0)%Z; apply Forall_take; exact H. Qed.

(** What [pickProps] picks: at most [max(0, maxPerZone)] props, all of
    them from the two lists, the first [takeNear] of them from [near]. *)
Lemma pickProps_spec (P N : Obstacle -> Prop) (maxPerZone minNearSpawn : Z)
    (near far : list Obstacle) (r : rng) :
  let picked := fst (pickProps maxPerZone minNearSpawn near far r) in
  let takeNear :=
    Z.min (Z.min (Z.max 0 minNearSpawn) maxPerZone)
          (Z.of_nat (length near)) in
  (Z.of_nat (length picked) <= Z.max 0 maxPerZone)%Z /\
  (Forall P near -> Forall P far -> Forall P picked) /\
  (Forall N near ->
   exists front back : list Obstacle,
     picked = front ++ back /\ Forall N front /\
     (takeNear <= Z.of_nat (length front))%Z).
Proof.
  cbv zeta. unfold pickProps, bind, ret.
  destruct (shuffle_spec P near r) as [Hl1 HP1].
  destruct (shuffle_spec N near r) as [_ HN1].
  destruct (shuffle near r) as [near1 r1]. simpl in Hl1, HP1, HN1.
  destruct (shuffle_spec P far r1) as [_ HP2].
  destruct (shuffle far r1) as [far1 r2]. simpl in HP2.
  rewrite Hl1.
  set (takeNear := Z.min (Z.min (Z.max 0 minNearSpawn) maxPerZone)
                         (Z.of_nat (length near))).
  set (picked1 := if (0 <? takeNear)%Z then sliceTo takeNear near1 else []).
  destruct (shuffle_spec P (sliceFrom takeNear near1 ++ far1) r2)
    as [_ HP3].
  destruct (shuffle (sliceFrom takeNear near1 ++ far1) r2) as [rest r3].
  simpl in HP3. simpl fst.
  set (slots := Z.max 0 (maxPerZone - Z.of_nat (length picked1))).
  assert (Hp1 : (Z.of_nat (length picked1) = Z.max 0 takeNear)%Z).
  { unfold picked1. destruct (Z.ltb_spec 0 takeNear) as [Hpos|Hneg].
    - rewrite sliceTo_pos by lia. rewrite length_take. unfold takeNear in *.
      lia.
    - simpl. lia. }
  assert (Hlen : (Z.of_nat (length (if (0 <? slots)%Z
                                     then picked1 ++ sliceTo slots rest
                                     else picked1))
                  <= Z.max 0 maxPerZone)%Z).
  { destruct (Z.ltb_spec 0 slots) as [Hpos|Hneg].
    - rewrite length_app, sliceTo_pos by lia. rewrite length_take.
      unfold slots in *. lia.
    - unfold slots, takeNear in *. lia. }
  split; [exact Hlen|]. split.
  - intros Hn Hf.
    assert (H1 : Forall P picked1).
    { unfold picked1. destruct (0 <? takeNear)%Z; [|constructor].
      apply sliceTo_Forall. apply HP1. exact Hn. }
    destruct (0 <? slots)%Z; [|exact H1].
    apply Forall_app. split; [exact H1|].
    apply sliceTo_Forall. apply HP3. apply Forall_app. split.
    + apply sliceFrom_Forall. apply HP1. exact Hn.
    + apply HP2. exact Hf.
  - intros Hn.
    assert (H1 : Forall N picked1).
    { unfold picked1. destruct (0 <? takeNear)%Z; [|constructor].
      apply sliceTo_Forall. apply HN1. exact Hn. }
    exists picked1, (if (0 <? slots)%Z then sliceTo slots rest else []).
    split; [destruct (0 <? slots)%Z; [reflexivity|rewrite app_nil_r;
                                                   reflexivity]|].
    split; [exact H1|]. lia.
Qed.

Lemma mapGen_bodies (spriteCount : Z) (picked : list Obstacle) (r : rng) :
  let asteroids :=
    fst (mapGen (fun a =>
                   let* idx :=
                     if (0 <? spriteCount)%Z
                     then int 0 (spriteCount - 1) else ret 0%Z in
                   ret (mkAsteroid a false 0 idx))
                picked r) in
  map body asteroids = picked /\
  Forall (fun a => destroyed a = false /\ hitCd a = 0) asteroids.
Proof.
  cbv zeta. revert r. induction picked as [|a picked IH]; intros r; simpl.
  - split; [reflexivity|constructor].
  - unfold bind, ret.
    destruct ((if (0 <? spriteCount)%Z then int 0 (spriteCount - 1)
               else fun r0 => (0%Z, r0)) r) as [idx r1].
    specialize (IH r1).
    destruct (mapGen _ picked r1) as [rest r2]. simpl in *.
    destruct IH as [IH1 IH2]. split; [rewrite IH1; reflexivity|].
    constructor; [split; reflexivity|exact IH2].
Qed.

Lemma synthAsteroid_kind (zone : Zone) (nearSpawnRadius : Q) (r : rng) :
  let ob := fst (synthAsteroid zone nearSpawnRadius r) in
  ob_type ob = Some "asteroid"%string /\ ob_destructible ob = true /\
  120 <= ob_x ob /\ 120 <= ob_y ob.
Proof.
  cbv zeta. unfold synthAsteroid, bind, range, int, ret.
  destruct (rng_range _ _ r) as [ang r1].
  destruct (rng_range _ _ r1) as [dist r2].
  destruct (rng_int _ _ r2) as [radius r3].
  destruct (rng_range _ _ r3) as [rot r4].
  destruct (rng_int _ _ r4) as [hp r5]. simpl.
  repeat split; apply Qmax_ge_l.
Qed.

(** X24.  The asteroid props of a zone are bounded and well
    formed: there are at most [max(0, maxPerZone)] of them (30 by
    default), each is a destructible obstacle of type [asteroid], not
    destroyed and without a hit cooldown, and each is either one of the
    zone's obstacles or, when none of those was picked, a synthesized one
    placed at least 120 from the left and top borders.  Unless the feature
    is disabled, the zone's obstacle list keeps exactly its other
    obstacles, in order. *)
Theorem asteroid_props_bounded (cfg : AsteroidCfg) (zone : Zone)
    (zoneSeed : Z) :
  let r := prepareAsteroidsForZone cfg zone zoneSeed in
  (Z.of_nat (length (snd r))
   <= Z.max 0 (numberOr (ast_maxPerZone cfg) 30))%Z /\
  Forall freshAsteroid (snd r) /\
  (Forall (fun a => body a ∈ obstacles zone) (snd r) \/
   Forall (fun a => 120 <= ob_x (body a) /\ 120 <= ob_y (body a)) (snd r)) /\
  (ast_enabled cfg <> Some false ->
   fst r = filter (fun ob => isCandidate ob = false) (obstacles zone)).
Proof.
  cbv zeta. unfold prepareAsteroidsForZone.
  case_bool_decide as Hen.
  { simpl. split; [lia|]. split; [constructor|]. split; [left; constructor|].
    congruence. }
  cbv zeta. unfold bind, ret.
  set (maxPerZone := numberOr (ast_maxPerZone cfg) 30%Z).
  set (minNear := numberOr (ast_minNearSpawn cfg) (Z.min 6 maxPerZone)).
  set (radius := numberOr (ast_nearSpawnRadius cfg) 1400).
  set (candidates := filter (fun obs => isCandidate obs = true)
                            (obstacles zone)).
  set (near := filter (fun c => isNear (spawn zone) radius c = true)
                      candidates).
  set (far := filter (fun c => isNear (spawn zone) radius c = false)
                     candidates).
  set (good := fun ob : Obstacle =>
                 ob ∈ obstacles zone /\ isCandidate ob = true).
  assert (Hcand : Forall good candidates).
  { apply Forall_forall. intros ob Hob. unfold candidates in Hob.
    apply list_elem_of_filter in Hob. destruct Hob as [Hc Hin].
    split; assumption. }
  assert (Hnear : Forall good near).
  { apply Forall_forall. intros ob Hob. unfold near in Hob.
    apply list_elem_of_filter in Hob. destruct Hob as [_ Hin].
    rewrite Forall_forall in Hcand. apply Hcand. exact Hin. }
  assert (Hfar : Forall good far).
  { apply Forall_forall. intros ob Hob. unfold far in Hob.
    apply list_elem_of_filter in Hob. destruct Hob as [_ Hin].
    rewrite Forall_forall in Hcand. apply Hcand. exact Hin. }
  destruct (pickProps_spec good (fun _ => True) maxPerZone minNear near far
              (rng_new (toUint32 (xor32 zoneSeed 173531165))))
    as (Hlen & Hgood & _).
  specialize (Hgood Hnear Hfar).
  destruct (pickProps maxPerZone minNear near far _) as [picked r1].
  simpl in Hlen, Hgood.
  set (synth := (length picked =? 0)%nat && (0 <? maxPerZone)%Z).
  assert (Hpick :
    let picked2 :=
      fst ((if synth
            then pushLoop (Z.to_nat (Z.min maxPerZone (Z.max 4 minNear))) 0
                          (fun _ => synthAsteroid zone radius)
            else fun r0 => (picked, r0)) r1) in
    (Z.of_nat (length picked2) <= Z.max 0 maxPerZone)%Z /\
    Forall (fun ob => ob_type ob = Some "asteroid"%string
                      /\ ob_destructible ob = true) picked2 /\
    (Forall (fun ob => ob ∈ obstacles zone) picked2 \/
     Forall (fun ob => 120 <= ob_x ob /\ 120 <= ob_y ob) picked2)).
  { cbv zeta. destruct synth.
    - split; [rewrite pushLoop_length; lia|].
      split; [|right]; apply pushLoop_Forall; intros j s0;
        destruct (synthAsteroid_kind zone radius s0) as (H1 & H2 & H3 & H4);
        auto.
    - simpl. split; [exact Hlen|]. split; [|left].
      + eapply Forall_impl; [exact Hgood|]. intros ob [_ Hc].
        unfold isCandidate in Hc. apply andb_true_iff in Hc.
        destruct Hc as [Ht Hd]. apply bool_decide_eq_true in Ht. auto.
      + eapply Forall_impl; [exact Hgood|]. intros ob [Hin _]. exact Hin. }
  cbv zeta in Hpick.
  match type of Hpick with
  | context [fst ?c] => destruct c as [picked2 r2]
  end.
  simpl in Hpick. destruct Hpick as (Hlen2 & Hkind & Horigin).
  pose proof (mapGen_bodies
                (match ast_spritePaths cfg with
                 | Some (p0 :: ps) => Z.of_nat (length (p0 :: ps))
                 | _ => 2%Z
                 end) picked2 r2) as Hmap.
  cbv zeta in Hmap. unfold bind, ret in Hmap.
  match type of Hmap with
  | context [fst ?c] => destruct c as [asteroids r3]
  end.
  cbn [fst snd] in Hmap |- *. destruct Hmap as [Hbody Hfresh].
  assert (Hb : forall Q : Obstacle -> Prop,
             Forall Q picked2 -> Forall (fun a => Q (body a)) asteroids).
  { intros Q HQ. rewrite <- Hbody in HQ. clear -HQ.
    induction asteroids as [|a l IH]; [constructor|].
    simpl in HQ. inversion HQ; subst. constructor; auto. }
  split; [rewrite <- Hbody in Hlen2; rewrite length_map in Hlen2;
          exact Hlen2|].
  split.
  - pose proof (Hb _ Hkind) as Hk.
    apply Forall_forall. intros a Ha. rewrite Forall_forall in Hk, Hfresh.
    destruct (Hk a Ha) as [H1 H2]. destruct (Hfresh a Ha) as [H3 H4].
    unfold freshAsteroid. auto.
  - split; [|reflexivity].
    destruct Horigin as [Ho|Ho]; [left|right]; exact (Hb _ Ho).
Qed.

(** X25.  Unless the feature is disabled, the asteroid props
    of a zone start with obstacles of the zone that lie within
    [nearSpawnRadius] of the spawn point, as many as [minNearSpawn] asks
    for, up to the cap [maxPerZone] and the number of such candidates the
    zone has. *)
Theorem asteroids_near_spawn_first (cfg : AsteroidCfg) (zone : Zone)
    (zoneSeed : Z) (Hen : ast_enabled cfg <> Some false) :
  let maxPerZone := numberOr (ast_maxPerZone cfg) 30%Z in
  let minNearSpawn := numberOr (ast_minNearSpawn cfg) (Z.min 6 maxPerZone) in
  let nearSpawnRadius := numberOr (ast_nearSpawnRadius cfg) 1400 in
  let near :=
    filter (fun c => isNear (spawn zone) nearSpawnRadius c = true)
           (filter (fun obs => isCandidate obs = true) (obstacles zone)) in
  exists front back,
    map body (snd (prepareAsteroidsForZone cfg zone zoneSeed))
    = front ++ back /\
    Forall (fun ob => ob ∈ obstacles zone /\
                      isNear (spawn zone) nearSpawnRadius ob = true) front /\
    (Z.min (Z.min (Z.max 0 minNearSpawn) maxPerZone) (Z.of_nat (length near))
     <= Z.of_nat (length front))%Z.
Proof.
  cbv zeta. unfold prepareAsteroidsForZone.
  case_bool_decide as Hen'; [contradiction|].
  cbv zeta. unfold bind, ret.
  set (maxPerZone := numberOr (ast_maxPerZone cfg) 30%Z).
  set (minNear := numberOr (ast_minNearSpawn cfg) (Z.min 6 maxPerZone)).
  set (radius := numberOr (ast_nearSpawnRadius cfg) 1400).
  set (candidates := filter (fun obs => isCandidate obs = true)
                            (obstacles zone)).
  set (near := filter (fun c => isNear (spawn zone) radius c = true)
                      candidates).
  set (far := filter (fun c => isNear (spawn zone) radius c = false)
                     candidates).
  set (close := fun ob : Obstacle =>
                  ob ∈ obstacles zone /\
                  isNear (spawn zone) radius ob = true).
  assert (Hnear : Forall close near).
  { apply Forall_forall. intros ob Hob. unfold near in Hob.
    apply list_elem_of_filter in Hob. destruct Hob as [Hn Hin].
    unfold candidates in Hin. apply list_elem_of_filter in Hin.
    destruct Hin as [_ Hin]. split; assumption. }
  destruct (pickProps_spec (fun _ => True) close maxPerZone minNear near far
              (rng_new (toUint32 (xor32 zoneSeed 173531165))))
    as (_ & _ & Hfront).
  destruct (Hfront Hnear) as (front & back & Hsplit & Hclose & Hcount).
  clear Hfront.
  destruct (pickProps maxPerZone minNear near far _) as [picked r1].
  cbn [fst] in Hsplit.
  set (takeNear := Z.min (Z.min (Z.max 0 minNear) maxPerZone)
                         (Z.of_nat (length near))) in *.
  assert (Hpick :
    exists front2 back2,
      fst ((if (length picked =? 0)%nat && (0 <? maxPerZone)%Z
            then pushLoop (Z.to_nat (Z.min maxPerZone (Z.max 4 minNear))) 0
                          (fun _ => synthAsteroid zone radius)
            else fun r0 => (picked, r0)) r1) = front2 ++ back2 /\
      Forall close front2 /\ (takeNear <= Z.of_nat (length front2))%Z).
  { destruct ((length picked =? 0)%nat && (0 <? maxPerZone)%Z) eqn:Hs.
    - apply andb_true_iff in Hs. destruct Hs as [Hz _].
      apply Nat.eqb_eq in Hz. rewrite Hsplit, length_app in Hz.
      exists [], (fst (pushLoop
                         (Z.to_nat (Z.min maxPerZone (Z.max 4 minNear))) 0
                         (fun _ => synthAsteroid zone radius) r1)).
      split; [reflexivity|]. split; [constructor|]. simpl. lia.
    - exists front, back. cbn [fst]. auto. }
  destruct Hpick as (front2 & back2 & Hsplit2 & Hclose2 & Hcount2).
  match type of Hsplit2 with
  | fst ?c = _ => destruct c as [picked2 r2]
  end.
  cbn [fst] in Hsplit2.
  pose proof (mapGen_bodies
                (match ast_spritePaths cfg with
                 | Some (p0 :: ps) => Z.of_nat (length (p0 :: ps))
                 | _ => 2%Z
                 end) picked2 r2) as Hmap.
  cbv zeta in Hmap. unfold bind, ret in Hmap.
  match type of Hmap with
  | context [fst ?c] => destruct c as [asteroids r3]
  end.
  cbn [fst snd] in Hmap |- *. destruct Hmap as [Hbody _].
  exists front2, back2. rewrite Hbody. auto.
Qed.

End PropFacts.

Lemma asteroids_near_spawn_first_witness :
  let zone := @MapGenerator.generate (scriptedRandom (fun _ => [])) refMath
                (mkStateData (Some noElitesTuning) None) squareAct 1
                noOptions in
  World.ast_enabled defaultAsteroids <> Some false /\
  exists front back,
    map World.body
        (snd (@World.prepareAsteroidsForZone
                (scriptedRandom (fun _ => [])) refMath defaultAsteroids
                zone 1))
    = front ++ back /\
    Forall (fun ob => ob ∈ MapGenerator.obstacles zone /\
                      @World.isNear refMath (MapGenerator.spawn zone) 1400 ob = true)
           front /\
    (Z.min (Z.min (Z.max 0 6) 30)
           (Z.of_nat
              (length
                 (filter (fun c => @World.isNear refMath (MapGenerator.spawn zone)
                                                1400 c = true)
                         (filter (fun obs => World.isCandidate obs = true)
                                 (MapGenerator.obstacles zone)))))
     <= Z.of_nat (length front))%Z.
Proof.
  cbv zeta. split; [discriminate|].
  apply (@asteroids_near_spawn_first (scriptedRandom (fun _ => [])) refMath
           defaultAsteroids). discriminate.
Defined.

(** ** World: theme and boss rotation *)

Section RotationFacts.
Context {R : SeededRandom} {M : JSMath}.
Import World.

Lemma pick_elem {A : Type} (l : list A) (r : rng) (x : A) :
  fst (pick l r) = Some x -> x ∈ l.
Proof.
  unfold pick. destruct (rng_index (length l) r) as [i r']. simpl.
  apply list_elem_of_lookup_2.
Qed.

Lemma candidatesOf_excludes (prev : option string) (pool : list string)
    (other : string) :
  truthyStr prev = true -> other ∈ pool -> Some other <> prev ->
  Forall (fun id => id ∈ pool /\ Some id <> prev)
         (candidatesOf true prev pool).
Proof.
  intros Ht Hin Hne. unfold candidatesOf. rewrite Ht. simpl.
  assert (Hall : Forall (fun id => id ∈ pool /\ Some id <> prev)
                        (filter (fun id => Some id <> prev) pool)).
  { apply Forall_forall. intros id Hid. apply list_elem_of_filter in Hid.
    tauto. }
  destruct (filter (fun id => Some id <> prev) pool) as [|c cs] eqn:Ef;
    [|exact Hall].
  exfalso.
  assert (Ho : other ∈ filter (fun id => Some id <> prev) pool)
    by (apply list_elem_of_filter; auto).
  rewrite Ef in Ho. inversion Ho.
Qed.

Lemma pick_candidate_differs (prev : option string) (pool : list string)
    (other : string) (r : rng) :
  truthyStr prev = true -> other ∈ pool -> Some other <> prev ->
  fst (pick (candidatesOf true prev pool) r) <> prev.
Proof.
  intros Ht Hin Hne Heq.
  destruct prev as [p|]; [|discriminate].
  apply pick_elem in Heq.
  pose proof (candidatesOf_excludes (Some p) pool other Ht Hin Hne) as Hall.
  rewrite Forall_forall in Hall. destruct (Hall p Heq) as [_ Hp].
  congruence.
Qed.

(** X26.  With the no-repeat rule on (the default) and a boss pool
    that offers another type, the boss type selected for a zone is never
    the type of the previous boss; on a boss zone the selected type
    becomes the stored previous type. *)
Theorem boss_never_repeats (t : RotationTuning) (index : Z) (w : Rotation)
    (other : string)
    (Hrule : bossNoImmediateRepeat t <> Some false)
    (Hprev : truthyStr (prevBossType w) = true)
    (Hin : other ∈ arrayOr (bossPool t)
             ["sentinel"; "collector"; "harbinger"; "warden";
              "forgemind"]%string)
    (Hother : Some other <> prevBossType w) :
  fst (selectBoss t index w) <> prevBossType w /\
  (Z.rem (index + 1) (positiveOr (bossEveryNZones t) 10) = 0%Z ->
   prevBossType (snd (selectBoss t index w)) = fst (selectBoss t index w)).
Proof.
  unfold selectBoss. cbv zeta.
  destruct (Z.rem (index + 1) (positiveOr (bossEveryNZones t) 10) =? 0)%Z
    eqn:Hz.
  - cbn [fst snd prevBossType]. split; [|reflexivity].
    case_bool_decide as Hb; [contradiction|]. cbn [negb].
    eapply pick_candidate_differs; eauto.
  - cbn [fst snd]. split.
    + intros Heq. rewrite <- Heq in Hprev. discriminate.
    + intros H0. apply Z.eqb_neq in Hz. contradiction.
Qed.

(** X27.  When a zone opens a new theme block (not the first block
    of a run with a start theme), the no-repeat rule is on and the pool
    offers another theme, the theme chosen differs from the stored
    [_prevThemeId] the filter reads, which is the theme before the one
    that was current; the theme that was current is stored as
    [_prevThemeId] afterwards. *)
Theorem theme_differs_from_stored_previous (t : RotationTuning)
    (actIds : list string) (index : Z) (w : Rotation) (other : string)
    (Hnew : ((index + 1 - 1) / positiveOr (themeBlockSizeDepths t) 2)%Z
            <> currentBlockIndex w)
    (Hlater : ((index + 1 - 1) / positiveOr (themeBlockSizeDepths t) 2)%Z
              <> 0%Z)
    (Hrule : themeNoImmediateRepeat t <> Some false)
    (Hprev : truthyStr (prevThemeId w) = true)
    (Hin : other ∈ arrayOr (themesPool t) actIds)
    (Hother : Some other <> prevThemeId w) :
  currentThemeId (selectTheme t actIds index w) <> prevThemeId w /\
  prevThemeId (selectTheme t actIds index w) = currentThemeId w.
Proof.
  unfold selectTheme. cbv zeta.
  case_bool_decide as Hb; [contradiction|].
  cbn [currentThemeId prevThemeId]. split; [|reflexivity].
  apply Z.eqb_neq in Hlater. rewrite Hlater. cbn [andb].
  case_bool_decide as Hr; [contradiction|]. cbn [negb].
  eapply pick_candidate_differs; eauto.
Qed.

End RotationFacts.

Lemma boss_never_repeats_witness :
  World.bossNoImmediateRepeat defaultRotation <> Some false /\
  fst (@World.selectBoss (scriptedRandom (fun _ => [])) defaultRotation 9
         laterRun)
  <> World.prevBossType laterRun.
Proof.
  split; [discriminate|].
  apply (@boss_never_repeats (scriptedRandom (fun _ => [])) defaultRotation
           9 laterRun "sentinel"%string).
  - discriminate.
  - reflexivity.
  - simpl. rewrite ?elem_of_cons. auto.
  - discriminate.
Defined.

Lemma theme_differs_from_stored_previous_witness :
  World.themeNoImmediateRepeat defaultRotation <> Some false /\
  World.currentThemeId
    (@World.selectTheme (scriptedRandom (fun _ => [])) defaultRotation
       ["act1"; "act2"; "act3"]%string 2 laterRun)
  <> World.prevThemeId laterRun.
Proof.
  split; [discriminate|].
  apply (@theme_differs_from_stored_previous (scriptedRandom (fun _ => []))
           defaultRotation ["act1"; "act2"; "act3"]%string 2 laterRun
           "act2"%string).
  - vm_compute. discriminate.
  - vm_compute. discriminate.
  - discriminate.
  - reflexivity.
  - simpl. rewrite ?elem_of_cons. auto.
  - discriminate.
Defined.

(** ** World: the whole of [update] *)

Section DespawnFacts.
Context {M : JSMath}.
Import World.

Lemma keptAs_refl (e : Enemy) : keptAs e e.
Proof. left. reflexivity. Qed.

Lemma keptAs_forced (e f : Enemy) : keptAs e f -> keptAs e (forceReturn f).
Proof.
  intros [->|[Ha ->]]; unfold forceReturn.
  - case_bool_decide as Hb; [right; auto|left; reflexivity].
  - rewrite bool_decide_eq_false_2 by (simpl; discriminate).
    right. auto.
Qed.

Lemma keptAs_same (e f : Enemy) :
  keptAs e f ->
  e_id f = e_id e /\ e_x f = e_x e /\ e_y f = e_y e /\
  homeThreshold f = homeThreshold e.
Proof. intros [->|[_ ->]]; repeat split. Qed.

Lemma findIndexById_Some (id : option string) (l : list Enemy) (k i : nat) :
  findIndexById id l k = Some i ->
  exists f : Enemy,
    (k <= i)%nat /\ l !! (i - k)%nat = Some f /\ Some (e_id f) = id.
Proof.
  revert k. induction l as [|a l IH]; intros k H; simpl in H;
    [discriminate|].
  case_bool_decide as Ha.
  - injection H as <-. exists a. rewrite Nat.sub_diag. auto.
  - destruct (IH (S k) H) as (f & Hle & Hf & Hid).
    exists f. split; [lia|]. split; [|exact Hid].
    replace (i - k)%nat with (S (i - S k)) by lia. exact Hf.
Qed.

Lemma findIndexById_None (id : option string) (l : list Enemy) (k : nat) :
  findIndexById id l k = None ->
  forall f, f ∈ l -> Some (e_id f) <> id.
Proof.
  revert k. induction l as [|a l IH]; intros k H f Hf; simpl in H;
    [inversion Hf|].
  case_bool_decide as Ha; [discriminate|].
  apply elem_of_cons in Hf. destruct Hf as [->|Hf]; [exact Ha|].
  eapply IH; eassumption.
Qed.

(** An element of a list is the one at position [i], or it survives the
    removal and the replacement of that one. *)
Lemma elem_of_at_or_else {A : Type} (l : list A) (i : nat) (f a : A) :
  l !! i = Some f -> a ∈ l ->
  a = f \/ (a ∈ delete i l /\ forall y, a ∈ <[i := y]> l).
Proof.
  intros Hi Ha.
  rewrite <- (take_drop_middle l i f Hi) in Ha.
  apply elem_of_app in Ha. destruct Ha as [Ha|Ha].
  - right. split.
    + rewrite delete_take_drop. apply elem_of_app. left. exact Ha.
    + intros y. rewrite insert_take_drop by (eapply lookup_lt_Some; eauto).
      apply elem_of_app. left. exact Ha.
  - apply elem_of_cons in Ha. destruct Ha as [->|Ha]; [left; reflexivity|].
    right. split.
    + rewrite delete_take_drop. apply elem_of_app. right. exact Ha.
    + intros y. rewrite insert_take_drop by (eapply lookup_lt_Some; eauto).
      apply elem_of_app. right. apply elem_of_cons. right. exact Ha.
Qed.

Lemma shouldDespawn_site (c : WorldCfg) (dm : Q) (v : View) (s s' : Spawn) :
  sp_x s' = sp_x s -> sp_y s' = sp_y s ->
  shouldDespawn c dm v s' = shouldDespawn c dm v s.
Proof. intros Hx Hy. unfold shouldDespawn. rewrite Hx, Hy. reflexivity. Qed.

(** What the despawn check of one descriptor does to [State.enemies]:
    nothing, or it takes the first entity with the descriptor's id,
    removes it when it is within its home threshold and puts it back,
    forced out of aggro, when it is not. *)
Lemma despawnCheck_enemies (c : WorldCfg) (dm : Q) (v : View)
    (ref : SpawnRef) (ws : WorldState) :
  let ws' := despawnCheck c dm v ref ws in
  w_enemies ws' = w_enemies ws \/
  exists (spawn : Spawn) (i : nat) (f : Enemy),
    getSpawn ref ws = Some spawn /\ sp_active spawn = true /\
    shouldDespawn c dm v spawn = true /\
    findIndexById (sp_enemyId spawn) (w_enemies ws) 0 = Some i /\
    w_enemies ws !! i = Some f /\ Some (e_id f) = sp_enemyId spawn /\
    if Qleb (Math_hypot (e_x f - sp_x spawn) (e_y f - sp_y spawn))
            (homeThreshold f)
    then w_enemies ws' = delete i (w_enemies ws) /\
         getSpawn ref ws' = Some (setActivation false None spawn)
    else w_enemies ws' = <[i := forceReturn f]> (w_enemies ws) /\
         getSpawn ref ws' = Some spawn.
Proof.
  cbv zeta.
  destruct (getSpawn ref ws) as [spawn|] eqn:Hs;
    [|left; unfold despawnCheck; rewrite Hs; reflexivity].
  destruct (sp_active spawn && shouldDespawn c dm v spawn) eqn:Ht;
    [|left; unfold despawnCheck; rewrite Hs, Ht; reflexivity].
  destruct (findIndexById (sp_enemyId spawn) (w_enemies ws) 0) as [i|] eqn:Hf.
  - destruct (w_enemies ws !! i) as [f|] eqn:He.
    + right. exists spawn, i, f.
      apply andb_true_iff in Ht as Ht'. destruct Ht' as [Hact Hout].
      destruct (findIndexById_Some _ _ _ _ Hf) as (f' & _ & Hf' & Hid).
      rewrite Nat.sub_0_r, He in Hf'. injection Hf' as <-.
      pose proof (despawnCheck_found c dm v ref ws spawn i f Hs Ht Hf He)
        as [_ Hstep]. cbv zeta in Hstep.
      repeat (split; [assumption|]).
      destruct (Qleb _ (homeThreshold f)); tauto.
    + left. unfold despawnCheck. rewrite Hs, Ht, Hf, He.
      apply (despawnEnemy_missing ref spawn ws). right. eauto.
  - left. unfold despawnCheck. rewrite Hs, Ht, Hf.
    apply (despawnEnemy_missing ref spawn ws). left. exact Hf.
Qed.

Lemma removesOnlyAtHome_more (c : WorldCfg) (dm : Q) (o : SpawnOracle)
    (v : View) (ws0 : WorldState) (l0 l l' : list Enemy) :
  removesOnlyAtHome c dm o v ws0 l0 l -> (forall e, e ∈ l -> e ∈ l') ->
  removesOnlyAtHome c dm o v ws0 l0 l'.
Proof.
  intros H Hsub e He. destruct (H e He) as [(e' & He' & Hk)|Hd];
    [left; exists e'; auto|right; exact Hd].
Qed.

(** One descriptor's turn in the loops of [update], on a descriptor that
    is still as it was when the call began. *)
Lemma checkSpawn_removes (c : WorldCfg) (t : Tuning) (o : SpawnOracle)
    (v : View) (ref : SpawnRef) (ws0 ws : WorldState) (l0 : list Enemy) :
  let dm := numberOr (despawnViewMargin t) (defaultDespawnViewMargin c) in
  getSpawn ref ws = getSpawn ref ws0 ->
  removesOnlyAtHome c dm o v ws0 l0 (w_enemies ws) ->
  removesOnlyAtHome c dm o v ws0 l0 (w_enemies (checkSpawn c t o v ref ws)).
Proof.
  intros dm Href Hkeep. unfold checkSpawn. cbv zeta. fold dm.
  destruct (getSpawn ref ws) as [spawn|] eqn:Hs; [|exact Hkeep].
  destruct (sp_killed spawn) eqn:Hkilled; [exact Hkeep|].
  (* the spawn part *)
  set (wsA :=
         if negb (sp_active spawn)
            && isInView (sp_x spawn) (sp_y spawn) (camX v) (camY v)
                 (screenW v) (screenH v)
                 (numberOr (spawnViewMargin t) (defaultSpawnViewMargin c))
         then spawnEnemy o (numberOr (enemyAggroRangeMult t) 1.0) ref spawn ws
         else if negb (sp_active spawn)
                 && Qltb (Math_hypot (pl_x (player v) - sp_x spawn)
                                     (pl_y (player v) - sp_y spawn))
                         (spawnRadius c)
         then spawnEnemy o (numberOr (enemyAggroRangeMult t) 1.0) ref spawn ws
         else ws).
  assert (HA : (wsA = ws) \/
               (sp_active spawn = false /\
                wsA = spawnEnemy o (numberOr (enemyAggroRangeMult t) 1.0)
                        ref spawn ws)).
  { unfold wsA. destruct (sp_active spawn); simpl; [left; reflexivity|].
    destruct (isInView _ _ _ _ _ _ _); [right; auto|].
    destruct (Qltb _ _); [right; auto|left; reflexivity]. }
  assert (HkeepA : removesOnlyAtHome c dm o v ws0 l0 (w_enemies wsA)).
  { destruct HA as [->|[_ ->]]; [exact Hkeep|].
    destruct (spawnEnemy_entity o (numberOr (enemyAggroRangeMult t) 1.0)
                ref spawn ws) as (E & HE & _).
    eapply removesOnlyAtHome_more; [exact Hkeep|].
    intros e He. rewrite HE. apply elem_of_app. left. exact He. }
  assert (HsA : exists spawnA,
             getSpawn ref wsA = Some spawnA /\
             sp_x spawnA = sp_x spawn /\ sp_y spawnA = sp_y spawn /\
             (sp_active spawnA = true ->
              forall e, Some (e_id e) = sp_enemyId spawnA ->
                        spawnPointOf o ref spawn e)).
  { destruct HA as [->|[Hinact ->]].
    - exists spawn. repeat split; [exact Hs|].
      intros Hact e Hid. left. split; [exact Hact|]. symmetry. exact Hid.
    - eexists. split; [apply spawnEnemy_activates; exact Hs|].
      simpl. repeat split. intros _ e Hid. right. split; [exact Hinact|].
      injection Hid as Hid. symmetry. exact Hid. }
  destruct HsA as (spawnA & HsA & Hx & Hy & Hlink).
  destruct (despawnCheck_enemies c dm v ref wsA) as [Hsame|Hstep];
    cbv zeta in *.
  { rewrite Hsame. exact HkeepA. }
  destruct Hstep as (spawn' & i & f & Hs' & Hact & Hout & Hfind & Hi & Hid
                     & Hcase).
  rewrite HsA in Hs'. injection Hs' as <-.
  intros e He. destruct (HkeepA e He) as [(e' & He' & Hk)|Hd];
    [|right; exact Hd].
  destruct (elem_of_at_or_else _ i f e' Hi He') as [->|[Hdel Hins]].
  - (* [e] is the entity the check found *)
    destruct (keptAs_same _ _ Hk) as (Eid & Ex & Ey & Eh).
    destruct (Qleb _ (homeThreshold f)) eqn:Hq.
    + right. exists ref, spawn.
      rewrite <- Href. split; [reflexivity|]. split; [exact Hkilled|].
      split; [rewrite <- (shouldDespawn_site c dm v spawn spawnA Hx Hy);
              exact Hout|].
      split.
      * apply Hlink; [exact Hact|]. rewrite <- Eid. exact Hid.
      * apply Qleb_true. rewrite <- Ex, <- Ey, <- Eh, <- Hx, <- Hy.
        exact Hq.
    + left. exists (forceReturn f). destruct Hcase as [Hen _]. rewrite Hen.
      split; [|apply keptAs_forced; exact Hk].
      apply list_elem_of_lookup. exists i.
      apply list_lookup_insert_eq. eapply lookup_lt_Some. exact Hi.
  - left. exists e'. split; [|exact Hk].
    destruct (Qleb _ (homeThreshold f)); destruct Hcase as [Hen _];
      rewrite Hen; [exact Hdel|apply Hins].
Qed.

Lemma checkSpawns_getSpawn_other (c : WorldCfg) (t : Tuning)
    (o : SpawnOracle) (v : View) (isElite : bool) (n i : nat)
    (ref : SpawnRef) (ws : WorldState) :
  fst ref <> isElite ->
  getSpawn ref (checkSpawns c t o v isElite n i ws) = getSpawn ref ws.
Proof.
  intros Hne. revert i ws. induction n as [|n IH]; intros i ws; simpl;
    [reflexivity|].
  rewrite IH. apply checkSpawn_getSpawn_other.
  intros ->. apply Hne. reflexivity.
Qed.

Lemma checkSpawns_removes (c : WorldCfg) (t : Tuning) (o : SpawnOracle)
    (v : View) (isElite : bool) (n i : nat) (ws0 ws : WorldState)
    (l0 : list Enemy) :
  let dm := numberOr (despawnViewMargin t) (defaultDespawnViewMargin c) in
  (forall k, (i <= k)%nat ->
             getSpawn (isElite, k) ws = getSpawn (isElite, k) ws0) ->
  removesOnlyAtHome c dm o v ws0 l0 (w_enemies ws) ->
  removesOnlyAtHome c dm o v ws0 l0
    (w_enemies (checkSpawns c t o v isElite n i ws)).
Proof.
  intros dm. revert i ws. induction n as [|n IH]; intros i ws Hpend Hkeep;
    simpl; [exact Hkeep|].
  apply IH.
  - intros k Hk. rewrite checkSpawn_getSpawn_other by (intros [=]; lia).
    apply Hpend. lia.
  - apply checkSpawn_removes; [apply Hpend; lia|exact Hkeep].
Qed.

Lemma checkZoneSpawns_removes (c : WorldCfg) (t : Tuning) (o : SpawnOracle)
    (v : View) (ws : WorldState) :
  removesOnlyAtHome c
    (numberOr (despawnViewMargin t) (defaultDespawnViewMargin c)) o v ws
    (w_enemies ws) (w_enemies (checkZoneSpawns c t o v ws)).
Proof.
  unfold checkZoneSpawns. cbv zeta.
  apply checkSpawns_removes.
  - intros k _. apply checkSpawns_getSpawn_other. simpl. discriminate.
  - apply checkSpawns_removes; [reflexivity|].
    intros e He. left. exists e. split; [exact He|apply keptAs_refl].
Qed.

(** *** The entity of a descriptor that stays *)

Lemma filter_delete_other {A : Type} (P : A -> Prop)
    `{!forall a, Decision (P a)} (l : list A) (i : nat) (f : A) :
  l !! i = Some f -> ~ P f -> filter P (delete i l) = filter P l.
Proof.
  intros Hi Hf. rewrite <- (take_drop_middle l i f Hi) at 2.
  rewrite delete_take_drop, !filter_app, filter_cons.
  destruct (decide (P f)); [contradiction|reflexivity].
Qed.

Lemma filter_insert_other {A : Type} (P : A -> Prop)
    `{!forall a, Decision (P a)} (l : list A) (i : nat) (f y : A) :
  l !! i = Some f -> ~ P f -> ~ P y -> filter P (<[i := y]> l) = filter P l.
Proof.
  intros Hi Hf Hy. rewrite <- (take_drop_middle l i f Hi) at 2.
  rewrite insert_take_drop by (eapply lookup_lt_Some; eauto).
  rewrite !filter_app, !filter_cons.
  destruct (decide (P f)); [contradiction|].
  destruct (decide (P y)); [contradiction|reflexivity].
Qed.

Lemma filter_insert_only {A : Type} (P : A -> Prop)
    `{!forall a, Decision (P a)} (l : list A) (i : nat) (f y : A) :
  l !! i = Some f -> filter P l = [f] -> P f -> P y ->
  filter P (<[i := y]> l) = [y].
Proof.
  intros Hi Hl Hf Hy. rewrite <- (take_drop_middle l i f Hi) in Hl.
  rewrite insert_take_drop by (eapply lookup_lt_Some; eauto).
  rewrite !filter_app, !filter_cons in *.
  destruct (decide (P f)); [|contradiction].
  destruct (decide (P y)); [|contradiction].
  destruct (filter P (take i l)) as [|a la]; simpl in *.
  - injection Hl as Hl. rewrite Hl. reflexivity.
  - injection Hl as _ Hl. destruct la; discriminate.
Qed.

Lemma despawnCheck_descriptor (c : WorldCfg) (dm : Q) (v : View)
    (ref : SpawnRef) (ws : WorldState) (spawn : Spawn) :
  getSpawn ref ws = Some spawn ->
  getSpawn ref (despawnCheck c dm v ref ws) = Some spawn \/
  getSpawn ref (despawnCheck c dm v ref ws)
  = Some (setActivation false None spawn).
Proof.
  intros Hs. unfold despawnCheck. rewrite Hs.
  assert (Hdes : forall w, getSpawn ref w = Some spawn ->
                   getSpawn ref (despawnEnemy ref spawn w)
                   = Some (setActivation false None spawn)).
  { intros w Hw. unfold despawnEnemy. cbv zeta.
    match goal with
    | |- getSpawn ref (mkWorld (w_enemySpawns ?w1) _ _ _ _) = _ =>
        transitivity (getSpawn ref w1);
          [destruct ref as [[|] k]; reflexivity|]
    end.
    eapply getSpawn_setSpawn.
    destruct (findIndexById _ _ 0) as [idx|]; [|exact Hw].
    destruct (w_enemies w !! idx); [|exact Hw].
    destruct ref as [[|] k]; exact Hw. }
  destruct (sp_active spawn && _); [|left; exact Hs].
  destruct (findIndexById _ _ 0) as [i|]; [|right; apply Hdes; exact Hs].
  destruct (w_enemies ws !! i) as [enemy|]; [|right; apply Hdes; exact Hs].
  cbv zeta. destruct (_ && _).
  - right. apply Hdes. rewrite getSpawn_setEnemies. exact Hs.
  - left. rewrite getSpawn_setEnemies. exact Hs.
Qed.

(** The turn of another descriptor, one that does not hold the id, leaves
    the entities with that id alone. *)
Lemma checkSpawn_other_entity (c : WorldCfg) (t : Tuning) (o : SpawnOracle)
    (v : View) (ref' : SpawnRef) (ws : WorldState) (id : string)
    (l : list Enemy) :
  (forall s', getSpawn ref' ws = Some s' -> sp_enemyId s' <> Some id) ->
  (forall s', e_id (spawned o ref' s') <> id) ->
  filter (fun f => e_id f = id) (w_enemies ws) = l ->
  filter (fun f => e_id f = id) (w_enemies (checkSpawn c t o v ref' ws)) = l
  /\ (forall s', getSpawn ref' (checkSpawn c t o v ref' ws) = Some s' ->
                 sp_enemyId s' <> Some id).
Proof.
  intros Hown Hfresh Hl. unfold checkSpawn. cbv zeta.
  destruct (getSpawn ref' ws) as [spawn|] eqn:Hs;
    [|split; [exact Hl|intros s' Hs'; rewrite Hs in Hs'; discriminate]].
  destruct (sp_killed spawn);
    [split; [exact Hl|intros s' Hs'; apply Hown; rewrite <- Hs'; symmetry;
                      exact Hs]|].
  match goal with
  | |- context [despawnCheck c ?dm v ref' ?w] =>
      set (dm0 := dm); set (wsA := w)
  end.
  assert (HA : exists spawnA,
             getSpawn ref' wsA = Some spawnA /\
             sp_enemyId spawnA <> Some id /\
             filter (fun f => e_id f = id) (w_enemies wsA) = l).
  { assert (Hsp : forall am,
               exists spawnA,
                 getSpawn ref' (spawnEnemy o am ref' spawn ws) = Some spawnA /\
                 sp_enemyId spawnA <> Some id /\
                 filter (fun f => e_id f = id)
                        (w_enemies (spawnEnemy o am ref' spawn ws)) = l).
    { intros am. eexists. split; [apply spawnEnemy_activates; exact Hs|].
      split; [simpl; intros [=Hid]; exact (Hfresh _ Hid)|].
      destruct (spawnEnemy_entity o am ref' spawn ws) as (E & HE & _ & Hid & _).
      rewrite HE, filter_app, Hl, filter_cons.
      destruct (decide (e_id E = id)) as [Heq|_];
        [rewrite Hid in Heq; exfalso; exact (Hfresh _ Heq)|].
      apply app_nil_r. }
    unfold wsA. destruct (_ && _); [apply Hsp|].
    destruct (_ && _); [apply Hsp|].
    exists spawn. split; [exact Hs|]. split; [apply Hown; reflexivity|exact Hl]. }
  destruct HA as (spawnA & HsA & HidA & HlA).
  split.
  - destruct (despawnCheck_enemies c dm0 v ref' wsA) as [Hsame|Hstep];
      cbv zeta in *; [rewrite Hsame; exact HlA|].
    destruct Hstep as (spawn' & i & f & Hs' & _ & _ & _ & Hi & Hid & Hcase).
    rewrite HsA in Hs'. injection Hs' as <-.
    assert (Hf : e_id f <> id) by (intros Heq; apply HidA; rewrite <- Hid;
                                   rewrite Heq; reflexivity).
    destruct (Qleb _ (homeThreshold f)); destruct Hcase as [Hen _];
      rewrite Hen.
    + rewrite (filter_delete_other _ _ i f Hi Hf). exact HlA.
    + rewrite (filter_insert_other _ _ i f _ Hi Hf);
        [exact HlA|rewrite forceReturn_id; exact Hf].
  - intros s' Hs'.
    destruct (despawnCheck_descriptor c dm0 v ref' wsA spawnA HsA) as [H|H];
      rewrite H in Hs'; injection Hs' as <-; [exact HidA|discriminate].
Qed.

(** The turn of the entity's own descriptor, active and outside the
    despawn window, with the entity beyond its home threshold: the entity
    is put back, forced out of aggro, and the descriptor stays as it is. *)
Lemma checkSpawn_own_entity (c : WorldCfg) (t : Tuning) (o : SpawnOracle)
    (v : View) (ref : SpawnRef) (ws : WorldState) (spawn : Spawn)
    (e : Enemy) :
  let dm := numberOr (despawnViewMargin t) (defaultDespawnViewMargin c) in
  getSpawn ref ws = Some spawn ->
  sp_active spawn = true -> sp_killed spawn = false ->
  shouldDespawn c dm v spawn = true ->
  sp_enemyId spawn = Some (e_id e) ->
  filter (fun f => e_id f = e_id e) (w_enemies ws) = [e] ->
  homeThreshold e < Math_hypot (e_x e - sp_x spawn) (e_y e - sp_y spawn) ->
  filter (fun f => e_id f = e_id e) (w_enemies (checkSpawn c t o v ref ws))
  = [forceReturn e] /\
  getSpawn ref (checkSpawn c t o v ref ws) = Some spawn.
Proof.
  intros dm Hs Hact Hkilled Hout Hid Hl Hfar.
  unfold checkSpawn. cbv zeta. rewrite Hs, Hkilled, Hact. simpl.
  fold dm.
  assert (Hin : e ∈ w_enemies ws).
  { assert (He : e ∈ filter (fun f => e_id f = e_id e) (w_enemies ws))
      by (rewrite Hl; apply elem_of_cons; auto).
    apply list_elem_of_filter in He. tauto. }
  destruct (findIndexById (sp_enemyId spawn) (w_enemies ws) 0) as [i|] eqn:Hf.
  2:{ exfalso. eapply findIndexById_None; [exact Hf|exact Hin|].
      symmetry. exact Hid. }
  destruct (findIndexById_Some _ _ _ _ Hf) as (f & _ & Hi & Hidf).
  rewrite Nat.sub_0_r in Hi.
  assert (f = e) as ->.
  { assert (He : f ∈ filter (fun f0 => e_id f0 = e_id e) (w_enemies ws)).
    { apply list_elem_of_filter. split.
      - rewrite Hid in Hidf. injection Hidf as ->. reflexivity.
      - eapply list_elem_of_lookup_2. exact Hi. }
    rewrite Hl in He. apply list_elem_of_singleton in He. exact He. }
  assert (Ht : sp_active spawn && shouldDespawn c dm v spawn = true)
    by (rewrite Hact, Hout; reflexivity).
  pose proof (despawnCheck_found c dm v ref ws spawn i e Hs Ht Hf Hi)
    as [_ Hstep]. cbv zeta in Hstep.
  replace (Qleb _ (homeThreshold e)) with false in Hstep
    by (symmetry; apply Qleb_false; exact Hfar).
  destruct Hstep as (Hen & _ & Hsp). split; [|exact Hsp].
  rewrite Hen. apply (filter_insert_only _ _ i e); auto.
  apply forceReturn_id.
Qed.

Lemma checkSpawns_entity_other (c : WorldCfg) (t : Tuning)
    (o : SpawnOracle) (v : View) (isElite : bool) (n i : nat)
    (ref : SpawnRef) (ws : WorldState) (id : string) (l : list Enemy) :
  (forall k, (i <= k < i + n)%nat -> (isElite, k) <> ref) ->
  (forall ref' s', e_id (spawned o ref' s') <> id) ->
  (forall ref' s', ref' <> ref -> getSpawn ref' ws = Some s' ->
                   sp_enemyId s' <> Some id) ->
  filter (fun f => e_id f = id) (w_enemies ws) = l ->
  let ws' := checkSpawns c t o v isElite n i ws in
  filter (fun f => e_id f = id) (w_enemies ws') = l /\
  (forall ref' s', ref' <> ref -> getSpawn ref' ws' = Some s' ->
                   sp_enemyId s' <> Some id) /\
  getSpawn ref ws' = getSpawn ref ws.
Proof.
  intros Hrange Hfresh. revert i ws Hrange.
  induction n as [|n IH]; intros i ws Hrange Hothers Hl; simpl;
    [auto|].
  assert (Hne : (isElite, i) <> ref) by (apply Hrange; lia).
  destruct (checkSpawn_other_entity c t o v (isElite, i) ws id l)
    as [Hl1 Hown1].
  { intros s' Hs'. eapply Hothers; [exact Hne|exact Hs']. }
  { intros s'. apply Hfresh. }
  { exact Hl. }
  destruct (IH (S i) (checkSpawn c t o v (isElite, i) ws)) as (H1 & H2 & H3).
  { intros k Hk. apply Hrange. lia. }
  { intros ref' s' Hne' Hs'.
    destruct (decide (ref' = (isElite, i))) as [->|Hd].
    - eapply Hown1. exact Hs'.
    - rewrite checkSpawn_getSpawn_other in Hs' by exact Hd.
      eapply Hothers; eassumption. }
  { exact Hl1. }
  split; [exact H1|]. split; [exact H2|].
  rewrite H3. apply checkSpawn_getSpawn_other. congruence.
Qed.

Lemma checkSpawns_entity_own (c : WorldCfg) (t : Tuning) (o : SpawnOracle)
    (v : View) (isElite : bool) (n i k : nat) (ws : WorldState)
    (spawn : Spawn) (e : Enemy) :
  let dm := numberOr (despawnViewMargin t) (defaultDespawnViewMargin c) in
  let ref := (isElite, k) in
  (i <= k < i + n)%nat ->
  (forall ref' s', e_id (spawned o ref' s') <> e_id e) ->
  (forall ref' s', ref' <> ref -> getSpawn ref' ws = Some s' ->
                   sp_enemyId s' <> Some (e_id e)) ->
  getSpawn ref ws = Some spawn ->
  sp_active spawn = true -> sp_killed spawn = false ->
  shouldDespawn c dm v spawn = true ->
  sp_enemyId spawn = Some (e_id e) ->
  filter (fun f => e_id f = e_id e) (w_enemies ws) = [e] ->
  homeThreshold e < Math_hypot (e_x e - sp_x spawn) (e_y e - sp_y spawn) ->
  let ws' := checkSpawns c t o v isElite n i ws in
  filter (fun f => e_id f = e_id e) (w_enemies ws') = [forceReturn e] /\
  (forall ref' s', ref' <> ref -> getSpawn ref' ws' = Some s' ->
                   sp_enemyId s' <> Some (e_id e)) /\
  getSpawn ref ws' = Some spawn.
Proof.
  intros dm ref Hk Hfresh. subst ref. revert i ws Hk.
  induction n as [|n IH]; intros i ws Hk Hothers Hs Hact Hkilled Hout Hid
                                Hl Hfar; [lia|].
  simpl. destruct (decide (i = k)) as [->|Hik].
  - (* the descriptor's own turn, then the rest of the loop *)
    destruct (checkSpawn_own_entity c t o v (isElite, k) ws spawn e Hs Hact Hkilled
                Hout Hid Hl Hfar) as [Hl1 Hs1].
    destruct (checkSpawns_entity_other c t o v isElite n (S k) (isElite, k)
                (checkSpawn c t o v (isElite, k) ws) (e_id e)
                [forceReturn e])
      as (H1 & H2 & H3).
    { intros j Hj. intros [=]. lia. }
    { exact Hfresh. }
    { intros ref' s' Hne Hs'.
      rewrite checkSpawn_getSpawn_other in Hs' by exact Hne.
      eapply Hothers; eassumption. }
    { exact Hl1. }
    split; [exact H1|]. split; [exact H2|]. rewrite H3. exact Hs1.
  - assert (Hne : (isElite, i) <> (isElite, k)) by (intros [=]; lia).
    destruct (checkSpawn_other_entity c t o v (isElite, i) ws (e_id e) [e])
      as [Hl1 Hown1].
    { intros s' Hs'. eapply Hothers; [exact Hne|exact Hs']. }
    { intros s'. apply Hfresh. }
    { exact Hl. }
    apply IH; try assumption.
    + lia.
    + intros ref' s' Hne' Hs'.
      destruct (decide (ref' = (isElite, i))) as [->|Hd].
      * eapply Hown1. exact Hs'.
      * rewrite checkSpawn_getSpawn_other in Hs' by exact Hd.
        eapply Hothers; eassumption.
    + rewrite checkSpawn_getSpawn_other by congruence. exact Hs.
Qed.

Lemma checkZoneSpawns_entity (c : WorldCfg) (t : Tuning) (o : SpawnOracle)
    (v : View) (ref : SpawnRef) (ws : WorldState) (spawn : Spawn)
    (e : Enemy) :
  let dm := numberOr (despawnViewMargin t) (defaultDespawnViewMargin c) in
  (forall ref' s', e_id (spawned o ref' s') <> e_id e) ->
  (forall ref' s', getSpawn ref' ws = Some s' ->
                   sp_enemyId s' = Some (e_id e) -> ref' = ref) ->
  getSpawn ref ws = Some spawn ->
  sp_active spawn = true -> sp_killed spawn = false ->
  shouldDespawn c dm v spawn = true ->
  sp_enemyId spawn = Some (e_id e) ->
  filter (fun f => e_id f = e_id e) (w_enemies ws) = [e] ->
  homeThreshold e < Math_hypot (e_x e - sp_x spawn) (e_y e - sp_y spawn) ->
  filter (fun f => e_id f = e_id e) (w_enemies (checkZoneSpawns c t o v ws))
  = [forceReturn e] /\
  getSpawn ref (checkZoneSpawns c t o v ws) = Some spawn.
Proof.
  intros dm Hfresh Huniq Hs Hact Hkilled Hout Hid Hl Hfar.
  assert (Hothers : forall ref' s', ref' <> ref -> getSpawn ref' ws = Some s' ->
                                    sp_enemyId s' <> Some (e_id e)).
  { intros ref' s' Hne Hs' Hid'. apply Hne. eapply Huniq; eassumption. }
  unfold checkZoneSpawns. cbv zeta.
  destruct ref as [[|] k].
  - (* an elite descriptor: the regular pass leaves it, the elite pass
       takes it *)
    destruct (checkSpawns_entity_other c t o v false
                (length (w_enemySpawns ws)) 0 (true, k) ws (e_id e) [e])
      as (H1 & H2 & H3); try assumption.
    { intros j _. discriminate. }
    rewrite Hs in H3.
    destruct (checkSpawns_entity_own c t o v true
                (length (w_eliteSpawns
                           (checkSpawns c t o v false
                              (length (w_enemySpawns ws)) 0 ws)))
                0 k (checkSpawns c t o v false
                       (length (w_enemySpawns ws)) 0 ws) spawn e)
      as (G1 & _ & G3); try eassumption.
    { split; [lia|]. simpl. unfold getSpawn in H3. simpl in H3.
      eapply lookup_lt_Some. exact H3. }
    split; assumption.
  - destruct (checkSpawns_entity_own c t o v false
                (length (w_enemySpawns ws)) 0 k ws spawn e)
      as (G1 & G2 & G3); try eassumption.
    { split; [lia|]. simpl. unfold getSpawn in Hs. simpl in Hs.
      eapply lookup_lt_Some. exact Hs. }
    match goal with
    | |- context [checkSpawns c t o v true ?n 0 ?w] =>
        destruct (checkSpawns_entity_other c t o v true n 0 (false, k) w
                    (e_id e) [forceReturn e]) as (H1 & _ & H3);
          try assumption
    end.
    { intros j _. discriminate. }
    split; [exact H1|]. rewrite H3. exact G3.
Qed.

(** *** The rest of [update] *)

Lemma checkBoss_frame (c : WorldCfg) (t : Tuning) (x : Outside) (v : View)
    (st : RunState) :
  let st' := checkBoss c t x v st in
  r_exit st' = r_exit st /\ r_portals st' = r_portals st /\
  r_player st' = r_player st /\ r_zoneIndex st' = r_zoneIndex st /\
  (r_world st' = r_world st \/
   exists (spawn : Spawn) (B : Enemy),
     r_bossSpawn st = Some spawn /\
     e_id B = e_id (bossEntity x spawn) /\
     r_world st'
     = setEnemies (w_enemies (r_world st) ++ [B]) (r_world st)).
Proof.
  cbv zeta. unfold checkBoss. cbv zeta.
  destruct (r_bossSpawn st) as [spawn|] eqn:Hb; [|auto 6].
  destruct (sp_killed spawn); [auto 6|].
  assert (Hsp : let st' := spawnBoss x (numberOr (enemyAggroRangeMult t) 1.0)
                             spawn st in
                r_exit st' = r_exit st /\ r_portals st' = r_portals st /\
                r_player st' = r_player st /\
                r_zoneIndex st' = r_zoneIndex st /\
                (r_world st' = r_world st \/
                 exists (spawn0 : Spawn) (B : Enemy),
                   Some spawn = Some spawn0 /\
                   e_id B = e_id (bossEntity x spawn0) /\
                   r_world st'
                   = setEnemies (w_enemies (r_world st) ++ [B]) (r_world st))).
  { cbv zeta. unfold spawnBoss. cbv zeta. simpl.
    repeat (split; [reflexivity|]). right. eexists spawn, _.
    split; [reflexivity|]. split; [|reflexivity]. reflexivity. }
  cbv zeta in Hsp.
  destruct (_ && _); [exact Hsp|].
  destruct (_ && _); [exact Hsp|auto 6].
Qed.

Lemma find_none_existsb {A : Type} (p : A -> bool) (l : list A) :
  existsb p l = false -> find p l = None.
Proof.
  induction l as [|a l IH]; simpl; [reflexivity|].
  destruct (p a); simpl; [discriminate|exact IH].
Qed.

(** Within its zone, [update] ends after the boss check: nothing is
    loaded, and only [nearPortal] is written. *)
Lemma update_stays (c : WorldCfg) (t : Tuning) (o : SpawnOracle)
    (x : Outside) (camX camY screenW screenH : Q) (st : RunState) :
  staysInZone x st = true ->
  let v := mkView (r_player st) camX camY screenW screenH in
  r_world (update c t o x camX camY screenW screenH st)
  = r_world (checkBoss c t x v
               (setWorld (checkZoneSpawns c t o v (r_world st)) st)).
Proof.
  intros Hstay. cbv zeta. unfold update. cbv zeta.
  set (v := mkView (r_player st) camX camY screenW screenH).
  set (st1 := setWorld (checkZoneSpawns c t o v (r_world st)) st).
  destruct (checkBoss_frame c t x v st1) as (He & Hp & Hpl & _ & _).
  cbv zeta in He, Hp, Hpl. simpl in He, Hp, Hpl.
  unfold staysInZone in Hstay. apply andb_true_iff in Hstay.
  destruct Hstay as [Hexit Hportal].
  apply negb_true_iff in Hexit. apply negb_true_iff in Hportal.
  assert (Hex1 : exitReached (checkBoss c t x v st1) = false).
  { unfold exitReached in *. rewrite He, Hpl. exact Hexit. }
  rewrite Hex1. rewrite Hp, Hpl.
  destruct (interactPressed x) eqn:Hint.
  - simpl in Hportal. rewrite (find_none_existsb _ _ Hportal). reflexivity.
  - simpl. destruct (find _ _); reflexivity.
Qed.

(** C7 (as amended).  In a call of [update] that stays in its zone (the
    player is not within 50 of the exit and uses no portal):
    every entity of [State.enemies] is still there afterwards, unchanged
    or, if it was aggro, set to return, unless it lay within its home
    threshold ([returnThreshold || 60]) of its spawn point, a live
    descriptor outside the despawn window; and the entity of a live,
    active descriptor outside the despawn window that lies beyond its
    home threshold stays, set to return if it was aggro, with its
    descriptor as it was (ids being unique: it is the only entity with
    its id, no other descriptor holds that id and no entity spawned in
    the call takes it).  A call in which the player is within 50 of the
    exit (and presses no interact key) loads the next zone and leaves
    [State.enemies] empty. *)
Theorem despawn_spares_engaged (c : WorldCfg) (t : Tuning)
    (o : SpawnOracle) (x : Outside) (camX camY screenW screenH : Q)
    (st : RunState) :
  let v := mkView (r_player st) camX camY screenW screenH in
  let dm := numberOr (despawnViewMargin t) (defaultDespawnViewMargin c) in
  let st' := update c t o x camX camY screenW screenH st in
  (staysInZone x st = true ->
   removesOnlyAtHome c dm o v (r_world st) (w_enemies (r_world st))
                     (w_enemies (r_world st')) /\
   forall (ref : SpawnRef) (spawn : Spawn) (e : Enemy),
     getSpawn ref (r_world st) = Some spawn ->
     sp_active spawn = true -> sp_killed spawn = false ->
     shouldDespawn c dm v spawn = true ->
     sp_enemyId spawn = Some (e_id e) ->
     filter (fun f => e_id f = e_id e) (w_enemies (r_world st)) = [e] ->
     (forall ref' s', getSpawn ref' (r_world st) = Some s' ->
                      sp_enemyId s' = Some (e_id e) -> ref' = ref) ->
     (forall ref' s', e_id (spawned o ref' s') <> e_id e) ->
     (forall s', e_id (bossEntity x s') <> e_id e) ->
     homeThreshold e < Math_hypot (e_x e - sp_x spawn) (e_y e - sp_y spawn) ->
     filter (fun f => e_id f = e_id e) (w_enemies (r_world st'))
     = [if bool_decide (e_aiState e = Some Aggro)
        then set_aiState (Some Return) e else e] /\
     getSpawn ref (r_world st') = Some spawn) /\
  (exitReached st = true -> interactPressed x = false ->
   w_enemies (r_world st') = []).
Proof.
  cbv zeta.
  set (v := mkView (r_player st) camX camY screenW screenH).
  set (dm := numberOr (despawnViewMargin t) (defaultDespawnViewMargin c)).
  set (st1 := setWorld (checkZoneSpawns c t o v (r_world st)) st).
  destruct (checkBoss_frame c t x v st1) as (He & Hp & Hpl & _ & Hboss).
  cbv zeta in He, Hp, Hpl, Hboss. simpl in He, Hp, Hpl, Hboss.
  split.
  - intros Hstay. rewrite (update_stays c t o x camX camY screenW screenH st
                             Hstay).
    cbv zeta. fold v st1. split.
    + eapply removesOnlyAtHome_more; [apply checkZoneSpawns_removes|].
      intros e He'. destruct Hboss as [->|(spawn & B & _ & _ & ->)];
        [exact He'|]. simpl. apply elem_of_app. left. exact He'.
    + intros ref spawn e Hs Hact Hkilled Hout Hid Hl Huniq Hfresh Hbossid
             Hfar.
      destruct (checkZoneSpawns_entity c t o v ref (r_world st) spawn e
                  Hfresh Huniq Hs Hact Hkilled Hout Hid Hl Hfar)
        as [G1 G2].
      change (if bool_decide (e_aiState e = Some Aggro)
              then set_aiState (Some Return) e else e)
        with (forceReturn e).
      destruct Hboss as [->|(bs & B & _ & HB & ->)]; [split; assumption|].
      split.
      * simpl. rewrite filter_app, G1, filter_cons.
        destruct (decide (e_id B = e_id e)) as [Heq|_]; [|reflexivity].
        exfalso. rewrite HB in Heq. exact (Hbossid _ Heq).
      * rewrite getSpawn_setEnemies. exact G2.
  - intros Hexit Hint. unfold update. cbv zeta. fold v st1.
    assert (Hex1 : exitReached (checkBoss c t x v st1) = true).
    { unfold exitReached in *. rewrite He, Hpl. exact Hexit. }
    rewrite Hex1, Hint.
    assert (Hload : forall b i s0, w_enemies (r_world (loadZone b i s0)) = []).
    { intros [z|] i s0; reflexivity. }
    match goal with
    | |- w_enemies (r_world match r_nearPortal ?s with _ => _ end) = _ =>
        destruct (r_nearPortal s); unfold onExitReached; cbv zeta;
          apply Hload
    end.
Qed.

End DespawnFacts.

(** C7, in [engagedRun]: the descriptor is active and far outside the
    view, its entity is in combat 1000 from home; [update] leaves the
    entity in [State.enemies], in return, and the descriptor active. *)
Lemma despawn_spares_engaged_witness :
  let st' := @World.update refMath World.defaultWorldCfg noTuning
               gruntOracle quietOutside 4600 4700 800 600 engagedRun in
  @staysInZone refMath quietOutside engagedRun = true /\
  e_aiState kitedEnemy = Some Aggro /\
  filter (fun f => e_id f = e_id kitedEnemy)
         (World.w_enemies (World.r_world st'))
  = [set_aiState (Some Return) kitedEnemy] /\
  World.getSpawn (false, 0%nat) (World.r_world st')
  = Some (mkSpawn 0 0 (Some "grunt"%string) (Some "circle"%string)
                  (Some 120%Z) true false None (Some "e_1"%string)).
Proof.
  cbv zeta.
  assert (Hstay : @staysInZone refMath quietOutside engagedRun = true)
    by (vm_compute; reflexivity).
  split; [exact Hstay|]. split; [reflexivity|].
  destruct (@despawn_spares_engaged refMath World.defaultWorldCfg noTuning
              gruntOracle quietOutside 4600 4700 800 600 engagedRun)
    as [Hin _].
  destruct (Hin Hstay) as [_ Hforced].
  apply (Hforced (false, 0%nat) _ kitedEnemy).
  - reflexivity.
  - reflexivity.
  - reflexivity.
  - vm_compute. reflexivity.
  - reflexivity.
  - reflexivity.
  - intros [[|] [|k]] s' Hs' Hid; simpl in Hs'; try discriminate.
    reflexivity.
  - intros ref' s'. simpl. discriminate.
  - intros s'. simpl. discriminate.
  - vm_compute. reflexivity.
Defined.

(** C7, counterexample.  In [atExitRun] the same entity is alive and in
    combat 1000 from home, and the player is 20 from the exit: [update]
    loads the next zone and [State.enemies] is empty afterwards. *)
Lemma zone_change_removes_engaged :
  let st' := @World.update refMath World.defaultWorldCfg noTuning
               gruntOracle quietOutside 5500 (-180) 800 600 atExitRun in
  kitedEnemy ∈ World.w_enemies (World.r_world atExitRun) /\
  e_aiState kitedEnemy = Some Aggro /\ e_dead kitedEnemy = false /\
  World.w_enemies (World.r_world st') = [] /\
  ~ (exists e', e' ∈ World.w_enemies (World.r_world st') /\
                e_id e' = e_id kitedEnemy).
Proof.
  cbv zeta.
  assert (E : World.w_enemies
                (World.r_world
                   (@World.update refMath World.defaultWorldCfg noTuning
                      gruntOracle quietOutside 5500 (-180) 800 600
                      atExitRun)) = [])
    by (vm_compute; reflexivity).
  split; [apply elem_of_cons; left; reflexivity|].
  split; [reflexivity|]. split; [reflexivity|]. split; [exact E|].
  rewrite E. intros (e' & He' & _). inversion He'.
Qed.

(** *** Killed descriptors *)

Section KilledFacts.
Context {M : JSMath}.
Import World.



End KilledFacts.

